(** * Ex certificate parser: extraction engine and confidence scorer

    A shallow embedding of [ExParser.parse] and [ExParser.confidence]
    (the parser that ships with the application script, and the older
    copy kept under js/parser.js), together with the part of the
    ECMAScript regular-expression semantics the two parsers rely on,
    and of the page script around the parser: the text handed to it,
    the certificate card and the CSV export. *)

From Stdlib Require Import Ascii String.
From Stdlib Require Import List NArith ZArith Arith Bool Lia.
From Stdlib Require Import Permutation Sorted.
From Stdlib Require Import DecimalString.
Import ListNotations.

Set Implicit Arguments.

(** ** JavaScript strings

    A JavaScript string is a sequence of UTF-16 code units; [length],
    the regular-expression engine (no [u] flag anywhere in the source)
    and [includes] all work on code units. *)

Definition char := N.
Definition jsstring := list char.

Definition codeUnit (a : ascii) : char := N_of_ascii a.

(** [str] turns an ASCII literal of the source into its code units. *)
Fixpoint str (s : string) : jsstring :=
  match s with
  | EmptyString => []
  | String a s' => codeUnit a :: str s'
  end.

Definition char_eqb (a b : char) : bool := N.eqb a b.

Fixpoint jsstring_eqb (a b : jsstring) : bool :=
  match a, b with
  | [], [] => true
  | x :: a', y :: b' => char_eqb x y && jsstring_eqb a' b'
  | _, _ => false
  end.

Definition between (lo hi c : char) : bool := (N.leb lo c && N.leb c hi)%bool.

Local Open Scope N_scope.

(** WhiteSpace and LineTerminator code points: the set matched by [\s]
    and the set removed by [String.prototype.trim]. *)
Definition isSpace (c : char) : bool :=
  between 9 13 c || char_eqb c 32 || char_eqb c 160 || char_eqb c 5760
  || between 8192 8202 c || char_eqb c 8232 || char_eqb c 8233
  || char_eqb c 8239 || char_eqb c 8287 || char_eqb c 12288
  || char_eqb c 65279.

Definition isLineTerminator (c : char) : bool :=
  char_eqb c 10 || char_eqb c 13 || char_eqb c 8232 || char_eqb c 8233.

Definition isDigit (c : char) : bool := between 48 57 c.
Definition isUpper (c : char) : bool := between 65 90 c.
Definition isLower (c : char) : bool := between 97 122 c.

(** [\w], also the word characters of [\b]. *)
Definition isWordChar (c : char) : bool :=
  isUpper c || isLower c || isDigit c || char_eqb c 95.

(** Case conversion on the ASCII letters.  Every pattern character and
    every vocabulary entry of the parsers is ASCII or caseless (the
    degree sign, the dashes), and the ECMAScript Canonicalize never
    maps a code unit above 127 to one below 128, so on the patterns of
    this file a case-insensitive comparison is decided by the ASCII
    letters alone. *)
Definition upperChar (c : char) : char := if isLower c then c - 32 else c.
Definition lowerChar (c : char) : char := if isUpper c then c + 32 else c.

Local Close Scope N_scope.

Definition toLowerCase (s : jsstring) : jsstring := map lowerChar s.

(** ** Regular expressions *)

Inductive citem : Type :=
| CChar (c : char)            (* a single character *)
| CRange (lo hi : char)       (* lo-hi *)
| CDigit                      (* \d *)
| CSpace                      (* \s *)
| CNonSpace                   (* \S *)
| CWord.                      (* \w *)

Inductive regex : Type :=
| Eps
| Chr (c : char)                                   (* pattern character *)
| Cls (invert : bool) (items : list citem)         (* [...] and [^...] *)
| Dot                                              (* . *)
| Seq (a b : regex)
| Alt (a b : regex)                                (* a|b *)
| Rep (min : nat) (max : option nat) (greedy : bool) (a : regex)
| Grp (n : nat) (a : regex)                        (* n-th capturing group *)
| Ahead (negate : bool) (a : regex)                (* (?=a) and (?!a) *)
| Bol                                              (* ^ *)
| Eol                                              (* $ *)
| Wb.                                              (* \b *)

Record MatchState : Type := mkState {
  prev : option char;              (* the character before endIndex *)
  rest : jsstring;                 (* the input from endIndex on *)
  caps : nat -> option jsstring    (* captures; [None] is undefined *)
}.

Definition Continuation := MatchState -> option MatchState.

Definition item_has (i : citem) (c : char) : bool :=
  match i with
  | CChar a => char_eqb a c
  | CRange lo hi => between lo hi c
  | CDigit => isDigit c
  | CSpace => isSpace c
  | CNonSpace => negb (isSpace c)
  | CWord => isWordChar c
  end.

Definition set_has (items : list citem) (c : char) : bool :=
  existsb (fun i => item_has i c) items.

(** CharacterSetMatcher: some member of the set canonicalizes to the
    same character as the input character. *)
Definition set_matches (ic : bool) (items : list citem) (c : char) : bool :=
  if ic then set_has items c || set_has items (upperChar c) || set_has items (lowerChar c)
  else set_has items c.

Definition chr_matches (ic : bool) (a c : char) : bool :=
  if ic then char_eqb (upperChar a) (upperChar c) else char_eqb a c.

Definition advance (x : MatchState) (c : char) (tl : jsstring) : MatchState :=
  mkState (Some c) tl (caps x).

Definition step (p : char -> bool) (x : MatchState) (k : Continuation) : option MatchState :=
  match rest x with
  | c :: tl => if p c then k (advance x c tl) else None
  | [] => None
  end.

Definition setcap (n : nat) (v : option jsstring) (x : MatchState) : MatchState :=
  mkState (prev x) (rest x) (fun j => if Nat.eqb j n then v else caps x j).

Definition clearcaps (gs : list nat) (x : MatchState) : MatchState :=
  mkState (prev x) (rest x)
          (fun j => if existsb (Nat.eqb j) gs then None else caps x j).

Definition withcaps (x y : MatchState) : MatchState :=
  mkState (prev x) (rest x) (caps y).

Definition consumed (x y : MatchState) : jsstring :=
  firstn (length (rest x) - length (rest y)) (rest x).

Definition isWordOpt (o : option char) : bool :=
  match o with Some c => isWordChar c | None => false end.

Fixpoint groups_of (r : regex) : list nat :=
  match r with
  | Seq a b | Alt a b => groups_of a ++ groups_of b
  | Rep _ _ _ a | Ahead _ a => groups_of a
  | Grp n a => n :: groups_of a
  | _ => []
  end.

Definition pred_max (max : option nat) : option nat := option_map Nat.pred max.

Definition max_is_zero (max : option nat) : bool :=
  match max with Some 0 => true | _ => false end.

(** RepeatMatcher.  Every iteration taken once the minimum is met must
    consume input, so [min] plus the number of remaining characters
    bounds the number of iterations; [fuel] is started above that bound
    (see [repeatMatcher_fuel] below). *)
Fixpoint repeatMatcher (fuel : nat) (ma : MatchState -> Continuation -> option MatchState)
         (min : nat) (max : option nat) (greedy : bool) (gs : list nat)
         (x : MatchState) (k : Continuation) {struct fuel} : option MatchState :=
  if max_is_zero max then k x else
  match fuel with
  | O => None
  | S fuel' =>
      let d : Continuation := fun y =>
        if Nat.eqb min 0 && Nat.eqb (length (rest y)) (length (rest x)) then None
        else repeatMatcher fuel' ma (Nat.pred min) (pred_max max) greedy gs y k in
      let xr := clearcaps gs x in
      if negb (Nat.eqb min 0) then ma xr d
      else if greedy then
        match ma xr d with Some z => Some z | None => k x end
      else
        match k x with Some z => Some z | None => ma xr d end
  end.

(** The matcher of a pattern, in continuation-passing style as in the
    language definition: [m ic r x k] matches [r] at state [x] and
    hands every candidate end state to [k], backtracking on failure. *)
Fixpoint m (ic : bool) (r : regex) (x : MatchState) (k : Continuation)
  {struct r} : option MatchState :=
  match r with
  | Eps => k x
  | Chr a => step (chr_matches ic a) x k
  | Cls inv items => step (fun c => xorb inv (set_matches ic items c)) x k
  | Dot => step (fun c => negb (isLineTerminator c)) x k
  | Seq a b => m ic a x (fun y => m ic b y k)
  | Alt a b => match m ic a x k with Some z => Some z | None => m ic b x k end
  | Rep min max greedy a =>
      repeatMatcher (S (min + length (rest x))) (m ic a) min max greedy (groups_of a) x k
  | Grp n a => m ic a x (fun y => k (setcap n (Some (consumed x y)) y))
  | Ahead false a =>
      match m ic a x Some with Some y => k (withcaps x y) | None => None end
  | Ahead true a =>
      match m ic a x Some with Some _ => None | None => k x end
  | Bol => match prev x with None => k x | Some _ => None end
  | Eol => match rest x with [] => k x | _ :: _ => None end
  | Wb => if xorb (isWordOpt (prev x)) (isWordOpt (hd_error (rest x))) then k x else None
  end.

(** A regular expression object: pattern and the [i] flag.  The [g]
    flag only matters to [String.prototype.match], modelled by [matchAll]. *)
Record RegExp : Type := mkRegExp { pattern : regex; ignoreCase : bool }.

Record MatchResult : Type := mkResult {
  index : nat;
  matched : jsstring;                 (* m[0] *)
  groups : nat -> option jsstring     (* m[1], m[2], ... *)
}.

Definition initial (p : option char) (s : jsstring) : MatchState :=
  mkState p s (fun _ => None).

Definition matchAt (re : RegExp) (p : option char) (s : jsstring) : option MatchState :=
  m (ignoreCase re) (pattern re) (initial p s) Some.

(** [execFrom re p s i]: leftmost match in [s], the input from index
    [i] on, [p] being the character before it. *)
Fixpoint execFrom (re : RegExp) (p : option char) (s : jsstring) (i : nat)
  : option MatchResult :=
  match matchAt re p s with
  | Some y => Some (mkResult i (firstn (length s - length (rest y)) s) (caps y))
  | None =>
      match s with
      | [] => None
      | c :: tl => execFrom re (Some c) tl (S i)
      end
  end.

(** [str.match(re)] for a pattern without the [g] flag. *)
Definition exec (re : RegExp) (s : jsstring) : option MatchResult := execFrom re None s 0.

(** [re.test(str)]. *)
Definition test (re : RegExp) (s : jsstring) : bool :=
  match exec re s with Some _ => true | None => false end.

(** [str.match(re)] for a pattern with the [g] flag: all the matched
    substrings, from left to right; [skip] counts the characters still
    covered by the previous match.  The source's [null] (no match) is the
    empty list. *)
Fixpoint matchAllFrom (re : RegExp) (p : option char) (s : jsstring) (skip : nat)
  : list jsstring :=
  match skip with
  | S skip' =>
      match s with
      | [] => []
      | c :: tl => matchAllFrom re (Some c) tl skip'
      end
  | O =>
      match matchAt re p s with
      | Some y =>
          let n := length s - length (rest y) in
          firstn n s ::
            match s with
            | [] => []
            | c :: tl => matchAllFrom re (Some c) tl (Nat.pred n)
            end
      | None =>
          match s with
          | [] => []
          | c :: tl => matchAllFrom re (Some c) tl 0
          end
      end
  end.

Definition matchAll (re : RegExp) (s : jsstring) : list jsstring := matchAllFrom re None s 0.

(** ** What a pattern can hand to its continuation

    [Reach ic r x y]: started in state [x], the pattern [r] may call its
    continuation with state [y].  The relation forgets the order in
    which the matcher tries the candidates (and the condition of a
    negative lookahead); every state the matcher does pass on is in it
    ([m_sound] below). *)

Inductive Reach (ic : bool) : regex -> MatchState -> MatchState -> Prop :=
| R_eps x : Reach ic Eps x x
| R_chr a x c tl :
    rest x = c :: tl -> chr_matches ic a c = true ->
    Reach ic (Chr a) x (advance x c tl)
| R_cls inv items x c tl :
    rest x = c :: tl -> xorb inv (set_matches ic items c) = true ->
    Reach ic (Cls inv items) x (advance x c tl)
| R_dot x c tl :
    rest x = c :: tl -> isLineTerminator c = false ->
    Reach ic Dot x (advance x c tl)
| R_seq a b x y z : Reach ic a x y -> Reach ic b y z -> Reach ic (Seq a b) x z
| R_alt_l a b x y : Reach ic a x y -> Reach ic (Alt a b) x y
| R_alt_r a b x y : Reach ic b x y -> Reach ic (Alt a b) x y
| R_rep_stop max g a x : Reach ic (Rep 0 max g a) x x
| R_rep_zero min g a x : Reach ic (Rep min (Some 0) g a) x x
| R_rep_step min max g a x y z :
    max_is_zero max = false ->
    Reach ic a (clearcaps (groups_of a) x) y ->
    Reach ic (Rep (Nat.pred min) (pred_max max) g a) y z ->
    Reach ic (Rep min max g a) x z
| R_grp n a x y :
    Reach ic a x y -> Reach ic (Grp n a) x (setcap n (Some (consumed x y)) y)
| R_ahead a x y : Reach ic a x y -> Reach ic (Ahead false a) x (withcaps x y)
| R_nahead a x : Reach ic (Ahead true a) x x
| R_bol x : prev x = None -> Reach ic Bol x x
| R_eol x : rest x = [] -> Reach ic Eol x x
| R_wb x :
    xorb (isWordOpt (prev x)) (isWordOpt (hd_error (rest x))) = true ->
    Reach ic Wb x x.

(** *** Static checks on patterns *)

Definition mentions (n : nat) (r : regex) : bool := existsb (Nat.eqb n) (groups_of r).

(** [sets n r]: every match of [r] leaves capture [n] defined. *)
Fixpoint sets (n : nat) (r : regex) : bool :=
  match r with
  | Seq a b => (sets n a && negb (mentions n b)) || sets n b
  | Alt a b => sets n a && sets n b
  | Grp j a => Nat.eqb n j || sets n a
  | _ => false
  end.

Definition item_solid (i : citem) : bool :=
  match i with
  | CChar a => negb (isSpace a)
  | CRange lo hi => N.ltb 32 lo && N.ltb hi 160
  | CDigit | CWord | CNonSpace => true
  | CSpace => false
  end.

(** How the matches of a pattern start.  The first component says that
    every match consumes input and starts with a character that is not
    white space; the second that every match does so or consumes
    nothing. *)
Fixpoint starts (r : regex) : bool * bool :=
  match r with
  | Eps | Bol | Eol | Wb | Ahead _ _ => (false, true)
  | Chr a => (negb (isSpace a), negb (isSpace a))
  | Cls false items => (forallb item_solid items, forallb item_solid items)
  | Seq a b =>
      (fst (starts a) || (snd (starts a) && fst (starts b)),
       fst (starts a) || (snd (starts a) && snd (starts b)))
  | Alt a b => (fst (starts a) && fst (starts b), snd (starts a) && snd (starts b))
  | Rep min max _ a =>
      (negb (Nat.eqb min 0) && negb (max_is_zero max) && fst (starts a), snd (starts a))
  | Grp _ a => starts a
  | _ => (false, false)
  end.

(** [solid r]: every match of [r] consumes input and starts with a
    character that is not white space. *)
Definition solid (r : regex) : bool := fst (starts r).

Definition addWidth (a b : option nat) : option nat :=
  match a, b with
  | Some x, Some y => Some (x + y)
  | _, _ => None
  end.

Definition maxOfWidths (a b : option nat) : option nat :=
  match a, b with
  | Some x, Some y => Some (Nat.max x y)
  | _, _ => None
  end.

(** [maxWidth r]: a bound on the number of characters [r] consumes. *)
Fixpoint maxWidth (r : regex) : option nat :=
  match r with
  | Eps | Bol | Eol | Wb | Ahead _ _ => Some 0
  | Chr _ | Cls _ _ | Dot => Some 1
  | Seq a b => addWidth (maxWidth a) (maxWidth b)
  | Alt a b => maxOfWidths (maxWidth a) (maxWidth b)
  | Rep _ (Some mx) _ a => option_map (Nat.mul mx) (maxWidth a)
  | Rep _ None _ _ => None
  | Grp _ a => maxWidth a
  end.

(** [capAll n chk r]: every group numbered [n] in [r] encloses a
    pattern that passes [chk]. *)
Fixpoint capAll (n : nat) (chk : regex -> bool) (r : regex) : bool :=
  match r with
  | Seq a b | Alt a b => capAll n chk a && capAll n chk b
  | Rep _ _ _ a | Ahead _ a => capAll n chk a
  | Grp j a => (negb (Nat.eqb n j) || chk a) && capAll n chk a
  | _ => true
  end.

Definition narrow (w : nat) (a : regex) : bool :=
  match maxWidth a with
  | Some wa => Nat.leb wa w
  | None => false
  end.

(** [capWidth n w r]: group [n] of [r] captures at most [w] characters. *)
Definition capWidth (n w : nat) (r : regex) : bool := capAll n (narrow w) r.

(** How the matches of a pattern end, as [starts] for their last
    character. *)
Fixpoint ends (r : regex) : bool * bool :=
  match r with
  | Eps | Bol | Eol | Wb | Ahead _ _ => (false, true)
  | Chr a => (negb (isSpace a), negb (isSpace a))
  | Cls false items => (forallb item_solid items, forallb item_solid items)
  | Seq a b =>
      (fst (ends b) || (snd (ends b) && fst (ends a)),
       fst (ends b) || (snd (ends b) && snd (ends a)))
  | Alt a b => (fst (ends a) && fst (ends b), snd (ends a) && snd (ends b))
  | Rep min max _ a =>
      (negb (Nat.eqb min 0) && negb (max_is_zero max) && fst (ends a) && snd (ends a),
       snd (ends a))
  | Grp _ a => ends a
  | _ => (false, false)
  end.

(** [solidEnd r]: every match of [r] consumes input and ends with a
    character that is not white space. *)
Definition solidEnd (r : regex) : bool := fst (ends r).

Definition allSet (n : nat) (pats : list RegExp) : bool :=
  forallb (fun pat => sets n (pattern pat)) pats.

(** ** Pattern notation

    Combinators that keep the transcription of a pattern close to its
    source text.  Where a pattern is quoted in a comment, a star that is
    followed by a closing parenthesis in the source is written with a
    space in between. *)

Definition chr (a : ascii) : regex := Chr (codeUnit a).

Definition lit (s : string) : regex :=
  fold_right (fun c r => Seq (Chr c) r) Eps (str s).

Definition seq (rs : list regex) : regex := fold_right Seq Eps rs.

(** [a|b|c] is [Alt a (Alt b c)]. *)
Fixpoint alt (rs : list regex) : regex :=
  match rs with
  | [] => Eps
  | [r] => r
  | r :: more => Alt r (alt more)
  end.

Definition one (a : ascii) : citem := CChar (codeUnit a).
Definition rng (a b : ascii) : citem := CRange (codeUnit a) (codeUnit b).
Definition cls (items : list citem) : regex := Cls false items.
Definition ncls (items : list citem) : regex := Cls true items.

Definition star (r : regex) : regex := Rep 0 None true r.
Definition plus (r : regex) : regex := Rep 1 None true r.
Definition opt (r : regex) : regex := Rep 0 (Some 1) true r.
Definition times (lo hi : nat) (r : regex) : regex := Rep lo (Some hi) true r.
Definition atLeast (lo : nat) (r : regex) : regex := Rep lo None true r.
Definition lazyStar (r : regex) : regex := Rep 0 None false r.
Definition lazyTimes (lo hi : nat) (r : regex) : regex := Rep lo (Some hi) false r.

Definition ws : regex := cls [CSpace].                    (* \s *)
Definition digit : regex := cls [CDigit].                 (* \d *)
Definition word : regex := cls [CWord].                   (* \w *)
Definition upper : regex := cls [rng "A" "Z"].            (* [A-Z] *)
Definition nl : regex := Chr 10%N.                        (* \n *)
Definition notNl : regex := ncls [CChar 10%N].            (* [^\n] *)
Definition colonWs : regex := cls [one ":"; CSpace].      (* [:\s] *)
Definition degree : regex := Chr 176%N.                   (* the degree sign *)

Definition re (r : list regex) : RegExp := mkRegExp (seq r) false.
Definition rei (r : list regex) : RegExp := mkRegExp (seq r) true.

(** ** String operations used by the parsers *)

Fixpoint trimStart (s : jsstring) : jsstring :=
  match s with
  | c :: tl => if isSpace c then trimStart tl else s
  | [] => []
  end.

Definition trimEnd (s : jsstring) : jsstring := rev (trimStart (rev s)).

(** [s.trim()] *)
Definition trim (s : jsstring) : jsstring := trimEnd (trimStart s).

(** [s.replace(re, by)] for a pattern without the [g] flag; [by] has
    no [$]. *)
Definition replace (re : RegExp) (by_ : jsstring) (s : jsstring) : jsstring :=
  match exec re s with
  | Some m => firstn (index m) s ++ by_ ++ skipn (index m + length (matched m)) s
  | None => s
  end.

(** [s.replace(re, by)] for a pattern with the [g] flag: every match,
    from left to right, gives way to [by]; after an empty match the
    search moves on by one character. *)
Fixpoint replaceAllFrom (re : RegExp) (by_ : jsstring) (p : option char) (s : jsstring)
         (skip : nat) : jsstring :=
  match skip with
  | S skip' =>
      match s with
      | [] => []
      | c :: tl => replaceAllFrom re by_ (Some c) tl skip'
      end
  | O =>
      match matchAt re p s with
      | Some y =>
          let n := length s - length (rest y) in
          by_ ++
          match s with
          | [] => []
          | c :: tl =>
              (if Nat.eqb n 0 then [c] else []) ++ replaceAllFrom re by_ (Some c) tl (Nat.pred n)
          end
      | None =>
          match s with
          | [] => []
          | c :: tl => c :: replaceAllFrom re by_ (Some c) tl 0
          end
      end
  end.

Definition replaceAll (re : RegExp) (by_ : jsstring) (s : jsstring) : jsstring :=
  replaceAllFrom re by_ None s 0.

(** [s.split(re)] for a separator without capturing groups.  [cur]
    holds, reversed, the piece collected since the last separator; a
    separator match splits unless it is empty and the piece is too. *)
Fixpoint splitLoop (re : RegExp) (cur : jsstring) (p : option char) (s : jsstring)
         (skip : nat) : list jsstring :=
  match s with
  | [] => [rev cur]
  | c :: tl =>
      match skip with
      | S skip' => splitLoop re [] (Some c) tl skip'
      | O =>
          match matchAt re p s with
          | Some y =>
              let n := length s - length (rest y) in
              if Nat.eqb n 0 then
                match cur with
                | [] => splitLoop re [c] (Some c) tl 0
                | _ :: _ => rev cur :: splitLoop re [c] (Some c) tl 0
                end
              else rev cur :: splitLoop re [] (Some c) tl (Nat.pred n)
          | None => splitLoop re (c :: cur) (Some c) tl 0
          end
      end
  end.

Definition split (re : RegExp) (s : jsstring) : list jsstring :=
  match s with
  | [] => match matchAt re None [] with Some _ => [] | None => [[]] end
  | _ :: _ => splitLoop re [] None s 0
  end.

(** /\s+/g and /\s+/ *)
Definition re_spaces : RegExp := re [plus ws].

(** [s.replace(/\s+/g, ' ')] *)
Definition collapseSpaces (s : jsstring) : jsstring := replaceAll re_spaces (str " ") s.

(** [s.replace(/\s+/g, '')] *)
Definition removeSpaces (s : jsstring) : jsstring := replaceAll re_spaces [] s.

(** [s.split(/\s+/)] *)
Definition splitSpaces (s : jsstring) : list jsstring := split re_spaces s.

(** /[,\s]+$/ *)
Definition re_tail : RegExp := re [plus (cls [one ","; CSpace]); Eol].

(** [s.replace(/[,\s]+$/, '')] *)
Definition stripTail (s : jsstring) : jsstring := replace re_tail [] s.

(** /^Group\s+/i *)
Definition re_groupPrefix : RegExp := rei [Bol; lit "Group"; plus ws].

(** [s.replace(/^Group\s+/i, '')] *)
Definition stripGroupPrefix (s : jsstring) : jsstring := replace re_groupPrefix [] s.

(** /[abc]$/ and /[abcrs]$/ *)
Definition re_level : RegExp := re [cls [one "a"; one "b"; one "c"]; Eol].
Definition re_levelRS : RegExp :=
  re [cls [one "a"; one "b"; one "c"; one "r"; one "s"]; Eol].

Fixpoint startsWith (p s : jsstring) : bool :=
  match p, s with
  | [], _ => true
  | a :: p', b :: s' => char_eqb a b && startsWith p' s'
  | _ :: _, [] => false
  end.

(** [s.endsWith(p)] *)
Definition endsWith (s p : jsstring) : bool := startsWith (rev p) (rev s).

(** [s.includes(p)] *)
Fixpoint includes (s p : jsstring) : bool :=
  startsWith p s ||
  match s with
  | [] => false
  | _ :: tl => includes tl p
  end.

Definition memStr (x : jsstring) (l : list jsstring) : bool :=
  existsb (jsstring_eqb x) l.

(** [[...new Set(l)]]: first occurrences, in order. *)
Definition addNew (acc : list jsstring) (x : jsstring) : list jsstring :=
  if memStr x acc then acc else acc ++ [x].

Definition distinct (l : list jsstring) : list jsstring := fold_left addNew l [].

(** [l.join(sep)] *)
Fixpoint join (sep : jsstring) (l : list jsstring) : jsstring :=
  match l with
  | [] => []
  | [x] => x
  | x :: more => x ++ sep ++ join sep more
  end.

(** [l.sort(cmp)], a stable sort; [le a b] stands for [cmp(a, b) <= 0]. *)
Fixpoint insertBy (le : jsstring -> jsstring -> bool) (x : jsstring) (l : list jsstring)
  : list jsstring :=
  match l with
  | [] => [x]
  | y :: tl => if le x y then x :: l else y :: insertBy le x tl
  end.

Definition sortBy (le : jsstring -> jsstring -> bool) (l : list jsstring) : list jsstring :=
  fold_right (insertBy le) [] l.

(** The comparator [(a, b) => b.length - a.length]. *)
Definition longerFirst (a b : jsstring) : bool := Nat.leb (length b) (length a).

(** The order the sort establishes, and the position of one element
    ahead of another. *)
Definition noShorterFirst (a b : jsstring) : Prop := length b <= length a.

(** [before a b l]: [a] occurs in [l] ahead of an occurrence of [b]. *)
Definition before (a b : jsstring) (l : list jsstring) : Prop :=
  exists l1 l2 l3, l = l1 ++ a :: l2 ++ b :: l3.

(** JavaScript truthiness of a string-or-null value. *)
Definition truthy (v : option jsstring) : bool :=
  match v with
  | Some (_ :: _) => true
  | _ => false
  end.

(** [v || ''] *)
Definition orEmpty (v : option jsstring) : jsstring :=
  match v with
  | Some s => s
  | None => []
  end.

(** [a || b] and [a || null] *)
Definition orElse (a b : option jsstring) : option jsstring :=
  if truthy a then a else b.

Definition orNull (a : option jsstring) : option jsstring := orElse a None.

(** [TABLE[key]] for an object literal used as a table; [None] is
    undefined. *)
Fixpoint lookup (table : list (jsstring * jsstring)) (key : jsstring) : option jsstring :=
  match table with
  | [] => None
  | (k, v) :: more => if jsstring_eqb k key then Some v else lookup more key
  end.

(** ** Abnormal completion

    Reading a capture that did not take part in the match yields
    [undefined]; the source then either calls a method on it (a
    TypeError) or stores it or its text "undefined" in the record.
    Both count as [TypeError] here. *)

Inductive outcome (A : Type) : Type :=
| Ok (a : A)
| TypeError.

Arguments Ok {A} a.
Arguments TypeError {A}.

Definition bind {A B : Type} (c : outcome A) (f : A -> outcome B) : outcome B :=
  match c with
  | Ok a => f a
  | TypeError => TypeError
  end.

Notation "x <- c ;; k" := (bind c (fun x => k))
  (at level 61, c at next level, right associativity).

(** [m[n]] *)
Definition capture (r : MatchResult) (n : nat) : outcome jsstring :=
  match groups r n with
  | Some s => Ok s
  | None => TypeError
  end.

(** ** Domain tables (the same in both parser files) *)

Definition PROTECTION_TYPES : list (jsstring * jsstring) :=
  [ (str "d", str "Flameproof enclosure");
    (str "e", str "Increased safety");
    (str "i", str "Intrinsic safety");
    (str "p", str "Pressurized enclosure");
    (str "o", str "Oil immersion");
    (str "q", str "Powder/sand filling");
    (str "n", str "Non-sparking");
    (str "m", str "Encapsulation");
    (str "t", str "Protection by enclosure");
    (str "s", str "Special protection");
    (str "op", str "Optical radiation");
    (str "h", str "Non-incendive") ].

Definition GAS_GROUP_INFO : list (jsstring * jsstring) :=
  [ (str "IIC", str "Hydrogen, acetylene (most stringent)");
    (str "IIB", str "Ethylene");
    (str "IIA", str "Propane (least stringent)");
    (str "I", str "Mining (methane)");
    (str "IIIA", str "Combustible flyings");
    (str "IIIB", str "Non-conductive dust");
    (str "IIIC", str "Conductive dust (most stringent)") ].

Definition celsius (n : string) : jsstring := str n ++ [176%N] ++ str "C".

Definition TEMP_CLASS_INFO : list (jsstring * jsstring) :=
  [ (str "T1", celsius "450"); (str "T2", celsius "300"); (str "T3", celsius "200");
    (str "T4", celsius "135"); (str "T5", celsius "100"); (str "T6", celsius "85") ].

Definition eplZoneMap : list (jsstring * jsstring) :=
  [ (str "Ga", str "0"); (str "Gb", str "1"); (str "Gc", str "2");
    (str "Da", str "20"); (str "Db", str "21"); (str "Dc", str "22");
    (str "Ma", str "M1"); (str "Mb", str "M2") ].

(** One entry of [protectionTypes]. *)
Record ProtectionType : Type := mkProtection {
  code : jsstring;
  baseType : jsstring;
  level : option jsstring;
  description : jsstring
}.

(** ** Patterns shared by both parser files *)

Definition ABC : regex := cls [one "A"; one "B"; one "C"].       (* [ABC] *)
Definition abc : regex := cls [one "a"; one "b"; one "c"].       (* [abc] *)
Definition GDM : regex := cls [one "G"; one "D"; one "M"].       (* [GDM] *)
Definition d16 : regex := cls [rng "1" "6"].                     (* [1-6] *)
Definition d13 : regex := cls [rng "1" "3"].                     (* [1-3] *)
Definition protLetters : regex :=                                (* [deimopqstnabrh] *)
  cls [one "d"; one "e"; one "i"; one "m"; one "o"; one "p"; one "q";
       one "s"; one "t"; one "n"; one "a"; one "b"; one "r"; one "h"].

(** /IECEx\s+[A-Z]{2,5}\s+\d{2}\.\d{3,5}[A-Z]?(?:\/\d+\.\d+)?/i *)
Definition re_iecex : RegExp :=
  rei [lit "IECEx"; plus ws; times 2 5 upper; plus ws; times 2 2 digit; chr ".";
       times 3 5 digit; opt upper;
       opt (seq [chr "/"; plus digit; chr "."; plus digit])].

(** /UKCA\s+[A-Z0-9\-.\/]+/i *)
Definition re_ukca : RegExp :=
  rei [lit "UKCA"; plus ws;
       plus (cls [rng "A" "Z"; rng "0" "9"; one "-"; one "."; one "/"])].

(** III[ABC]|II[ABC](?:\+H2)? *)
Definition gasII_III : list regex :=
  [seq [lit "III"; ABC]; seq [lit "II"; ABC; opt (lit "+H2")]].

(** /\b(III[ABC]|II[ABC](?:\+H2)?|Group\s+I(?:I[ABC]?)?)\b/ *)
Definition re_gasText : RegExp :=
  re [Wb;
      Grp 1 (alt (gasII_III ++
                  [seq [lit "Group"; plus ws; chr "I"; opt (seq [chr "I"; opt ABC])]]));
      Wb].

(** /\bT([1-6])\b/ *)
Definition re_temp : RegExp := re [Wb; chr "T"; Grp 1 d16; Wb].

(** /\b([GDM][abc])\b/ *)
Definition re_epl : RegExp := re [Wb; Grp 1 (seq [GDM; abc]); Wb].

(** /Zone\s+(\d{1,2})/i *)
Definition re_zone : RegExp := rei [lit "Zone"; plus ws; Grp 1 (times 1 2 digit)].

(** /\bIP\s*([0-9X]{2}[A-Z]?)\b/i *)
Definition re_ip : RegExp :=
  rei [Wb; lit "IP"; star ws;
       Grp 1 (seq [times 2 2 (cls [rng "0" "9"; one "X"]); opt upper]); Wb].

(** /(-\d+)\s*°?\s*C?\s*(to|\.{2,3}|–|—|-)\s*\+?(\d+)\s*°?\s*C/i *)
Definition re_ambient : RegExp :=
  rei [Grp 1 (seq [chr "-"; plus digit]); star ws; opt degree; star ws; opt (chr "C");
       star ws;
       Grp 2 (alt [lit "to"; times 2 3 (chr "."); Chr 8211%N; Chr 8212%N; chr "-"]);
       star ws; opt (chr "+"); Grp 3 (plus digit); star ws; opt degree; star ws; chr "C"].

(** \d{1,2}[\s./-]\w{3,9}[\s./-]\d{4} *)
Definition dateSep : regex := cls [CSpace; one "."; one "/"; one "-"].
Definition dateWords : regex :=
  seq [times 1 2 digit; dateSep; times 3 9 word; dateSep; times 4 4 digit].

(** \d{4}[-/]\d{2}[-/]\d{2} *)
Definition dateIso : regex :=
  seq [times 4 4 digit; cls [one "-"; one "/"]; times 2 2 digit;
       cls [one "-"; one "/"]; times 2 2 digit].

(** /Special\s+[Cc]onditions?\s*(?:for\s+(?:safe\s+)?use)?[:\s]+([\s\S]{10,500}?)(?=\n\s*\n|\n[A-Z]{2,}|\n\d+\.\s|$)/i *)
Definition re_special : RegExp :=
  rei [lit "Special"; plus ws; cls [one "C"; one "c"]; lit "ondition"; opt (chr "s");
       star ws;
       opt (seq [lit "for"; plus ws; opt (seq [lit "safe"; plus ws]); lit "use"]);
       plus colonWs;
       Grp 1 (lazyTimes 10 500 (cls [CSpace; CNonSpace]));
       Ahead false (alt [seq [nl; star ws; nl];
                         seq [nl; atLeast 2 upper];
                         seq [nl; plus digit; chr "."; ws];
                         Eol])].

(** /\bII\s+([1-3])\s+[GDM]\b/ *)
Definition re_categoryMark : RegExp :=
  re [Wb; lit "II"; plus ws; Grp 1 d13; plus ws; GDM; Wb].

(** /\bCategory\s+([1-3][GDM]?)\b/i *)
Definition re_categoryLabel : RegExp :=
  rei [Wb; lit "Category"; plus ws; Grp 1 (seq [d13; opt GDM]); Wb].

(** /Equipment\s+[Gg]roup\s+(I{1,3})/ *)
Definition re_group : RegExp :=
  re [lit "Equipment"; plus ws; cls [one "G"; one "g"]; lit "roup"; plus ws;
      Grp 1 (times 1 3 (chr "I"))].

(** The label patterns [Label[:\s]+(capture)] and [Label[:\s]*\n\s*(capture)]. *)
Definition sameLine (label : list regex) (value : regex) : RegExp :=
  rei (label ++ [plus colonWs; Grp 1 value]).

Definition nextLine (label : list regex) (value : regex) : RegExp :=
  rei (label ++ [star colonWs; nl; star ws; Grp 1 value]).

(** ** The parser of the application (second part of src/unnamed/part_000) *)

Module ExParser.

Definition CERT_BODIES : list jsstring :=
  [ str "BASEEFA"; str "SIRA"; str "DEKRA"; str "PTB"; str "INERIS"; str "CESI"; str "LCIE";
    str "UL"; str "FM"; str "CSA Group"; str "CSA"; str "T" ++ [220%N] ++ str "V"; str "TUV";
    str "SGS"; str "ZELM"; str "FTZU";
    str "NEMKO"; str "DEMKO"; str "KEMA"; str "BVS"; str "IBExU"; str "CERCHAR";
    str "SIMTARS"; str "MSHA"; str "ITS"; str "Intertek"; str "Bureau Veritas";
    str "CML"; str "Eurofins"; str "Presafe"; str "Fiditas"; str "FIDITAS";
    str "ExVeritas"; str "SGS-CSTC"; str "CQM"; str "PCEC"; str "NEPSI"; str "TIIS";
    str "KOSHA"; str "KTL"; str "PESO"; str "CCOE"; str "DNV GL"; str "DNV";
    str "EXAM"; str "Element"; str "TestSafe";
    str "Physikalisch-Technische Bundesanstalt" ].

Definition VALID_PROT_CODES : list jsstring :=
  map str
    [ "d"; "da"; "db"; "dc"; "e"; "ea"; "eb"; "ec"; "i"; "ia"; "ib"; "ic";
      "p"; "pa"; "pb"; "pc"; "px"; "py"; "pz"; "o"; "ob"; "oc"; "q"; "qa"; "qb";
      "n"; "na"; "nc"; "nr"; "nl"; "m"; "ma"; "mb"; "mc";
      "t"; "ta"; "tb"; "tc"; "s"; "h"; "op" ]%string.

Record CertificateRecord : Type := mkRecord {
  certNumber : option jsstring;
  certType : option jsstring;
  marking : option jsstring;
  markings : list jsstring;
  protectionTypes : list ProtectionType;
  gasGroup : option jsstring;
  gasGroupInfo : option jsstring;
  tempClass : option jsstring;
  tempClassMax : option jsstring;
  epl : option jsstring;
  zone : option jsstring;
  ipRating : option jsstring;
  ambientTemp : option jsstring;
  manufacturer : option jsstring;
  equipment : option jsstring;
  notifiedBody : option jsstring;
  issueDate : option jsstring;
  expiryDate : option jsstring;
  specialConditions : option jsstring;
  standard : option jsstring;
  category : option jsstring;
  group : option jsstring;
  raw : jsstring
}.

(** *** Certificate number *)

(** /[A-Z]{2,10}\s*\d{2}\s*ATEX\s*\d{3,5}\s*[XU]?(?:\s*\/\s*V?\d[\w]* )?/i *)
Definition re_atex : RegExp :=
  rei [times 2 10 upper; star ws; times 2 2 digit; star ws; lit "ATEX"; star ws;
       times 3 5 digit; star ws; opt (cls [one "X"; one "U"]);
       opt (seq [star ws; chr "/"; star ws; opt (chr "V"); digit; star (cls [CWord])])].

(** /\d{2}\s*ATEX\s*\d{3,5}/i *)
Definition re_atexAlso : RegExp :=
  rei [times 2 2 digit; star ws; lit "ATEX"; star ws; times 3 5 digit].

Definition IECEx : jsstring := str "IECEx".
Definition ATEX : jsstring := str "ATEX".
Definition UKCA : jsstring := str "UKCA".
Definition IECEx_ATEX : jsstring := str "IECEx + ATEX".

Definition eqOpt (v : option jsstring) (s : jsstring) : bool :=       (* v === s *)
  match v with
  | Some a => jsstring_eqb a s
  | None => false
  end.

(** The pair [(certNumber, certType)] after each of the four blocks. *)
Definition certIecex (t : jsstring) : option jsstring * option jsstring :=
  match exec re_iecex t with
  | Some iecex => (Some (trim (collapseSpaces (matched iecex))), Some IECEx)
  | None => (None, None)
  end.

Definition certAtex (t : jsstring) (c : option jsstring * option jsstring)
  : option jsstring * option jsstring :=
  if negb (truthy (fst c)) then
    match exec re_atex t with
    | Some atex => (Some (trim (removeSpaces (matched atex))), Some ATEX)
    | None => c
    end
  else c.

Definition certUkca (t : jsstring) (c : option jsstring * option jsstring)
  : option jsstring * option jsstring :=
  if negb (truthy (fst c)) then
    match exec re_ukca t with
    | Some ukca => (Some (trim (matched ukca)), Some UKCA)
    | None => c
    end
  else c.

Definition certDual (t : jsstring) (c : option jsstring * option jsstring)
  : option jsstring * option jsstring :=
  if eqOpt (snd c) IECEx then
    match exec re_atexAlso t with
    | Some _ => (fst c, Some IECEx_ATEX)
    | None => c
    end
  else c.

Definition certificate (t : jsstring) : option jsstring * option jsstring :=
  certDual t (certUkca t (certAtex t (certIecex t))).

(** *** Ex marking *)

(** \bEx\s+(?:[deimopqstnabrh]{1,4}\s+)+ *)
Definition exCodes : list regex :=
  [Wb; lit "Ex"; plus ws; plus (seq [times 1 4 protLetters; plus ws])].

(** (?:\[[a-z]{1,4}\]\s+)? *)
Definition bracketed : regex :=
  opt (seq [chr "["; times 1 4 (cls [rng "a" "z"]); chr "]"; plus ws]).

(** T[1-6](?:\/T[1-6])* *)
Definition tempClasses : list regex :=
  [chr "T"; d16; star (seq [lit "/T"; d16])].

Definition markingPatterns : list RegExp :=
  [ (* /\bEx\s+(?:[deimopqstnabrh]{1,4}\s+)+(?:\[[a-z]{1,4}\]\s+)?I{1,3}[ABC]*(?:\+H2)?\s+T[1-6](?:\/T[1-6])*\s*[GDM][abc](?:\/[GDM][abc])*/gi *)
    rei (exCodes ++ [bracketed; times 1 3 (chr "I"); star ABC; opt (lit "+H2"); plus ws]
         ++ tempClasses ++ [star ws; GDM; abc; star (seq [chr "/"; GDM; abc])]);
    (* /\bEx\s+(?:[deimopqstnabrh]{1,4}\s+)+I\s+M[ab]/gi *)
    rei (exCodes ++ [chr "I"; plus ws; chr "M"; cls [one "a"; one "b"]]);
    (* /\bEx\s+(?:[deimopqstnabrh]{1,4}\s+)+I{2,3}[ABC]*\s+T\d+°?\s*C\s*[GDM][abc]/gi *)
    rei (exCodes ++ [times 2 3 (chr "I"); star ABC; plus ws; chr "T"; plus digit;
                     opt degree; star ws; chr "C"; star ws; GDM; abc]);
    (* /\bEx\s+(?:[deimopqstnabrh]{1,4}\s+)+(?:\[[a-z]{1,4}\]\s+)?I{1,3}[ABC]*(?:\+H2)?\s+T[1-6](?:\/T[1-6])*/gi *)
    rei (exCodes ++ [bracketed; times 1 3 (chr "I"); star ABC; opt (lit "+H2"); plus ws]
         ++ tempClasses);
    (* /\bEx\s+(?:[deimopqstnabrh]{1,4}\s+)+I{1,3}[ABC]*/gi *)
    rei (exCodes ++ [times 1 3 (chr "I"); star ABC]) ].

(** The body of the inner loop: clean the match, record it when new.
    [seenMarkings] always holds the members of [allMarkings]. *)
Definition collect (allMarkings : list jsstring) (m : jsstring) : list jsstring :=
  let cleaned := collapseSpaces (trim m) in
  addNew allMarkings cleaned.

(** [allMarkings] at the end of the two nested loops. *)
Definition candidates (t : jsstring) : list jsstring :=
  fold_left (fun all pat => fold_left collect (matchAll pat t) all) markingPatterns [].

(** [allMarkings] after [sort((a, b) => b.length - a.length)]. *)
Definition sortedMarkings (t : jsstring) : list jsstring :=
  sortBy longerFirst (candidates t).

(** *** Protection types *)

(** /^Ex\s+(.*?)(?:\[.*?\]\s* )?(?=I{1,3})/i *)
Definition re_prot : RegExp :=
  rei [Bol; lit "Ex"; plus ws; Grp 1 (lazyStar Dot);
       opt (seq [chr "["; lazyStar Dot; chr "]"; star ws]);
       Ahead false (times 1 3 (chr "I"))].

Definition isValidCode (c : jsstring) : bool :=
  let cl := toLowerCase c in
  memStr cl VALID_PROT_CODES || memStr (replace re_level [] cl) VALID_PROT_CODES.

Definition describe (code : jsstring) : ProtectionType :=
  let cl := toLowerCase code in
  let baseCode := replace re_levelRS [] cl in
  let level := orNull (option_map matched (exec re_level cl)) in
  mkProtection code baseCode level
    (orEmpty (orElse (orElse (lookup PROTECTION_TYPES baseCode)
                             (lookup PROTECTION_TYPES cl))
                     (Some (str "Unknown")))).

Definition decompose (markingSrc : jsstring) : outcome (list ProtectionType) :=
  match exec re_prot markingSrc with
  | Some protMatch =>
      g <- capture protMatch 1 ;;
      let raw := trim g in
      let codes := filter isValidCode (splitSpaces raw) in
      Ok (map describe codes)
  | None => Ok []
  end.

(** *** Gas group, temperature class, protection level *)

(** /\b(III[ABC]|II[ABC](?:\+H2)?)\b/ *)
Definition re_gasMarking : RegExp := re [Wb; Grp 1 (alt gasII_III); Wb].

Definition firstOf (a b : option MatchResult) : option MatchResult :=   (* a || b *)
  match a with
  | Some _ => a
  | None => b
  end.

Definition gas (markingSrc t : jsstring) : outcome (option jsstring * option jsstring) :=
  match firstOf (exec re_gasMarking markingSrc) (exec re_gasText t) with
  | Some gasMatch =>
      g <- capture gasMatch 1 ;;
      let group := stripGroupPrefix g in
      Ok (Some group, orNull (lookup GAS_GROUP_INFO group))
  | None => Ok (None, None)
  end.

Definition temperature (markingSrc t : jsstring)
  : outcome (option jsstring * option jsstring) :=
  match firstOf (exec re_temp markingSrc) (exec re_temp t) with
  | Some tempMatch =>
      g <- capture tempMatch 1 ;;
      Ok (Some (str "T" ++ g), orNull (lookup TEMP_CLASS_INFO (str "T" ++ g)))
  | None => Ok (None, None)
  end.

Definition protectionLevel (markingSrc t : jsstring) : outcome (option jsstring) :=
  match firstOf (exec re_epl markingSrc) (exec re_epl t) with
  | Some eplMatch => g <- capture eplMatch 1 ;; Ok (Some g)
  | None => Ok None
  end.

(** *** Zone *)

Definition derivedSuffix : jsstring := str " (derived from EPL)".

Definition zoneOf (t : jsstring) (epl : option jsstring) : outcome (option jsstring) :=
  match exec re_zone t with
  | Some zoneMatch => g <- capture zoneMatch 1 ;; Ok (Some (str "Zone " ++ g))
  | None =>
      if truthy epl then
        match lookup eplZoneMap (orEmpty epl) with
        | Some derived => Ok (Some (str "Zone " ++ derived ++ derivedSuffix))
        | None => Ok None
        end
      else Ok None
  end.

(** *** IP rating, ambient temperature *)

Definition ip (t : jsstring) : outcome (option jsstring) :=
  match exec re_ip t with
  | Some ipMatch => g <- capture ipMatch 1 ;; Ok (Some (str "IP" ++ g))
  | None => Ok None
  end.

Definition ambient (t : jsstring) : outcome (option jsstring) :=
  match exec re_ambient t with
  | Some ambMatch =>
      lo <- capture ambMatch 1 ;;
      hi <- capture ambMatch 3 ;;
      Ok (Some (lo ++ [176%N] ++ str "C to +" ++ hi ++ [176%N] ++ str "C"))
  | None => Ok None
  end.

(** *** Manufacturer and equipment *)

Definition mfrPatterns : list RegExp :=
  [ (* /Manufacturer[:\s]*\n\s*Address[:\s]*\n\s*([^\n]{3,80})/i *)
    rei [lit "Manufacturer"; star colonWs; nl; star ws; lit "Address"; star colonWs; nl;
         star ws; Grp 1 (times 3 80 notNl)];
    (* /Manufacturer[:\s]*\n\s*([^\n]{3,80})/i *)
    nextLine [lit "Manufacturer"] (times 3 80 notNl);
    (* /Manufacturer[:\s]+([^\n]{3,80})/i *)
    sameLine [lit "Manufacturer"] (times 3 80 notNl);
    (* /Applicant[:\s]*\n\s*([^\n]{3,80})/i *)
    nextLine [lit "Applicant"] (times 3 80 notNl);
    (* /Applicant[:\s]+([^\n]{3,80})/i *)
    sameLine [lit "Applicant"] (times 3 80 notNl);
    (* /Issued\s+to[:\s]*\n\s*([^\n]{3,80})/i *)
    nextLine [lit "Issued"; plus ws; lit "to"] (times 3 80 notNl);
    (* /Issued\s+to[:\s]+([^\n]{3,80})/i *)
    sameLine [lit "Issued"; plus ws; lit "to"] (times 3 80 notNl) ].

(** /^(Address|Name|Location|see\b|refer\b|as\s)/i *)
Definition re_mfrReject : RegExp :=
  rei [Bol; Grp 1 (alt [lit "Address"; lit "Name"; lit "Location"; seq [lit "see"; Wb];
                        seq [lit "refer"; Wb]; seq [lit "as"; ws]])].

Definition eqPatterns : list RegExp :=
  [ (* /Equipment[:\s]*\n\s*(?!Group)([^\n]{3,120})/i *)
    rei [lit "Equipment"; star colonWs; nl; star ws; Ahead true (lit "Group");
         Grp 1 (times 3 120 notNl)];
    (* /Equipment[:\s]+(?!Group)([^\n]{3,120})/i *)
    rei [lit "Equipment"; plus colonWs; Ahead true (lit "Group");
         Grp 1 (times 3 120 notNl)];
    (* /Apparatus[:\s]+([^\n]{3,120})/i *)
    sameLine [lit "Apparatus"] (times 3 120 notNl);
    (* /Type\s+of\s+Equipment[:\s]+([^\n]{3,120})/i *)
    sameLine [lit "Type"; plus ws; lit "of"; plus ws; lit "Equipment"] (times 3 120 notNl);
    (* /Product[:\s]*\n\s*([^\n]{3,120})/i *)
    nextLine [lit "Product"] (times 3 120 notNl);
    (* /Product[:\s]+([^\n]{3,120})/i *)
    sameLine [lit "Product"] (times 3 120 notNl) ].

(** /^(or\s+Protective|Intended\s+for|listed\s+in)/i *)
Definition re_eqReject : RegExp :=
  rei [Bol; Grp 1 (alt [seq [lit "or"; plus ws; lit "Protective"];
                        seq [lit "Intended"; plus ws; lit "for"];
                        seq [lit "listed"; plus ws; lit "in"]])].

(** The loop over the label patterns: a match whose cleaned value is
    rejected or shorter than three characters is skipped ([continue]);
    the first accepted value ends the loop ([break]). *)
Fixpoint labelled (reject : RegExp) (pats : list RegExp) (t : jsstring)
  : outcome (option jsstring) :=
  match pats with
  | [] => Ok None
  | pat :: more =>
      match exec pat t with
      | Some m =>
          g <- capture m 1 ;;
          let val := stripTail (trim g) in
          if test reject val then labelled reject more t
          else if Nat.ltb (length val) 3 then labelled reject more t
          else Ok (Some val)
      | None => labelled reject more t
      end
  end.

(** *** Notified body *)

(** [[...CERT_BODIES].sort((a, b) => b.length - a.length)] *)
Definition sortedBodies : list jsstring := sortBy longerFirst CERT_BODIES.

Definition firstIncluded (t : jsstring) (bodies : list jsstring) : option jsstring :=
  find (fun body => includes t body) bodies.

(** *** Dates *)

Definition issueLabel : list regex :=                       (* Issue\s*(?:d|Date) *)
  [lit "Issue"; star ws; Alt (chr "d") (lit "Date")].

Definition issuePats : list RegExp :=
  [ (* /Date\s+of\s+Issue[:\s]*\n?\s*(\d{4}[-/]\d{2}[-/]\d{2})/i *)
    rei [lit "Date"; plus ws; lit "of"; plus ws; lit "Issue"; star colonWs; opt nl;
         star ws; Grp 1 dateIso];
    (* /Date\s+of\s+Issue[:\s]+(\d{1,2}[\s./-]\w{3,9}[\s./-]\d{4})/i *)
    sameLine [lit "Date"; plus ws; lit "of"; plus ws; lit "Issue"] dateWords;
    (* /Issue\s*(?:d|Date)[:\s]+(\d{4}[-/]\d{2}[-/]\d{2})/i *)
    sameLine issueLabel dateIso;
    (* /Issue\s*(?:d|Date)[:\s]+(\d{1,2}[\s./-]\w{3,9}[\s./-]\d{4})/i *)
    sameLine issueLabel dateWords;
    (* /Issued[:\s]+(\d{1,2}[\s./-]\w{3,9}[\s./-]\d{4})/i *)
    sameLine [lit "Issued"] dateWords ].

Definition expiryLabel : list regex :=                      (* Expir[ey]\s*(?:Date)? *)
  [lit "Expir"; cls [one "e"; one "y"]; star ws; opt (lit "Date")].

Definition validLabel : list regex :=                       (* Valid\s+(?:until|to) *)
  [lit "Valid"; plus ws; Alt (lit "until") (lit "to")].

Definition expiryPats : list RegExp :=
  [ (* /Expir[ey]\s*(?:Date)?[:\s]+(\d{4}[-/]\d{2}[-/]\d{2})/i *)
    sameLine expiryLabel dateIso;
    (* /Expir[ey]\s*(?:Date)?[:\s]+(\d{1,2}[\s./-]\w{3,9}[\s./-]\d{4})/i *)
    sameLine expiryLabel dateWords;
    (* /Valid\s+(?:until|to)[:\s]+(\d{4}[-/]\d{2}[-/]\d{2})/i *)
    sameLine validLabel dateIso;
    (* /Valid\s+(?:until|to)[:\s]+(\d{1,2}[\s./-]\w{3,9}[\s./-]\d{4})/i *)
    sameLine validLabel dateWords;
    (* /Validity[:\s]+(\d{1,2}[\s./-]\w{3,9}[\s./-]\d{4})/i *)
    sameLine [lit "Validity"] dateWords ].

(** The date loops: the first pattern that matches gives the value. *)
Fixpoint firstCapture (pats : list RegExp) (t : jsstring) : outcome (option jsstring) :=
  match pats with
  | [] => Ok None
  | pat :: more =>
      match exec pat t with
      | Some m => g <- capture m 1 ;; Ok (Some (trim g))
      | None => firstCapture more t
      end
  end.

(** *** Special conditions, standards, category, group *)

Definition special (t : jsstring) : outcome (option jsstring) :=
  match exec re_special t with
  | Some specMatch => g <- capture specMatch 1 ;; Ok (Some (firstn 500 (trim g)))
  | None => Ok None
  end.

(** /(?:EN\s+)?(?:IEC\s* )?60079-\d+(?::\d{4})?(?:\+A\d+:\d{4})*/gi *)
Definition re_standard : RegExp :=
  rei [opt (seq [lit "EN"; plus ws]); opt (seq [lit "IEC"; star ws]); lit "60079-";
       plus digit; opt (seq [chr ":"; times 4 4 digit]);
       star (seq [lit "+A"; plus digit; chr ":"; times 4 4 digit])].

Definition standards (t : jsstring) : option jsstring :=
  match matchAll re_standard t with
  | [] => None
  | stdMatches => Some (join (str ", ") (distinct (map trim stdMatches)))
  end.

Definition categoryOf (t : jsstring) : outcome (option jsstring) :=
  match firstOf (exec re_categoryMark t) (exec re_categoryLabel t) with
  | Some catMatch => g <- capture catMatch 1 ;; Ok (Some g)
  | None => Ok None
  end.

(** /\b(I{2,3})\s+[1-3]\s+[GDM]\b/ *)
Definition re_groupAlt : RegExp :=
  re [Wb; Grp 1 (times 2 3 (chr "I")); plus ws; d13; plus ws; GDM; Wb].

Definition groupOf (t : jsstring) : outcome (option jsstring) :=
  match exec re_group t with
  | Some grpMatch => g <- capture grpMatch 1 ;; Ok (Some g)
  | None =>
      match exec re_groupAlt t with
      | Some grpAlt => g <- capture grpAlt 1 ;; Ok (Some g)
      | None => Ok None
      end
  end.

(** *** parse *)

Definition parse (text : jsstring) : outcome CertificateRecord :=
  let t := text in
  let cert := certificate t in
  let allMarkings := sortedMarkings t in
  let marking := hd_error allMarkings in
  let markingSrc := orEmpty marking in
  protectionTypes <- decompose markingSrc ;;
  gasPair <- gas markingSrc t ;;
  tempPair <- temperature markingSrc t ;;
  epl <- protectionLevel markingSrc t ;;
  zone <- zoneOf t epl ;;
  ipRating <- ip t ;;
  ambientTemp <- ambient t ;;
  manufacturer <- labelled re_mfrReject mfrPatterns t ;;
  equipment <- labelled re_eqReject eqPatterns t ;;
  let notifiedBody := firstIncluded t sortedBodies in
  issueDate <- firstCapture issuePats t ;;
  expiryDate <- firstCapture expiryPats t ;;
  specialConditions <- special t ;;
  let standard := standards t in
  category <- categoryOf t ;;
  group <- groupOf t ;;
  Ok (mkRecord (fst cert) (snd cert) marking allMarkings protectionTypes
               (fst gasPair) (snd gasPair) (fst tempPair) (snd tempPair)
               epl zone ipRating ambientTemp manufacturer equipment notifiedBody
               issueDate expiryDate specialConditions standard category group text).

(** *** confidence *)

Local Open Scope Z_scope.

(** The weight table paired with the presence test
    [val && (Array.isArray(val) ? val.length > 0 : true)] of each field. *)
Definition weighted (result : CertificateRecord) : list (bool * Z) :=
  [ (truthy (certNumber result), 20);
    (truthy (marking result), 20);
    (truthy (gasGroup result), 10);
    (truthy (tempClass result), 10);
    (Nat.ltb 0 (length (protectionTypes result)), 10);
    (truthy (epl result), 5);
    (truthy (manufacturer result), 5);
    (truthy (equipment result), 5);
    (truthy (notifiedBody result), 5);
    (truthy (ipRating result), 3);
    (truthy (ambientTemp result), 3);
    (truthy (issueDate result), 2);
    (truthy (expiryDate result), 2) ].

Definition addWeight (score : Z) (entry : bool * Z) : Z :=
  if fst entry then score + snd entry else score.

Definition confidence (result : CertificateRecord) : Z :=
  let score := fold_left addWeight (weighted result) 0 in
  Z.min 100 score.

Local Close Scope Z_scope.

End ExParser.

(** ** The copy of the parser under src/js/parser.js

    The same pipeline with an earlier rule set: one marking (the first
    match), protection types read from the whole text, every secondary
    field read from the whole text, and the body list scanned as
    written. *)

Module ExParserJs.

Definition CERT_BODIES : list jsstring :=
  [ str "BASEEFA"; str "SIRA"; str "DEKRA"; str "PTB"; str "INERIS"; str "CESI"; str "LCIE";
    str "UL"; str "FM"; str "CSA"; str "T" ++ [220%N] ++ str "V"; str "TUV";
    str "SGS"; str "ZELM"; str "FTZU";
    str "NEMKO"; str "DEMKO"; str "KEMA"; str "BVS"; str "IBExU"; str "CERCHAR";
    str "SIMTARS"; str "MSHA"; str "ITS"; str "Intertek"; str "Bureau Veritas";
    str "CML"; str "Eurofins"; str "Presafe"; str "Fiditas"; str "FIDITAS";
    str "ExVeritas"; str "SGS-CSTC"; str "CQM"; str "PCEC"; str "NEPSI"; str "TIIS";
    str "KOSHA"; str "KTL"; str "PESO"; str "CCOE"; str "DNV GL"; str "DNV";
    str "EXAM"; str "ATEX Notified Body" ].

Record CertificateRecord : Type := mkRecord {
  certNumber : option jsstring;
  certType : option jsstring;
  marking : option jsstring;
  protectionTypes : list ProtectionType;
  gasGroup : option jsstring;
  gasGroupInfo : option jsstring;
  tempClass : option jsstring;
  tempClassMax : option jsstring;
  epl : option jsstring;
  zone : option jsstring;
  ipRating : option jsstring;
  ambientTemp : option jsstring;
  manufacturer : option jsstring;
  equipment : option jsstring;
  notifiedBody : option jsstring;
  issueDate : option jsstring;
  expiryDate : option jsstring;
  specialConditions : option jsstring;
  standard : option jsstring;
  category : option jsstring;
  group : option jsstring;
  raw : jsstring
}.

(** /([A-Z]{2,10}\s+)?\d{2}\s*ATEX\s*\d{3,5}\s*[XU]?(?:\/\d+)?/i *)
Definition re_atex : RegExp :=
  rei [opt (Grp 1 (seq [times 2 10 upper; plus ws])); times 2 2 digit; star ws; lit "ATEX";
       star ws; times 3 5 digit; star ws; opt (cls [one "X"; one "U"]);
       opt (seq [chr "/"; plus digit])].

(** /\d{2}ATEX\d{3,5}/i *)
Definition re_atexAlso : RegExp := rei [times 2 2 digit; lit "ATEX"; times 3 5 digit].

Definition certIecex (t : jsstring) : option jsstring * option jsstring :=
  match exec re_iecex t with
  | Some iecex => (Some (trim (matched iecex)), Some ExParser.IECEx)
  | None => (None, None)
  end.

Definition certAtex (t : jsstring) (c : option jsstring * option jsstring)
  : option jsstring * option jsstring :=
  if negb (truthy (fst c)) then
    match exec re_atex t with
    | Some atex => (Some (trim (matched atex)), Some ExParser.ATEX)
    | None => c
    end
  else c.

Definition certDual (t : jsstring) (c : option jsstring * option jsstring)
  : option jsstring * option jsstring :=
  if ExParser.eqOpt (snd c) ExParser.IECEx then
    match exec re_atexAlso t with
    | Some _ => (fst c, Some ExParser.IECEx_ATEX)
    | None => c
    end
  else c.

Definition certificate (t : jsstring) : option jsstring * option jsstring :=
  certDual t (ExParser.certUkca t (certAtex t (certIecex t))).

(** /\bEx\s+[deimopqstnabrh]{1,4}\s+(?:[deimopqstnabrh]{1,4}\s+)?(?:ia\s+|ib\s+|ic\s+)?I{1,3}[ABC]*(?:\+H2)?\s+T[1-6]\s*[GDM][abc]/gi *)
Definition re_marking : RegExp :=
  rei [Wb; lit "Ex"; plus ws; times 1 4 protLetters; plus ws;
       opt (seq [times 1 4 protLetters; plus ws]);
       opt (alt [seq [lit "ia"; plus ws]; seq [lit "ib"; plus ws]; seq [lit "ic"; plus ws]]);
       times 1 3 (chr "I"); star ABC; opt (lit "+H2"); plus ws; chr "T"; d16; star ws;
       GDM; abc].

(** /\bEx\s+[deimopqstnabrh]{1,4}(?:\s+[deimopqstnabrh]{1,4})*\s+I{1,3}[ABC]*/gi *)
Definition re_simpleMarking : RegExp :=
  rei [Wb; lit "Ex"; plus ws; times 1 4 protLetters;
       star (seq [plus ws; times 1 4 protLetters]); plus ws; times 1 3 (chr "I"); star ABC].

Definition markingOf (t : jsstring) : option jsstring :=
  match matchAll re_marking t with
  | first :: _ => Some (trim first)
  | [] =>
      match matchAll re_simpleMarking t with
      | first :: _ => Some (trim first)
      | [] => None
      end
  end.

(** /\bEx\s+((?:[deimopqstnh][abcrs]?(?:\s+|(?=[IV]))){1,4})/i *)
Definition re_prot : RegExp :=
  rei [Wb; lit "Ex"; plus ws;
       Grp 1 (times 1 4
                (seq [cls [one "d"; one "e"; one "i"; one "m"; one "o"; one "p"; one "q";
                           one "s"; one "t"; one "n"; one "h"];
                      opt (cls [one "a"; one "b"; one "c"; one "r"; one "s"]);
                      Alt (plus ws) (Ahead false (cls [one "I"; one "V"]))]))].

Definition validCodes : list jsstring :=
  map str
    [ "d"; "da"; "db"; "dc"; "e"; "ea"; "eb"; "ec"; "i"; "ia"; "ib"; "ic";
      "p"; "pa"; "pb"; "pc"; "o"; "q"; "n"; "nA"; "nC"; "nR"; "m"; "ma"; "mb"; "mc";
      "t"; "ta"; "tb"; "tc"; "s"; "h"; "op"; "op_is"; "op_pr"; "op_sh" ]%string.

Definition isValidCode (c : jsstring) : bool :=
  let cl := toLowerCase c in
  memStr cl validCodes || memStr (replace re_level [] cl) validCodes.

Definition describe (code : jsstring) : ProtectionType :=
  let cl := toLowerCase code in
  let baseCode := replace re_level [] cl in
  let level := orNull (option_map matched (exec re_level cl)) in
  mkProtection code baseCode level
    (orEmpty (orElse (orElse (lookup PROTECTION_TYPES baseCode)
                                               (lookup PROTECTION_TYPES cl))
                              (Some (str "Unknown")))).

(** Protection types are read from the whole text [t]. *)
Definition decompose (t : jsstring) : outcome (list ProtectionType) :=
  match exec re_prot t with
  | Some protMatch =>
      g <- capture protMatch 1 ;;
      let raw := trim g in
      let codes := filter isValidCode (splitSpaces raw) in
      Ok (map describe codes)
  | None => Ok []
  end.

Definition mfrPatterns : list RegExp :=
  [ sameLine [lit "Manufacturer"] (times 3 80 notNl);        (* /Manufacturer[:\s]+([^\n]{3,80})/i *)
    sameLine [lit "Applicant"] (times 3 80 notNl);           (* /Applicant[:\s]+([^\n]{3,80})/i *)
    sameLine [lit "Issued"; plus ws; lit "to"] (times 3 80 notNl);
                                                             (* /Issued\s+to[:\s]+([^\n]{3,80})/i *)
    sameLine [lit "Company"] (times 3 80 notNl) ].           (* /Company[:\s]+([^\n]{3,80})/i *)

Definition eqPatterns : list RegExp :=
  [ sameLine [lit "Product"] (times 3 120 notNl);            (* /Product[:\s]+([^\n]{3,120})/i *)
    sameLine [lit "Apparatus"] (times 3 120 notNl);          (* /Apparatus[:\s]+([^\n]{3,120})/i *)
    (* /Equipment[:\s]+(?!Group)([^\n]{3,120})/i *)
    rei [lit "Equipment"; plus colonWs; Ahead true (lit "Group");
         Grp 1 (times 3 120 notNl)];
    (* /Type\s+of\s+Equipment[:\s]+([^\n]{3,120})/i *)
    sameLine [lit "Type"; plus ws; lit "of"; plus ws; lit "Equipment"] (times 3 120 notNl) ].

(** The label loops here accept the first match as it is. *)
Fixpoint labelled (pats : list RegExp) (t : jsstring) : outcome (option jsstring) :=
  match pats with
  | [] => Ok None
  | pat :: more =>
      match exec pat t with
      | Some m => g <- capture m 1 ;; Ok (Some (stripTail (trim g)))
      | None => labelled more t
      end
  end.

Definition issuePats : list RegExp :=
  [ sameLine ExParser.issueLabel dateWords;
    sameLine ExParser.issueLabel dateIso;
    sameLine [lit "Date"; plus ws; lit "of"; plus ws; lit "Issue"] dateWords;
    sameLine [lit "Issued"] dateWords ].

Definition expiryPats : list RegExp :=
  [ sameLine ExParser.expiryLabel dateWords;
    sameLine ExParser.validLabel dateWords;
    sameLine [lit "Validity"] dateWords ].

(** /IEC\s*60079-\d+(?::\d{4})?/gi *)
Definition re_standard : RegExp :=
  rei [lit "IEC"; star ws; lit "60079-"; plus digit; opt (seq [chr ":"; times 4 4 digit])].

Definition standards (t : jsstring) : option jsstring :=
  match matchAll re_standard t with
  | [] => None
  | stdMatches => Some (join (str ", ") (distinct stdMatches))
  end.

Definition single (re : RegExp) (t : jsstring) (prefix : jsstring) : outcome (option jsstring) :=
  match exec re t with
  | Some m => g <- capture m 1 ;; Ok (Some (prefix ++ g))
  | None => Ok None
  end.

Definition gas (t : jsstring) : outcome (option jsstring * option jsstring) :=
  match exec re_gasText t with
  | Some gasMatch =>
      g <- capture gasMatch 1 ;;
      let group := stripGroupPrefix g in
      Ok (Some group, orNull (lookup GAS_GROUP_INFO group))
  | None => Ok (None, None)
  end.

Definition categoryOf (t : jsstring) : outcome (option jsstring) :=
  match ExParser.firstOf (exec re_categoryLabel t) (exec re_categoryMark t) with
  | Some catMatch => g <- capture catMatch 1 ;; Ok (Some g)
  | None => Ok None
  end.

Definition parse (text : jsstring) : outcome CertificateRecord :=
  let t := text in
  let cert := certificate t in
  let marking := markingOf t in
  protectionTypes <- decompose t ;;
  gasPair <- gas t ;;
  tempClass <- single re_temp t (str "T") ;;
  epl <- single re_epl t [] ;;
  zone <- ExParser.zoneOf t epl ;;
  ipRating <- ExParser.ip t ;;
  ambientTemp <- ExParser.ambient t ;;
  manufacturer <- labelled mfrPatterns t ;;
  equipment <- labelled eqPatterns t ;;
  let notifiedBody := ExParser.firstIncluded t CERT_BODIES in
  issueDate <- ExParser.firstCapture issuePats t ;;
  expiryDate <- ExParser.firstCapture expiryPats t ;;
  specialConditions <- ExParser.special t ;;
  let standard := standards t in
  category <- categoryOf t ;;
  group <- single re_group t [] ;;
  Ok (mkRecord (fst cert) (snd cert) marking protectionTypes
               (fst gasPair) (snd gasPair)
               tempClass
               (match tempClass with Some c => orNull (lookup TEMP_CLASS_INFO c) | None => None end)
               epl zone ipRating ambientTemp manufacturer equipment notifiedBody
               issueDate expiryDate specialConditions standard category group text).

Local Open Scope Z_scope.

Definition weighted (result : CertificateRecord) : list (bool * Z) :=
  [ (truthy (certNumber result), 20);
    (truthy (marking result), 20);
    (truthy (gasGroup result), 10);
    (truthy (tempClass result), 10);
    (Nat.ltb 0 (length (protectionTypes result)), 10);
    (truthy (epl result), 5);
    (truthy (manufacturer result), 5);
    (truthy (equipment result), 5);
    (truthy (notifiedBody result), 5);
    (truthy (ipRating result), 3);
    (truthy (ambientTemp result), 3);
    (truthy (issueDate result), 2);
    (truthy (expiryDate result), 2) ].

Definition confidence (result : CertificateRecord) : Z :=
  let score := fold_left ExParser.addWeight (weighted result) 0 in
  Z.min 100 score.

Local Close Scope Z_scope.

End ExParserJs.

(** ** Relations and checks used in the proofs *)

(** *** The strings a pattern can consume

    [Consumes ic r s]: some run of [r] hands over a state [s] further
    on.  Like [Reach] it forgets the order of the candidates, and it
    forgets the states as well. *)

Inductive Consumes (ic : bool) : regex -> jsstring -> Prop :=
| C_eps : Consumes ic Eps []
| C_chr a c : chr_matches ic a c = true -> Consumes ic (Chr a) [c]
| C_cls inv items c :
    xorb inv (set_matches ic items c) = true -> Consumes ic (Cls inv items) [c]
| C_dot c : isLineTerminator c = false -> Consumes ic Dot [c]
| C_seq a b s1 s2 :
    Consumes ic a s1 -> Consumes ic b s2 -> Consumes ic (Seq a b) (s1 ++ s2)
| C_alt_l a b s : Consumes ic a s -> Consumes ic (Alt a b) s
| C_alt_r a b s : Consumes ic b s -> Consumes ic (Alt a b) s
| C_rep_stop max g a : Consumes ic (Rep 0 max g a) []
| C_rep_zero min g a : Consumes ic (Rep min (Some 0) g a) []
| C_rep_step min max g a s1 s2 :
    max_is_zero max = false ->
    Consumes ic a s1 ->
    Consumes ic (Rep (Nat.pred min) (pred_max max) g a) s2 ->
    Consumes ic (Rep min max g a) (s1 ++ s2)
| C_grp n a s : Consumes ic a s -> Consumes ic (Grp n a) s
| C_ahead negate a : Consumes ic (Ahead negate a) []
| C_bol : Consumes ic Bol []
| C_eol : Consumes ic Eol []
| C_wb : Consumes ic Wb [].

(** *** Finite languages and excluded characters *)

(** The characters a pattern character can match. *)
Definition chrChars (ic : bool) (a : char) : list char :=
  if ic then [a; upperChar a; lowerChar a] else [a].

(** [lo], [lo + 1], ... ([n] of them). *)
Fixpoint charsFrom (lo : char) (n : nat) : list char :=
  match n with
  | O => []
  | S n' => lo :: charsFrom (N.succ lo) n'
  end.

(** The members of a class item, for the items with few members. *)
Definition itemChars (i : citem) : option (list char) :=
  match i with
  | CChar a => Some [a]
  | CRange lo hi =>
      if N.ltb (hi - lo) 64 then Some (charsFrom lo (S (N.to_nat (hi - lo)))) else None
  | CDigit => Some (charsFrom 48%N 10)
  | CSpace | CNonSpace | CWord => None
  end.

Fixpoint itemsChars (items : list citem) : option (list char) :=
  match items with
  | [] => Some []
  | i :: more =>
      match itemChars i, itemsChars more with
      | Some a, Some b => Some (a ++ b)
      | _, _ => None
      end
  end.

(** The characters a class can match (a superset, with repetitions). *)
Definition setChars (ic : bool) (items : list citem) : option (list char) :=
  match itemsChars items with
  | Some base =>
      Some (if ic then base ++ map upperChar base ++ map lowerChar base else base)
  | None => None
  end.

Definition product (a b : list jsstring) : list jsstring :=
  flat_map (fun u => map (fun v => u ++ v) b) a.

(** The strings [mx] or fewer (and [min] or more) repetitions consume. *)
Fixpoint powers (wa : list jsstring) (min mx : nat) : list jsstring :=
  match mx with
  | O => [[]]
  | S mx' =>
      (if Nat.eqb min 0 then [[]] else []) ++ product wa (powers wa (Nat.pred min) mx')
  end.

(** [words ic r]: when the pattern can consume finitely many strings
    only, a list that holds them all. *)
Fixpoint words (ic : bool) (r : regex) : option (list jsstring) :=
  match r with
  | Eps | Bol | Eol | Wb | Ahead _ _ => Some [[]]
  | Chr a => Some (map (fun c => [c]) (chrChars ic a))
  | Cls false items => option_map (map (fun c => [c])) (setChars ic items)
  | Cls true _ | Dot => None
  | Seq a b =>
      match words ic a, words ic b with
      | Some wa, Some wb => Some (product wa wb)
      | _, _ => None
      end
  | Alt a b =>
      match words ic a, words ic b with
      | Some wa, Some wb => Some (wa ++ wb)
      | _, _ => None
      end
  | Rep min (Some mx) _ a => option_map (fun wa => powers wa min mx) (words ic a)
  | Rep _ None _ _ => None
  | Grp _ a => words ic a
  end.

(** [among l ic a]: every string [a] can consume is in [l]. *)
Definition among (l : list jsstring) (ic : bool) (a : regex) : bool :=
  match words ic a with
  | Some wa => forallb (fun w => memStr w l) wa
  | None => false
  end.

(** [avoids ic c r]: no match of [r] consumes the character [c]. *)
Fixpoint avoids (ic : bool) (c : char) (r : regex) : bool :=
  match r with
  | Eps | Bol | Eol | Wb | Ahead _ _ => true
  | Chr a => negb (chr_matches ic a c)
  | Cls inv items => negb (xorb inv (set_matches ic items c))
  | Dot => isLineTerminator c
  | Seq a b | Alt a b => avoids ic c a && avoids ic c b
  | Rep _ _ _ a | Grp _ a => avoids ic c a
  end.

(** [within ic l r]: every character a match of [r] consumes is in [l]. *)
Fixpoint within (ic : bool) (l : list char) (r : regex) : bool :=
  match r with
  | Eps | Bol | Eol | Wb | Ahead _ _ => true
  | Chr a => forallb (fun c => existsb (char_eqb c) l) (chrChars ic a)
  | Cls false items =>
      match setChars ic items with
      | Some cs => forallb (fun c => existsb (char_eqb c) l) cs
      | None => false
      end
  | Cls true _ | Dot => false
  | Seq a b | Alt a b => within ic l a && within ic l b
  | Rep _ _ _ a | Grp _ a => within ic l a
  end.

(** [minWidth r]: every match of [r] consumes at least that many
    characters. *)
Fixpoint minWidth (r : regex) : nat :=
  match r with
  | Eps | Bol | Eol | Wb | Ahead _ _ => 0
  | Chr _ | Cls _ _ | Dot => 1
  | Seq a b => minWidth a + minWidth b
  | Alt a b => Nat.min (minWidth a) (minWidth b)
  | Rep min (Some mx) _ a => Nat.min min mx * minWidth a
  | Rep min None _ a => min * minWidth a
  | Grp _ a => minWidth a
  end.

(** *** Positions in the input *)

(** The character before the position reached by reading [s], [p]
    being the character before [s]. *)
Fixpoint lastOr (p : option char) (s : jsstring) : option char :=
  match s with
  | [] => p
  | c :: tl => lastOr (Some c) tl
  end.

(** The state reached from [x] by reading [s], the captures untouched. *)
Fixpoint forward (x : MatchState) (s : jsstring) : MatchState :=
  match s with
  | [] => x
  | c :: s' => forward (advance x c (tl (rest x))) s'
  end.

(** The run a repetition of a class reads ends in front of [tl]. *)
Definition stopsAt (ok : char -> bool) (tl : jsstring) : Prop :=
  match tl with
  | [] => True
  | c :: _ => ok c = false
  end.

(** What [replace(/\s+/g, by)] computes, read from left to right:
    [inRun] says that the previous character was white space. *)
Fixpoint squeezeFrom (by_ : jsstring) (inRun : bool) (s : jsstring) : jsstring :=
  match s with
  | [] => []
  | c :: tl =>
      if isSpace c then (if inRun then [] else by_) ++ squeezeFrom by_ true tl
      else c :: squeezeFrom by_ false tl
  end.

(** *** Equality of patterns *)

Definition citem_eqb (a b : citem) : bool :=
  match a, b with
  | CChar x, CChar y => char_eqb x y
  | CRange l1 h1, CRange l2 h2 => char_eqb l1 l2 && char_eqb h1 h2
  | CDigit, CDigit | CSpace, CSpace | CNonSpace, CNonSpace | CWord, CWord => true
  | _, _ => false
  end.

Fixpoint citems_eqb (a b : list citem) : bool :=
  match a, b with
  | [], [] => true
  | x :: a', y :: b' => citem_eqb x y && citems_eqb a' b'
  | _, _ => false
  end.

Definition max_eqb (a b : option nat) : bool :=
  match a, b with
  | Some x, Some y => Nat.eqb x y
  | None, None => true
  | _, _ => false
  end.

Fixpoint regex_eqb (a b : regex) : bool :=
  match a, b with
  | Eps, Eps | Dot, Dot | Bol, Bol | Eol, Eol | Wb, Wb => true
  | Chr x, Chr y => char_eqb x y
  | Cls i1 l1, Cls i2 l2 => Bool.eqb i1 i2 && citems_eqb l1 l2
  | Seq a1 a2, Seq b1 b2 | Alt a1 a2, Alt b1 b2 => regex_eqb a1 b1 && regex_eqb a2 b2
  | Rep m1 x1 g1 a1, Rep m2 x2 g2 b1 =>
      Nat.eqb m1 m2 && max_eqb x1 x2 && Bool.eqb g1 g2 && regex_eqb a1 b1
  | Grp n1 a1, Grp n2 b1 => Nat.eqb n1 n2 && regex_eqb a1 b1
  | Ahead n1 a1, Ahead n2 b1 => Bool.eqb n1 n2 && regex_eqb a1 b1
  | _, _ => false
  end.

(** *** Characters a pattern always consumes *)

(** [needs ic c r]: every match of [r] consumes the character [c]. *)
Fixpoint needs (ic : bool) (c : char) (r : regex) : bool :=
  match r with
  | Chr a => forallb (char_eqb c) (chrChars ic a)
  | Seq a b => needs ic c a || needs ic c b
  | Alt a b => needs ic c a && needs ic c b
  | Rep min max _ a => negb (Nat.eqb min 0) && negb (max_is_zero max) && needs ic c a
  | Grp _ a => needs ic c a
  | Eps | Cls _ _ | Dot | Ahead _ _ | Bol | Eol | Wb => false
  end.

(** ** The page script (first part of src/unnamed/part_000) *)

Module App.

(** [currentResult]: the parsed fields ([...parsed]) together with the
    four properties [processFile] adds. *)
Record Scan : Type := mkScan {
  fields : ExParser.CertificateRecord;
  fileName : jsstring;
  scannedAt : jsstring;
  confidence : Z;
  usedOcr : bool
}.

(** *** Text of a document

    A document is the list of its pages.  What the libraries deliver
    for a page is input here: the strings of its text items
    ([getTextContent]) and the text read from its rendering
    ([worker.recognize]). *)
Record Page : Type := mkPage {
  items : list jsstring;
  recognised : jsstring
}.

Definition pageBreak : jsstring := [10%N; 10%N].          (* '\n\n' *)

(** Step 1 of [processFile]: [fullText += pageText + '\n\n'] for each
    page. *)
Definition extractText (pdf : list Page) : jsstring :=
  fold_left (fun fullText page =>
               let pageText := join (str " ") (items page) in
               fullText ++ (pageText ++ pageBreak))
            pdf [].

(** [ocrPdf]: [fullText += data.text + '\n\n'] for each page. *)
Definition ocrPdf (pdf : list Page) : jsstring :=
  fold_left (fun fullText page => fullText ++ (recognised page ++ pageBreak)) pdf [].

(** Step 2 of [processFile]: the text handed to the parser and
    [usedOcr]. *)
Definition scannedText (pdf : list Page) : jsstring * bool :=
  let fullText := extractText pdf in
  let strippedText := trim (removeSpaces fullText) in
  if Nat.ltb (length strippedText) 50 then (ocrPdf pdf, true) else (fullText, false).

(** The rest of the [try] block up to [currentResult]; [name] is
    [file.name] and [now] is [new Date().toISOString()]. *)
Definition scan (pdf : list Page) (name now : jsstring) : outcome Scan :=
  let (fullText, usedOcr) := scannedText pdf in
  parsed <- ExParser.parse fullText ;;
  let conf := ExParser.confidence parsed in
  Ok (mkScan parsed name now conf usedOcr).

(** *** Rendering *)

(** An HTML literal of the source; a double quote of the source is
    written as a backquote. *)
Definition html (s : string) : jsstring :=
  map (fun c => if char_eqb c 96%N then 34%N else c) (str s).

(** A line break of a template literal and the indentation of the next
    line. *)
Definition newline (indent : nat) : jsstring := 10%N :: repeat 32%N indent.

(** [String(n)] for an integer. *)
Definition numberToString (n : Z) : jsstring := str (NilZero.string_of_int (Z.to_int n)).

(** [${v}] for a string-or-null value. *)
Definition interpolate (v : option jsstring) : jsstring :=
  match v with
  | Some s => s
  | None => str "null"
  end.

(** What [innerHTML] gives back for a text node. *)
Definition escapeChar (c : char) : jsstring :=
  if char_eqb c 38%N then str "&amp;"
  else if char_eqb c 60%N then str "&lt;"
  else if char_eqb c 62%N then str "&gt;"
  else if char_eqb c 160%N then str "&nbsp;"
  else [c].

Definition esc (s : option jsstring) : jsstring :=
  if truthy s then flat_map escapeChar (orEmpty s) else [].

Definition field (label : jsstring) (value : option jsstring) (highlight : bool) : jsstring :=
  let cls := if truthy value then (if highlight then str "highlight" else [])
             else str "not-found" in
  let display := orElse value (Some (str "Not detected")) in
  newline 12 ++ html "<div class=`cert-field`>" ++
  newline 16 ++ html "<div class=`cert-field-label`>" ++ esc (Some label) ++ html "</div>" ++
  newline 16 ++ html "<div class=`cert-field-value " ++ cls ++ html "`>" ++
    (if truthy value then interpolate display else esc display) ++ html "</div>" ++
  newline 12 ++ html "</div>" ++
  newline 8.

Definition fieldFull (label : jsstring) (value : option jsstring) : jsstring :=
  newline 12 ++ html "<div class=`cert-field full-width`>" ++
  newline 16 ++ html "<div class=`cert-field-label`>" ++ esc (Some label) ++ html "</div>" ++
  newline 16 ++ html "<div class=`cert-field-value`>" ++ esc value ++ html "</div>" ++
  newline 12 ++ html "</div>" ++
  newline 8.

(** The dash of the source's literals, U+2014. *)
Definition dash : jsstring := str " " ++ [8212%N] ++ str " ".

(** What [renderResults] writes. *)
Record View : Type := mkView {
  processingDisplay : jsstring;      (* processing.style.display *)
  resultsDisplay : jsstring;         (* results.style.display *)
  fillWidth : jsstring;              (* confidenceFill.style.width *)
  fillClass : jsstring;              (* confidenceFill.className *)
  pctText : jsstring;                (* confidencePct.textContent *)
  pctColor : jsstring;               (* confidencePct.style.color *)
  labelHtml : jsstring;              (* .confidence-label innerHTML *)
  cardHtml : jsstring                (* certCard.innerHTML *)
}.

Definition gasText (d : ExParser.CertificateRecord) : option jsstring :=
  if truthy (ExParser.gasGroup d) then
    Some (interpolate (ExParser.gasGroup d) ++
          (if truthy (ExParser.gasGroupInfo d)
           then dash ++ orEmpty (ExParser.gasGroupInfo d) else []))
  else None.

Definition tempText (d : ExParser.CertificateRecord) : option jsstring :=
  if truthy (ExParser.tempClass d) then
    Some (interpolate (ExParser.tempClass d) ++ str " (max " ++
          interpolate (ExParser.tempClassMax d) ++ str ")")
  else None.

Definition protectionText (d : ExParser.CertificateRecord) : option jsstring :=
  match ExParser.protectionTypes d with
  | [] => None
  | types =>
      Some (join (str "<br>")
                 (map (fun p => code p ++ dash ++ description p) types))
  end.

Definition certCard (d : ExParser.CertificateRecord) : jsstring :=
  let typeBadge :=
    if truthy (ExParser.certType d)
    then html "<span class=`cert-type-badge`>" ++ esc (ExParser.certType d) ++ html "</span>"
    else [] in
  newline 12 ++ html "<div class=`cert-card-header`>" ++
  newline 16 ++ html "<h3>Certificate " ++ typeBadge ++ html "</h3>" ++
  newline 16 ++ html "<div class=`cert-number`>" ++
    (match esc (ExParser.certNumber d) with
     | [] => html "<span class=`not-found`>Not detected</span>"
     | number => number
     end) ++ html "</div>" ++
  newline 12 ++ html "</div>" ++
  newline 12 ++ html "<div class=`cert-grid`>" ++
  newline 16 ++ field (str "Ex Marking") (ExParser.marking d) true ++
  newline 16 ++ (if Nat.ltb 1 (length (ExParser.markings d))
                 then fieldFull (str "Additional Markings")
                                (Some (join [10%N] (skipn 1 (ExParser.markings d))))
                 else []) ++
  newline 16 ++ field (str "Gas Group") (gasText d) false ++
  newline 16 ++ field (str "Temperature Class") (tempText d) false ++
  newline 16 ++ field (str "Equipment Protection Level") (ExParser.epl d) false ++
  newline 16 ++ field (str "Protection Type(s)") (protectionText d) false ++
  newline 16 ++ field (str "Zone") (ExParser.zone d) false ++
  newline 16 ++ field (str "IP Rating") (ExParser.ipRating d) false ++
  newline 16 ++ field (str "Ambient Temperature") (ExParser.ambientTemp d) false ++
  newline 16 ++ field (str "Manufacturer") (ExParser.manufacturer d) false ++
  newline 16 ++ field (str "Equipment / Model") (ExParser.equipment d) false ++
  newline 16 ++ field (str "Notified Body") (ExParser.notifiedBody d) false ++
  newline 16 ++ field (str "Issue Date") (ExParser.issueDate d) false ++
  newline 16 ++ field (str "Expiry Date") (ExParser.expiryDate d) false ++
  newline 16 ++ field (str "ATEX Category") (ExParser.category d) false ++
  newline 16 ++ field (str "Equipment Group") (ExParser.group d) false ++
  newline 16 ++ field (str "Standards") (ExParser.standard d) false ++
  newline 16 ++ (if truthy (ExParser.specialConditions d)
                 then fieldFull (str "Special Conditions") (ExParser.specialConditions d)
                 else []) ++
  newline 12 ++ html "</div>" ++
  newline 8.

Definition renderResults (data : Scan) (conf : Z) : View :=
  let ocrNote :=
    if usedOcr data
    then html " <span style=`background:#d29922;color:#1a2535;padding:2px 8px;border-radius:4px;font-size:0.75rem;font-weight:600;margin-left:8px;`>OCR</span>"
    else [] in
  mkView (str "none")
         []
         (numberToString conf ++ str "%")
         (str "confidence-fill" ++
          (if Z.leb 60 conf then [] else if Z.leb 30 conf then str " medium" else str " low"))
         (numberToString conf ++ str "%")
         (if Z.leb 60 conf then str "#4df4a4"
          else if Z.leb 30 conf then str "#d29922" else str "#f85149")
         (str "Extraction confidence:" ++ ocrNote)
         (certCard (fields data)).

(** *** CSV export *)

(** The columns of [exportCsv]: the property names and the reading of
    each from an item.  None of them is an array. *)
Definition csvFields : list (jsstring * (Scan -> option jsstring)) :=
  [ (str "certNumber", fun item => ExParser.certNumber (fields item));
    (str "certType", fun item => ExParser.certType (fields item));
    (str "marking", fun item => ExParser.marking (fields item));
    (str "gasGroup", fun item => ExParser.gasGroup (fields item));
    (str "tempClass", fun item => ExParser.tempClass (fields item));
    (str "epl", fun item => ExParser.epl (fields item));
    (str "zone", fun item => ExParser.zone (fields item));
    (str "ipRating", fun item => ExParser.ipRating (fields item));
    (str "ambientTemp", fun item => ExParser.ambientTemp (fields item));
    (str "manufacturer", fun item => ExParser.manufacturer (fields item));
    (str "equipment", fun item => ExParser.equipment (fields item));
    (str "notifiedBody", fun item => ExParser.notifiedBody (fields item));
    (str "issueDate", fun item => ExParser.issueDate (fields item));
    (str "expiryDate", fun item => ExParser.expiryDate (fields item));
    (str "category", fun item => ExParser.category (fields item));
    (str "group", fun item => ExParser.group (fields item));
    (str "standard", fun item => ExParser.standard (fields item));
    (str "specialConditions", fun item => ExParser.specialConditions (fields item));
    (str "fileName", fun item => Some (fileName item));
    (str "scannedAt", fun item => Some (scannedAt item)) ].

Definition quote : jsstring := [34%N].

(** The pattern of [replace] in [exportCsv]: the double quote, with the
    [g] flag. *)
Definition re_quote : RegExp := re [Chr 34%N].

(** One cell: [null] becomes the empty string, every double quote is
    doubled, and the whole is put in double quotes. *)
Definition cell (val : option jsstring) : jsstring :=
  let val := orEmpty val in
  quote ++ replaceAll re_quote (quote ++ quote) val ++ quote.

Definition csvRow (item : Scan) : jsstring :=
  join (str ",") (map (fun f => cell (snd f item)) csvFields).

(** The text of the exported file. *)
Definition exportCsv (items : list Scan) : jsstring :=
  let header := join (str ",") (map fst csvFields) in
  let rows := map csvRow items in
  header ++ [10%N] ++ join [10%N] rows.

(** [a.download]; [now] is [new Date().toISOString()]. *)
Definition downloadName (now : jsstring) : jsstring :=
  str "ex-certificates-" ++ firstn 10 now ++ str ".csv".

(** The values a row of the export stands for. *)
Definition cellValues (item : Scan) : list jsstring :=
  map (fun f => orEmpty (snd f item)) csvFields.

(** *** Reading a CSV text

    A reader for the format [exportCsv] writes (fields separated by
    commas, records by line feeds, a double quote inside a quoted field
    written twice), used to show that the export can be read back.
    [cur] is the field read so far, reversed, [row] the fields of the
    record read so far, reversed, [done] the records read, reversed. *)
Inductive ReaderMode : Type := AtStart | InPlain | InQuoted | AfterQuote.

Record Reader : Type := mkReader {
  mode : ReaderMode;
  cur : jsstring;
  row : list jsstring;
  done : list (list jsstring)
}.

Definition endField (r : Reader) : Reader :=
  mkReader AtStart [] (rev (cur r) :: row r) (done r).

Definition endRecord (r : Reader) : Reader :=
  mkReader AtStart [] [] (rev (rev (cur r) :: row r) :: done r).

Definition push (c : char) (m : ReaderMode) (r : Reader) : Reader :=
  mkReader m (c :: cur r) (row r) (done r).

Definition readerStep (r : Reader) (c : char) : Reader :=
  match mode r with
  | InQuoted =>
      if char_eqb c 34%N then mkReader AfterQuote (cur r) (row r) (done r)
      else push c InQuoted r
  | AfterQuote =>
      if char_eqb c 34%N then push c InQuoted r
      else if char_eqb c 44%N then endField r
      else if char_eqb c 10%N then endRecord r
      else push c InPlain r
  | AtStart =>
      if char_eqb c 34%N then mkReader InQuoted (cur r) (row r) (done r)
      else if char_eqb c 44%N then endField r
      else if char_eqb c 10%N then endRecord r
      else push c InPlain r
  | InPlain =>
      if char_eqb c 44%N then endField r
      else if char_eqb c 10%N then endRecord r
      else push c InPlain r
  end.

Definition readCsv (s : jsstring) : list (list jsstring) :=
  rev (done (endRecord (fold_left readerStep s (mkReader AtStart [] [] [])))).

(** What the replacement in [cell] computes: every double quote is
    written twice. *)
Definition doubled (s : jsstring) : jsstring :=
  flat_map (fun c => if char_eqb c 34%N then [34%N; 34%N] else [c]) s.

(** *** Counting and searching *)

(** The number of characters of [s] that are not white space. *)
Definition visible (s : jsstring) : nat :=
  length (filter (fun c => negb (isSpace c)) s).

(** [p] occurs in [s]. *)
Definition occursIn (p s : jsstring) : Prop := exists before after, s = before ++ p ++ after.

(** A record without any field, but for the manufacturer. *)
Definition onlyManufacturer (v : option jsstring) : ExParser.CertificateRecord :=
  ExParser.mkRecord None None None [] [] None None None None None None None None v
                    None None None None None None None None [].

End App.

(** ** Sample texts *)

(** The record before any extractor has run: the initial value of
    [result]. *)
Definition blank (text : jsstring) : ExParser.CertificateRecord :=
  ExParser.mkRecord None None None [] [] None None None None None None None None None
                    None None None None None None None None text.

Definition parsed (text : jsstring) : ExParser.CertificateRecord :=
  match ExParser.parse text with
  | Ok r => r
  | TypeError => blank text
  end.

Definition scenarioText : jsstring :=
  str "IECEx ABC 12.0001X  Ex db IIC T4 Gb  Manufacturer: Acme Corp  Zone 1".

Definition scenarioRecord : ExParser.CertificateRecord :=
  ExParser.mkRecord
    (Some (str "IECEx ABC 12.0001X")) (Some (str "IECEx")) (Some (str "Ex db IIC T4 Gb"))
    [str "Ex db IIC T4 Gb"; str "Ex db IIC T4"; str "Ex db IIC"]
    [mkProtection (str "db") (str "d") (Some (str "b")) (str "Flameproof enclosure")]
    (Some (str "IIC")) (Some (str "Hydrogen, acetylene (most stringent)"))
    (Some (str "T4")) (Some (celsius "135")) (Some (str "Gb")) (Some (str "Zone 1"))
    None None (Some (str "Acme Corp  Zone 1")) None None None None None None None None
    scenarioText.

Definition twoMarkingsText : jsstring := str "Ex d IIC and Ex db IIC T4 Gb".

Definition twoMarkingsRecord : ExParser.CertificateRecord :=
  ExParser.mkRecord
    None None (Some (str "Ex db IIC T4 Gb"))
    [str "Ex db IIC T4 Gb"; str "Ex db IIC T4"; str "Ex db IIC"; str "Ex d IIC"]
    [mkProtection (str "db") (str "d") (Some (str "b")) (str "Flameproof enclosure")]
    (Some (str "IIC")) (Some (str "Hydrogen, acetylene (most stringent)"))
    (Some (str "T4")) (Some (celsius "135")) (Some (str "Gb"))
    (Some (str "Zone 1 (derived from EPL)"))
    None None None None None None None None None None None
    twoMarkingsText.

Definition threeMarkingsText : jsstring :=
  str "Ex d IIC; Ex db IIC T4 Gb; Ex db eb IIC T4 Gb".

Definition shorterFirstText : jsstring := str "Ex d IIC T4 Gb; Ex db IIC T4 Gb".

Definition oneMarkingText : jsstring := str "Ex db IIC T4 Gb".

Definition strayCodeText : jsstring := str "Ex e box. Ex db IIC T4 Gb".

Definition noMarkingText : jsstring := str "Ex d box".

Definition twoBodiesText : jsstring := str "Issued by SGS-CSTC".

Definition threeBodiesText : jsstring := str "Bureau Veritas SGS-CSTC".

Definition blankConditionsText : jsstring := str "Special Conditions:           ".

(** * Properties of characters *)

Ltac unfold_chars :=
  unfold chr_matches, upperChar, lowerChar, isWordChar, isDigit, isUpper, isLower,
    isSpace, isLineTerminator, between, char_eqb, codeUnit in *; simpl N_of_ascii in *.

Ltac split_cmp :=
  repeat (match goal with
          | |- context [N.leb ?a ?b] => destruct (N.leb_spec a b)
          | |- context [N.ltb ?a ?b] => destruct (N.ltb_spec a b)
          | |- context [N.eqb ?a ?b] => destruct (N.eqb_spec a b)
          | H : context [N.leb ?a ?b] |- _ => destruct (N.leb_spec a b)
          | H : context [N.ltb ?a ?b] |- _ => destruct (N.ltb_spec a b)
          | H : context [N.eqb ?a ?b] |- _ => destruct (N.eqb_spec a b)
          end; try lia);
  simpl in *; try discriminate; try lia; auto.

Lemma space_upper (c : char) : isSpace c = true -> upperChar c = c.
Proof. unfold_chars. intros H. split_cmp. Qed.

Lemma space_lower (c : char) : isSpace c = true -> lowerChar c = c.
Proof. unfold_chars. intros H. split_cmp. Qed.

Lemma chr_matches_solid (ic : bool) (a c : char) :
  isSpace a = false -> chr_matches ic a c = true -> isSpace c = false.
Proof. unfold_chars. destruct ic; intros Ha H; split_cmp. Qed.

Lemma item_solid_has (i : citem) (c : char) :
  item_solid i = true -> item_has i c = true -> isSpace c = false.
Proof.
  destruct i; simpl; intros Hs Hh; try discriminate.
  - apply N.eqb_eq in Hh. subst. now apply negb_true_iff.
  - revert Hs Hh. unfold_chars. intros Hs Hh. split_cmp.
  - revert Hh. unfold_chars. intros Hh. split_cmp.
  - now apply negb_true_iff.
  - revert Hh. unfold_chars. intros Hh. split_cmp.
Qed.

Lemma set_has_solid (items : list citem) (c : char) :
  forallb item_solid items = true -> set_has items c = true -> isSpace c = false.
Proof.
  unfold set_has. intros Hall Hex. apply existsb_exists in Hex.
  destruct Hex as (i & Hin & Hi). rewrite forallb_forall in Hall.
  eapply item_solid_has; eauto.
Qed.

Lemma set_matches_solid (ic : bool) (items : list citem) (c : char) :
  forallb item_solid items = true -> set_matches ic items c = true -> isSpace c = false.
Proof.
  intros Hall H. destruct (isSpace c) eqn:E; [|reflexivity].
  unfold set_matches in H. rewrite (space_upper _ E), (space_lower _ E) in H.
  assert (Hs : set_has items c = true) by (destruct ic; destruct (set_has items c); auto).
  rewrite (set_has_solid _ _ Hall Hs) in E. discriminate.
Qed.

(** * Properties of the matcher *)

Lemma firstn_solid (c : char) (tl : jsstring) (n : nat) :
  n <= length tl -> firstn (length (c :: tl) - n) (c :: tl) = c :: firstn (length tl - n) tl.
Proof. intros H. simpl length. replace (S (length tl) - n) with (S (length tl - n)) by lia. reflexivity. Qed.

Section Matcher.

Variable ic : bool.

Lemma step_inv (p : char -> bool) (x : MatchState) (k : Continuation) (z : MatchState) :
  step p x k = Some z ->
  exists c tl, rest x = c :: tl /\ p c = true /\ k (advance x c tl) = Some z.
Proof.
  unfold step. destruct (rest x) as [|c tl]; [discriminate|].
  destruct (p c) eqn:E; [|discriminate].
  intros H. exists c, tl. auto.
Qed.

Lemma repeatMatcher_sound (a : regex)
      (ma : MatchState -> Continuation -> option MatchState)
      (Hma : forall x k z, ma x k = Some z -> exists y, Reach ic a x y /\ k y = Some z) :
  forall fuel min max g x k z,
    repeatMatcher fuel ma min max g (groups_of a) x k = Some z ->
    exists y, Reach ic (Rep min max g a) x y /\ k y = Some z.
Proof.
  induction fuel as [|fuel IH]; intros min max g x k z H; simpl in H.
  - destruct (max_is_zero max) eqn:Ez; [|discriminate].
    destruct max as [[|?]|]; try discriminate. exists x. split; [constructor|exact H].
  - destruct (max_is_zero max) eqn:Ez.
    + destruct max as [[|?]|]; try discriminate. exists x. split; [constructor|exact H].
    + assert (Hiter : forall d,
                 (forall y, d y = Some z ->
                            repeatMatcher fuel ma (Nat.pred min) (pred_max max) g (groups_of a) y k
                            = Some z) ->
                 ma (clearcaps (groups_of a) x) d = Some z ->
                 exists y, Reach ic (Rep min max g a) x y /\ k y = Some z).
      { intros d Hd Hm. apply Hma in Hm. destruct Hm as (y & Hy & Hdy).
        apply Hd in Hdy. apply IH in Hdy. destruct Hdy as (y' & Hy' & Hk).
        exists y'. split; [|exact Hk]. eapply R_rep_step; eauto. }
      assert (Hstop : min = 0 -> k x = Some z ->
                      exists y, Reach ic (Rep min max g a) x y /\ k y = Some z).
      { intros -> Hk. exists x. split; [constructor|exact Hk]. }
      assert (Hd : forall y,
                 (if Nat.eqb min 0 && Nat.eqb (length (rest y)) (length (rest x)) then None
                  else repeatMatcher fuel ma (Nat.pred min) (pred_max max) g (groups_of a) y k)
                 = Some z ->
                 repeatMatcher fuel ma (Nat.pred min) (pred_max max) g (groups_of a) y k = Some z).
      { intros y. destruct (Nat.eqb min 0 && Nat.eqb (length (rest y)) (length (rest x)));
          [discriminate|auto]. }
      destruct (Nat.eqb min 0) eqn:Em; simpl in H.
      * apply Nat.eqb_eq in Em. destruct g.
        -- match type of H with
           | match ?e with _ => _ end = _ => destruct e eqn:E1
           end.
           ++ inversion H; subst. eapply Hiter; [|exact E1]. exact Hd.
           ++ auto.
        -- destruct (k x) eqn:E1.
           ++ inversion H; subst. auto.
           ++ eapply Hiter; [|exact H]. exact Hd.
      * eapply Hiter; [|exact H]. exact Hd.
Qed.

(** Every end state the matcher accepts was handed over by the pattern. *)
Lemma m_sound (r : regex) :
  forall x k z, m ic r x k = Some z -> exists y, Reach ic r x y /\ k y = Some z.
Proof.
  induction r; intros x k z H; cbn [m] in H.
  - exists x. split; [constructor|exact H].
  - apply step_inv in H. destruct H as (c0 & tl & Hr & Hp & Hk).
    eexists. split; [eapply R_chr; eauto|exact Hk].
  - apply step_inv in H. destruct H as (c0 & tl & Hr & Hp & Hk).
    eexists. split; [eapply R_cls; eauto|exact Hk].
  - apply step_inv in H. destruct H as (c0 & tl & Hr & Hp & Hk).
    eexists. split; [eapply R_dot; eauto|exact Hk].
    now apply negb_true_iff.
  - apply IHr1 in H. destruct H as (y & Hy & H). apply IHr2 in H.
    destruct H as (y' & Hy' & H). exists y'. split; [econstructor; eauto|exact H].
  - destruct (m ic r1 x k) eqn:E.
    + inversion H; subst. apply IHr1 in E. destruct E as (y & Hy & E).
      exists y. split; [now apply R_alt_l|exact E].
    + apply IHr2 in H. destruct H as (y & Hy & H).
      exists y. split; [now apply R_alt_r|exact H].
  - eapply repeatMatcher_sound with (ma := m ic r); [exact IHr|exact H].
  - apply IHr in H. destruct H as (y & Hy & H).
    eexists. split; [eapply R_grp; eauto|exact H].
  - destruct negate.
    + destruct (m ic r x Some); [discriminate|].
      exists x. split; [constructor|exact H].
    + destruct (m ic r x Some) eqn:E; [|discriminate].
      apply IHr in E. destruct E as (y & Hy & E). inversion E; subst.
      eexists. split; [eapply R_ahead; eauto|exact H].
  - destruct (prev x) eqn:E; [discriminate|].
    exists x. split; [now constructor|exact H].
  - destruct (rest x) eqn:E; [|discriminate].
    exists x. split; [now constructor|exact H].
  - match type of H with (if ?c then _ else _) = _ => destruct c eqn:E end; [|discriminate].
    exists x. split; [now constructor|exact H].
Qed.

(** The input is consumed from the front. *)
Lemma reach_rest (r : regex) (x y : MatchState) :
  Reach ic r x y -> exists s, rest x = s ++ rest y.
Proof.
  induction 1; simpl; try (now exists []); try assumption.
  - exists [c]. now rewrite H.
  - exists [c]. now rewrite H.
  - exists [c]. now rewrite H.
  - destruct IHReach1 as (s1 & E1). destruct IHReach2 as (s2 & E2).
    exists (s1 ++ s2). now rewrite E1, E2, app_assoc.
  - destruct IHReach1 as (s1 & E1). destruct IHReach2 as (s2 & E2). simpl in E1.
    exists (s1 ++ s2). now rewrite E1, E2, app_assoc.
Qed.

Lemma reach_length (r : regex) (x y : MatchState) :
  Reach ic r x y -> length (rest y) <= length (rest x).
Proof.
  intros H. apply reach_rest in H. destruct H as (s & ->). rewrite length_app. lia.
Qed.

Lemma mentions_app (n : nat) (a b : regex) :
  existsb (Nat.eqb n) (groups_of a ++ groups_of b) = false ->
  mentions n a = false /\ mentions n b = false.
Proof. unfold mentions. rewrite existsb_app. now apply orb_false_iff. Qed.

(** A pattern leaves the captures of foreign groups alone. *)
Lemma reach_caps_other (n : nat) (r : regex) (x y : MatchState) :
  Reach ic r x y -> mentions n r = false -> caps y n = caps x n.
Proof.
  induction 1; intros Hm; simpl; try reflexivity.
  - apply mentions_app in Hm. destruct Hm. rewrite IHReach2, IHReach1; auto.
  - apply mentions_app in Hm. destruct Hm. auto.
  - apply mentions_app in Hm. destruct Hm. auto.
  - rewrite (IHReach2 Hm), (IHReach1 Hm). simpl.
    unfold mentions in Hm. simpl in Hm. now rewrite Hm.
  - unfold mentions in Hm. simpl in Hm. apply orb_false_iff in Hm. destruct Hm as [Hj Hm].
    rewrite Hj. auto.
  - auto.
Qed.

(** A group the pattern always goes through is defined at the end. *)
Lemma reach_sets (n : nat) (r : regex) (x y : MatchState) :
  Reach ic r x y -> sets n r = true -> caps y n <> None.
Proof.
  induction 1; simpl; intros Hs; try discriminate.
  - apply orb_true_iff in Hs. destruct Hs as [Hs|Hs]; [|auto].
    apply andb_true_iff in Hs. destruct Hs as [Ha Hb]. apply negb_true_iff in Hb.
    rewrite (reach_caps_other n H0 Hb). auto.
  - apply andb_true_iff in Hs. destruct Hs. auto.
  - apply andb_true_iff in Hs. destruct Hs. auto.
  - destruct (Nat.eqb n n0); [discriminate|]. simpl in Hs. auto.
Qed.

Lemma reach_starts (r : regex) (x y : MatchState) :
  Reach ic r x y ->
  (snd (starts r) = true ->
   rest y = rest x \/
   exists c tl, rest x = c :: tl /\ isSpace c = false /\ length (rest y) <= length tl) /\
  (fst (starts r) = true ->
   exists c tl, rest x = c :: tl /\ isSpace c = false /\ length (rest y) <= length tl).
Proof.
  induction 1; simpl; try solve [split; [auto|discriminate]]; try solve [split; discriminate].
  - assert (Hc : negb (isSpace a) = true ->
                 exists c0 tl0, rest x = c0 :: tl0 /\ isSpace c0 = false /\
                                length tl <= length tl0).
    { intros Hs. exists c, tl. repeat split; auto.
      eapply chr_matches_solid; eauto. now apply negb_true_iff. }
    split; auto.
  - destruct inv; [split; discriminate|].
    assert (Hc : forallb item_solid items = true ->
                 exists c0 tl0, rest x = c0 :: tl0 /\ isSpace c0 = false /\
                                length tl <= length tl0).
    { intros Hs. exists c, tl. repeat split; auto. eapply set_matches_solid; eauto. }
    split; auto.
  - destruct IHReach1 as [Ea Sa]. destruct IHReach2 as [Eb Sb].
    pose proof (reach_length H0) as Hlen.
    assert (Hfirst : fst (starts a) = true ->
                     exists c tl, rest x = c :: tl /\ isSpace c = false /\
                                  length (rest z) <= length tl).
    { intros Hs. destruct (Sa Hs) as (c & tl & E & Hc & Hl). exists c, tl.
      repeat split; auto. lia. }
    split; intros Hs; apply orb_true_iff in Hs; destruct Hs as [Hs|Hs]; auto;
      apply andb_true_iff in Hs; destruct Hs as [Hs1 Hs2].
    + destruct (Ea Hs1) as [E1|(c & tl & E & Hc & Hl)].
      * destruct (Eb Hs2) as [E2|(c & tl & E & Hc & Hl)].
        -- left. congruence.
        -- right. exists c, tl. rewrite <- E1. auto.
      * right. exists c, tl. repeat split; auto. lia.
    + destruct (Sb Hs2) as (c & tl & E & Hc & Hl).
      destruct (Ea Hs1) as [E1|(c' & tl' & E' & Hc' & Hl')].
      * exists c, tl. rewrite <- E1. auto.
      * exists c', tl'. repeat split; auto. lia.
  - destruct IHReach as [Ea Sa].
    split; intros Hs; apply andb_true_iff in Hs; destruct Hs; auto.
  - destruct IHReach as [Eb Sb].
    split; intros Hs; apply andb_true_iff in Hs; destruct Hs; auto.
  - split; [auto|]. intros Hs. destruct (negb (Nat.eqb min 0)); discriminate.
  - destruct IHReach1 as [Ea Sa]. destruct IHReach2 as [Eb Sb]. simpl in *.
    pose proof (reach_length H1) as Hlen. split; intros Hs.
    + destruct (Ea Hs) as [E1|(c & tl & E & Hc & Hl)].
      * destruct (Eb Hs) as [E2|(c & tl & E & Hc & Hl)].
        -- left. congruence.
        -- right. exists c, tl. rewrite <- E1. auto.
      * right. exists c, tl. repeat split; auto. lia.
    + rewrite !andb_true_iff in Hs. destruct Hs as [_ Hs].
      destruct (Sa Hs) as (c & tl & E & Hc & Hl). exists c, tl. repeat split; auto. lia.
  - exact IHReach.
Qed.

(** A solid pattern consumes at least one character, and its first
    character is not white space. *)
Lemma reach_solid (r : regex) (x y : MatchState) :
  Reach ic r x y -> solid r = true ->
  exists c tl, rest x = c :: tl /\ isSpace c = false /\ length (rest y) <= length tl.
Proof. intros H. apply (reach_starts H). Qed.

Lemma reach_width (r : regex) (x y : MatchState) :
  Reach ic r x y ->
  forall w, maxWidth r = Some w -> length (rest x) <= length (rest y) + w.
Proof.
  induction 1; simpl; intros w Hw; try (inversion Hw; subst; clear Hw); try lia.
  - rewrite H. simpl. lia.
  - rewrite H. simpl. lia.
  - rewrite H. simpl. lia.
  - destruct (maxWidth a) as [wa|]; [|discriminate].
    destruct (maxWidth b) as [wb|]; [|discriminate]. inversion H2; subst.
    specialize (IHReach1 _ eq_refl). specialize (IHReach2 _ eq_refl). lia.
  - destruct (maxWidth a) as [wa|]; [|discriminate].
    destruct (maxWidth b) as [wb|]; [|discriminate]. inversion H1; subst.
    specialize (IHReach _ eq_refl). lia.
  - destruct (maxWidth a) as [wa|]; [|discriminate].
    destruct (maxWidth b) as [wb|]; [|discriminate]. inversion H1; subst.
    specialize (IHReach _ eq_refl). lia.
  - destruct max as [[|mx]|]; try discriminate.
    destruct (maxWidth a) as [wa|] eqn:Ea; [|discriminate]. inversion H3; subst.
    specialize (IHReach1 _ eq_refl). simpl in IHReach1.
    specialize (IHReach2 (mx * wa)). simpl in IHReach2. rewrite Ea in IHReach2.
    specialize (IHReach2 eq_refl). lia.
  - auto.
Qed.

Lemma consumed_length (x y : MatchState) :
  length (consumed x y) <= length (rest x) - length (rest y).
Proof. unfold consumed. rewrite length_firstn. lia. Qed.

Lemma consumed_app (x y : MatchState) (s : jsstring) :
  rest x = s ++ rest y -> consumed x y = s.
Proof.
  intros E. unfold consumed. rewrite E, length_app.
  replace (length s + length (rest y) - length (rest y)) with (length s) by lia.
  now rewrite firstn_app, firstn_all, Nat.sub_diag, app_nil_r.
Qed.

(** Whatever holds of everything a checked pattern consumes holds of
    what group [n] holds at the end. *)
Lemma reach_cap_inv (P : jsstring -> Prop) (chk : regex -> bool)
      (Hchk : forall a x y, Reach ic a x y -> chk a = true -> P (consumed x y))
      (n : nat) (r : regex) (x y : MatchState) :
  Reach ic r x y -> capAll n chk r = true ->
  (forall s, caps x n = Some s -> P s) ->
  forall s, caps y n = Some s -> P s.
Proof.
  induction 1; simpl; intros Hc Hx; auto.
  - apply andb_true_iff in Hc. destruct Hc. auto.
  - apply andb_true_iff in Hc. destruct Hc. auto.
  - apply andb_true_iff in Hc. destruct Hc. auto.
  - apply IHReach2; [exact Hc|]. apply IHReach1; [exact Hc|]. simpl.
    intros s. destruct (existsb (Nat.eqb n) (groups_of a)); [discriminate|auto].
  - apply andb_true_iff in Hc. destruct Hc as [Hj Hc]. intros s.
    destruct (Nat.eqb n n0) eqn:E; [|now apply IHReach].
    simpl in Hj. intros Hs. inversion Hs; subst. exact (Hchk a x y H Hj).
Qed.

Lemma narrow_consumed (w : nat) (a : regex) (x y : MatchState) :
  Reach ic a x y -> narrow w a = true -> length (consumed x y) <= w.
Proof.
  unfold narrow. intros H Hn. destruct (maxWidth a) as [wa|] eqn:Ea; [|discriminate].
  apply Nat.leb_le in Hn. pose proof (consumed_length x y).
  pose proof (reach_width H Ea). lia.
Qed.

Lemma solid_consumed (a : regex) (x y : MatchState) :
  Reach ic a x y -> solid a = true ->
  exists c tl, consumed x y = c :: tl /\ isSpace c = false.
Proof.
  intros H Hs. destruct (reach_solid H Hs) as (c & tl & E & Hc & Hl).
  unfold consumed. rewrite E, firstn_solid by exact Hl. eauto.
Qed.

Lemma ends_fst_snd (r : regex) : fst (ends r) = true -> snd (ends r) = true.
Proof.
  induction r; simpl; auto; try discriminate.
  - destruct invert; auto.
  - intros H. apply orb_true_iff in H. apply orb_true_iff. destruct H as [H|H]; [now left|].
    right. apply andb_true_iff in H. destruct H as [H1 H2]. rewrite H1. auto.
  - intros H. apply andb_true_iff in H. destruct H as [H1 H2]. rewrite IHr1, IHr2; auto.
  - intros H. rewrite !andb_true_iff in H. tauto.
Qed.

Lemma reach_ends (r : regex) (x y : MatchState) :
  Reach ic r x y ->
  (snd (ends r) = true ->
   rest y = rest x \/ exists s c, rest x = s ++ c :: rest y /\ isSpace c = false) /\
  (fst (ends r) = true ->
   exists s c, rest x = s ++ c :: rest y /\ isSpace c = false).
Proof.
  induction 1; simpl; try solve [split; [auto|discriminate]]; try solve [split; discriminate].
  - assert (Hc : negb (isSpace a) = true ->
                 exists s c0, rest x = s ++ c0 :: tl /\ isSpace c0 = false).
    { intros Hs. exists [], c. split; [exact H|].
      eapply chr_matches_solid; eauto. now apply negb_true_iff. }
    split; auto.
  - destruct inv; [split; discriminate|].
    assert (Hc : forallb item_solid items = true ->
                 exists s c0, rest x = s ++ c0 :: tl /\ isSpace c0 = false).
    { intros Hs. exists [], c. split; [exact H|]. eapply set_matches_solid; eauto. }
    split; auto.
  - destruct IHReach1 as [Ea Sa]. destruct IHReach2 as [Eb Sb].
    destruct (reach_rest H) as (s0 & E0).
    assert (Hlast : (exists s c, rest y = s ++ c :: rest z /\ isSpace c = false) ->
                    exists s c, rest x = s ++ c :: rest z /\ isSpace c = false).
    { intros (s & c & E & Hc). exists (s0 ++ s), c. split; [|exact Hc].
      now rewrite E0, E, app_assoc. }
    split; intros Hs; apply orb_true_iff in Hs; destruct Hs as [Hs|Hs]; auto;
      apply andb_true_iff in Hs; destruct Hs as [Hs1 Hs2].
    + destruct (Eb Hs1) as [E1|Hz]; [|auto].
      destruct (Ea Hs2) as [E2|(s & c & E & Hc)].
      * left. congruence.
      * right. exists s, c. rewrite E1. auto.
    + destruct (Eb Hs1) as [E1|Hz]; [|auto].
      destruct (Sa Hs2) as (s & c & E & Hc). exists s, c. rewrite E1. auto.
  - destruct IHReach as [Ea Sa].
    split; intros Hs; apply andb_true_iff in Hs; destruct Hs; auto.
  - destruct IHReach as [Eb Sb].
    split; intros Hs; apply andb_true_iff in Hs; destruct Hs; auto.
  - split; [auto|]. intros Hs. destruct (negb (Nat.eqb min 0)); discriminate.
  - destruct IHReach1 as [Ea Sa]. destruct IHReach2 as [Eb Sb]. simpl in *.
    destruct (reach_rest H0) as (s0 & E0). simpl in E0.
    assert (Hlast : (exists s c, rest y = s ++ c :: rest z /\ isSpace c = false) ->
                    exists s c, rest x = s ++ c :: rest z /\ isSpace c = false).
    { intros (s & c & E & Hc). exists (s0 ++ s), c. split; [|exact Hc].
      now rewrite E0, E, app_assoc. }
    split; intros Hs.
    + destruct (Eb Hs) as [E1|Hz]; [|auto].
      destruct (Ea Hs) as [E2|(s & c & E & Hc)].
      * left. congruence.
      * right. exists s, c. rewrite E1. auto.
    + rewrite !andb_true_iff in Hs. destruct Hs as [[_ Hs1] Hs2].
      destruct (Eb Hs2) as [E1|Hz]; [|auto].
      destruct (Sa Hs1) as (s & c & E & Hc). exists s, c. rewrite E1. auto.
  - exact IHReach.
Qed.

Lemma solidEnd_consumed (a : regex) (x y : MatchState) :
  Reach ic a x y -> solidEnd a = true ->
  exists s c, consumed x y = s ++ [c] /\ isSpace c = false.
Proof.
  intros H Hs. destruct (proj2 (reach_ends H) Hs) as (s & c & E & Hc).
  exists s, c. split; [|exact Hc]. apply consumed_app.
  now rewrite E, <- app_assoc.
Qed.

End Matcher.

(** * Properties of [exec] and [matchAll] *)

(** A successful [exec] comes from a run of the pattern at some
    position of the text. *)
Lemma execFrom_reach (re : RegExp) (s : jsstring) :
  forall p i res,
    execFrom re p s i = Some res ->
    exists p' s' y,
      Reach (ignoreCase re) (pattern re) (initial p' s') y /\
      matched res = firstn (length s' - length (rest y)) s' /\
      groups res = caps y.
Proof.
  induction s as [|c tl IH]; intros p i res H; simpl in H.
  - destruct (matchAt re p []) as [y|] eqn:E; [|discriminate].
    inversion H; subst; clear H. apply m_sound in E. destruct E as (y' & Hy & E).
    inversion E; subst. exists p, [], y. auto.
  - destruct (matchAt re p (c :: tl)) as [y|] eqn:E.
    + inversion H; subst; clear H. apply m_sound in E. destruct E as (y' & Hy & E).
      inversion E; subst. exists p, (c :: tl), y. auto.
    + eapply IH; eauto.
Qed.

Lemma matchAllFrom_reach (re : RegExp) (s : jsstring) :
  forall p skip mt,
    In mt (matchAllFrom re p s skip) ->
    exists p' s' y,
      Reach (ignoreCase re) (pattern re) (initial p' s') y /\
      mt = firstn (length s' - length (rest y)) s'.
Proof.
  induction s as [|c tl IH]; intros p skip mt H; destruct skip; simpl in H.
  - destruct (matchAt re p []) as [y|] eqn:E; [|contradiction].
    destruct H as [H|[]]. apply m_sound in E. destruct E as (y' & Hy & E).
    inversion E; subst. exists p, [], y. auto.
  - contradiction.
  - destruct (matchAt re p (c :: tl)) as [y|] eqn:E.
    + destruct H as [H|H]; [|eapply IH; eauto].
      apply m_sound in E. destruct E as (y' & Hy & E).
      inversion E; subst. exists p, (c :: tl), y. auto.
    + eapply IH; eauto.
  - eapply IH; eauto.
Qed.

(** A capture the pattern always sets can be read after a match. *)
Lemma exec_capture (re : RegExp) (n : nat) (t : jsstring) (res : MatchResult) :
  sets n (pattern re) = true -> exec re t = Some res -> exists g, capture res n = Ok g.
Proof.
  intros Hs H. apply execFrom_reach in H. destruct H as (p & s & y & Hy & _ & Hg).
  unfold capture. rewrite Hg. pose proof (reach_sets n Hy Hs) as Hn.
  destruct (caps y n) as [g|]; [now exists g|contradiction].
Qed.

(** The match of a solid pattern starts with a character that is not
    white space. *)
Lemma exec_solid (re : RegExp) (t : jsstring) (res : MatchResult) :
  solid (pattern re) = true -> exec re t = Some res ->
  exists c tl, matched res = c :: tl /\ isSpace c = false.
Proof.
  intros Hs H. apply execFrom_reach in H. destruct H as (p & s & y & Hy & Hm & _).
  destruct (reach_solid Hy Hs) as (c & tl & E & Hc & Hl). simpl in E. subst s.
  rewrite Hm, firstn_solid by exact Hl. eauto.
Qed.

Lemma matchAll_solid (re : RegExp) (t mt : jsstring) :
  solid (pattern re) = true -> In mt (matchAll re t) ->
  exists c tl, mt = c :: tl /\ isSpace c = false.
Proof.
  intros Hs H. apply matchAllFrom_reach in H. destruct H as (p & s & y & Hy & Hm).
  destruct (reach_solid Hy Hs) as (c & tl & E & Hc & Hl). simpl in E. subst s.
  rewrite Hm, firstn_solid by exact Hl. eauto.
Qed.

Lemma exec_cap_inv (P : jsstring -> Prop) (chk : regex -> bool) (re : RegExp)
      (Hchk : forall a x y,
          Reach (ignoreCase re) a x y -> chk a = true -> P (consumed x y))
      (n : nat) (t : jsstring) (res : MatchResult) :
  capAll n chk (pattern re) = true -> exec re t = Some res ->
  forall s, groups res n = Some s -> P s.
Proof.
  intros Hc H. apply execFrom_reach in H. destruct H as (p & s' & y & Hy & _ & Hg).
  rewrite Hg. eapply reach_cap_inv; eauto. simpl. discriminate.
Qed.

Lemma exec_cap_width (re : RegExp) (n w : nat) (t : jsstring) (res : MatchResult) :
  capWidth n w (pattern re) = true -> exec re t = Some res ->
  forall s, groups res n = Some s -> length s <= w.
Proof.
  apply (exec_cap_inv (fun s => length s <= w)).
  intros a x y. apply narrow_consumed.
Qed.

(** A capture of a solid group starts with a character that is not
    white space. *)
Lemma exec_cap_solid (re : RegExp) (n : nat) (t : jsstring) (res : MatchResult) :
  capAll n solid (pattern re) = true -> exec re t = Some res ->
  forall s, groups res n = Some s -> exists c tl, s = c :: tl /\ isSpace c = false.
Proof.
  apply (exec_cap_inv (fun s => exists c tl, s = c :: tl /\ isSpace c = false)).
  intros a x y. apply solid_consumed.
Qed.

Lemma exec_cap_solidEnd (re : RegExp) (n : nat) (t : jsstring) (res : MatchResult) :
  capAll n solidEnd (pattern re) = true -> exec re t = Some res ->
  forall s, groups res n = Some s -> exists s' c, s = s' ++ [c] /\ isSpace c = false.
Proof.
  apply (exec_cap_inv (fun s => exists s' c, s = s' ++ [c] /\ isSpace c = false)).
  intros a x y. apply solidEnd_consumed.
Qed.

(** * Properties of the string operations *)

Lemma trimStart_snoc (l : jsstring) (c : char) :
  isSpace c = false -> exists l', trimStart (l ++ [c]) = l' ++ [c].
Proof.
  intros Hc. induction l as [|a l IH]; simpl.
  - rewrite Hc. now exists [].
  - destruct (isSpace a); [exact IH|]. now exists (a :: l).
Qed.

Lemma trim_solid (c : char) (tl : jsstring) :
  isSpace c = false -> exists tl', trim (c :: tl) = c :: tl'.
Proof.
  intros Hc. unfold trim, trimEnd. simpl trimStart. rewrite Hc. simpl rev.
  destruct (trimStart_snoc (rev tl) c Hc) as (l' & ->).
  rewrite rev_app_distr. simpl. now exists (rev l').
Qed.

Lemma spaces_not_here (p : option char) (c : char) (tl : jsstring) :
  isSpace c = false -> matchAt re_spaces p (c :: tl) = None.
Proof.
  intros Hc. unfold matchAt, re_spaces, re, plus, ws. cbn. rewrite Hc. reflexivity.
Qed.

Lemma replaceAll_solid (by_ : jsstring) (c : char) (tl : jsstring) :
  isSpace c = false ->
  replaceAll re_spaces by_ (c :: tl) = c :: replaceAllFrom re_spaces by_ (Some c) tl 0.
Proof.
  intros Hc. unfold replaceAll. cbn [replaceAllFrom].
  now rewrite (@spaces_not_here None c tl Hc).
Qed.

(** * The extractors never read an undefined capture *)

Import ExParser.

Lemma decompose_total (s : jsstring) : exists v, decompose s = Ok v.
Proof.
  unfold decompose. destruct (exec re_prot s) eqn:E; [|eauto].
  destruct (exec_capture re_prot 1 s eq_refl E) as (g & ->). simpl. eauto.
Qed.

Lemma gas_total (ms t : jsstring) : exists v, gas ms t = Ok v.
Proof.
  unfold gas, firstOf. destruct (exec re_gasMarking ms) eqn:E1.
  - destruct (exec_capture re_gasMarking 1 ms eq_refl E1) as (g & ->). simpl. eauto.
  - destruct (exec re_gasText t) eqn:E2; [|eauto].
    destruct (exec_capture re_gasText 1 t eq_refl E2) as (g & ->). simpl. eauto.
Qed.

Lemma temperature_total (ms t : jsstring) : exists v, temperature ms t = Ok v.
Proof.
  unfold temperature, firstOf. destruct (exec re_temp ms) eqn:E1.
  - destruct (exec_capture re_temp 1 ms eq_refl E1) as (g & ->). simpl. eauto.
  - destruct (exec re_temp t) eqn:E2; [|eauto].
    destruct (exec_capture re_temp 1 t eq_refl E2) as (g & ->). simpl. eauto.
Qed.

Lemma protectionLevel_total (ms t : jsstring) : exists v, protectionLevel ms t = Ok v.
Proof.
  unfold protectionLevel, firstOf. destruct (exec re_epl ms) eqn:E1.
  - destruct (exec_capture re_epl 1 ms eq_refl E1) as (g & ->). simpl. eauto.
  - destruct (exec re_epl t) eqn:E2; [|eauto].
    destruct (exec_capture re_epl 1 t eq_refl E2) as (g & ->). simpl. eauto.
Qed.

Lemma zoneOf_total (t : jsstring) (e : option jsstring) : exists v, zoneOf t e = Ok v.
Proof.
  unfold zoneOf. destruct (exec re_zone t) eqn:E.
  - destruct (exec_capture re_zone 1 t eq_refl E) as (g & ->). simpl. eauto.
  - destruct (truthy e); [|eauto]. destruct (lookup eplZoneMap (orEmpty e)); eauto.
Qed.

Lemma ip_total (t : jsstring) : exists v, ip t = Ok v.
Proof.
  unfold ip. destruct (exec re_ip t) eqn:E; [|eauto].
  destruct (exec_capture re_ip 1 t eq_refl E) as (g & ->). simpl. eauto.
Qed.

Lemma ambient_total (t : jsstring) : exists v, ambient t = Ok v.
Proof.
  unfold ambient. destruct (exec re_ambient t) eqn:E; [|eauto].
  destruct (exec_capture re_ambient 1 t eq_refl E) as (lo & ->).
  destruct (exec_capture re_ambient 3 t eq_refl E) as (hi & ->). simpl. eauto.
Qed.

Lemma labelled_total (reject : RegExp) (pats : list RegExp) (t : jsstring) :
  allSet 1 pats = true -> exists v, labelled reject pats t = Ok v.
Proof.
  induction pats as [|pat more IH]; simpl; intros H; [eauto|].
  apply andb_true_iff in H. destruct H as [Hp Hm].
  destruct (exec pat t) eqn:E; [|auto].
  destruct (exec_capture pat 1 t Hp E) as (g & ->). simpl.
  destruct (test reject (stripTail (trim g))); [auto|].
  destruct (Nat.ltb (length (stripTail (trim g))) 3); eauto.
Qed.

Lemma firstCapture_total (pats : list RegExp) (t : jsstring) :
  allSet 1 pats = true -> exists v, firstCapture pats t = Ok v.
Proof.
  induction pats as [|pat more IH]; simpl; intros H; [eauto|].
  apply andb_true_iff in H. destruct H as [Hp Hm].
  destruct (exec pat t) eqn:E; [|auto].
  destruct (exec_capture pat 1 t Hp E) as (g & ->). simpl. eauto.
Qed.

Lemma special_total (t : jsstring) : exists v, special t = Ok v.
Proof.
  unfold special. destruct (exec re_special t) eqn:E; [|eauto].
  destruct (exec_capture re_special 1 t eq_refl E) as (g & ->). simpl. eauto.
Qed.

Lemma categoryOf_total (t : jsstring) : exists v, categoryOf t = Ok v.
Proof.
  unfold categoryOf, firstOf. destruct (exec re_categoryMark t) eqn:E1.
  - destruct (exec_capture re_categoryMark 1 t eq_refl E1) as (g & ->). simpl. eauto.
  - destruct (exec re_categoryLabel t) eqn:E2; [|eauto].
    destruct (exec_capture re_categoryLabel 1 t eq_refl E2) as (g & ->). simpl. eauto.
Qed.

Lemma groupOf_total (t : jsstring) : exists v, groupOf t = Ok v.
Proof.
  unfold groupOf. destruct (exec re_group t) eqn:E1.
  - destruct (exec_capture re_group 1 t eq_refl E1) as (g & ->). simpl. eauto.
  - destruct (exec re_groupAlt t) eqn:E2; [|eauto].
    destruct (exec_capture re_groupAlt 1 t eq_refl E2) as (g & ->). simpl. eauto.
Qed.

Ltac run_extractor :=
  match goal with
  | |- context [bind (decompose ?a) _] => destruct (decompose_total a) as (? & ->)
  | |- context [bind (gas ?a ?b) _] => destruct (gas_total a b) as (? & ->)
  | |- context [bind (temperature ?a ?b) _] => destruct (temperature_total a b) as (? & ->)
  | |- context [bind (protectionLevel ?a ?b) _] =>
      destruct (protectionLevel_total a b) as (? & ->)
  | |- context [bind (zoneOf ?a ?b) _] => destruct (zoneOf_total a b) as (? & ->)
  | |- context [bind (ip ?a) _] => destruct (ip_total a) as (? & ->)
  | |- context [bind (ambient ?a) _] => destruct (ambient_total a) as (? & ->)
  | |- context [bind (labelled ?r ?p ?a) _] =>
      destruct (labelled_total r p a eq_refl) as (? & ->)
  | |- context [bind (firstCapture ?p ?a) _] =>
      destruct (firstCapture_total p a eq_refl) as (? & ->)
  | |- context [bind (special ?a) _] => destruct (special_total a) as (? & ->)
  | |- context [bind (categoryOf ?a) _] => destruct (categoryOf_total a) as (? & ->)
  | |- context [bind (groupOf ?a) _] => destruct (groupOf_total a) as (? & ->)
  end; cbn [bind].

Lemma parse_total (t : jsstring) : exists r, parse t = Ok r.
Proof. unfold parse. repeat run_extractor. eauto. Qed.

(** The record [parse] returns, field by field. *)
Lemma parse_inv (t : jsstring) (r : CertificateRecord) :
  parse t = Ok r ->
  certNumber r = fst (certificate t) /\
  certType r = snd (certificate t) /\
  markings r = sortedMarkings t /\
  marking r = hd_error (markings r) /\
  decompose (orEmpty (marking r)) = Ok (protectionTypes r) /\
  gas (orEmpty (marking r)) t = Ok (gasGroup r, gasGroupInfo r) /\
  temperature (orEmpty (marking r)) t = Ok (tempClass r, tempClassMax r) /\
  protectionLevel (orEmpty (marking r)) t = Ok (epl r) /\
  zoneOf t (epl r) = Ok (zone r) /\
  ip t = Ok (ipRating r) /\
  ambient t = Ok (ambientTemp r) /\
  labelled re_mfrReject mfrPatterns t = Ok (manufacturer r) /\
  labelled re_eqReject eqPatterns t = Ok (equipment r) /\
  notifiedBody r = firstIncluded t sortedBodies /\
  firstCapture issuePats t = Ok (issueDate r) /\
  firstCapture expiryPats t = Ok (expiryDate r) /\
  special t = Ok (specialConditions r) /\
  standard r = standards t /\
  categoryOf t = Ok (category r) /\
  groupOf t = Ok (group r) /\
  raw r = t.
Proof.
  unfold parse.
  destruct (decompose (orEmpty (hd_error (sortedMarkings t)))) eqn:E1; [|discriminate].
  destruct (gas (orEmpty (hd_error (sortedMarkings t))) t) as [[]|] eqn:E2; [|discriminate].
  destruct (temperature (orEmpty (hd_error (sortedMarkings t))) t) as [[]|] eqn:E3;
    [|discriminate].
  destruct (protectionLevel (orEmpty (hd_error (sortedMarkings t))) t) eqn:E4; [|discriminate].
  cbn [bind].
  destruct (zoneOf t a0) eqn:E5; [|discriminate].
  destruct (ip t) eqn:E6; [|discriminate].
  destruct (ambient t) eqn:E7; [|discriminate].
  destruct (labelled re_mfrReject mfrPatterns t) eqn:E8; [|discriminate].
  destruct (labelled re_eqReject eqPatterns t) eqn:E9; [|discriminate].
  destruct (firstCapture issuePats t) eqn:E10; [|discriminate].
  destruct (firstCapture expiryPats t) eqn:E11; [|discriminate].
  destruct (special t) eqn:E12; [|discriminate].
  destruct (categoryOf t) eqn:E13; [|discriminate].
  destruct (groupOf t) eqn:E14; [|discriminate].
  cbn [bind]. intros H. inversion H; subst; clear H. cbn.
  repeat split; assumption.
Qed.

(** * Properties of sorting and of de-duplication *)

Lemma jsstring_eqb_eq (a b : jsstring) : jsstring_eqb a b = true <-> a = b.
Proof.
  revert b. induction a as [|x a IH]; destruct b as [|y b]; simpl; split; intros H;
    try discriminate; try reflexivity.
  - apply andb_true_iff in H. destruct H as [Hx Hab].
    apply N.eqb_eq in Hx. apply IH in Hab. now subst.
  - inversion H; subst. apply andb_true_iff. split; [apply N.eqb_refl|now apply IH].
Qed.

Lemma memStr_In (x : jsstring) (l : list jsstring) : memStr x l = true <-> In x l.
Proof.
  unfold memStr. rewrite existsb_exists. split.
  - intros (y & Hin & Hy). apply jsstring_eqb_eq in Hy. now subst.
  - intros Hin. exists x. split; [exact Hin|now apply jsstring_eqb_eq].
Qed.

Lemma addNew_In (acc : list jsstring) (x y : jsstring) :
  In y (addNew acc x) <-> In y acc \/ y = x.
Proof.
  unfold addNew. destruct (memStr x acc) eqn:E.
  - apply memStr_In in E. split; [auto|]. intros [H | ->]; auto.
  - rewrite in_app_iff. simpl. intuition.
Qed.

Lemma addNew_NoDup (acc : list jsstring) (x : jsstring) :
  NoDup acc -> NoDup (addNew acc x).
Proof.
  unfold addNew. intros H. destruct (memStr x acc) eqn:E; [exact H|].
  assert (Hx : ~ In x acc) by (rewrite <- memStr_In, E; discriminate).
  apply NoDup_rev in H. rewrite <- (rev_involutive (acc ++ [x])).
  apply NoDup_rev. rewrite rev_app_distr. simpl. constructor; [|exact H].
  now rewrite <- in_rev.
Qed.

Lemma collect_fold_In (ms : list jsstring) :
  forall acc c,
    In c (fold_left collect ms acc) <->
    In c acc \/ exists mt, In mt ms /\ c = collapseSpaces (trim mt).
Proof.
  induction ms as [|mt ms IH]; intros acc c; simpl.
  - split; [auto|]. intros [H|(mt & [] & _)]. exact H.
  - rewrite IH. unfold collect at 1. rewrite addNew_In. split.
    + intros [[H|H]|(mt' & Hin & H)]; eauto 6.
    + intros [H|(mt' & [<- | Hin] & H)]; eauto 6.
Qed.

Lemma collect_fold_NoDup (ms : list jsstring) :
  forall acc, NoDup acc -> NoDup (fold_left collect ms acc).
Proof.
  induction ms as [|mt ms IH]; intros acc H; simpl; [exact H|].
  apply IH. now apply addNew_NoDup.
Qed.

Lemma patterns_fold_In (t : jsstring) (pats : list RegExp) :
  forall acc c,
    In c (fold_left (fun all pat => fold_left collect (matchAll pat t) all) pats acc) <->
    In c acc \/
    exists pat mt, In pat pats /\ In mt (matchAll pat t) /\ c = collapseSpaces (trim mt).
Proof.
  induction pats as [|pat pats IH]; intros acc c; simpl.
  - split; [auto|]. intros [H|(pat & mt & [] & _)]. exact H.
  - rewrite IH, collect_fold_In. split.
    + intros [[H|(mt & Hin & H)]|(pat' & mt & Hp & Hin & H)]; eauto 8.
    + intros [H|(pat' & mt & [<- | Hp] & Hin & H)]; eauto 8.
Qed.

Lemma patterns_fold_NoDup (t : jsstring) (pats : list RegExp) :
  forall acc,
    NoDup acc ->
    NoDup (fold_left (fun all pat => fold_left collect (matchAll pat t) all) pats acc).
Proof.
  induction pats as [|pat pats IH]; intros acc H; simpl; [exact H|].
  apply IH. now apply collect_fold_NoDup.
Qed.

(** The candidates are exactly the cleaned matches of the five rules. *)
Lemma candidates_In (t c : jsstring) :
  In c (candidates t) <->
  exists pat mt,
    In pat markingPatterns /\ In mt (matchAll pat t) /\ c = collapseSpaces (trim mt).
Proof.
  unfold candidates. rewrite patterns_fold_In. simpl. intuition.
Qed.

Lemma candidates_NoDup (t : jsstring) : NoDup (candidates t).
Proof. apply patterns_fold_NoDup. constructor. Qed.

Lemma insertBy_perm (x : jsstring) (l : list jsstring) :
  Permutation (x :: l) (insertBy longerFirst x l).
Proof.
  induction l as [|y l IH]; simpl; [reflexivity|].
  destruct (longerFirst x y); [reflexivity|].
  rewrite perm_swap. now constructor.
Qed.

Lemma sortBy_perm (l : list jsstring) : Permutation l (sortBy longerFirst l).
Proof.
  induction l as [|x l IH]; simpl; [constructor|].
  rewrite <- insertBy_perm. now constructor.
Qed.

Lemma insertBy_sorted (x : jsstring) (l : list jsstring) :
  StronglySorted noShorterFirst l -> StronglySorted noShorterFirst (insertBy longerFirst x l).
Proof.
  induction 1 as [|y l Hl IH Hy]; simpl.
  - repeat constructor.
  - unfold longerFirst. destruct (Nat.leb (length y) (length x)) eqn:E.
    + apply Nat.leb_le in E. constructor; [now constructor|].
      constructor; [exact E|]. rewrite Forall_forall in *. intros z Hz.
      specialize (Hy z Hz). unfold noShorterFirst in *. lia.
    + apply Nat.leb_gt in E. constructor; [exact IH|].
      rewrite <- insertBy_perm. constructor; [unfold noShorterFirst; lia|exact Hy].
Qed.

Lemma sortBy_sorted (l : list jsstring) : StronglySorted noShorterFirst (sortBy longerFirst l).
Proof.
  induction l as [|x l IH]; simpl; [constructor|]. now apply insertBy_sorted.
Qed.

Lemma sorted_before (l : list jsstring) (a b : jsstring) :
  StronglySorted noShorterFirst l -> In a l -> In b l -> length b < length a ->
  before a b l.
Proof.
  induction 1 as [|y l Hl IH Hy]; intros Ha Hb Hlt; [contradiction|].
  rewrite Forall_forall in Hy. destruct Ha as [-> | Ha].
  - destruct Hb as [-> | Hb]; [lia|].
    apply in_split in Hb. destruct Hb as (l2 & l3 & ->). now exists [], l2, l3.
  - destruct Hb as [-> | Hb].
    + specialize (Hy a Ha). unfold noShorterFirst in Hy. lia.
    + destruct (IH Ha Hb Hlt) as (l1 & l2 & l3 & ->). now exists (y :: l1), l2, l3.
Qed.

Lemma sorted_head (l : list jsstring) (s : jsstring) :
  StronglySorted noShorterFirst l -> hd_error l = Some s ->
  forall c, In c l -> length c <= length s.
Proof.
  intros H Hh c Hc. destruct l as [|y l]; [discriminate|]. inversion Hh; subst.
  inversion H as [|? ? _ Hy]; subst. rewrite Forall_forall in Hy.
  destruct Hc as [-> | Hc]; [lia|]. now apply Hy.
Qed.

(** [find] on a list sorted longest first returns an element at least
    as long as any element that satisfies the test. *)
Lemma find_sorted (p : jsstring -> bool) (l : list jsstring) (x : jsstring) :
  StronglySorted noShorterFirst l -> In x l -> p x = true ->
  exists b, find p l = Some b /\ In b l /\ p b = true /\ length x <= length b.
Proof.
  induction 1 as [|y l Hl IH Hy]; intros Hx Hp; [contradiction|]. simpl.
  destruct (p y) eqn:E.
  - exists y. repeat split; auto. destruct Hx as [-> | Hx]; [lia|].
    rewrite Forall_forall in Hy. now apply Hy.
  - destruct Hx as [-> | Hx]; [congruence|].
    destruct (IH Hx Hp) as (b & Hf & Hb & Hpb & Hlen). exists b. auto.
Qed.

Lemma startsWith_length (p s : jsstring) : startsWith p s = true -> length p <= length s.
Proof.
  revert s. induction p as [|a p IH]; intros s H; simpl; [lia|].
  destruct s as [|b s]; [discriminate|]. simpl in H.
  apply andb_true_iff in H. destruct H as [_ H]. apply IH in H. simpl. lia.
Qed.

Lemma startsWith_same_length (p s : jsstring) :
  startsWith p s = true -> length p = length s -> p = s.
Proof.
  revert s. induction p as [|a p IH]; intros s H Hl; destruct s as [|b s];
    try discriminate; [reflexivity|].
  simpl in H. apply andb_true_iff in H. destruct H as [Hab H].
  apply N.eqb_eq in Hab. subst. f_equal. apply IH; auto.
Qed.

(** A proper substring is shorter. *)
Lemma includes_shorter (s p : jsstring) :
  includes s p = true -> p <> s -> length p < length s.
Proof.
  revert p. induction s as [|c s IH]; intros p H Hne; simpl in H.
  - rewrite orb_false_r in H. destruct p; [contradiction|discriminate].
  - apply orb_true_iff in H. destruct H as [H|H].
    + pose proof (startsWith_length _ _ H) as Hl.
      destruct (Nat.eq_dec (length p) (length (c :: s))) as [E|E]; [|lia].
      elim Hne. now apply startsWith_same_length.
    + destruct (list_eq_dec N.eq_dec p s) as [-> | Hps]; [simpl; lia|].
      specialize (IH p H Hps). simpl. lia.
Qed.

(** * The certificate number and its type *)

Lemma solid_truthy_collapsed (s : jsstring) (c : char) (tl : jsstring) :
  s = c :: tl -> isSpace c = false -> truthy (Some (trim (collapseSpaces s))) = true.
Proof.
  intros -> Hc. unfold collapseSpaces. rewrite replaceAll_solid by exact Hc.
  destruct (trim_solid c (replaceAllFrom re_spaces (str " ") (Some c) tl 0) Hc) as (tl' & ->).
  reflexivity.
Qed.

Lemma solid_truthy_removed (s : jsstring) (c : char) (tl : jsstring) :
  s = c :: tl -> isSpace c = false -> truthy (Some (trim (removeSpaces s))) = true.
Proof.
  intros -> Hc. unfold removeSpaces. rewrite replaceAll_solid by exact Hc.
  destruct (trim_solid c (replaceAllFrom re_spaces [] (Some c) tl 0) Hc) as (tl' & ->).
  reflexivity.
Qed.

(** The first of the three patterns that matches decides the number and
    the type; the later ones are not tried because the stored number is
    never the empty string. *)
Lemma certificate_first_match (t : jsstring) :
  certificate t =
  match exec re_iecex t with
  | Some iecex =>
      (Some (trim (collapseSpaces (matched iecex))),
       match exec re_atexAlso t with Some _ => Some IECEx_ATEX | None => Some IECEx end)
  | None =>
      match exec re_atex t with
      | Some atex => (Some (trim (removeSpaces (matched atex))), Some ATEX)
      | None =>
          match exec re_ukca t with
          | Some ukca => (Some (trim (matched ukca)), Some UKCA)
          | None => (None, None)
          end
      end
  end.
Proof.
  unfold certificate, certIecex, certAtex, certUkca, certDual.
  destruct (exec re_iecex t) as [iecex|] eqn:E1.
  - destruct (exec_solid re_iecex t eq_refl E1) as (c & tl & Hm & Hc).
    cbn [fst snd].
    repeat (rewrite (solid_truthy_collapsed Hm Hc); cbn [negb fst snd]).
    change (eqOpt (Some IECEx) IECEx) with true. cbv iota.
    destruct (exec re_atexAlso t); reflexivity.
  - cbn [fst snd truthy negb].
    destruct (exec re_atex t) as [atex|] eqn:E2.
    + destruct (exec_solid re_atex t eq_refl E2) as (c & tl & Hm & Hc).
      cbn [fst snd].
      repeat (rewrite (solid_truthy_removed Hm Hc); cbn [negb fst snd]).
      reflexivity.
    + cbn [fst snd truthy negb].
      destruct (exec re_ukca t) as [ukca|] eqn:E3; reflexivity.
Qed.



(** C10.  [certNumber] is absent exactly when [certType] is absent. *)
Theorem number_absent_iff_type_absent (t : jsstring) (r : CertificateRecord) :
  parse t = Ok r -> (certNumber r = None <-> certType r = None).
Proof.
  intros H. apply parse_inv in H. destruct H as (Hn & Ht & _).
  rewrite Hn, Ht, certificate_first_match.
  destruct (exec re_iecex t).
  - destruct (exec re_atexAlso t); cbn [fst snd]; split; discriminate.
  - destruct (exec re_atex t); [cbn [fst snd]; split; discriminate|].
    destruct (exec re_ukca t); cbn [fst snd]; split; (discriminate || reflexivity).
Qed.

Lemma number_absent_iff_type_absent_witness :
  certNumber twoMarkingsRecord = None <-> certType twoMarkingsRecord = None.
Proof.
  apply (@number_absent_iff_type_absent twoMarkingsText twoMarkingsRecord).
  vm_compute. reflexivity.
Defined.

(** * Confidence *)

Lemma addWeight_fold_lower (l : list (bool * Z)) :
  Forall (fun e => (0 <= snd e)%Z) l ->
  forall acc, (acc <= fold_left addWeight l acc)%Z.
Proof.
  induction 1 as [|e l He Hl IH]; intros acc; simpl; [lia|].
  specialize (IH (addWeight acc e)). unfold addWeight in *.
  destruct (fst e); lia.
Qed.

Lemma addWeight_fold_upper (l : list (bool * Z)) :
  Forall (fun e => (0 <= snd e)%Z) l ->
  forall acc, (fold_left addWeight l acc <= acc + fold_right Z.add 0 (map snd l))%Z.
Proof.
  induction 1 as [|e l He Hl IH]; intros acc; simpl; [lia|].
  specialize (IH (addWeight acc e)). unfold addWeight in *.
  destruct (fst e); lia.
Qed.

Lemma weights_nonnegative (r : CertificateRecord) :
  Forall (fun e => (0 <= snd e)%Z) (weighted r).
Proof. unfold weighted. repeat constructor; simpl; lia. Qed.

(** C7.  For every record the confidence is an integer between 0 and 100. *)
Theorem confidence_bounds (r : CertificateRecord) : (0 <= confidence r <= 100)%Z.
Proof.
  unfold confidence.
  pose proof (addWeight_fold_lower (weights_nonnegative r) 0%Z). cbv zeta. lia.
Qed.

(** The weights add up to 100, so the cap never cuts. *)
Lemma confidence_is_the_sum (r : CertificateRecord) :
  confidence r = fold_left addWeight (weighted r) 0%Z.
Proof.
  unfold confidence. cbv zeta.
  pose proof (addWeight_fold_upper (weights_nonnegative r) 0%Z) as H.
  change (fold_right Z.add 0 (map snd (weighted r)))%Z with 100%Z in H. lia.
Qed.

(** * Protection types *)

(** In the application's parser [protectionTypes] is the decomposition
    of the selected [marking] and depends on nothing else: two texts
    with the same [marking] have the same [protectionTypes], and without
    a marking the list is empty. *)
Theorem protection_types_from_marking (t : jsstring) (r : CertificateRecord) :
  parse t = Ok r ->
  decompose (orEmpty (marking r)) = Ok (protectionTypes r) /\
  (marking r = None -> protectionTypes r = []) /\
  (forall t' r', parse t' = Ok r' -> marking r' = marking r ->
                 protectionTypes r' = protectionTypes r).
Proof.
  intros H. apply parse_inv in H. destruct H as (_ & _ & _ & _ & Hp & _).
  split; [exact Hp|]. split.
  - intros Hm. rewrite Hm in Hp. vm_compute in Hp. now inversion Hp.
  - intros t' r' H' Hm. apply parse_inv in H'. destruct H' as (_ & _ & _ & _ & Hp' & _).
    rewrite Hm, Hp in Hp'. now inversion Hp'.
Qed.

Lemma protection_types_from_marking_witness :
  protectionTypes scenarioRecord = protectionTypes twoMarkingsRecord.
Proof.
  destruct (@protection_types_from_marking twoMarkingsText twoMarkingsRecord) as (_ & _ & H).
  - vm_compute. reflexivity.
  - apply (H scenarioText); vm_compute; reflexivity.
Defined.

(** * Zone *)

Lemma endsWith_length (s p : jsstring) : endsWith s p = true -> length p <= length s.
Proof.
  unfold endsWith. intros H. apply startsWith_length in H. now rewrite !length_rev in H.
Qed.

(** What [zoneOf] computes from the text and the protection level. *)
Lemma zoneOf_explicit_else_derived (t : jsstring) (e z : option jsstring) :
  zoneOf t e = Ok z ->
  (forall zoneMatch,
      exec re_zone t = Some zoneMatch ->
      exists digits,
        groups zoneMatch 1 = Some digits /\ length digits <= 2 /\
        z = Some (str "Zone " ++ digits) /\
        endsWith (str "Zone " ++ digits) (str " (derived from EPL)") = false) /\
  (exec re_zone t = None ->
   z =
     match e with
     | Some e =>
         match lookup eplZoneMap e with
         | Some derived => Some (str "Zone " ++ derived ++ str " (derived from EPL)")
         | None => None
         end
     | None => None
     end) /\
  (exec re_zone t = None -> e = Some (str "Gb") ->
   z = Some (str "Zone 1 (derived from EPL)")) /\
  (forall v, z = Some v -> endsWith v (str " (derived from EPL)") = true ->
             exec re_zone t = None /\ e <> None).
Proof.
  intros Hz. unfold zoneOf in Hz.
  assert (Hexplicit : forall zoneMatch,
             exec re_zone t = Some zoneMatch ->
             exists digits,
               groups zoneMatch 1 = Some digits /\ length digits <= 2 /\
               z = Some (str "Zone " ++ digits) /\
               endsWith (str "Zone " ++ digits) (str " (derived from EPL)") = false).
  { intros zm E. rewrite E in Hz.
    destruct (exec_capture re_zone 1 t eq_refl E) as (g & Hg). rewrite Hg in Hz.
    cbn [bind] in Hz. inversion Hz as [Hzone]. unfold capture in Hg.
    destruct (groups zm 1) as [d|] eqn:Ed; [|discriminate]. inversion Hg; subst d.
    pose proof (exec_cap_width re_zone 1 2 t eq_refl E Ed) as Hlen.
    exists g. repeat split; auto.
    destruct (endsWith (str "Zone " ++ g) (str " (derived from EPL)")) eqn:Ee; [|reflexivity].
    apply endsWith_length in Ee. rewrite length_app in Ee. simpl in Ee. lia. }
  assert (Hderived : exec re_zone t = None ->
             z =
               match e with
               | Some e =>
                   match lookup eplZoneMap e with
                   | Some derived => Some (str "Zone " ++ derived ++ str " (derived from EPL)")
                   | None => None
                   end
               | None => None
               end).
  { intros E. rewrite E in Hz. destruct e as [[|c e]|]; cbn [truthy orEmpty] in Hz.
    - inversion Hz. reflexivity.
    - destruct (lookup eplZoneMap (c :: e)); inversion Hz; reflexivity.
    - inversion Hz. reflexivity. }
  split; [exact Hexplicit|]. split; [exact Hderived|]. split.
  - intros E He. rewrite (Hderived E), He. reflexivity.
  - intros v Hzone He. destruct (exec re_zone t) as [zm|] eqn:E.
    + destruct (Hexplicit zm eq_refl) as (d & _ & _ & Hzd & Hno).
      assert (Hzeq : v = str "Zone " ++ d) by congruence. subst v. congruence.
    + split; [reflexivity|]. rewrite (Hderived eq_refl) in Hzone.
      destruct e; discriminate.
Qed.

(** C4.  [zone] is "Zone " followed by the digits of the explicit match
    when the zone pattern matches, with nothing appended; only when it
    does not match and [epl] is present is [zone] looked up in the
    EPL-to-zone table and marked " (derived from EPL)"; with [epl] "Gb"
    and no zone match, [zone] is "Zone 1 (derived from EPL)". *)
Theorem zone_explicit_else_derived (t : jsstring) (r : CertificateRecord) :
  parse t = Ok r ->
  (forall zoneMatch,
      exec re_zone t = Some zoneMatch ->
      exists digits,
        groups zoneMatch 1 = Some digits /\ length digits <= 2 /\
        zone r = Some (str "Zone " ++ digits) /\
        endsWith (str "Zone " ++ digits) (str " (derived from EPL)") = false) /\
  (exec re_zone t = None ->
   zone r =
     match epl r with
     | Some e =>
         match lookup eplZoneMap e with
         | Some derived => Some (str "Zone " ++ derived ++ str " (derived from EPL)")
         | None => None
         end
     | None => None
     end) /\
  (exec re_zone t = None -> epl r = Some (str "Gb") ->
   zone r = Some (str "Zone 1 (derived from EPL)")) /\
  (forall z, zone r = Some z -> endsWith z (str " (derived from EPL)") = true ->
             exec re_zone t = None /\ epl r <> None).
Proof.
  intros H. apply parse_inv in H.
  destruct H as (_ & _ & _ & _ & _ & _ & _ & _ & Hz & _).
  exact (zoneOf_explicit_else_derived _ _ Hz).
Qed.

Lemma zone_explicit_else_derived_witness :
  zone twoMarkingsRecord = Some (str "Zone 1 (derived from EPL)").
Proof.
  destruct (@zone_explicit_else_derived twoMarkingsText twoMarkingsRecord) as (_ & _ & H & _).
  - vm_compute. reflexivity.
  - apply H; vm_compute; reflexivity.
Defined.

(** * Marking selection *)

Lemma sortedMarkings_facts (t : jsstring) :
  Permutation (candidates t) (sortedMarkings t) /\
  StronglySorted noShorterFirst (sortedMarkings t).
Proof. split; [apply sortBy_perm|apply sortBy_sorted]. Qed.

(** In the application's parser [markings] is the de-duplicated set of
    cleaned matches of the five marking rules, sorted by descending
    length, and [marking] is its first element, a longest candidate.
    When "Ex d IIC" and "Ex db IIC T4 Gb" are both candidates, [markings]
    lists the longer before the shorter, and [marking] is
    "Ex db IIC T4 Gb" when every other candidate is shorter than it. *)
Theorem marking_longest_first (t : jsstring) (r : CertificateRecord) :
  parse t = Ok r ->
  (forall c,
      In c (candidates t) <->
      exists pat mt,
        In pat markingPatterns /\ In mt (matchAll pat t) /\ c = collapseSpaces (trim mt)) /\
  NoDup (candidates t) /\
  Permutation (candidates t) (markings r) /\
  StronglySorted noShorterFirst (markings r) /\
  marking r = hd_error (markings r) /\
  (forall s, marking r = Some s ->
             In s (candidates t) /\ forall c, In c (candidates t) -> length c <= length s) /\
  (marking r = None <-> candidates t = []) /\
  (forall a b, In a (candidates t) -> In b (candidates t) -> length b < length a ->
               before a b (markings r)) /\
  (In (str "Ex d IIC") (candidates t) -> In (str "Ex db IIC T4 Gb") (candidates t) ->
   before (str "Ex db IIC T4 Gb") (str "Ex d IIC") (markings r)) /\
  (In (str "Ex db IIC T4 Gb") (candidates t) ->
   (forall c, In c (candidates t) -> c <> str "Ex db IIC T4 Gb" ->
              length c < length (str "Ex db IIC T4 Gb")) ->
   marking r = Some (str "Ex db IIC T4 Gb")).
Proof.
  intros H. apply parse_inv in H. destruct H as (_ & _ & Hms & Hm & _).
  destruct (sortedMarkings_facts t) as [Hperm Hsorted]. rewrite <- Hms in Hperm, Hsorted.
  assert (Hlongest : forall s, marking r = Some s ->
             In s (candidates t) /\ forall c, In c (candidates t) -> length c <= length s).
  { intros s Hs. rewrite Hm in Hs. split.
    - apply (Permutation_in _ (Permutation_sym Hperm)).
      destruct (markings r); inversion Hs; subst. now left.
    - intros c Hc. apply (sorted_head Hsorted Hs). now apply (Permutation_in _ Hperm). }
  assert (Hnone : marking r = None <-> candidates t = []).
  { rewrite Hm. split; intros E.
    - destruct (markings r); [|discriminate].
      now apply Permutation_sym, Permutation_nil in Hperm.
    - rewrite E in Hperm. apply Permutation_nil in Hperm. now rewrite Hperm. }
  assert (Hbefore : forall a b, In a (candidates t) -> In b (candidates t) ->
                                length b < length a -> before a b (markings r)).
  { intros a b Ha Hb Hlt.
    apply sorted_before; auto; now apply (Permutation_in _ Hperm). }
  split; [intros c; apply candidates_In|]. split; [apply candidates_NoDup|].
  split; [exact Hperm|]. split; [exact Hsorted|]. split; [exact Hm|].
  split; [exact Hlongest|]. split; [exact Hnone|]. split; [exact Hbefore|]. split.
  - intros Ha Hb. apply Hbefore; auto. simpl. lia.
  - intros Hin Hshort. destruct (marking r) as [s|] eqn:Es.
    + destruct (Hlongest s eq_refl) as [Hs Hmax].
      destruct (list_eq_dec N.eq_dec s (str "Ex db IIC T4 Gb")) as [-> | Hne]; [reflexivity|].
      specialize (Hshort s Hs Hne). specialize (Hmax _ Hin). lia.
    + destruct Hnone as [Hn _]. rewrite (Hn eq_refl) in Hin. contradiction.
Qed.

Lemma marking_longest_first_witness :
  marking twoMarkingsRecord = Some (str "Ex db IIC T4 Gb") /\
  before (str "Ex db IIC T4 Gb") (str "Ex d IIC") (markings twoMarkingsRecord).
Proof.
  destruct (@marking_longest_first twoMarkingsText twoMarkingsRecord)
    as (_ & _ & _ & _ & _ & _ & _ & _ & Hboth & Hfirst).
  - vm_compute. reflexivity.
  - split.
    + apply Hfirst.
      * vm_compute. auto.
      * intros c Hc Hne. vm_compute in Hc.
        destruct Hc as [<- | [<- | [<- | [<- | []]]]]; simpl; try lia. now elim Hne.
    + apply Hboth; vm_compute; auto.
Defined.

(** A text can contain both strings and a longer marking besides; the
    longest one is selected. *)
Lemma marking_longest_of_three :
  includes threeMarkingsText (str "Ex d IIC") = true /\
  includes threeMarkingsText (str "Ex db IIC T4 Gb") = true /\
  exists r,
    parse threeMarkingsText = Ok r /\
    marking r = Some (str "Ex db eb IIC T4 Gb") /\
    marking r <> Some (str "Ex db IIC T4 Gb").
Proof.
  split; [vm_compute; reflexivity|]. split; [vm_compute; reflexivity|].
  exists (parsed threeMarkingsText). split; [vm_compute; reflexivity|].
  split; [vm_compute; reflexivity|]. vm_compute. discriminate.
Qed.

(** * Notified body *)

(** In the application's parser the body list is scanned longest name
    first, so with a known name and a known proper substring of it both
    in the text, the reported body is never the shorter one: it is a
    known name found in the text that is at least as long as the longer
    one, and the longer one itself when every other known name found in
    the text is shorter than it. *)
Theorem notified_body_longest_first (t : jsstring) (r : CertificateRecord) :
  parse t = Ok r ->
  notifiedBody r = find (fun body => includes t body) sortedBodies /\
  Permutation CERT_BODIES sortedBodies /\
  StronglySorted noShorterFirst sortedBodies /\
  (forall longer shorter,
      In longer CERT_BODIES -> In shorter CERT_BODIES ->
      shorter <> longer -> includes longer shorter = true ->
      includes t longer = true -> includes t shorter = true ->
      exists body,
        notifiedBody r = Some body /\ In body CERT_BODIES /\ includes t body = true /\
        length longer <= length body /\ body <> shorter /\
        ((forall other, In other CERT_BODIES -> includes t other = true ->
                        other <> longer -> length other < length longer) ->
         body = longer)).
Proof.
  intros H. apply parse_inv in H.
  destruct H as (_ & _ & _ & _ & _ & _ & _ & _ & _ & _ & _ & _ & _ & Hb & _).
  unfold firstIncluded in Hb.
  assert (Hperm : Permutation CERT_BODIES sortedBodies) by apply sortBy_perm.
  assert (Hsorted : StronglySorted noShorterFirst sortedBodies) by apply sortBy_sorted.
  split; [exact Hb|]. split; [exact Hperm|]. split; [exact Hsorted|].
  intros longer shorter Hl Hs Hne Hsub Htl Hts.
  destruct (@find_sorted (fun body => includes t body) sortedBodies longer Hsorted
                         (Permutation_in _ Hperm Hl) Htl) as (body & Hf & Hin & Hp & Hlen).
  apply (Permutation_in _ (Permutation_sym Hperm)) in Hin.
  pose proof (@includes_shorter longer shorter Hsub Hne) as Hlt.
  exists body. split; [now rewrite Hb|]. split; [exact Hin|]. split; [exact Hp|].
  split; [exact Hlen|]. split.
  - intros ->. lia.
  - intros Hother. destruct (list_eq_dec N.eq_dec body longer) as [E|E]; [exact E|].
    specialize (Hother body Hin Hp E). lia.
Qed.

Lemma notified_body_longest_first_witness :
  notifiedBody (parsed twoBodiesText) = Some (str "SGS-CSTC").
Proof.
  destruct (@notified_body_longest_first twoBodiesText (parsed twoBodiesText))
    as (_ & _ & _ & H).
  - vm_compute. reflexivity.
  - assert (Hin1 : In (str "SGS-CSTC") CERT_BODIES) by (vm_compute; tauto).
    assert (Hin2 : In (str "SGS") CERT_BODIES) by (vm_compute; tauto).
    assert (Hne : str "SGS" <> str "SGS-CSTC") by discriminate.
    assert (Hsub : includes (str "SGS-CSTC") (str "SGS") = true) by (vm_compute; reflexivity).
    assert (Ht1 : includes twoBodiesText (str "SGS-CSTC") = true) by (vm_compute; reflexivity).
    assert (Ht2 : includes twoBodiesText (str "SGS") = true) by (vm_compute; reflexivity).
    destruct (H (str "SGS-CSTC") (str "SGS") Hin1 Hin2 Hne Hsub Ht1 Ht2)
      as (body & Hb & _ & _ & _ & _ & Hl).
    rewrite Hb. f_equal. apply Hl. intros other Hin Hinc Hother.
    assert (Hcheck : forallb (fun o => negb (includes twoBodiesText o)
                                       || jsstring_eqb o (str "SGS-CSTC")
                                       || Nat.ltb (length o) (length (str "SGS-CSTC")))
                             CERT_BODIES = true) by (vm_compute; reflexivity).
    rewrite forallb_forall in Hcheck. specialize (Hcheck other Hin). rewrite Hinc in Hcheck.
    simpl negb in Hcheck. simpl orb in Hcheck. apply orb_true_iff in Hcheck.
    destruct Hcheck as [E|E]; [apply jsstring_eqb_eq in E; contradiction|].
    now apply Nat.ltb_lt in E.
Defined.

(** When a third, longer known name is in the text as well, that name
    is reported. *)
Lemma notified_body_longest_of_three :
  In (str "SGS-CSTC") CERT_BODIES /\ In (str "SGS") CERT_BODIES /\
  includes (str "SGS-CSTC") (str "SGS") = true /\
  includes threeBodiesText (str "SGS-CSTC") = true /\
  includes threeBodiesText (str "SGS") = true /\
  exists r,
    parse threeBodiesText = Ok r /\
    notifiedBody r = Some (str "Bureau Veritas") /\
    notifiedBody r <> Some (str "SGS-CSTC").
Proof.
  split; [vm_compute; tauto|]. split; [vm_compute; tauto|].
  split; [vm_compute; reflexivity|]. split; [vm_compute; reflexivity|].
  split; [vm_compute; reflexivity|].
  exists (parsed threeBodiesText). split; [vm_compute; reflexivity|].
  split; [vm_compute; reflexivity|]. vm_compute. discriminate.
Qed.

(** * The scenario text *)

(** C5, as the code has it.  On the scenario text the manufacturer is
    the rest of the line, "Acme Corp  Zone 1"; the other fields are as
    listed and the confidence is 80. *)
Theorem scenario_record :
  exists r,
    parse scenarioText = Ok r /\
    certNumber r = Some (str "IECEx ABC 12.0001X") /\
    certType r = Some (str "IECEx") /\
    marking r = Some (str "Ex db IIC T4 Gb") /\
    gasGroup r = Some (str "IIC") /\
    tempClass r = Some (str "T4") /\
    epl r = Some (str "Gb") /\
    zone r = Some (str "Zone 1") /\
    manufacturer r = Some (str "Acme Corp  Zone 1") /\
    confidence r = 80%Z /\
    (70 <= confidence r)%Z.
Proof.
  exists scenarioRecord. split; [vm_compute; reflexivity|].
  repeat split; try reflexivity. vm_compute. discriminate.
Qed.

(** C5 as stated fails: the manufacturer is not "Acme Corp". *)
Lemma scenario_record_counterexample :
  ~ exists r,
      parse scenarioText = Ok r /\
      certNumber r = Some (str "IECEx ABC 12.0001X") /\
      certType r = Some (str "IECEx") /\
      marking r = Some (str "Ex db IIC T4 Gb") /\
      gasGroup r = Some (str "IIC") /\
      tempClass r = Some (str "T4") /\
      epl r = Some (str "Gb") /\
      zone r = Some (str "Zone 1") /\
      manufacturer r = Some (str "Acme Corp") /\
      (70 <= confidence r)%Z.
Proof.
  intros (r & Hp & _ & _ & _ & _ & _ & _ & _ & Hm & _).
  assert (E : parse scenarioText = Ok scenarioRecord) by (vm_compute; reflexivity).
  rewrite E in Hp. inversion Hp; subst r. vm_compute in Hm. discriminate.
Qed.

(** * Empty field values *)

(** C8 fails on the code.  On the text made of the label
    [Special Conditions:] and eleven spaces the pattern matches with a
    captured block of ten spaces; [parse] trims it and stores the empty
    string in [specialConditions], not null. *)
Theorem special_conditions_empty_string :
  exists r specMatch,
    exec re_special blankConditionsText = Some specMatch /\
    groups specMatch 1 = Some (str "          ") /\
    parse blankConditionsText = Ok r /\
    specialConditions r = Some [].
Proof.
  destruct (exec re_special blankConditionsText) as [specMatch|] eqn:E;
    [|vm_compute in E; discriminate].
  exists (parsed blankConditionsText), specMatch. split; [reflexivity|].
  split; [|split; vm_compute; reflexivity].
  assert (H : option_map (fun mt => groups mt 1) (exec re_special blankConditionsText)
              = Some (Some (str "          "))) by (vm_compute; reflexivity).
  rewrite E in H. cbn [option_map] in H. congruence.
Qed.

(** * Fields without a match *)

Lemma labelled_none (reject : RegExp) (pats : list RegExp) (t : jsstring) :
  (forall pat, In pat pats -> exec pat t = None) -> labelled reject pats t = Ok None.
Proof.
  induction pats as [|pat more IH]; intros H; simpl; [reflexivity|].
  rewrite (H pat) by now left. apply IH. intros p Hp. apply H. now right.
Qed.

Lemma firstCapture_none (pats : list RegExp) (t : jsstring) :
  (forall pat, In pat pats -> exec pat t = None) -> firstCapture pats t = Ok None.
Proof.
  induction pats as [|pat more IH]; intros H; simpl; [reflexivity|].
  rewrite (H pat) by now left. apply IH. intros p Hp. apply H. now right.
Qed.

Lemma find_none (p : jsstring -> bool) (l : list jsstring) :
  (forall x, In x l -> p x = false) -> find p l = None.
Proof.
  induction l as [|y l IH]; intros H; simpl; [reflexivity|].
  rewrite (H y) by now left. apply IH. intros x Hx. apply H. now right.
Qed.

(** The empty text gives the record with every field absent. *)
Lemma parse_empty : parse [] = Ok (blank []).
Proof. vm_compute. reflexivity. Qed.

(** * The iteration bound of [repeatMatcher] is never reached *)

Section Fuel.

Variable ic : bool.

Lemma repeatMatcher_ext (ma : MatchState -> Continuation -> option MatchState)
      (Hma : forall x k1 k2,
          (forall y, length (rest y) <= length (rest x) -> k1 y = k2 y) ->
          ma x k1 = ma x k2) :
  forall fuel min max g gs x k1 k2,
    (forall y, length (rest y) <= length (rest x) -> k1 y = k2 y) ->
    repeatMatcher fuel ma min max g gs x k1 = repeatMatcher fuel ma min max g gs x k2.
Proof.
  induction fuel as [|fuel IH]; intros min max g gs x k1 k2 Hk; simpl.
  - rewrite (Hk x) by lia. reflexivity.
  - rewrite (Hk x) by lia.
    assert (Hd : ma (clearcaps gs x)
                    (fun y =>
                       if Nat.eqb min 0 && Nat.eqb (length (rest y)) (length (rest x)) then None
                       else repeatMatcher fuel ma (Nat.pred min) (pred_max max) g gs y k1)
                 = ma (clearcaps gs x)
                      (fun y =>
                         if Nat.eqb min 0 && Nat.eqb (length (rest y)) (length (rest x)) then None
                         else repeatMatcher fuel ma (Nat.pred min) (pred_max max) g gs y k2)).
    { apply Hma. simpl. intros y Hy.
      destruct (Nat.eqb min 0 && Nat.eqb (length (rest y)) (length (rest x))); [reflexivity|].
      apply IH. intros y' Hy'. apply Hk. lia. }
    rewrite Hd. reflexivity.
Qed.

(** The matcher only looks at its continuation on states that are no
    further from the end of the input. *)
Lemma m_ext (r : regex) :
  forall x k1 k2,
    (forall y, length (rest y) <= length (rest x) -> k1 y = k2 y) ->
    m ic r x k1 = m ic r x k2.
Proof.
  induction r; intros x k1 k2 Hk; cbn [m].
  - apply Hk. lia.
  - unfold step. destruct (rest x) as [|c0 tl] eqn:E; [reflexivity|].
    destruct (chr_matches ic c c0); [|reflexivity]. apply Hk. simpl. lia.
  - unfold step. destruct (rest x) as [|c0 tl] eqn:E; [reflexivity|].
    destruct (xorb invert (set_matches ic items c0)); [|reflexivity]. apply Hk. simpl. lia.
  - unfold step. destruct (rest x) as [|c0 tl] eqn:E; [reflexivity|].
    destruct (negb (isLineTerminator c0)); [|reflexivity]. apply Hk. simpl. lia.
  - apply IHr1. intros y Hy. apply IHr2. intros y' Hy'. apply Hk. lia.
  - rewrite (IHr1 x k1 k2 Hk), (IHr2 x k1 k2 Hk). reflexivity.
  - apply repeatMatcher_ext; [exact IHr|exact Hk].
  - apply IHr. intros y Hy. apply Hk. simpl. lia.
  - destruct negate; destruct (m ic r x Some); try reflexivity; apply Hk; simpl; lia.
  - rewrite (Hk x) by lia. reflexivity.
  - rewrite (Hk x) by lia. reflexivity.
  - rewrite (Hk x) by lia. reflexivity.
Qed.

Lemma repeatMatcher_fuel (a : regex) :
  forall f1 f2 min max g x k,
    min + length (rest x) < f1 -> min + length (rest x) < f2 ->
    repeatMatcher f1 (m ic a) min max g (groups_of a) x k
    = repeatMatcher f2 (m ic a) min max g (groups_of a) x k.
Proof.
  induction f1 as [|f1 IH]; intros f2 min max g x k H1 H2; [lia|].
  destruct f2 as [|f2]; [lia|]. simpl.
  assert (Hd : m ic a (clearcaps (groups_of a) x)
                 (fun y =>
                    if Nat.eqb min 0 && Nat.eqb (length (rest y)) (length (rest x)) then None
                    else repeatMatcher f1 (m ic a) (Nat.pred min) (pred_max max) g
                                       (groups_of a) y k)
               = m ic a (clearcaps (groups_of a) x)
                   (fun y =>
                      if Nat.eqb min 0 && Nat.eqb (length (rest y)) (length (rest x)) then None
                      else repeatMatcher f2 (m ic a) (Nat.pred min) (pred_max max) g
                                         (groups_of a) y k)).
  { apply m_ext. simpl. intros y Hy.
    destruct (Nat.eqb min 0) eqn:Em; simpl.
    - destruct (Nat.eqb (length (rest y)) (length (rest x))) eqn:El; [reflexivity|].
      apply Nat.eqb_eq in Em. apply Nat.eqb_neq in El. subst min. apply IH; simpl; lia.
    - apply Nat.eqb_neq in Em. apply IH; lia. }
  rewrite Hd. reflexivity.
Qed.

(** More fuel than [m] gives to a repetition never changes the result. *)
Lemma repetition_fuel_irrelevant (a : regex) (min : nat) (max : option nat) (g : bool)
      (x : MatchState) (k : Continuation) (extra : nat) :
  m ic (Rep min max g a) x k
  = repeatMatcher (S (min + length (rest x)) + extra) (m ic a) min max g (groups_of a) x k.
Proof. cbn [m]. apply repeatMatcher_fuel; lia. Qed.

End Fuel.

(** * The parser under src/js/parser.js

    What the same statements look like on the older copy: it also
    returns a record for every text, assigns number and type together,
    uses the same zone rule and the same scorer, but it keeps the first
    marking, reads protection types from the text, scans the body list
    unsorted and stores label values unchecked. *)

Lemma js_decompose_total (t : jsstring) : exists v, ExParserJs.decompose t = Ok v.
Proof.
  unfold ExParserJs.decompose. destruct (exec ExParserJs.re_prot t) eqn:E; [|eauto].
  destruct (exec_capture ExParserJs.re_prot 1 t eq_refl E) as (g & ->). simpl. eauto.
Qed.

Lemma js_gas_total (t : jsstring) : exists v, ExParserJs.gas t = Ok v.
Proof.
  unfold ExParserJs.gas. destruct (exec re_gasText t) eqn:E; [|eauto].
  destruct (exec_capture re_gasText 1 t eq_refl E) as (g & ->). simpl. eauto.
Qed.

Lemma js_single_total (re : RegExp) (t prefix : jsstring) :
  sets 1 (pattern re) = true -> exists v, ExParserJs.single re t prefix = Ok v.
Proof.
  intros Hs. unfold ExParserJs.single. destruct (exec re t) eqn:E; [|eauto].
  destruct (exec_capture re 1 t Hs E) as (g & ->). simpl. eauto.
Qed.

Lemma js_labelled_total (pats : list RegExp) (t : jsstring) :
  allSet 1 pats = true -> exists v, ExParserJs.labelled pats t = Ok v.
Proof.
  induction pats as [|pat more IH]; simpl; intros H; [eauto|].
  apply andb_true_iff in H. destruct H as [Hp Hm].
  destruct (exec pat t) eqn:E; [|auto].
  destruct (exec_capture pat 1 t Hp E) as (g & ->). simpl. eauto.
Qed.

Lemma js_categoryOf_total (t : jsstring) : exists v, ExParserJs.categoryOf t = Ok v.
Proof.
  unfold ExParserJs.categoryOf, firstOf. destruct (exec re_categoryLabel t) eqn:E1.
  - destruct (exec_capture re_categoryLabel 1 t eq_refl E1) as (g & ->). simpl. eauto.
  - destruct (exec re_categoryMark t) eqn:E2; [|eauto].
    destruct (exec_capture re_categoryMark 1 t eq_refl E2) as (g & ->). simpl. eauto.
Qed.

Ltac run_js_extractor :=
  match goal with
  | |- context [bind (ExParserJs.decompose ?a) _] =>
      destruct (js_decompose_total a) as (? & ->)
  | |- context [bind (ExParserJs.gas ?a) _] => destruct (js_gas_total a) as (? & ->)
  | |- context [bind (ExParserJs.single ?r ?a ?p) _] =>
      destruct (js_single_total r a p eq_refl) as (? & ->)
  | |- context [bind (ExParserJs.labelled ?p ?a) _] =>
      destruct (js_labelled_total p a eq_refl) as (? & ->)
  | |- context [bind (ExParserJs.categoryOf ?a) _] =>
      destruct (js_categoryOf_total a) as (? & ->)
  end; cbn [bind].

(** It never reads an undefined capture either. *)
Lemma js_parse_total (t : jsstring) : exists r, ExParserJs.parse t = Ok r.
Proof. unfold ExParserJs.parse. repeat (first [run_js_extractor | run_extractor]). eauto. Qed.

Lemma js_parse_inv (t : jsstring) (r : ExParserJs.CertificateRecord) :
  ExParserJs.parse t = Ok r ->
  ExParserJs.certNumber r = fst (ExParserJs.certificate t) /\
  ExParserJs.certType r = snd (ExParserJs.certificate t) /\
  ExParserJs.marking r = ExParserJs.markingOf t /\
  ExParserJs.decompose t = Ok (ExParserJs.protectionTypes r) /\
  zoneOf t (ExParserJs.epl r) = Ok (ExParserJs.zone r) /\
  ExParserJs.notifiedBody r = firstIncluded t ExParserJs.CERT_BODIES /\
  ExParserJs.raw r = t.
Proof.
  unfold ExParserJs.parse.
  destruct (ExParserJs.decompose t) eqn:E1; [|discriminate].
  destruct (ExParserJs.gas t) as [[]|] eqn:E2; [|discriminate].
  destruct (ExParserJs.single re_temp t (str "T")) eqn:E3; [|discriminate].
  destruct (ExParserJs.single re_epl t []) eqn:E4; [|discriminate].
  cbn [bind].
  destruct (zoneOf t a1) eqn:E5; [|discriminate].
  destruct (ip t) eqn:E6; [|discriminate].
  destruct (ambient t) eqn:E7; [|discriminate].
  destruct (ExParserJs.labelled ExParserJs.mfrPatterns t) eqn:E8; [|discriminate].
  destruct (ExParserJs.labelled ExParserJs.eqPatterns t) eqn:E9; [|discriminate].
  destruct (firstCapture ExParserJs.issuePats t) eqn:E10; [|discriminate].
  destruct (firstCapture ExParserJs.expiryPats t) eqn:E11; [|discriminate].
  destruct (special t) eqn:E12; [|discriminate].
  destruct (ExParserJs.categoryOf t) eqn:E13; [|discriminate].
  destruct (ExParserJs.single re_group t []) eqn:E14; [|discriminate].
  cbn [bind]. intros H. inversion H; subst; clear H. cbn.
  repeat split; assumption.
Qed.

Lemma solid_truthy_trimmed (s : jsstring) (c : char) (tl : jsstring) :
  s = c :: tl -> isSpace c = false -> truthy (Some (trim s)) = true.
Proof. intros -> Hc. destruct (trim_solid c tl Hc) as (tl' & ->). reflexivity. Qed.

(** The three patterns are tried in the same order there. *)
Lemma js_certificate_first_match (t : jsstring) :
  ExParserJs.certificate t =
  match exec re_iecex t with
  | Some iecex =>
      (Some (trim (matched iecex)),
       match exec ExParserJs.re_atexAlso t with
       | Some _ => Some IECEx_ATEX
       | None => Some IECEx
       end)
  | None =>
      match exec ExParserJs.re_atex t with
      | Some atex => (Some (trim (matched atex)), Some ATEX)
      | None =>
          match exec re_ukca t with
          | Some ukca => (Some (trim (matched ukca)), Some UKCA)
          | None => (None, None)
          end
      end
  end.
Proof.
  unfold ExParserJs.certificate, ExParserJs.certIecex, ExParserJs.certAtex, certUkca,
    ExParserJs.certDual.
  destruct (exec re_iecex t) as [iecex|] eqn:E1.
  - destruct (exec_solid re_iecex t eq_refl E1) as (c & tl & Hm & Hc).
    cbn [fst snd].
    repeat (rewrite (solid_truthy_trimmed Hm Hc); cbn [negb fst snd]).
    change (eqOpt (Some IECEx) IECEx) with true. cbv iota.
    destruct (exec ExParserJs.re_atexAlso t); reflexivity.
  - cbn [fst snd truthy negb].
    destruct (exec ExParserJs.re_atex t) as [atex|] eqn:E2.
    + destruct (exec_solid ExParserJs.re_atex t eq_refl E2) as (c & tl & Hm & Hc).
      cbn [fst snd].
      repeat (rewrite (solid_truthy_trimmed Hm Hc); cbn [negb fst snd]).
      reflexivity.
    + cbn [fst snd truthy negb].
      destruct (exec re_ukca t) as [ukca|] eqn:E3; reflexivity.
Qed.

Lemma js_number_absent_iff_type_absent (t : jsstring) (r : ExParserJs.CertificateRecord) :
  ExParserJs.parse t = Ok r ->
  (ExParserJs.certNumber r = None <-> ExParserJs.certType r = None).
Proof.
  intros H. apply js_parse_inv in H. destruct H as (Hn & Ht & _).
  rewrite Hn, Ht, js_certificate_first_match.
  destruct (exec re_iecex t).
  - destruct (exec ExParserJs.re_atexAlso t); cbn [fst snd]; split; discriminate.
  - destruct (exec ExParserJs.re_atex t); [cbn [fst snd]; split; discriminate|].
    destruct (exec re_ukca t); cbn [fst snd]; split; (discriminate || reflexivity).
Qed.

Lemma js_zone_explicit_else_derived (t : jsstring) (r : ExParserJs.CertificateRecord) :
  ExParserJs.parse t = Ok r ->
  (exec re_zone t = None -> ExParserJs.epl r = Some (str "Gb") ->
   ExParserJs.zone r = Some (str "Zone 1 (derived from EPL)")) /\
  (forall z, ExParserJs.zone r = Some z -> endsWith z (str " (derived from EPL)") = true ->
             exec re_zone t = None /\ ExParserJs.epl r <> None).
Proof.
  intros H. apply js_parse_inv in H. destruct H as (_ & _ & _ & _ & Hz & _).
  destruct (zoneOf_explicit_else_derived _ _ Hz) as (_ & _ & H3 & H4). auto.
Qed.

Lemma js_confidence_bounds (r : ExParserJs.CertificateRecord) :
  (0 <= ExParserJs.confidence r <= 100)%Z.
Proof.
  unfold ExParserJs.confidence.
  assert (Hw : Forall (fun e => (0 <= snd e)%Z) (ExParserJs.weighted r))
    by (unfold ExParserJs.weighted; repeat constructor; simpl; lia).
  pose proof (addWeight_fold_lower Hw 0%Z). cbv zeta. lia.
Qed.

(** C1.  The parser under src/js/parser.js keeps the first match of its
    marking pattern, not the longest, and has no [markings]: on a text
    that holds "Ex d IIC" and "Ex db IIC T4 Gb" it reports
    "Ex d IIC T4 Gb", although "Ex db IIC T4 Gb" is a match of the same
    pattern and longer.  The application's parser reports
    "Ex db IIC T4 Gb" there, and its [markings] lists the candidates by
    descending length, "Ex db IIC T4 Gb" before "Ex d IIC". *)
Theorem js_marking_is_first_match :
  includes shorterFirstText (str "Ex d IIC") = true /\
  includes shorterFirstText (str "Ex db IIC T4 Gb") = true /\
  matchAll ExParserJs.re_marking shorterFirstText
  = [str "Ex d IIC T4 Gb"; str "Ex db IIC T4 Gb"] /\
  (exists r,
      ExParserJs.parse shorterFirstText = Ok r /\
      ExParserJs.marking r = Some (str "Ex d IIC T4 Gb")) /\
  (exists r,
      parse shorterFirstText = Ok r /\
      marking r = Some (str "Ex db IIC T4 Gb") /\
      markings r = [str "Ex db IIC T4 Gb"; str "Ex d IIC T4 Gb"; str "Ex db IIC T4";
                    str "Ex d IIC T4"; str "Ex db IIC"; str "Ex d IIC"]).
Proof.
  split; [vm_compute; reflexivity|]. split; [vm_compute; reflexivity|].
  split; [vm_compute; reflexivity|]. split.
  - destruct (js_parse_total shorterFirstText) as (r & Hr). exists r.
    split; [exact Hr|]. apply js_parse_inv in Hr. destruct Hr as (_ & _ & Hm & _).
    rewrite Hm. vm_compute. reflexivity.
  - exists (parsed shorterFirstText). split; [vm_compute; reflexivity|].
    split; vm_compute; reflexivity.
Qed.

(** C2.  The parser under src/js/parser.js reads the protection types
    from the whole text, not from the marking it selected (its comment
    says "Extract from marking"): two texts with the same marking
    "Ex db IIC T4 Gb" give the codes db and e (likewise ia and d for
    the marking "Ex ia IIC T4 Ga"), and a text without a marking gives
    the code d.  The application's parser gives the code db for both
    texts and no protection type without a marking. *)
Theorem js_protection_types_from_text :
  (exists r r',
      ExParserJs.parse oneMarkingText = Ok r /\
      ExParserJs.parse strayCodeText = Ok r' /\
      ExParserJs.marking r = Some (str "Ex db IIC T4 Gb") /\
      ExParserJs.marking r' = Some (str "Ex db IIC T4 Gb") /\
      map code (ExParserJs.protectionTypes r) = [str "db"] /\
      map code (ExParserJs.protectionTypes r') = [str "e"]) /\
  (exists r r',
      ExParserJs.parse (str "Ex ia IIC T4 Ga") = Ok r /\
      ExParserJs.parse (str "Ex d box. Ex ia IIC T4 Ga") = Ok r' /\
      ExParserJs.marking r = Some (str "Ex ia IIC T4 Ga") /\
      ExParserJs.marking r' = Some (str "Ex ia IIC T4 Ga") /\
      map code (ExParserJs.protectionTypes r) = [str "ia"] /\
      map code (ExParserJs.protectionTypes r') = [str "d"]) /\
  (exists r,
      ExParserJs.parse noMarkingText = Ok r /\
      ExParserJs.marking r = None /\
      map code (ExParserJs.protectionTypes r) = [str "d"]) /\
  (exists r r' r'',
      parse oneMarkingText = Ok r /\ parse strayCodeText = Ok r' /\
      marking r = Some (str "Ex db IIC T4 Gb") /\
      marking r' = Some (str "Ex db IIC T4 Gb") /\
      map code (protectionTypes r) = [str "db"] /\
      protectionTypes r' = protectionTypes r /\
      parse noMarkingText = Ok r'' /\ marking r'' = None /\ protectionTypes r'' = []).
Proof.
  assert (Hjs : forall t mk codes,
             ExParserJs.markingOf t = mk ->
             match ExParserJs.decompose t with
             | Ok l => map code l = codes
             | TypeError => False
             end ->
             exists r, ExParserJs.parse t = Ok r /\ ExParserJs.marking r = mk /\
                       map code (ExParserJs.protectionTypes r) = codes).
  { intros t mk codes Hmk Hcodes. destruct (js_parse_total t) as (r & Hr). exists r.
    split; [exact Hr|]. apply js_parse_inv in Hr. destruct Hr as (_ & _ & Hm & Hp & _).
    rewrite Hp in Hcodes. split; [now rewrite Hm|exact Hcodes]. }
  split.
  { destruct (Hjs oneMarkingText (Some (str "Ex db IIC T4 Gb")) [str "db"])
      as (r & Hr & Hm & Hp); [vm_compute; reflexivity..|].
    destruct (Hjs strayCodeText (Some (str "Ex db IIC T4 Gb")) [str "e"])
      as (r' & Hr' & Hm' & Hp'); [vm_compute; reflexivity..|].
    exists r, r'. auto 10. }
  split.
  { destruct (Hjs (str "Ex ia IIC T4 Ga") (Some (str "Ex ia IIC T4 Ga")) [str "ia"])
      as (r & Hr & Hm & Hp); [vm_compute; reflexivity..|].
    destruct (Hjs (str "Ex d box. Ex ia IIC T4 Ga") (Some (str "Ex ia IIC T4 Ga")) [str "d"])
      as (r' & Hr' & Hm' & Hp'); [vm_compute; reflexivity..|].
    exists r, r'. auto 10. }
  split.
  { destruct (Hjs noMarkingText None [str "d"]) as (r & Hr & Hm & Hp);
      [vm_compute; reflexivity..|].
    exists r. auto. }
  exists (parsed oneMarkingText), (parsed strayCodeText), (parsed noMarkingText).
  repeat split; vm_compute; reflexivity.
Qed.

(** C3.  The parser under src/js/parser.js scans the body list as it is
    written, where "SGS" comes before "SGS-CSTC": on a text that holds
    "SGS-CSTC" (and so "SGS") it reports the shorter name.  The
    application's parser, which sorts the list by descending length
    first, reports "SGS-CSTC". *)
Theorem js_body_list_unsorted :
  In (str "SGS-CSTC") ExParserJs.CERT_BODIES /\ In (str "SGS") ExParserJs.CERT_BODIES /\
  includes (str "SGS-CSTC") (str "SGS") = true /\
  includes twoBodiesText (str "SGS-CSTC") = true /\
  includes twoBodiesText (str "SGS") = true /\
  (exists r,
      ExParserJs.parse twoBodiesText = Ok r /\
      ExParserJs.notifiedBody r = Some (str "SGS")) /\
  (exists r,
      parse twoBodiesText = Ok r /\ notifiedBody r = Some (str "SGS-CSTC")).
Proof.
  split; [vm_compute; tauto|]. split; [vm_compute; tauto|].
  split; [vm_compute; reflexivity|]. split; [vm_compute; reflexivity|].
  split; [vm_compute; reflexivity|]. split.
  - destruct (js_parse_total twoBodiesText) as (r & Hr). exists r.
    split; [exact Hr|]. apply js_parse_inv in Hr.
    destruct Hr as (_ & _ & _ & _ & _ & Hb & _). rewrite Hb. vm_compute. reflexivity.
  - exists (parsed twoBodiesText). split; vm_compute; reflexivity.
Qed.

(** * Every extractor runs *)

(** A match with an acceptable value gives a label value. *)
Lemma labelled_present (reject : RegExp) (pats : list RegExp) (t : jsstring)
      (v : option jsstring) :
  labelled reject pats t = Ok v ->
  (exists pat res g,
      In pat pats /\ exec pat t = Some res /\ groups res 1 = Some g /\
      test reject (stripTail (trim g)) = false /\ 3 <= length (stripTail (trim g))) ->
  v <> None.
Proof.
  induction pats as [|pat more IH]; cbn [labelled]; intros H (p0 & res & g & Hin & He & Hg & Hr & Hl).
  - contradiction.
  - destruct Hin as [<-|Hin].
    + rewrite He in H. unfold capture in H. rewrite Hg in H. cbn [bind] in H. rewrite Hr in H.
      replace (Nat.ltb (length (stripTail (trim g))) 3) with false in H
        by (symmetry; apply Nat.ltb_ge; exact Hl).
      inversion H. discriminate.
    + assert (Hmore : labelled reject more t = Ok v -> v <> None)
        by (intros H'; apply IH; [exact H'|exists p0, res, g; auto]).
      destruct (exec pat t) as [m|]; [|auto].
      destruct (capture m 1) as [g'|]; [|discriminate]. cbn [bind] in H.
      destruct (test reject (stripTail (trim g'))); [auto|].
      destruct (Nat.ltb (length (stripTail (trim g'))) 3); [auto|].
      inversion H. discriminate.
Qed.

Lemma firstCapture_present (pats : list RegExp) (t : jsstring) (v : option jsstring) :
  firstCapture pats t = Ok v ->
  (exists pat, In pat pats /\ exec pat t <> None) -> v <> None.
Proof.
  induction pats as [|pat more IH]; cbn [firstCapture]; intros H (p0 & Hin & He).
  - contradiction.
  - destruct (exec pat t) as [m|] eqn:E.
    + destruct (capture m 1); [|discriminate]. cbn [bind] in H. inversion H. discriminate.
    + destruct Hin as [<-|Hin]; [congruence|]. apply IH; [exact H|eauto].
Qed.

Lemma find_present (p : jsstring -> bool) (l : list jsstring) :
  (exists x, In x l /\ p x = true) -> find p l <> None.
Proof.
  intros (x & Hin & Hp). induction l as [|y l IH]; [contradiction|]. cbn [find].
  destruct (p y) eqn:E; [discriminate|]. destruct Hin as [->|Hin]; [congruence|auto].
Qed.

Lemma candidates_empty (t : jsstring) :
  candidates t = [] <-> forall pat, In pat markingPatterns -> matchAll pat t = [].
Proof.
  split.
  - intros E pat Hin. destruct (matchAll pat t) as [|mt more] eqn:Em; [reflexivity|].
    assert (H : In (collapseSpaces (trim mt)) (candidates t)).
    { apply candidates_In. exists pat, mt. rewrite Em. repeat split; auto. now left. }
    rewrite E in H. contradiction.
  - intros H. destruct (candidates t) as [|c more] eqn:E; [reflexivity|].
    assert (Hc : In c (candidates t)) by (rewrite E; now left).
    apply candidates_In in Hc. destruct Hc as (pat & mt & Hin & Hmt & _).
    rewrite (H pat Hin) in Hmt. contradiction.
Qed.

Lemma js_labelled_present (pats : list RegExp) (t : jsstring) (v : option jsstring) :
  ExParserJs.labelled pats t = Ok v ->
  (v = None <-> forall pat, In pat pats -> exec pat t = None).
Proof.
  induction pats as [|pat more IH]; cbn [ExParserJs.labelled]; intros H.
  - inversion H. split; [intros _ pat []|reflexivity].
  - destruct (exec pat t) as [m|] eqn:E.
    + destruct (capture m 1); [|discriminate]. cbn [bind] in H. inversion H.
      split; [discriminate|]. intros Hall. specialize (Hall pat (or_introl eq_refl)). congruence.
    + destruct (IH H) as [H1 H2]. split.
      * intros Hv p0 [<-|Hin]; [exact E|now apply H1].
      * intros Hall. apply H2. intros p0 Hin. apply Hall. now right.
Qed.

Lemma firstCapture_absent (pats : list RegExp) (t : jsstring) (v : option jsstring) :
  firstCapture pats t = Ok v ->
  (v = None <-> forall pat, In pat pats -> exec pat t = None).
Proof.
  intros H. split.
  - intros Hv pat Hin. destruct (exec pat t) as [m|] eqn:E; [|reflexivity].
    exfalso. apply (firstCapture_present _ _ H); [|exact Hv]. exists pat.
    split; [exact Hin|congruence].
  - intros Hall. rewrite (firstCapture_none _ _ Hall) in H. now inversion H.
Qed.

Lemma js_single_absent (re : RegExp) (t prefix : jsstring) (v : option jsstring) :
  ExParserJs.single re t prefix = Ok v -> (v = None <-> exec re t = None).
Proof.
  unfold ExParserJs.single. destruct (exec re t) as [m|].
  - destruct (capture m 1); [|discriminate]. cbn [bind]. intros H. inversion H.
    split; discriminate.
  - intros H. inversion H. tauto.
Qed.

Lemma find_absent (p : jsstring -> bool) (l : list jsstring) :
  find p l = None <-> forall x, In x l -> p x = false.
Proof.
  split; [|apply find_none]. intros E x Hin. destruct (p x) eqn:Hp; [|reflexivity].
  exfalso. apply (@find_present p l); [eauto|exact E].
Qed.

(** Every field of the record of src/js/parser.js is the result of its
    own extractor. *)
Lemma js_parse_inv_all (t : jsstring) (r : ExParserJs.CertificateRecord) :
  ExParserJs.parse t = Ok r ->
  ExParserJs.certNumber r = fst (ExParserJs.certificate t) /\
  ExParserJs.certType r = snd (ExParserJs.certificate t) /\
  ExParserJs.marking r = ExParserJs.markingOf t /\
  ExParserJs.decompose t = Ok (ExParserJs.protectionTypes r) /\
  ExParserJs.gas t = Ok (ExParserJs.gasGroup r, ExParserJs.gasGroupInfo r) /\
  ExParserJs.single re_temp t (str "T") = Ok (ExParserJs.tempClass r) /\
  ExParserJs.single re_epl t [] = Ok (ExParserJs.epl r) /\
  zoneOf t (ExParserJs.epl r) = Ok (ExParserJs.zone r) /\
  ip t = Ok (ExParserJs.ipRating r) /\
  ambient t = Ok (ExParserJs.ambientTemp r) /\
  ExParserJs.labelled ExParserJs.mfrPatterns t = Ok (ExParserJs.manufacturer r) /\
  ExParserJs.labelled ExParserJs.eqPatterns t = Ok (ExParserJs.equipment r) /\
  ExParserJs.notifiedBody r = firstIncluded t ExParserJs.CERT_BODIES /\
  firstCapture ExParserJs.issuePats t = Ok (ExParserJs.issueDate r) /\
  firstCapture ExParserJs.expiryPats t = Ok (ExParserJs.expiryDate r) /\
  special t = Ok (ExParserJs.specialConditions r) /\
  ExParserJs.standard r = ExParserJs.standards t /\
  ExParserJs.categoryOf t = Ok (ExParserJs.category r) /\
  ExParserJs.single re_group t [] = Ok (ExParserJs.group r) /\
  ExParserJs.raw r = t.
Proof.
  unfold ExParserJs.parse.
  destruct (ExParserJs.decompose t) eqn:E1; [|discriminate].
  destruct (ExParserJs.gas t) as [[]|] eqn:E2; [|discriminate].
  destruct (ExParserJs.single re_temp t (str "T")) eqn:E3; [|discriminate].
  destruct (ExParserJs.single re_epl t []) eqn:E4; [|discriminate].
  cbn [bind].
  destruct (zoneOf t a1) eqn:E5; [|discriminate].
  destruct (ip t) eqn:E6; [|discriminate].
  destruct (ambient t) eqn:E7; [|discriminate].
  destruct (ExParserJs.labelled ExParserJs.mfrPatterns t) eqn:E8; [|discriminate].
  destruct (ExParserJs.labelled ExParserJs.eqPatterns t) eqn:E9; [|discriminate].
  destruct (firstCapture ExParserJs.issuePats t) eqn:E10; [|discriminate].
  destruct (firstCapture ExParserJs.expiryPats t) eqn:E11; [|discriminate].
  destruct (special t) eqn:E12; [|discriminate].
  destruct (ExParserJs.categoryOf t) eqn:E13; [|discriminate].
  destruct (ExParserJs.single re_group t []) eqn:E14; [|discriminate].
  cbn [bind]. intros H. inversion H; subst; clear H. cbn.
  repeat split; assumption.
Qed.

(** C9.  For every text [parse] returns a record, never an error, and
    the record keeps the text.  Every field whose rules do not match is
    absent; every field whose rule matches is extracted, whatever the
    other rules find; and each field is what its own extractor computes
    from the text (for four of them: from the selected marking first),
    so no extractor is skipped.  The same holds of the parser under
    src/js/parser.js, where a field is absent exactly when its rules do
    not match. *)
Theorem parse_always_returns (t : jsstring) :
  (exists r,
    parse t = Ok r /\ raw r = t /\
    (exec re_iecex t = None -> exec re_atex t = None -> exec re_ukca t = None ->
     certNumber r = None /\ certType r = None) /\
    (candidates t = [] -> marking r = None /\ markings r = [] /\ protectionTypes r = []) /\
    (exec re_gasMarking (orEmpty (marking r)) = None -> exec re_gasText t = None ->
     gasGroup r = None /\ gasGroupInfo r = None) /\
    (exec re_temp (orEmpty (marking r)) = None -> exec re_temp t = None ->
     tempClass r = None /\ tempClassMax r = None) /\
    (exec re_epl (orEmpty (marking r)) = None -> exec re_epl t = None -> epl r = None) /\
    (exec re_zone t = None -> epl r = None -> zone r = None) /\
    (exec re_ip t = None -> ipRating r = None) /\
    (exec re_ambient t = None -> ambientTemp r = None) /\
    ((forall pat, In pat mfrPatterns -> exec pat t = None) -> manufacturer r = None) /\
    ((forall pat, In pat eqPatterns -> exec pat t = None) -> equipment r = None) /\
    ((forall body, In body CERT_BODIES -> includes t body = false) ->
     notifiedBody r = None) /\
    ((forall pat, In pat issuePats -> exec pat t = None) -> issueDate r = None) /\
    ((forall pat, In pat expiryPats -> exec pat t = None) -> expiryDate r = None) /\
    (exec re_special t = None -> specialConditions r = None) /\
    (matchAll re_standard t = [] -> standard r = None) /\
    (exec re_categoryMark t = None -> exec re_categoryLabel t = None ->
     category r = None) /\
    (exec re_group t = None -> exec re_groupAlt t = None -> group r = None) /\
    (* a rule that matches gives its field *)
    (exec re_iecex t <> None \/ exec re_atex t <> None \/ exec re_ukca t <> None ->
     certNumber r <> None /\ certType r <> None) /\
    ((exists pat, In pat markingPatterns /\ matchAll pat t <> []) ->
     marking r <> None /\ markings r <> []) /\
    (exec re_gasMarking (orEmpty (marking r)) <> None \/ exec re_gasText t <> None ->
     gasGroup r <> None) /\
    (exec re_temp (orEmpty (marking r)) <> None \/ exec re_temp t <> None ->
     tempClass r <> None) /\
    (exec re_epl (orEmpty (marking r)) <> None \/ exec re_epl t <> None -> epl r <> None) /\
    (exec re_zone t <> None -> zone r <> None) /\
    (exec re_ip t <> None -> ipRating r <> None) /\
    (exec re_ambient t <> None -> ambientTemp r <> None) /\
    ((exists pat res g,
         In pat mfrPatterns /\ exec pat t = Some res /\ groups res 1 = Some g /\
         test re_mfrReject (stripTail (trim g)) = false /\
         3 <= length (stripTail (trim g))) ->
     manufacturer r <> None) /\
    ((exists pat res g,
         In pat eqPatterns /\ exec pat t = Some res /\ groups res 1 = Some g /\
         test re_eqReject (stripTail (trim g)) = false /\
         3 <= length (stripTail (trim g))) ->
     equipment r <> None) /\
    ((exists body, In body CERT_BODIES /\ includes t body = true) ->
     notifiedBody r <> None) /\
    ((exists pat, In pat issuePats /\ exec pat t <> None) -> issueDate r <> None) /\
    ((exists pat, In pat expiryPats /\ exec pat t <> None) -> expiryDate r <> None) /\
    (exec re_special t <> None -> specialConditions r <> None) /\
    (matchAll re_standard t <> [] -> standard r <> None) /\
    (exec re_categoryMark t <> None \/ exec re_categoryLabel t <> None ->
     category r <> None) /\
    (exec re_group t <> None \/ exec re_groupAlt t <> None -> group r <> None) /\
    (* each field is the result of its own extractor *)
    certNumber r = fst (certificate t) /\
    certType r = snd (certificate t) /\
    markings r = sortedMarkings t /\
    marking r = hd_error (markings r) /\
    decompose (orEmpty (marking r)) = Ok (protectionTypes r) /\
    gas (orEmpty (marking r)) t = Ok (gasGroup r, gasGroupInfo r) /\
    temperature (orEmpty (marking r)) t = Ok (tempClass r, tempClassMax r) /\
    protectionLevel (orEmpty (marking r)) t = Ok (epl r) /\
    zoneOf t (epl r) = Ok (zone r) /\
    ip t = Ok (ipRating r) /\
    ambient t = Ok (ambientTemp r) /\
    labelled re_mfrReject mfrPatterns t = Ok (manufacturer r) /\
    labelled re_eqReject eqPatterns t = Ok (equipment r) /\
    notifiedBody r = firstIncluded t sortedBodies /\
    firstCapture issuePats t = Ok (issueDate r) /\
    firstCapture expiryPats t = Ok (expiryDate r) /\
    special t = Ok (specialConditions r) /\
    standard r = standards t /\
    categoryOf t = Ok (category r) /\
    groupOf t = Ok (group r)) /\
  (exists r,
    ExParserJs.parse t = Ok r /\ ExParserJs.raw r = t /\
    (ExParserJs.certNumber r = None <->
     exec re_iecex t = None /\ exec ExParserJs.re_atex t = None /\ exec re_ukca t = None) /\
    (ExParserJs.certType r = None <->
     exec re_iecex t = None /\ exec ExParserJs.re_atex t = None /\ exec re_ukca t = None) /\
    (ExParserJs.marking r = None <->
     matchAll ExParserJs.re_marking t = [] /\ matchAll ExParserJs.re_simpleMarking t = []) /\
    (exec ExParserJs.re_prot t = None -> ExParserJs.protectionTypes r = []) /\
    ExParserJs.decompose t = Ok (ExParserJs.protectionTypes r) /\
    (ExParserJs.gasGroup r = None <-> exec re_gasText t = None) /\
    (ExParserJs.tempClass r = None <-> exec re_temp t = None) /\
    (ExParserJs.epl r = None <-> exec re_epl t = None) /\
    (exec re_zone t = None -> ExParserJs.epl r = None -> ExParserJs.zone r = None) /\
    (exec re_zone t <> None -> ExParserJs.zone r <> None) /\
    (ExParserJs.ipRating r = None <-> exec re_ip t = None) /\
    (ExParserJs.ambientTemp r = None <-> exec re_ambient t = None) /\
    (ExParserJs.manufacturer r = None <->
     forall pat, In pat ExParserJs.mfrPatterns -> exec pat t = None) /\
    (ExParserJs.equipment r = None <->
     forall pat, In pat ExParserJs.eqPatterns -> exec pat t = None) /\
    (ExParserJs.notifiedBody r = None <->
     forall body, In body ExParserJs.CERT_BODIES -> includes t body = false) /\
    (ExParserJs.issueDate r = None <->
     forall pat, In pat ExParserJs.issuePats -> exec pat t = None) /\
    (ExParserJs.expiryDate r = None <->
     forall pat, In pat ExParserJs.expiryPats -> exec pat t = None) /\
    (ExParserJs.specialConditions r = None <-> exec re_special t = None) /\
    (ExParserJs.standard r = None <-> matchAll ExParserJs.re_standard t = []) /\
    (ExParserJs.category r = None <->
     exec re_categoryLabel t = None /\ exec re_categoryMark t = None) /\
    (ExParserJs.group r = None <-> exec re_group t = None) /\
    (* each field is the result of its own extractor *)
    ExParserJs.certNumber r = fst (ExParserJs.certificate t) /\
    ExParserJs.certType r = snd (ExParserJs.certificate t) /\
    ExParserJs.marking r = ExParserJs.markingOf t /\
    ExParserJs.gas t = Ok (ExParserJs.gasGroup r, ExParserJs.gasGroupInfo r) /\
    ExParserJs.single re_temp t (str "T") = Ok (ExParserJs.tempClass r) /\
    ExParserJs.single re_epl t [] = Ok (ExParserJs.epl r) /\
    zoneOf t (ExParserJs.epl r) = Ok (ExParserJs.zone r) /\
    ip t = Ok (ExParserJs.ipRating r) /\
    ambient t = Ok (ExParserJs.ambientTemp r) /\
    ExParserJs.labelled ExParserJs.mfrPatterns t = Ok (ExParserJs.manufacturer r) /\
    ExParserJs.labelled ExParserJs.eqPatterns t = Ok (ExParserJs.equipment r) /\
    ExParserJs.notifiedBody r = firstIncluded t ExParserJs.CERT_BODIES /\
    firstCapture ExParserJs.issuePats t = Ok (ExParserJs.issueDate r) /\
    firstCapture ExParserJs.expiryPats t = Ok (ExParserJs.expiryDate r) /\
    special t = Ok (ExParserJs.specialConditions r) /\
    ExParserJs.standard r = ExParserJs.standards t /\
    ExParserJs.categoryOf t = Ok (ExParserJs.category r) /\
    ExParserJs.single re_group t [] = Ok (ExParserJs.group r)).
Proof.
  split.
  2: {
    destruct (js_parse_total t) as (r & Hr). exists r. split; [exact Hr|].
    pose proof Hr as Hinv. apply js_parse_inv_all in Hinv.
    destruct Hinv as (Hn & Hty & Hm & Hp & Hg & Hte & He & Hz & Hip & Ha & Hmf & Heq & Hb
                      & Hi & Hx & Hs & Hst & Hc & Hgr & Hraw).
    split; [exact Hraw|].
    assert (Hcert : ExParserJs.certNumber r = None <->
                    exec re_iecex t = None /\ exec ExParserJs.re_atex t = None /\
                    exec re_ukca t = None).
    { rewrite Hn, js_certificate_first_match.
      destruct (exec re_iecex t); [cbn [fst]; split; [discriminate|intros (E & _); discriminate]|].
      destruct (exec ExParserJs.re_atex t);
        [cbn [fst]; split; [discriminate|intros (_ & E & _); discriminate]|].
      destruct (exec re_ukca t);
        [cbn [fst]; split; [discriminate|intros (_ & _ & E); discriminate]|].
      cbn [fst]. tauto. }
    split; [exact Hcert|].
    split; [rewrite <- Hcert; symmetry; exact (@js_number_absent_iff_type_absent t r Hr)|].
    split.
    { rewrite Hm. unfold ExParserJs.markingOf.
      destruct (matchAll ExParserJs.re_marking t);
        [|split; [discriminate|intros (E & _); discriminate]].
      destruct (matchAll ExParserJs.re_simpleMarking t);
        [tauto|split; [discriminate|intros (_ & E); discriminate]]. }
    split.
    { intros E. unfold ExParserJs.decompose in Hp. rewrite E in Hp. now inversion Hp. }
    split; [exact Hp|].
    split.
    { unfold ExParserJs.gas in Hg. destruct (exec re_gasText t) as [m1|].
      - destruct (capture m1 1); [|discriminate]. cbn [bind] in Hg. inversion Hg.
        split; discriminate.
      - inversion Hg. tauto. }
    split; [exact (js_single_absent _ _ _ Hte)|].
    split; [exact (js_single_absent _ _ _ He)|].
    split.
    { intros E1 E2. unfold zoneOf in Hz. rewrite E1, E2 in Hz. now inversion Hz. }
    split.
    { intros E. unfold zoneOf in Hz. destruct (exec re_zone t) as [m1|]; [|congruence].
      destruct (capture m1 1); [|discriminate]. cbn [bind] in Hz. inversion Hz. discriminate. }
    split.
    { unfold ip in Hip. destruct (exec re_ip t) as [m1|].
      - destruct (capture m1 1); [|discriminate]. cbn [bind] in Hip. inversion Hip.
        split; discriminate.
      - inversion Hip. tauto. }
    split.
    { unfold ambient in Ha. destruct (exec re_ambient t) as [m1|].
      - destruct (capture m1 1); [|discriminate]. cbn [bind] in Ha.
        destruct (capture m1 3); [|discriminate]. cbn [bind] in Ha. inversion Ha.
        split; discriminate.
      - inversion Ha. tauto. }
    split; [exact (js_labelled_present _ _ Hmf)|].
    split; [exact (js_labelled_present _ _ Heq)|].
    split; [rewrite Hb; apply find_absent|].
    split; [exact (firstCapture_absent _ _ Hi)|].
    split; [exact (firstCapture_absent _ _ Hx)|].
    split.
    { unfold special in Hs. destruct (exec re_special t) as [m1|].
      - destruct (capture m1 1); [|discriminate]. cbn [bind] in Hs. inversion Hs.
        split; discriminate.
      - inversion Hs. tauto. }
    split.
    { rewrite Hst. unfold ExParserJs.standards.
      destruct (matchAll ExParserJs.re_standard t); [tauto|split; discriminate]. }
    split.
    { unfold ExParserJs.categoryOf, firstOf in Hc.
      destruct (exec re_categoryLabel t) as [m1|].
      - destruct (capture m1 1); [|discriminate]. cbn [bind] in Hc. inversion Hc.
        split; [discriminate|intros (E & _); discriminate].
      - destruct (exec re_categoryMark t) as [m2|].
        + destruct (capture m2 1); [|discriminate]. cbn [bind] in Hc. inversion Hc.
          split; [discriminate|intros (_ & E); discriminate].
        + inversion Hc. tauto. }
    split; [exact (js_single_absent _ _ _ Hgr)|].
    repeat split; assumption. }
  destruct (parse_total t) as (r & Hr). exists r. split; [exact Hr|].
  apply parse_inv in Hr.
  destruct Hr as (Hn & Hty & Hms & Hm & Hp & Hg & Hte & He & Hz & Hip & Ha & Hmf & Heq
                  & Hb & Hi & Hx & Hs & Hst & Hc & Hgr & Hraw).
  split; [exact Hraw|].
  split. { intros E1 E2 E3. rewrite Hn, Hty, certificate_first_match, E1, E2, E3. now split. }
  split. { intros E. unfold sortedMarkings in Hms. rewrite E in Hms. simpl in Hms.
           rewrite Hms in Hm. simpl in Hm. rewrite Hm in Hp. vm_compute in Hp.
           inversion Hp. auto. }
  split. { intros E1 E2. unfold gas in Hg. rewrite E1, E2 in Hg. now inversion Hg. }
  split. { intros E1 E2. unfold temperature in Hte. rewrite E1, E2 in Hte. now inversion Hte. }
  split. { intros E1 E2. unfold protectionLevel in He. rewrite E1, E2 in He. now inversion He. }
  split. { intros E1 E2. unfold zoneOf in Hz. rewrite E1, E2 in Hz. now inversion Hz. }
  split. { intros E. unfold ip in Hip. rewrite E in Hip. now inversion Hip. }
  split. { intros E. unfold ambient in Ha. rewrite E in Ha. now inversion Ha. }
  split. { intros E. rewrite (labelled_none _ _ _ E) in Hmf. now inversion Hmf. }
  split. { intros E. rewrite (labelled_none _ _ _ E) in Heq. now inversion Heq. }
  split. { intros E. rewrite Hb. apply find_none. intros x Hx'. apply E.
           apply (Permutation_in _ (Permutation_sym (sortBy_perm CERT_BODIES))). exact Hx'. }
  split. { intros E. rewrite (firstCapture_none _ _ E) in Hi. now inversion Hi. }
  split. { intros E. rewrite (firstCapture_none _ _ E) in Hx. now inversion Hx. }
  split. { intros E. unfold special in Hs. rewrite E in Hs. now inversion Hs. }
  split. { intros E. rewrite Hst. unfold standards. now rewrite E. }
  split. { intros E1 E2. unfold categoryOf in Hc. rewrite E1, E2 in Hc. now inversion Hc. }
  split. { intros E1 E2. unfold groupOf in Hgr. rewrite E1, E2 in Hgr. now inversion Hgr. }
  split.
  { intros E. rewrite Hn, Hty, certificate_first_match.
    destruct (exec re_iecex t).
    - cbn [fst snd]. split; [discriminate|]. destruct (exec re_atexAlso t); discriminate.
    - destruct (exec re_atex t); [cbn [fst snd]; split; discriminate|].
      destruct (exec re_ukca t); [cbn [fst snd]; split; discriminate|].
      destruct E as [E|[E|E]]; congruence. }
  split.
  { intros (pat & Hin & Hne).
    assert (Hcand : candidates t <> []).
    { intros E. destruct (candidates_empty t) as [H1 _]. apply Hne. now apply (H1 E). }
    assert (Hmks : markings r <> []).
    { intros E. rewrite Hms in E. apply Hcand.
      pose proof (sortBy_perm (candidates t)) as Hperm. fold (sortedMarkings t) in Hperm.
      rewrite E in Hperm. now apply Permutation_sym, Permutation_nil in Hperm. }
    split; [|exact Hmks]. rewrite Hm. destruct (markings r); [congruence|discriminate]. }
  split.
  { intros E. unfold gas, firstOf in Hg.
    destruct (exec re_gasMarking (orEmpty (marking r))) as [m1|].
    - destruct (capture m1 1); [|discriminate]. cbn [bind] in Hg. inversion Hg. discriminate.
    - destruct (exec re_gasText t) as [m2|]; [|destruct E; congruence].
      destruct (capture m2 1); [|discriminate]. cbn [bind] in Hg. inversion Hg. discriminate. }
  split.
  { intros E. unfold temperature, firstOf in Hte.
    destruct (exec re_temp (orEmpty (marking r))) as [m1|].
    - destruct (capture m1 1); [|discriminate]. cbn [bind] in Hte. inversion Hte. discriminate.
    - destruct (exec re_temp t) as [m2|]; [|destruct E; congruence].
      destruct (capture m2 1); [|discriminate]. cbn [bind] in Hte. inversion Hte.
      discriminate. }
  split.
  { intros E. unfold protectionLevel, firstOf in He.
    destruct (exec re_epl (orEmpty (marking r))) as [m1|].
    - destruct (capture m1 1); [|discriminate]. cbn [bind] in He. inversion He. discriminate.
    - destruct (exec re_epl t) as [m2|]; [|destruct E; congruence].
      destruct (capture m2 1); [|discriminate]. cbn [bind] in He. inversion He. discriminate. }
  split.
  { intros E. unfold zoneOf in Hz. destruct (exec re_zone t) as [m1|]; [|congruence].
    destruct (capture m1 1); [|discriminate]. cbn [bind] in Hz. inversion Hz. discriminate. }
  split.
  { intros E. unfold ip in Hip. destruct (exec re_ip t) as [m1|]; [|congruence].
    destruct (capture m1 1); [|discriminate]. cbn [bind] in Hip. inversion Hip. discriminate. }
  split.
  { intros E. unfold ambient in Ha. destruct (exec re_ambient t) as [m1|]; [|congruence].
    destruct (capture m1 1); [|discriminate]. cbn [bind] in Ha.
    destruct (capture m1 3); [|discriminate]. cbn [bind] in Ha. inversion Ha. discriminate. }
  split. { exact (labelled_present _ _ _ Hmf). }
  split. { exact (labelled_present _ _ _ Heq). }
  split.
  { intros (body & Hin & Hinc). rewrite Hb. apply find_present. exists body.
    split; [|exact Hinc]. apply (Permutation_in _ (sortBy_perm CERT_BODIES)). exact Hin. }
  split. { exact (firstCapture_present _ _ Hi). }
  split. { exact (firstCapture_present _ _ Hx). }
  split.
  { intros E. unfold special in Hs. destruct (exec re_special t) as [m1|]; [|congruence].
    destruct (capture m1 1); [|discriminate]. cbn [bind] in Hs. inversion Hs. discriminate. }
  split.
  { intros E. rewrite Hst. unfold standards. destruct (matchAll re_standard t); [congruence|].
    discriminate. }
  split.
  { intros E. unfold categoryOf, firstOf in Hc.
    destruct (exec re_categoryMark t) as [m1|].
    - destruct (capture m1 1); [|discriminate]. cbn [bind] in Hc. inversion Hc. discriminate.
    - destruct (exec re_categoryLabel t) as [m2|]; [|destruct E; congruence].
      destruct (capture m2 1); [|discriminate]. cbn [bind] in Hc. inversion Hc. discriminate. }
  split.
  { intros E. unfold groupOf in Hgr.
    destruct (exec re_group t) as [m1|].
    - destruct (capture m1 1); [|discriminate]. cbn [bind] in Hgr. inversion Hgr. discriminate.
    - destruct (exec re_groupAlt t) as [m2|]; [|destruct E; congruence].
      destruct (capture m2 1); [|discriminate]. cbn [bind] in Hgr. inversion Hgr.
      discriminate. }
  repeat split; assumption.
Qed.

(** * Which fields can hold the empty string *)

Lemma addNew_fold_head (l : list jsstring) :
  forall a acc, exists more, fold_left addNew l (a :: acc) = a :: more.
Proof.
  induction l as [|x l IH]; intros a acc; simpl; [eauto|].
  unfold addNew at 2. destruct (memStr x (a :: acc)); apply IH.
Qed.

Lemma distinct_head (x : jsstring) (l : list jsstring) :
  exists more, distinct (x :: l) = x :: more.
Proof. unfold distinct. simpl. apply addNew_fold_head. Qed.

Lemma trimStart_nonempty (l : jsstring) (c : char) :
  isSpace c = false -> trimStart (l ++ [c]) <> [].
Proof.
  intros Hc. destruct (trimStart_snoc l c Hc) as (l' & ->). now destruct l'.
Qed.

Lemma ws_matches (ic : bool) (c : char) :
  set_matches ic [CSpace] c = true -> isSpace c = true.
Proof.
  assert (Hu : isSpace (upperChar c) = true -> isSpace c = true).
  { unfold upperChar. destruct (isLower c) eqn:E; [|auto].
    revert E. unfold_chars. intros E H. split_cmp. }
  assert (Hl : isSpace (lowerChar c) = true -> isSpace c = true).
  { unfold lowerChar. destruct (isUpper c) eqn:E; [|auto].
    revert E. unfold_chars. intros E H. split_cmp. }
  unfold set_matches, set_has. cbn [existsb item_has]. rewrite !orb_false_r.
  destruct ic; [|auto]. intros H.
  apply orb_true_iff in H. destruct H as [H|H]; [|auto].
  apply orb_true_iff in H. destruct H as [H|H]; auto.
Qed.

(** A run of [\s] consumes white space only. *)
Lemma reach_spaces (ic : bool) (r : regex) (x y : MatchState) :
  Reach ic r x y ->
  forall min max g, r = Rep min max g ws ->
  exists pre, rest x = pre ++ rest y /\ forallb isSpace pre = true.
Proof.
  induction 1; intros mn mx g0 E; try discriminate.
  - now exists [].
  - now exists [].
  - inversion E; subst. clear IHReach1.
    destruct (IHReach2 _ _ _ eq_refl) as (pre & E2 & Hp).
    inversion H0; subst. cbn [clearcaps advance rest] in *.
    exists (c :: pre). split.
    + match goal with Hx : rest x = _ |- _ => rewrite Hx end. now rewrite E2.
    + cbn [forallb]. rewrite Hp.
      match goal with
      | Hm : xorb false _ = true |- _ => cbn [xorb] in Hm; now rewrite (ws_matches _ _ Hm)
      end.
Qed.

Lemma spaces_last (l : jsstring) :
  l <> [] -> forallb isSpace l = true -> exists l' d, l = l' ++ [d] /\ isSpace d = true.
Proof.
  destruct l as [|d l' _] using rev_ind; [congruence|].
  intros _ H. rewrite forallb_app in H. apply andb_true_iff in H. destruct H as [_ H].
  cbn in H. rewrite andb_true_r in H. eauto.
Qed.

(** A successful [exec] comes from a run of the pattern at the index it
    reports. *)
Lemma execFrom_at (re : RegExp) (s : jsstring) :
  forall p i res,
    execFrom re p s i = Some res ->
    exists pre p' s' y,
      s = pre ++ s' /\ index res = i + length pre /\
      Reach (ignoreCase re) (pattern re) (initial p' s') y /\
      matched res = firstn (length s' - length (rest y)) s'.
Proof.
  induction s as [|c tl IH]; intros p i res H; simpl in H.
  - destruct (matchAt re p []) as [y|] eqn:E; [|discriminate].
    inversion H; subst; clear H. apply m_sound in E. destruct E as (y' & Hy & E).
    inversion E; subst. exists [], p, [], y. cbn. repeat split; auto.
  - destruct (matchAt re p (c :: tl)) as [y|] eqn:E.
    + inversion H; subst; clear H. apply m_sound in E. destruct E as (y' & Hy & E).
      inversion E; subst. exists [], p, (c :: tl), y. cbn [app length index matched].
      repeat split; auto.
    + destruct (IH _ _ _ H) as (pre & p' & s' & y & -> & Hi & Hy & Hm).
      exists (c :: pre), p', s', y. cbn [app length]. repeat split; auto. lia.
Qed.

(** What [replace] leaves of the text when the pattern matches. *)
Lemma replace_match (re : RegExp) (by_ s : jsstring) (res : MatchResult) :
  exec re s = Some res ->
  exists pre p' s' y,
    s = pre ++ s' /\
    Reach (ignoreCase re) (pattern re) (initial p' s') y /\
    replace re by_ s = pre ++ by_ ++ rest y.
Proof.
  intros H. unfold replace. rewrite H. unfold exec in H.
  destruct (execFrom_at _ _ _ _ H) as (pre & p' & s' & y & -> & Hi & Hy & Hm).
  exists pre, p', s', y. split; [reflexivity|]. split; [exact Hy|].
  destruct (reach_rest Hy) as (mid & Hmid). cbn [initial rest] in Hmid. subst s'.
  rewrite Hi, Hm. cbn [Nat.add].
  replace (length (mid ++ rest y) - length (rest y)) with (length mid + 0)
    by (rewrite length_app; lia).
  rewrite firstn_app_2. cbn [firstn]. rewrite app_nil_r.
  rewrite firstn_app, Nat.sub_diag, firstn_all. cbn [firstn]. rewrite app_nil_r.
  rewrite skipn_app, (skipn_all2 pre) by lia. cbn [app].
  replace (length pre + length mid - length pre) with (length mid) by lia.
  rewrite skipn_app, skipn_all, Nat.sub_diag. reflexivity.
Qed.

Lemma stripGroupPrefix_nonempty (s : jsstring) (c : char) :
  isSpace c = false -> stripGroupPrefix (s ++ [c]) <> [].
Proof.
  intros Hc. unfold stripGroupPrefix.
  destruct (exec re_groupPrefix (s ++ [c])) as [res|] eqn:E.
  - destruct (@replace_match re_groupPrefix [] _ _ E) as (pre & p' & s' & y & Hs & Hy & ->).
    cbn [app]. intros Hnil. apply app_eq_nil in Hnil. destruct Hnil as [-> Hrest].
    cbn [app] in Hs. subst s'. cbn in Hy. unfold plus in Hy.
    repeat match goal with
           | H : Reach _ (Seq _ _) _ _ |- _ => inversion H; subst; clear H
           | H : Reach _ (Chr _) _ _ |- _ => inversion H; subst; clear H
           | H : Reach _ Bol _ _ |- _ => inversion H; subst; clear H
           | H : Reach _ Eps _ _ |- _ => inversion H; subst; clear H
           end.
    match goal with
    | H : Reach _ (Rep _ _ _ _) _ _ |- _ =>
        destruct (reach_spaces H eq_refl) as (sp & Hsp & Hall); inversion H; subst; clear H
    end.
    match goal with
    | H : Reach _ ws _ _ |- _ => inversion H; subst; clear H
    end.
    cbn [advance clearcaps initial rest] in *.
    rewrite Hrest, app_nil_r in Hsp.
    assert (Hne : sp <> []) by (subst; congruence).
    destruct (spaces_last Hne Hall) as (l' & d & -> & Hd).
    subst.
    match goal with
    | H : s ++ [c] = ?a :: ?b :: ?c' :: ?d' :: ?e :: l' ++ [d] |- _ =>
        change (s ++ [c] = (a :: b :: c' :: d' :: e :: l') ++ [d]) in H;
        apply app_inj_tail in H; destruct H as [_ ->]
    end.
    congruence.
  - unfold replace. rewrite E. now destruct s.
Qed.

Lemma orNull_nonempty (a : option jsstring) : orNull a <> Some [].
Proof. unfold orNull, orElse. destruct a as [[|c tl]|]; cbn; congruence. Qed.

Lemma gas_nonempty (ms t : jsstring) (g info : option jsstring) :
  gas ms t = Ok (g, info) -> g <> Some [] /\ info <> Some [].
Proof.
  unfold gas. intros H.
  assert (Hcase : exists re s m,
             capAll 1 solidEnd (pattern re) = true /\ exec re s = Some m /\
             firstOf (exec re_gasMarking ms) (exec re_gasText t) = Some m
             \/ firstOf (exec re_gasMarking ms) (exec re_gasText t) = None).
  { unfold firstOf. destruct (exec re_gasMarking ms) as [m1|] eqn:E1.
    - exists re_gasMarking, ms, m1. left. auto.
    - destruct (exec re_gasText t) as [m2|] eqn:E2.
      + exists re_gasText, t, m2. left. auto.
      + exists re_gasText, t, (mkResult 0 [] (fun _ => None)). now right. }
  destruct Hcase as (re & s & m & [(Hc & He & Hf)|Hf]); rewrite Hf in H.
  - unfold capture in H. destruct (groups m 1) as [c|] eqn:Ec; [|discriminate].
    cbn [bind] in H. inversion H; subst.
    destruct (exec_cap_solidEnd re 1 s Hc He Ec) as (s' & d & -> & Hd). split.
    + intros E. inversion E as [E']. revert E'. now apply stripGroupPrefix_nonempty.
    + apply orNull_nonempty.
  - inversion H. split; discriminate.
Qed.

Lemma temperature_nonempty (ms t : jsstring) (c mx : option jsstring) :
  temperature ms t = Ok (c, mx) -> c <> Some [] /\ mx <> Some [].
Proof.
  unfold temperature. destruct (firstOf (exec re_temp ms) (exec re_temp t)) as [m|].
  - unfold capture. destruct (groups m 1) as [g|]; [|discriminate]. unfold bind.
    remember (orNull (lookup TEMP_CLASS_INFO (str "T" ++ g))) as found eqn:El.
    intros H. injection H as <- <-. split; [discriminate|].
    rewrite El. apply orNull_nonempty.
  - intros H. inversion H. split; discriminate.
Qed.

Lemma capture_solid_nonempty (re : RegExp) (s : jsstring) (m : MatchResult) (g : jsstring) :
  capAll 1 solid (pattern re) = true -> exec re s = Some m -> capture m 1 = Ok g ->
  exists c tl, g = c :: tl /\ isSpace c = false.
Proof.
  intros Hc He Hg. unfold capture in Hg.
  destruct (groups m 1) as [d|] eqn:Ed; [|discriminate]. inversion Hg; subst.
  exact (exec_cap_solid re 1 s Hc He Ed).
Qed.

Lemma protectionLevel_nonempty (ms t : jsstring) (e : option jsstring) :
  protectionLevel ms t = Ok e -> e <> Some [].
Proof.
  unfold protectionLevel, firstOf. destruct (exec re_epl ms) as [m1|] eqn:E1.
  - destruct (capture m1 1) as [g|] eqn:Eg; [|discriminate]. cbn [bind].
    destruct (capture_solid_nonempty re_epl ms eq_refl E1 Eg) as (c & tl & -> & _).
    intros H. inversion H. discriminate.
  - destruct (exec re_epl t) as [m2|] eqn:E2.
    + destruct (capture m2 1) as [g|] eqn:Eg; [|discriminate]. cbn [bind].
      destruct (capture_solid_nonempty re_epl t eq_refl E2 Eg) as (c & tl & -> & _).
      intros H. inversion H. discriminate.
    + intros H. inversion H. discriminate.
Qed.

Lemma zoneOf_nonempty (t : jsstring) (e z : option jsstring) :
  zoneOf t e = Ok z -> z <> Some [].
Proof.
  unfold zoneOf. destruct (exec re_zone t) as [m|].
  - destruct (capture m 1); [|discriminate]. cbn [bind]. intros H. inversion H. discriminate.
  - destruct (truthy e); [|intros H; inversion H; discriminate].
    destruct (lookup eplZoneMap (orEmpty e)); intros H; inversion H; discriminate.
Qed.

Lemma ip_nonempty (t : jsstring) (v : option jsstring) : ip t = Ok v -> v <> Some [].
Proof.
  unfold ip. destruct (exec re_ip t) as [m|]; [|intros H; inversion H; discriminate].
  destruct (capture m 1); [|discriminate]. cbn [bind]. intros H. inversion H. discriminate.
Qed.

Lemma ambient_nonempty (t : jsstring) (v : option jsstring) :
  ambient t = Ok v -> v <> Some [].
Proof.
  unfold ambient. destruct (exec re_ambient t) as [m|]; [|intros H; inversion H; discriminate].
  destruct (capture m 1) as [lo|]; [|discriminate]. cbn [bind].
  destruct (capture m 3) as [hi|]; [|discriminate]. cbn [bind].
  intros H. inversion H. intros E. inversion E as [E']. now destruct lo.
Qed.

(** The guard [val.length < 3] of the label loops. *)
Lemma labelled_long (reject : RegExp) (pats : list RegExp) (t v : jsstring) :
  labelled reject pats t = Ok (Some v) -> 3 <= length v.
Proof.
  induction pats as [|pat more IH]; simpl; [discriminate|].
  destruct (exec pat t) as [m|]; [|exact IH].
  destruct (capture m 1) as [g|]; [|discriminate]. cbn [bind].
  destruct (test reject (stripTail (trim g))); [exact IH|].
  destruct (Nat.ltb (length (stripTail (trim g))) 3) eqn:E; [exact IH|].
  intros H. inversion H; subst. now apply Nat.ltb_ge in E.
Qed.

Lemma firstCapture_nonempty (pats : list RegExp) (t : jsstring) (v : option jsstring) :
  forallb (fun pat => capAll 1 solid (pattern pat)) pats = true ->
  firstCapture pats t = Ok v -> v <> Some [].
Proof.
  induction pats as [|pat more IH]; simpl; intros Hall H.
  - inversion H. discriminate.
  - apply andb_true_iff in Hall. destruct Hall as [Hp Hall].
    destruct (exec pat t) as [m|] eqn:E; [|auto].
    destruct (capture m 1) as [g|] eqn:Eg; [|discriminate]. cbn [bind] in H.
    destruct (capture_solid_nonempty pat t Hp E Eg) as (c & tl & -> & Hc).
    destruct (trim_solid c tl Hc) as (tl' & Et). rewrite Et in H.
    inversion H. discriminate.
Qed.

Lemma standards_nonempty (t : jsstring) : standards t <> Some [].
Proof.
  unfold standards. destruct (matchAll re_standard t) as [|mt more] eqn:E; [discriminate|].
  assert (Hin : In mt (matchAll re_standard t)) by (rewrite E; now left).
  destruct (matchAll_solid re_standard t mt eq_refl Hin) as (c & tl & -> & Hc).
  simpl map. destruct (trim_solid c tl Hc) as (tl' & ->).
  destruct (distinct_head (c :: tl') (map trim more)) as (rest' & ->).
  intros H. injection H as H'. destruct rest'; discriminate H'.
Qed.

Lemma categoryOf_nonempty (t : jsstring) (v : option jsstring) :
  categoryOf t = Ok v -> v <> Some [].
Proof.
  unfold categoryOf, firstOf. destruct (exec re_categoryMark t) as [m1|] eqn:E1.
  - destruct (capture m1 1) as [g|] eqn:Eg; [|discriminate]. cbn [bind].
    destruct (capture_solid_nonempty re_categoryMark t eq_refl E1 Eg) as (c & tl & -> & _).
    intros H. inversion H. discriminate.
  - destruct (exec re_categoryLabel t) as [m2|] eqn:E2.
    + destruct (capture m2 1) as [g|] eqn:Eg; [|discriminate]. cbn [bind].
      destruct (capture_solid_nonempty re_categoryLabel t eq_refl E2 Eg)
        as (c & tl & -> & _).
      intros H. inversion H. discriminate.
    + intros H. inversion H. discriminate.
Qed.

Lemma groupOf_nonempty (t : jsstring) (v : option jsstring) :
  groupOf t = Ok v -> v <> Some [].
Proof.
  unfold groupOf. destruct (exec re_group t) as [m1|] eqn:E1.
  - destruct (capture m1 1) as [g|] eqn:Eg; [|discriminate]. cbn [bind].
    destruct (capture_solid_nonempty re_group t eq_refl E1 Eg) as (c & tl & -> & _).
    intros H. inversion H. discriminate.
  - destruct (exec re_groupAlt t) as [m2|] eqn:E2.
    + destruct (capture m2 1) as [g|] eqn:Eg; [|discriminate]. cbn [bind].
      destruct (capture_solid_nonempty re_groupAlt t eq_refl E2 Eg) as (c & tl & -> & _).
      intros H. inversion H. discriminate.
    + intros H. inversion H. discriminate.
Qed.

Lemma certificate_nonempty (t : jsstring) :
  fst (certificate t) <> Some [] /\ snd (certificate t) <> Some [].
Proof.
  rewrite certificate_first_match.
  destruct (exec re_iecex t) as [m1|] eqn:E1.
  - destruct (exec_solid re_iecex t eq_refl E1) as (c & tl & Hm & Hc).
    pose proof (solid_truthy_collapsed Hm Hc) as Ht. cbn [fst snd]. split.
    + intros E. rewrite E in Ht. discriminate.
    + destruct (exec re_atexAlso t); discriminate.
  - destruct (exec re_atex t) as [m2|] eqn:E2.
    + destruct (exec_solid re_atex t eq_refl E2) as (c & tl & Hm & Hc).
      pose proof (solid_truthy_removed Hm Hc) as Ht. cbn [fst snd]. split.
      * intros E. rewrite E in Ht. discriminate.
      * discriminate.
    + destruct (exec re_ukca t) as [m3|] eqn:E3; cbn [fst snd]; [|split; discriminate].
      destruct (exec_solid re_ukca t eq_refl E3) as (c & tl & -> & Hc).
      destruct (trim_solid c tl Hc) as (tl' & ->). split; discriminate.
Qed.

Lemma candidate_nonempty (t c : jsstring) : In c (candidates t) -> c <> [].
Proof.
  intros H. apply candidates_In in H. destruct H as (pat & mt & Hp & Hm & ->).
  assert (Hs : solid (pattern pat) = true).
  { assert (Hall : forallb (fun p => solid (pattern p)) markingPatterns = true)
      by reflexivity.
    rewrite forallb_forall in Hall. now apply Hall. }
  destruct (matchAll_solid pat t mt Hs Hm) as (d & tl & -> & Hd).
  destruct (trim_solid d tl Hd) as (tl' & ->).
  unfold collapseSpaces. now rewrite replaceAll_solid.
Qed.

Lemma sortedBodies_nonempty (t body : jsstring) :
  firstIncluded t sortedBodies = Some body -> body <> [].
Proof.
  unfold firstIncluded. intros H. apply find_some in H. destruct H as [Hin _].
  apply (Permutation_in _ (Permutation_sym (sortBy_perm CERT_BODIES))) in Hin.
  assert (Hall : forallb (fun b => negb (jsstring_eqb b [])) CERT_BODIES = true)
    by reflexivity.
  rewrite forallb_forall in Hall. specialize (Hall body Hin).
  intros ->. discriminate.
Qed.

(** Every field other than [specialConditions] (and [raw], [markings],
    [protectionTypes]) is absent or a non-empty string. *)
Lemma other_fields_never_empty (t : jsstring) (r : CertificateRecord) :
  parse t = Ok r ->
  Forall (fun field => field <> Some [])
         [ certNumber r; certType r; marking r; gasGroup r; gasGroupInfo r; tempClass r;
           tempClassMax r; epl r; zone r; ipRating r; ambientTemp r; manufacturer r;
           equipment r; notifiedBody r; issueDate r; expiryDate r; standard r;
           category r; group r ].
Proof.
  intros H. apply parse_inv in H.
  destruct H as (Hn & Hty & Hms & Hm & Hp & Hg & Hte & He & Hz & Hip & Ha & Hmf & Heq
                  & Hb & Hi & Hx & Hs & Hst & Hc & Hgr & Hraw).
  destruct (certificate_nonempty t) as [Hc1 Hc2].
  destruct (gas_nonempty _ _ Hg) as [Hg1 Hg2].
  destruct (temperature_nonempty _ _ Hte) as [Ht1 Ht2].
  repeat constructor.
  - now rewrite Hn.
  - now rewrite Hty.
  - intros E. rewrite Hm in E. destruct (markings r) as [|c more] eqn:El; [discriminate|].
    inversion E; subst c.
    apply (@candidate_nonempty t []); [|reflexivity].
    apply (Permutation_in _ (Permutation_sym (sortBy_perm (candidates t)))).
    fold (sortedMarkings t). rewrite <- Hms. now left.
  - exact Hg1.
  - exact Hg2.
  - exact Ht1.
  - exact Ht2.
  - exact (protectionLevel_nonempty _ _ He).
  - exact (zoneOf_nonempty _ _ Hz).
  - exact (ip_nonempty _ Hip).
  - exact (ambient_nonempty _ Ha).
  - intros E. rewrite E in Hmf. apply labelled_long in Hmf. simpl in Hmf. lia.
  - intros E. rewrite E in Heq. apply labelled_long in Heq. simpl in Heq. lia.
  - intros E. rewrite Hb in E. now apply sortedBodies_nonempty in E.
  - exact (firstCapture_nonempty issuePats t eq_refl Hi).
  - exact (firstCapture_nonempty expiryPats t eq_refl Hx).
  - rewrite Hst. apply standards_nonempty.
  - exact (categoryOf_nonempty _ Hc).
  - exact (groupOf_nonempty _ Hgr).
Qed.

(** The older copy stores label values unchecked: a manufacturer line
    of white space gives the empty string there. *)
Lemma js_manufacturer_empty_string :
  exists r,
    ExParserJs.parse (str "Manufacturer:    ") = Ok r /\
    ExParserJs.manufacturer r = Some [].
Proof.
  eexists. split; [vm_compute; reflexivity|]. reflexivity.
Qed.

(** * Where a match is found *)

Lemma lastOr_app (p : option char) (a b : jsstring) :
  lastOr p (a ++ b) = lastOr (lastOr p a) b.
Proof. revert p. induction a as [|c a IH]; intros p; simpl; [reflexivity|apply IH]. Qed.

(** [exec] reports the leftmost position at which the pattern matches. *)
Lemma execFrom_some (re : RegExp) (s : jsstring) :
  forall p i res,
    execFrom re p s i = Some res ->
    exists pre suf y,
      s = pre ++ suf /\ matchAt re (lastOr p pre) suf = Some y /\
      index res = i + length pre /\
      matched res = firstn (length suf - length (rest y)) suf /\
      groups res = caps y /\
      (forall pre1 c pre2, pre = pre1 ++ c :: pre2 ->
                           matchAt re (lastOr p pre1) (c :: pre2 ++ suf) = None).
Proof.
  induction s as [|c tl IH]; intros p i res H; simpl in H.
  - destruct (matchAt re p []) as [y|] eqn:E; [|discriminate].
    inversion H; subst; clear H. exists [], [], y. cbn.
    repeat split; auto. intros pre1 c pre2 Hp. now destruct pre1.
  - destruct (matchAt re p (c :: tl)) as [y|] eqn:E.
    + inversion H; subst; clear H. exists [], (c :: tl), y. cbn [app length lastOr index matched groups].
      repeat split; auto. intros pre1 c' pre2 Hp. now destruct pre1.
    + destruct (IH _ _ _ H) as (pre & suf & y & -> & Hm & Hi & Hmt & Hg & Hleft).
      exists (c :: pre), suf, y. cbn [app length lastOr]. repeat split; auto; [lia|].
      intros pre1 c' pre2 Hp. destruct pre1 as [|d pre1]; cbn [app lastOr] in *.
      * inversion Hp; subst. exact E.
      * inversion Hp; subst. eapply Hleft. reflexivity.
Qed.

Lemma execFrom_none (re : RegExp) (s : jsstring) :
  forall p i,
    execFrom re p s i = None ->
    forall pre suf, s = pre ++ suf -> matchAt re (lastOr p pre) suf = None.
Proof.
  induction s as [|c tl IH]; intros p i H pre suf Hs; simpl in H.
  - destruct pre; [|discriminate]. cbn in Hs. subst suf. cbn.
    destruct (matchAt re p []); [discriminate|reflexivity].
  - destruct (matchAt re p (c :: tl)) as [y|] eqn:E; [discriminate|].
    destruct pre as [|d pre]; cbn [app lastOr] in *.
    + now subst suf.
    + inversion Hs; subst. eapply IH; eauto.
Qed.

(** * Runs of one character class *)

Lemma forward_rest (x : MatchState) (run tl : jsstring) :
  rest x = run ++ tl -> rest (forward x run) = tl.
Proof.
  revert x. induction run as [|c run IH]; intros x H; cbn [forward]; [exact H|].
  apply IH. rewrite H. reflexivity.
Qed.

Lemma forward_caps (x : MatchState) (run : jsstring) : caps (forward x run) = caps x.
Proof.
  revert x. induction run as [|c run IH]; intros x; cbn [forward]; [reflexivity|].
  now rewrite IH.
Qed.

Lemma forward_prev (x : MatchState) (run : jsstring) :
  prev (forward x run) = lastOr (prev x) run.
Proof.
  revert x. induction run as [|c run IH]; intros x; cbn [forward lastOr]; [reflexivity|].
  now rewrite IH.
Qed.

Lemma forward_initial (p : option char) (run after : jsstring) :
  forward (initial p (run ++ after)) run = initial (lastOr p run) after.
Proof.
  revert p. induction run as [|c run IH]; intros p; cbn [forward lastOr app]; [reflexivity|].
  unfold advance. cbn [rest initial tl caps]. apply (IH (Some c)).
Qed.

Section ClassRun.

Variables (ic inv : bool) (items : list citem).

Let ok (c : char) : bool := xorb inv (set_matches ic items c).

(** A greedy repetition of a class reads the whole run in front of it
    (up to its maximum) when the continuation accepts that. *)
Lemma greedy_run (run : jsstring) :
  forall fuel min max x k tl z,
    rest x = run ++ tl -> forallb ok run = true -> min <= length run ->
    (max = Some (length run) \/
     (match max with Some mx => length run < mx | None => True end) /\ stopsAt ok tl) ->
    length run < fuel ->
    k (forward x run) = Some z ->
    repeatMatcher fuel (m ic (Cls inv items)) min max true [] x k = Some z.
Proof.
  induction run as [|c run IH]; intros fuel min max x k tl z Hrest Hall Hmin Hmax Hfuel Hk;
    (destruct fuel as [|fuel]; [simpl in Hfuel; lia|]); cbn [forward] in Hk.
  - cbn [repeatMatcher]. destruct (max_is_zero max) eqn:Ez; [exact Hk|].
    simpl in Hmin. assert (min = 0) by lia. subst min. cbn [Nat.eqb negb].
    destruct Hmax as [->|[_ Hstop]]; [discriminate|].
    cbn [m]. unfold step. cbn [clearcaps rest]. simpl in Hrest. rewrite Hrest.
    destruct tl as [|d tl]; [exact Hk|]. simpl in Hstop. fold (ok d). rewrite Hstop. exact Hk.
  - cbn [forallb] in Hall. apply andb_true_iff in Hall. destruct Hall as [Hc Hall].
    cbn [repeatMatcher].
    assert (Ez : max_is_zero max = false).
    { destruct Hmax as [->|[Hlt _]]; [reflexivity|]. destruct max as [[|mx]|]; simpl in *; auto; lia. }
    rewrite Ez.
    assert (Hnext : repeatMatcher fuel (m ic (Cls inv items)) (Nat.pred min) (pred_max max)
                                  true [] (advance x c (run ++ tl)) k = Some z).
    { apply IH with (tl := tl).
      - reflexivity.
      - exact Hall.
      - simpl in Hmin. lia.
      - destruct Hmax as [->|[Hlt Hstop]]; [left; reflexivity|right]. split; [|exact Hstop].
        destruct max as [mx|]; simpl in *; [lia|exact I].
      - simpl in Hfuel. lia.
      - rewrite Hrest in Hk. exact Hk. }
    assert (Hstep : m ic (Cls inv items) (clearcaps [] x)
                      (fun y =>
                         if Nat.eqb min 0 && Nat.eqb (length (rest y)) (length (rest x)) then None
                         else repeatMatcher fuel (m ic (Cls inv items)) (Nat.pred min)
                                            (pred_max max) true [] y k) = Some z).
    { cbn [m]. unfold step. cbn [clearcaps rest]. rewrite Hrest. cbn [app].
      fold (ok c). rewrite Hc. cbn [advance rest caps existsb].
      replace (Nat.eqb (length (run ++ tl)) (length (c :: run ++ tl))) with false
        by (symmetry; apply Nat.eqb_neq; simpl; lia).
      rewrite andb_false_r. exact Hnext. }
    destruct (negb (Nat.eqb min 0)); [exact Hstep|]. now rewrite Hstep.
Qed.

End ClassRun.

(** * White-space runs: [replace(/\s+/g, by)] *)

Lemma span_spaces (s : jsstring) :
  exists run tl,
    s = run ++ tl /\ forallb isSpace run = true /\
    stopsAt (fun c => xorb false (set_matches false [CSpace] c)) tl.
Proof.
  induction s as [|c s IH].
  - exists [], []. repeat split.
  - destruct (isSpace c) eqn:E.
    + destruct IH as (run & tl & -> & Hall & Hstop).
      exists (c :: run), tl. cbn [forallb app]. rewrite E. auto.
    + exists [], (c :: s). repeat split. cbn. now rewrite E.
Qed.

Lemma forallb_ws (run : jsstring) :
  forallb isSpace run = true ->
  forallb (fun c => xorb false (set_matches false [CSpace] c)) run = true.
Proof.
  induction run as [|c run IH]; cbn [forallb]; [reflexivity|].
  intros H. apply andb_true_iff in H. destruct H as [Hc H].
  rewrite (IH H). cbn. now rewrite Hc.
Qed.

(** At a white-space character the pattern [\s+] matches the whole run. *)
Lemma spaces_here (p : option char) (c : char) (run tl : jsstring) :
  forallb isSpace (c :: run) = true ->
  stopsAt (fun c => xorb false (set_matches false [CSpace] c)) tl ->
  matchAt re_spaces p (c :: run ++ tl) = Some (initial (lastOr p (c :: run)) tl).
Proof.
  intros Hall Hstop. unfold matchAt, re_spaces, re, plus, ws, cls, seq.
  cbn [fold_right pattern ignoreCase m groups_of].
  rewrite <- (@forward_initial p (c :: run) tl).
  refine (@greedy_run false false [CSpace] (c :: run) _ 1 None (initial p (c :: run ++ tl))
                      (fun y => Some y) tl _ _ _ _ _ _ _).
  - reflexivity.
  - now apply forallb_ws.
  - simpl. lia.
  - right. split; [exact I|exact Hstop].
  - cbn [initial rest]. simpl. rewrite length_app. lia.
  - reflexivity.
Qed.

Lemma matchAt_spaces_prev (p q : option char) (s : jsstring) :
  option_map rest (matchAt re_spaces p s) = option_map rest (matchAt re_spaces q s).
Proof.
  destruct s as [|c s]; [reflexivity|].
  destruct (isSpace c) eqn:E.
  - destruct (span_spaces s) as (run & tl & -> & Hall & Hstop).
    rewrite !spaces_here; auto; cbn [forallb]; now rewrite E.
  - now rewrite !spaces_not_here.
Qed.

Lemma squeeze_run (by_ : jsstring) (run tl : jsstring) :
  forallb isSpace run = true ->
  stopsAt (fun c => xorb false (set_matches false [CSpace] c)) tl ->
  squeezeFrom by_ true (run ++ tl) = squeezeFrom by_ false tl.
Proof.
  intros Hall Hstop. induction run as [|c run IH]; cbn [app].
  - destruct tl as [|d tl]; [reflexivity|]. cbn in Hstop. rewrite orb_false_r in Hstop.
    cbn [squeezeFrom]. now rewrite Hstop.
  - cbn [forallb] in Hall. apply andb_true_iff in Hall. destruct Hall as [Hc Hall].
    cbn [squeezeFrom]. rewrite Hc. cbn [app]. auto.
Qed.

Lemma replaceAllFrom_skip (re : RegExp) (by_ : jsstring) (run : jsstring) :
  forall p tl,
    replaceAllFrom re by_ p (run ++ tl) (length run)
    = replaceAllFrom re by_ (lastOr p run) tl 0.
Proof.
  induction run as [|c run IH]; intros p tl; cbn [app length lastOr]; [reflexivity|].
  cbn [replaceAllFrom]. apply IH.
Qed.

Lemma replaceAllFrom_spaces (by_ : jsstring) (n : nat) :
  forall s p, length s <= n ->
              replaceAllFrom re_spaces by_ p s 0 = squeezeFrom by_ false s.
Proof.
  induction n as [|n IH]; intros s p Hlen.
  - destruct s; [reflexivity|simpl in Hlen; lia].
  - destruct s as [|c s]; [reflexivity|]. simpl in Hlen.
    destruct (isSpace c) eqn:E.
    + destruct (span_spaces s) as (run & tl & -> & Hall & Hstop).
      cbn [replaceAllFrom]. rewrite spaces_here; auto; [|cbn [forallb]; now rewrite E].
      cbn [rest initial squeezeFrom]. rewrite E.
      replace (length (c :: run ++ tl) - length tl) with (S (length run))
        by (cbn [length]; rewrite length_app; lia).
      cbn [Nat.eqb Nat.pred app]. rewrite replaceAllFrom_skip.
      rewrite IH by (rewrite length_app in Hlen; lia).
      now rewrite squeeze_run.
    + cbn [replaceAllFrom]. rewrite spaces_not_here by exact E.
      cbn [squeezeFrom]. rewrite E. f_equal. apply IH. lia.
Qed.

(** [replace(/\s+/g, by)] puts [by] in the place of every maximal run
    of white space. *)
Lemma replaceAll_spaces (by_ s : jsstring) :
  replaceAll re_spaces by_ s = squeezeFrom by_ false s.
Proof. unfold replaceAll. now apply replaceAllFrom_spaces with (n := length s). Qed.

Lemma squeeze_empty (b : bool) (s : jsstring) :
  squeezeFrom [] b s = filter (fun c => negb (isSpace c)) s.
Proof.
  revert b. induction s as [|c s IH]; intros b; cbn [squeezeFrom filter]; [reflexivity|].
  destruct (isSpace c); cbn [negb].
  - destruct b; cbn [app]; apply IH.
  - f_equal. apply IH.
Qed.

(** [replace(/\s+/g, '')] deletes the white space and nothing else. *)
Lemma removeSpaces_filter (s : jsstring) :
  removeSpaces s = filter (fun c => negb (isSpace c)) s.
Proof. unfold removeSpaces. now rewrite replaceAll_spaces, squeeze_empty. Qed.

(** * What a pattern can consume *)

Section Language.

Variable ic : bool.

Lemma reach_consumed (r : regex) (x y : MatchState) :
  Reach ic r x y -> rest x = consumed x y ++ rest y.
Proof.
  intros H. destruct (reach_rest H) as (s & E). now rewrite (consumed_app x y s E).
Qed.

Lemma consumed_nil (x y : MatchState) : rest y = rest x -> consumed x y = [].
Proof. intros E. apply consumed_app. now rewrite E. Qed.

Lemma reach_consumes (r : regex) (x y : MatchState) :
  Reach ic r x y -> Consumes ic r (consumed x y).
Proof.
  induction 1.
  - rewrite consumed_nil by reflexivity. constructor.
  - rewrite (consumed_app x (advance x c tl) [c]) by (now rewrite H). now constructor.
  - rewrite (consumed_app x (advance x c tl) [c]) by (now rewrite H). now constructor.
  - rewrite (consumed_app x (advance x c tl) [c]) by (now rewrite H). now constructor.
  - rewrite (consumed_app x z (consumed x y ++ consumed y z)).
    + now constructor.
    + rewrite (reach_consumed H), (reach_consumed H0) at 1. now rewrite app_assoc.
  - now apply C_alt_l.
  - now apply C_alt_r.
  - rewrite consumed_nil by reflexivity. constructor.
  - rewrite consumed_nil by reflexivity. constructor.
  - rewrite (consumed_app x z (consumed (clearcaps (groups_of a) x) y ++ consumed y z)).
    + now apply C_rep_step.
    + pose proof (reach_consumed H0) as E0. cbn [clearcaps rest] in E0.
      rewrite E0, (reach_consumed H1) at 1. now rewrite app_assoc.
  - change (consumed x (setcap n (Some (consumed x y)) y)) with (consumed x y).
    now constructor.
  - rewrite consumed_nil by reflexivity. constructor.
  - rewrite consumed_nil by reflexivity. constructor.
  - rewrite consumed_nil by reflexivity. constructor.
  - rewrite consumed_nil by reflexivity. constructor.
  - rewrite consumed_nil by reflexivity. constructor.
Qed.

(** [avoids] *)
Lemma consumes_avoids (c : char) (r : regex) (s : jsstring) :
  Consumes ic r s -> avoids ic c r = true -> ~ In c s.
Proof.
  induction 1; cbn [avoids]; intros Ha Hin; try contradiction.
  - destruct Hin as [<-|[]]. rewrite H in Ha. discriminate.
  - destruct Hin as [<-|[]]. rewrite H in Ha. discriminate.
  - destruct Hin as [<-|[]]. congruence.
  - apply andb_true_iff in Ha. destruct Ha. apply in_app_or in Hin. tauto.
  - apply andb_true_iff in Ha. destruct Ha. tauto.
  - apply andb_true_iff in Ha. destruct Ha. tauto.
  - apply in_app_or in Hin. cbn [avoids] in *. tauto.
  - tauto.
Qed.

(** [minWidth] and [maxWidth] *)
Lemma consumes_minWidth (r : regex) (s : jsstring) :
  Consumes ic r s -> minWidth r <= length s.
Proof.
  induction 1; cbn [minWidth length]; try lia.
  - rewrite length_app. lia.
  - destruct max; cbn; lia.
  - rewrite length_app. destruct max as [[|mx]|]; [discriminate| |];
      cbn [pred_max option_map Nat.pred minWidth] in IHConsumes2;
      destruct min as [|min]; cbn [Nat.pred Nat.min] in *; try lia.
Qed.

End Language.

(** * Patterns with finitely many matches *)

Lemma lower_upper (c : char) : isLower c = true -> lowerChar (upperChar c) = c.
Proof. unfold_chars. intros H. split_cmp. Qed.

Lemma upper_lower (c : char) : isUpper c = true -> upperChar (lowerChar c) = c.
Proof. unfold_chars. intros H. split_cmp. Qed.

Lemma chrChars_sound (ic : bool) (a c : char) :
  chr_matches ic a c = true -> In c (chrChars ic a).
Proof.
  destruct ic; unfold chr_matches, chrChars; intros H; apply N.eqb_eq in H.
  - destruct (isLower c) eqn:Ec.
    + destruct (isLower a) eqn:Ea.
      * left. rewrite <- (lower_upper a Ea), <- (lower_upper c Ec). now rewrite H.
      * right. right. left. unfold upperChar at 1 in H. rewrite Ea in H. rewrite H.
        now apply lower_upper.
    + right. left. unfold upperChar at 2 in H. now rewrite Ec in H.
  - now left.
Qed.

Lemma charsFrom_In (n : nat) :
  forall lo c, (lo <= c)%N -> (c < lo + N.of_nat n)%N -> In c (charsFrom lo n).
Proof.
  induction n as [|n IH]; intros lo c Hlo Hhi; [lia|]. cbn [charsFrom].
  destruct (N.eq_dec lo c) as [->|Hne]; [now left|]. right. apply IH; lia.
Qed.

Lemma itemChars_sound (i : citem) (l : list char) (c : char) :
  itemChars i = Some l -> item_has i c = true -> In c l.
Proof.
  destruct i; cbn [itemChars item_has]; intros Hl Hc; try discriminate.
  - inversion Hl; subst. apply N.eqb_eq in Hc. now left.
  - destruct (N.ltb (hi - lo) 64) eqn:E; [|discriminate].
    injection Hl as <-.
    unfold between in Hc. apply andb_true_iff in Hc. destruct Hc as [H1 H2].
    apply N.leb_le in H1, H2. apply (@charsFrom_In (S (N.to_nat (hi - lo))) lo c); lia.
  - injection Hl as <-. unfold isDigit, between in Hc. apply andb_true_iff in Hc.
    destruct Hc as [H1 H2]. apply N.leb_le in H1, H2. apply (@charsFrom_In 10 48%N c); lia.
Qed.

Lemma itemsChars_sound (items : list citem) :
  forall l c, itemsChars items = Some l -> set_has items c = true -> In c l.
Proof.
  unfold set_has. induction items as [|i items IH]; intros l c Hl Hc; cbn in *; [discriminate|].
  destruct (itemChars i) as [a|] eqn:Ea; [|discriminate].
  destruct (itemsChars items) as [b|] eqn:Eb; [|discriminate]. inversion Hl; subst.
  apply in_or_app. apply orb_true_iff in Hc. destruct Hc as [Hc|Hc].
  - left. eapply itemChars_sound; eauto.
  - right. now apply IH.
Qed.

Lemma setChars_sound (ic : bool) (items : list citem) (l : list char) (c : char) :
  setChars ic items = Some l -> set_matches ic items c = true -> In c l.
Proof.
  unfold setChars, set_matches. destruct (itemsChars items) as [base|] eqn:Eb; [|discriminate].
  intros Hl Hc. inversion Hl; subst. destruct ic; [|eapply itemsChars_sound; eauto].
  apply orb_true_iff in Hc. destruct Hc as [Hc|Hc].
  - apply orb_true_iff in Hc. destruct Hc as [Hc|Hc].
    + apply in_or_app. left. eapply itemsChars_sound; eauto.
    + pose proof (itemsChars_sound items _ Eb Hc) as Hu.
      destruct (isLower c) eqn:Ec.
      * apply in_or_app. right. apply in_or_app. right.
        rewrite <- (lower_upper c Ec). now apply in_map.
      * apply in_or_app. left. unfold upperChar in Hu. now rewrite Ec in Hu.
  - pose proof (itemsChars_sound items _ Eb Hc) as Hu.
    destruct (isUpper c) eqn:Ec.
    + apply in_or_app. right. apply in_or_app. left.
      rewrite <- (upper_lower c Ec). now apply in_map.
    + apply in_or_app. left. unfold lowerChar in Hu. now rewrite Ec in Hu.
Qed.

Lemma product_In (a b : list jsstring) (u v : jsstring) :
  In u a -> In v b -> In (u ++ v) (product a b).
Proof.
  intros Hu Hv. unfold product. apply in_flat_map. exists u. split; [exact Hu|].
  now apply in_map.
Qed.

Lemma consumes_words (ic : bool) (r : regex) (s : jsstring) :
  Consumes ic r s -> forall l, words ic r = Some l -> In s l.
Proof.
  induction 1; cbn [words]; intros l Hl; try (inversion Hl; subst; now left).
  - inversion Hl; subst. apply (in_map (fun c => [c])). now apply chrChars_sound.
  - destruct inv; [discriminate Hl|].
    destruct (setChars ic items) as [cs|] eqn:E; [|discriminate Hl].
    inversion Hl; subst. apply (in_map (fun c => [c])). eapply setChars_sound; eauto.
  - destruct (words ic a) as [wa|]; [|discriminate Hl].
    destruct (words ic b) as [wb|]; [|discriminate Hl]. inversion Hl; subst.
    apply product_In; auto.
  - destruct (words ic a) as [wa|]; [|discriminate Hl].
    destruct (words ic b) as [wb|]; [|discriminate Hl]. inversion Hl; subst.
    apply in_or_app. left. auto.
  - destruct (words ic a) as [wa|]; [|discriminate Hl].
    destruct (words ic b) as [wb|]; [|discriminate Hl]. inversion Hl; subst.
    apply in_or_app. right. auto.
  - destruct max as [mx|]; [|discriminate Hl].
    destruct (words ic a) as [wa|]; [|discriminate Hl].
    inversion Hl; subst. destruct mx; cbn; auto.
  - destruct (words ic a) as [wa|]; [|discriminate Hl]. inversion Hl; subst. now left.
  - destruct max as [[|mx]|]; try discriminate.
    cbn [words pred_max option_map Nat.pred] in IHConsumes2.
    destruct (words ic a) as [wa|]; [|discriminate Hl]. inversion Hl; subst.
    cbn [powers]. apply in_or_app. right. apply product_In; auto.
  - auto.
Qed.

Lemma memStr_true (x : jsstring) (l : list jsstring) : memStr x l = true -> In x l.
Proof.
  unfold memStr. intros H. apply existsb_exists in H. destruct H as (y & Hy & E).
  apply jsstring_eqb_eq in E. now subst.
Qed.

Lemma consumes_among (l : list jsstring) (ic : bool) (r : regex) (s : jsstring) :
  Consumes ic r s -> among l ic r = true -> In s l.
Proof.
  unfold among. intros H Ha. destruct (words ic r) as [wa|] eqn:E; [|discriminate].
  rewrite forallb_forall in Ha. apply memStr_true. apply Ha. eapply consumes_words; eauto.
Qed.

Lemma consumes_within (ic : bool) (l : list char) (r : regex) (s : jsstring) :
  Consumes ic r s -> within ic l r = true -> forall c, In c s -> In c l.
Proof.
  assert (Hmem : forall (cs : list char) c,
             forallb (fun c => existsb (char_eqb c) l) cs = true -> In c cs -> In c l).
  { intros cs c Hall Hin. rewrite forallb_forall in Hall. specialize (Hall c Hin).
    apply existsb_exists in Hall. destruct Hall as (d & Hd & E). apply N.eqb_eq in E.
    now subst. }
  induction 1; cbn [within]; intros Hw c0 Hin; try contradiction.
  - destruct Hin as [<-|[]]. eapply Hmem; eauto. now apply chrChars_sound.
  - destruct Hin as [<-|[]]. destruct inv; [discriminate|].
    destruct (setChars ic items) as [cs|] eqn:E; [|discriminate].
    eapply Hmem; eauto. eapply setChars_sound; eauto.
  - discriminate.
  - apply andb_true_iff in Hw. destruct Hw. apply in_app_or in Hin. destruct Hin; eauto.
  - apply andb_true_iff in Hw. destruct Hw. eauto.
  - apply andb_true_iff in Hw. destruct Hw. eauto.
  - cbn [within] in *. apply in_app_or in Hin. destruct Hin; eauto.
  - eauto.
Qed.

(** The captures of a match, read through [Consumes]. *)
Lemma exec_cap_consumes (P : jsstring -> Prop) (chk : bool -> regex -> bool) (re : RegExp)
      (Hchk : forall a s, Consumes (ignoreCase re) a s -> chk (ignoreCase re) a = true -> P s)
      (n : nat) (t : jsstring) (res : MatchResult) :
  capAll n (chk (ignoreCase re)) (pattern re) = true -> exec re t = Some res ->
  forall s, groups res n = Some s -> P s.
Proof.
  apply (exec_cap_inv P (chk (ignoreCase re))).
  intros a x y Hr Hc. eapply Hchk; eauto. now apply reach_consumes.
Qed.

(** * Reading one group of one pattern *)

Lemma citem_eqb_eq (a b : citem) : citem_eqb a b = true -> a = b.
Proof.
  destruct a, b; cbn; intros H; try discriminate; try reflexivity.
  - apply N.eqb_eq in H. now subst.
  - apply andb_true_iff in H. destruct H as [H1 H2].
    apply N.eqb_eq in H1, H2. now subst.
Qed.

Lemma citems_eqb_eq (a : list citem) : forall b, citems_eqb a b = true -> a = b.
Proof.
  induction a as [|x a IH]; destruct b as [|y b]; cbn; intros H; try discriminate; auto.
  apply andb_true_iff in H. destruct H as [H1 H2].
  apply citem_eqb_eq in H1. apply IH in H2. now subst.
Qed.

Lemma regex_eqb_eq (a : regex) : forall b, regex_eqb a b = true -> a = b.
Proof.
  induction a; destruct b; cbn [regex_eqb]; intros H; try discriminate; try reflexivity.
  - apply N.eqb_eq in H. now subst.
  - apply andb_true_iff in H. destruct H as [H1 H2].
    apply Bool.eqb_prop in H1. apply citems_eqb_eq in H2. now subst.
  - apply andb_true_iff in H. destruct H as [H1 H2].
    apply IHa1 in H1. apply IHa2 in H2. now subst.
  - apply andb_true_iff in H. destruct H as [H1 H2].
    apply IHa1 in H1. apply IHa2 in H2. now subst.
  - rewrite !andb_true_iff in H. destruct H as [[[H1 H2] H3] H4].
    apply Nat.eqb_eq in H1. apply Bool.eqb_prop in H3. apply IHa in H4. subst.
    destruct max as [x|], max0 as [y|]; cbn in H2; try discriminate; auto.
    apply Nat.eqb_eq in H2. now subst.
  - apply andb_true_iff in H. destruct H as [H1 H2].
    apply Nat.eqb_eq in H1. apply IHa in H2. now subst.
  - apply andb_true_iff in H. destruct H as [H1 H2].
    apply Bool.eqb_prop in H1. apply IHa in H2. now subst.
Qed.

(** What group [n] of a match holds was consumed by the pattern the
    group encloses. *)
Lemma exec_cap_exact (target : regex) (re : RegExp) (n : nat) (t : jsstring)
      (res : MatchResult) (g : jsstring) :
  capAll n (regex_eqb target) (pattern re) = true ->
  exec re t = Some res -> groups res n = Some g ->
  Consumes (ignoreCase re) target g.
Proof.
  intros Hc He Hg.
  apply (@exec_cap_inv (fun s => Consumes (ignoreCase re) target s) (regex_eqb target) re)
    with (n := n) (t := t) (res := res); auto.
  intros a x y Hr Ha. apply regex_eqb_eq in Ha. subst a. now apply reach_consumes.
Qed.

(** A repetition of a class consumes members of the class only. *)
Lemma consumes_run (ic : bool) (r : regex) (s : jsstring) :
  Consumes ic r s ->
  forall min max g inv items,
    r = Rep min max g (Cls inv items) ->
    forallb (fun c => xorb inv (set_matches ic items c)) s = true.
Proof.
  induction 1; intros mn mx g0 inv0 items0 E; try discriminate; try reflexivity.
  inversion E; subst. rewrite forallb_app.
  rewrite (IHConsumes2 _ _ _ _ _ eq_refl), andb_true_r.
  inversion H0; subst. cbn. now rewrite andb_true_r.
Qed.

(** The matcher of a literal reads the literal. *)
Lemma m_lit (ic : bool) (l : jsstring) :
  forall x k after,
    rest x = l ++ after ->
    m ic (fold_right (fun c r => Seq (Chr c) r) Eps l) x k = k (forward x l).
Proof.
  induction l as [|c l IH]; intros x k after Hr; cbn [fold_right m forward]; [reflexivity|].
  unfold step. rewrite Hr. cbn [app]. unfold chr_matches.
  replace (if ic then char_eqb (upperChar c) (upperChar c) else char_eqb c c) with true
    by (destruct ic; symmetry; apply N.eqb_refl).
  cbn [tl]. apply (IH _ _ after). reflexivity.
Qed.

(** * [trim] *)

Lemma trimStart_split (s : jsstring) :
  exists pre, s = pre ++ trimStart s /\ forallb isSpace pre = true.
Proof.
  induction s as [|c s IH]; [now exists []|]. cbn [trimStart].
  destruct (isSpace c) eqn:E.
  - destruct IH as (pre & Hs & Hp). exists (c :: pre). cbn [app forallb].
    rewrite E, Hp. split; [now f_equal|reflexivity].
  - now exists [].
Qed.

Lemma trimStart_head (s : jsstring) (c : char) (tl : jsstring) :
  trimStart s = c :: tl -> isSpace c = false.
Proof.
  induction s as [|d s IH]; cbn [trimStart]; [discriminate|].
  destruct (isSpace d) eqn:E; [exact IH|]. intros H. inversion H; subst. exact E.
Qed.

Lemma trimStart_id (c : char) (tl : jsstring) :
  isSpace c = false -> trimStart (c :: tl) = c :: tl.
Proof. intros H. cbn [trimStart]. now rewrite H. Qed.

Lemma trimEnd_snoc (s : jsstring) (c : char) :
  isSpace c = false -> trimEnd (s ++ [c]) = s ++ [c].
Proof.
  intros H. unfold trimEnd. rewrite rev_app_distr. cbn [rev app].
  rewrite trimStart_id by exact H. cbn [rev]. now rewrite rev_involutive.
Qed.

Lemma trimEnd_split (s : jsstring) :
  exists post, s = trimEnd s ++ post /\ forallb isSpace post = true.
Proof.
  unfold trimEnd. destruct (trimStart_split (rev s)) as (pre & Hs & Hp).
  exists (rev pre). split.
  - rewrite <- rev_app_distr, <- Hs. now rewrite rev_involutive.
  - rewrite forallb_forall in *. intros x Hx. apply Hp. now apply in_rev.
Qed.

Lemma trimEnd_last (s : jsstring) (pre : jsstring) (c : char) :
  trimEnd s = pre ++ [c] -> isSpace c = false.
Proof.
  unfold trimEnd. intros H. apply (f_equal (@rev char)) in H.
  rewrite rev_involutive, rev_app_distr in H. cbn in H. eapply trimStart_head; eauto.
Qed.

Lemma trimEnd_head (s : jsstring) (c : char) :
  hd_error s = Some c -> isSpace c = false -> hd_error (trimEnd s) = Some c.
Proof.
  intros Hh Hc. destruct s as [|d s]; [discriminate|]. inversion Hh; subst d.
  destruct (trimEnd_split (c :: s)) as (post & Hs & Hp).
  destruct (trimEnd (c :: s)) as [|e te] eqn:E.
  - cbn in Hs. subst post. cbn in Hp. rewrite Hc in Hp. discriminate.
  - cbn in Hs. inversion Hs; subst. reflexivity.
Qed.

(** What [trim] leaves has no white space at either end, and what it
    removes is white space. *)
Lemma trim_spec (s : jsstring) :
  (exists pre post, s = pre ++ trim s ++ post /\
                    forallb isSpace pre = true /\ forallb isSpace post = true) /\
  (forall c, hd_error (trim s) = Some c -> isSpace c = false) /\
  (forall c, hd_error (rev (trim s)) = Some c -> isSpace c = false).
Proof.
  unfold trim. destruct (trimStart_split s) as (pre & Hs & Hp).
  destruct (trimEnd_split (trimStart s)) as (post & Ht & Hq).
  split; [|split].
  - exists pre, post. split; [|auto]. now rewrite <- Ht.
  - intros c Hc. destruct (trimStart s) as [|d ts] eqn:E; [discriminate|].
    pose proof (trimStart_head s E) as Hd.
    rewrite (@trimEnd_head (d :: ts) d eq_refl Hd) in Hc. congruence.
  - intros c Hc. destruct (rev (trimEnd (trimStart s))) as [|d r] eqn:E; [discriminate|].
    inversion Hc; subst d. apply (f_equal (@rev char)) in E. rewrite rev_involutive in E.
    cbn in E. eapply trimEnd_last; eauto.
Qed.

Lemma trim_id (s : jsstring) :
  (forall c, hd_error s = Some c -> isSpace c = false) ->
  (forall c, hd_error (rev s) = Some c -> isSpace c = false) ->
  trim s = s.
Proof.
  intros Hh Hl. unfold trim. destruct s as [|c s]; [reflexivity|].
  rewrite trimStart_id by (apply Hh; reflexivity).
  destruct (rev (c :: s)) as [|d r] eqn:E.
  - apply (f_equal (@length char)) in E. rewrite length_rev in E. discriminate.
  - apply (f_equal (@rev char)) in E. rewrite rev_involutive in E. cbn in E.
    rewrite E. apply trimEnd_snoc. apply Hl. reflexivity.
Qed.

Lemma trim_In (s : jsstring) (c : char) : In c (trim s) -> In c s.
Proof.
  destruct (trim_spec s) as ((pre & post & Hs & _) & _). intros H.
  rewrite Hs. apply in_or_app. right. apply in_or_app. now left.
Qed.

Lemma trim_length (s : jsstring) : length (trim s) <= length s.
Proof.
  destruct (trim_spec s) as ((pre & post & Hs & _) & _).
  rewrite Hs at 2. rewrite !length_app. lia.
Qed.

(** * The shape [replace(/\s+/g, ' ')] gives *)

Lemma squeeze_snoc (by_ : jsstring) (s : jsstring) (c : char) :
  isSpace c = false ->
  forall b, squeezeFrom by_ b (s ++ [c]) = squeezeFrom by_ b s ++ [c].
Proof.
  intros Hc. induction s as [|d s IH]; intros b; cbn [app squeezeFrom].
  - now rewrite Hc.
  - destruct (isSpace d); [now rewrite IH, app_assoc|now rewrite IH].
Qed.

Lemma squeeze_chars (s : jsstring) (c : char) :
  forall b, In c (squeezeFrom [32%N] b s) -> isSpace c = true -> c = 32%N.
Proof.
  induction s as [|d s IH]; intros b Hin Hc; cbn [squeezeFrom] in Hin; [contradiction|].
  destruct (isSpace d) eqn:E.
  - apply in_app_or in Hin. destruct Hin as [Hin|Hin]; [|eauto].
    destruct b; [contradiction|]. destruct Hin as [<-|[]]. reflexivity.
  - destruct Hin as [<-|Hin]; [congruence|eauto].
Qed.

Lemma squeeze_single (s : jsstring) :
  forall b,
    (forall pre x y post,
        squeezeFrom [32%N] b s = pre ++ x :: y :: post -> isSpace x = true ->
        isSpace y = false) /\
    (b = true -> forall c, hd_error (squeezeFrom [32%N] b s) = Some c -> isSpace c = false).
Proof.
  induction s as [|d s IH]; intros b; cbn [squeezeFrom].
  - split; [|discriminate]. intros pre x y post H. now destruct pre.
  - destruct (isSpace d) eqn:E.
    + destruct (IH true) as [Hp Hh]. destruct b; cbn [app].
      * split; [exact Hp|]. intros _. now apply Hh.
      * split; [|discriminate]. intros pre x y post H Hx.
        destruct pre as [|e pre]; cbn [app] in H.
        -- injection H as E1 E2. apply (Hh eq_refl). rewrite E2. reflexivity.
        -- injection H as E1 E2. eapply Hp; eauto.
    + destruct (IH false) as [Hp _]. split.
      * intros pre x y post H Hx. destruct pre as [|e pre]; cbn [app] in H.
        -- injection H as E1 E2. congruence.
        -- injection H as E1 E2. eapply Hp; eauto.
      * intros _ c H. inversion H; subst. exact E.
Qed.

Lemma squeeze_head (by_ : jsstring) (c : char) (s : jsstring) (b : bool) :
  isSpace c = false -> squeezeFrom by_ b (c :: s) = c :: squeezeFrom by_ false s.
Proof. intros H. cbn [squeezeFrom]. now rewrite H. Qed.

(** A string cleaned by [trim] and [replace(/\s+/g, ' ')], in either
    order when its ends are not white space, has single plain spaces as
    its only white space, and none at its ends. *)
Lemma squeeze_shape (s : jsstring) :
  (forall c, hd_error s = Some c -> isSpace c = false) ->
  (forall c, hd_error (rev s) = Some c -> isSpace c = false) ->
  let out := squeezeFrom [32%N] false s in
  (forall c, In c out -> isSpace c = true -> c = 32%N) /\
  (forall pre x y post, out = pre ++ x :: y :: post -> isSpace x = true -> isSpace y = false) /\
  (forall c, hd_error out = Some c -> isSpace c = false) /\
  (forall c, hd_error (rev out) = Some c -> isSpace c = false).
Proof.
  intros Hh Hl out. split; [intros c; apply squeeze_chars|].
  split; [apply (squeeze_single s false)|]. split.
  - destruct s as [|d s]; [discriminate|]. subst out.
    rewrite squeeze_head by (apply Hh; reflexivity). intros c H. inversion H; subst.
    apply Hh. reflexivity.
  - destruct (rev s) as [|d r] eqn:E.
    + apply (f_equal (@rev char)) in E. rewrite rev_involutive in E. subst s. discriminate.
    + apply (f_equal (@rev char)) in E. rewrite rev_involutive in E. cbn in E. subst s out.
      assert (Hd : isSpace d = false) by (apply Hl; reflexivity).
      rewrite squeeze_snoc by exact Hd. rewrite rev_app_distr. cbn.
      intros c H. inversion H; subst. exact Hd.
Qed.

(** A string in normal form is left as it is. *)
Lemma squeeze_fixed_from (s : jsstring) :
  forall b,
    (forall c, In c s -> isSpace c = true -> c = 32%N) ->
    (forall pre x y post, s = pre ++ x :: y :: post -> isSpace x = true -> isSpace y = false) ->
    (b = true -> forall c, hd_error s = Some c -> isSpace c = false) ->
    squeezeFrom [32%N] b s = s.
Proof.
  induction s as [|d s IH]; intros b Hc Hp Hh; cbn [squeezeFrom]; [reflexivity|].
  destruct (isSpace d) eqn:E.
  - destruct b; [rewrite (Hh eq_refl d eq_refl) in E; discriminate|].
    rewrite (Hc d (or_introl eq_refl) E). cbn [app]. f_equal. apply IH.
    + intros c Hin. apply Hc. now right.
    + intros pre x y post Hs. apply (Hp (d :: pre) x y post). cbn [app]. now f_equal.
    + intros _ c Hd. destruct s as [|e s]; [discriminate|]. inversion Hd; subst.
      apply (Hp [] d c s eq_refl E).
  - f_equal. apply IH.
    + intros c Hin. apply Hc. now right.
    + intros pre x y post Hs. apply (Hp (d :: pre) x y post). cbn [app]. now f_equal.
    + discriminate.
Qed.

Lemma squeeze_fixed (s : jsstring) :
  (forall c, In c s -> isSpace c = true -> c = 32%N) ->
  (forall pre x y post, s = pre ++ x :: y :: post -> isSpace x = true -> isSpace y = false) ->
  squeezeFrom [32%N] false s = s.
Proof. intros Hc Hp. apply squeeze_fixed_from; auto. discriminate. Qed.

(** * Lazy repetition *)

(** A lazy [.*?] hands the continuation the shortest prefix it accepts. *)
Lemma lazy_dot (ic : bool) (fuel : nat) :
  forall x k z,
    repeatMatcher fuel (m ic Dot) 0 None false [] x k = Some z ->
    exists pre after,
      rest x = pre ++ after /\ k (forward x pre) = Some z /\
      (forall pre1 c pre2, pre = pre1 ++ c :: pre2 -> k (forward x pre1) = None).
Proof.
  induction fuel as [|fuel IH]; intros x k z H; cbn [repeatMatcher max_is_zero] in H;
    [discriminate|].
  cbn [Nat.eqb negb andb] in H. destruct (k x) as [z'|] eqn:Ek.
  - inversion H; subst. exists [], (rest x). split; [reflexivity|]. split; [exact Ek|].
    intros pre1 c pre2 Hp. now destruct pre1.
  - cbn [m] in H. apply step_inv in H. destruct H as (c & tl' & Hr & Hc & Hd).
    cbn [clearcaps rest] in Hr. cbn [advance rest clearcaps caps existsb] in Hd.
    replace (Nat.eqb (length tl') (length (rest x))) with false in Hd
      by (symmetry; apply Nat.eqb_neq; rewrite Hr; simpl; lia).
    change (repeatMatcher fuel (m ic Dot) 0 None false [] (advance x c tl') k = Some z) in Hd.
    destruct (IH _ _ _ Hd) as (pre & after & Hrest & Hk & Hmin).
    exists (c :: pre), after. cbn [forward]. rewrite Hr. cbn [tl app].
    split; [now rewrite <- Hrest|]. split; [exact Hk|].
    intros pre1 d pre2 Hp. destruct pre1 as [|e pre1]; cbn [app forward] in *.
    + exact Ek.
    + inversion Hp; subst. rewrite Hr. cbn [tl]. eapply Hmin. reflexivity.
Qed.

(** A greedy repetition with nothing left to require always hands
    over some state when the continuation accepts every state. *)
Lemma greedy_total (fuel : nat) (ma : MatchState -> Continuation -> option MatchState)
      (max : option nat) (gs : list nat) (x : MatchState) :
  exists y, repeatMatcher (S fuel) ma 0 max true gs x Some = Some y.
Proof.
  cbn [repeatMatcher]. destruct (max_is_zero max); [eauto|]. cbn [Nat.eqb negb].
  match goal with |- context [ma ?a ?d] => destruct (ma a d) end; eauto.
Qed.

Lemma repeatMatcher_S (fuel : nat) (ma : MatchState -> Continuation -> option MatchState)
      (min : nat) (max : option nat) (greedy : bool) (gs : list nat)
      (x : MatchState) (k : Continuation) :
  repeatMatcher (S fuel) ma min max greedy gs x k =
  if max_is_zero max then k x else
    let d : Continuation := fun y =>
      if Nat.eqb min 0 && Nat.eqb (length (rest y)) (length (rest x)) then None
      else repeatMatcher fuel ma (Nat.pred min) (pred_max max) greedy gs y k in
    let xr := clearcaps gs x in
    if negb (Nat.eqb min 0) then ma xr d
    else if greedy then
      match ma xr d with Some z => Some z | None => k x end
    else
      match k x with Some z => Some z | None => ma xr d end.
Proof. reflexivity. Qed.

(** An optional group whose first character does not match is skipped. *)
Lemma opt_skipped (ic : bool) (a : char) (b : regex) (x : MatchState) (k : Continuation)
      (c : char) (after : jsstring) :
  rest x = c :: after -> chr_matches ic a c = false ->
  m ic (opt (Seq (Chr a) b)) x k = k x.
Proof.
  intros Hr Hc. unfold opt. cbn [m]. rewrite repeatMatcher_S.
  cbn [max_is_zero Nat.eqb negb]. cbv zeta. cbn [m].
  unfold step. cbn [clearcaps rest]. now rewrite Hr, Hc.
Qed.

(** A lookahead for one to three copies of a character succeeds in
    front of that character. *)
Lemma ahead_accepts (ic : bool) (a : char) (x : MatchState) (k : Continuation)
      (c : char) (after : jsstring) :
  rest x = c :: after -> chr_matches ic a c = true ->
  exists y, m ic (Ahead false (times 1 3 (Chr a))) x k = k (withcaps x y).
Proof.
  intros Hr Hc. unfold times. cbn [m groups_of]. rewrite repeatMatcher_S.
  cbn [max_is_zero Nat.eqb negb andb]. cbv zeta. unfold step at 1.
  cbn [clearcaps rest]. rewrite Hr, Hc. cbn [length Nat.add Nat.pred].
  match goal with
  | |- context [repeatMatcher (S ?f) ?ma 0 ?mx true ?gs ?st Some] =>
      destruct (@greedy_total f ma mx gs st) as (y & ->)
  end.
  eauto.
Qed.

(** * The protection-type capture *)

(** In front of a letter i the rest of the protection pattern (an
    optional bracket group, then the lookahead for I) accepts. *)
Lemma prot_tail_accepts (x : MatchState) (c : char) (after : jsstring) :
  rest x = c :: after -> upperChar c = 73%N ->
  exists y,
    m true (seq [opt (seq [chr "["; lazyStar Dot; chr "]"; star ws]);
                 Ahead false (times 1 3 (chr "I"))]) x Some = Some y.
Proof.
  intros Hr Hc. unfold seq at 1. cbn [fold_right].
  change (seq [chr "["; lazyStar Dot; chr "]"; star ws])
    with (Seq (Chr 91%N) (seq [lazyStar Dot; chr "]"; star ws])).
  cbn [m]. rewrite (@opt_skipped true 91%N _ x _ c after Hr)
    by (unfold chr_matches; rewrite Hc; reflexivity).
  destruct (@ahead_accepts true 73%N x (fun y => Some y) c after Hr) as (y & E).
  { unfold chr_matches. rewrite Hc. reflexivity. }
  cbn [m] in E. change (chr "I") with (Chr 73%N). rewrite E. eauto.
Qed.

Lemma m_seq_sound (ic : bool) (a b : regex) (x : MatchState) (k : Continuation)
      (z : MatchState) :
  m ic (Seq a b) x k = Some z -> exists y, Reach ic a x y /\ m ic b y k = Some z.
Proof. cbn [m]. intros H. apply m_sound in H. exact H. Qed.

Lemma forward_consumed (x : MatchState) (pre after : jsstring) :
  rest x = pre ++ after -> consumed x (forward x pre) = pre.
Proof. intros H. apply consumed_app. now rewrite (forward_rest x pre after H). Qed.

(** The capture of the protection pattern holds no letter i: the lazy
    [(.*?)] stops in front of the first one, where the lookahead for I
    (the pattern ignores case) succeeds. *)
Lemma prot_capture_no_i (s : jsstring) (res : MatchResult) (g : jsstring) :
  exec re_prot s = Some res -> groups res 1 = Some g ->
  forall c, In c g -> upperChar c <> 73%N.
Proof.
  intros He Hg c Hin Hc. unfold exec in He. apply execFrom_some in He.
  destruct He as (pre0 & suf & y & _ & Hm & _ & _ & Hgr & _).
  rewrite Hgr in Hg. clear Hgr res.
  unfold matchAt, re_prot, rei in Hm. cbn [pattern ignoreCase] in Hm.
  remember (seq [opt (seq [chr "["; lazyStar Dot; chr "]"; star ws]);
                 Ahead false (times 1 3 (chr "I"))]) as T eqn:ET.
  change (seq [Bol; lit "Ex"; plus ws; Grp 1 (lazyStar Dot);
               opt (seq [chr "["; lazyStar Dot; chr "]"; star ws]);
               Ahead false (times 1 3 (chr "I"))])
    with (Seq Bol (Seq (lit "Ex") (Seq (plus ws) (Seq (Grp 1 (lazyStar Dot))
            (seq [opt (seq [chr "["; lazyStar Dot; chr "]"; star ws]);
                  Ahead false (times 1 3 (chr "I"))]))))) in Hm.
  rewrite <- ET in Hm.
  apply m_seq_sound in Hm. destruct Hm as (x1 & _ & Hm).
  apply m_seq_sound in Hm. destruct Hm as (x2 & _ & Hm).
  apply m_seq_sound in Hm. destruct Hm as (x3 & _ & Hm).
  unfold lazyStar in Hm. cbn [m groups_of Nat.add] in Hm.
  apply (@lazy_dot true) in Hm. destruct Hm as (pre & after & Hrest & Hk & Hmin).
  rewrite (forward_consumed x3 pre after Hrest) in Hk.
  apply m_sound in Hk. destruct Hk as (y' & Hy & E). inversion E; subst y'. clear E.
  assert (Hcap : caps y 1 = Some pre).
  { rewrite (reach_caps_other 1 Hy) by (rewrite ET; reflexivity). cbn. reflexivity. }
  assert (g = pre) by congruence. subst g.
  apply in_split in Hin. destruct Hin as (pre1 & pre2 & Hp).
  specialize (Hmin pre1 c pre2 Hp).
  assert (Hr1 : rest (forward x3 pre1) = c :: pre2 ++ after).
  { apply forward_rest. rewrite Hrest, Hp, <- app_assoc. reflexivity. }
  destruct (@prot_tail_accepts
              (setcap 1 (Some (consumed x3 (forward x3 pre1))) (forward x3 pre1))
              c (pre2 ++ after) Hr1 Hc) as (w & Hw).
  rewrite <- ET in Hw. rewrite Hw in Hmin. discriminate.
Qed.

(** * [split] *)

Lemma splitLoop_chars (re : RegExp) (s : jsstring) :
  forall cur p skip piece c,
    In piece (splitLoop re cur p s skip) -> In c piece -> In c cur \/ In c s.
Proof.
  induction s as [|d s IH]; intros cur p skip piece c Hp Hc; cbn [splitLoop] in Hp.
  - destruct Hp as [<-|[]]. left. now apply in_rev.
  - destruct skip as [|skip].
    + destruct (matchAt re p (d :: s)) as [y|].
      * destruct (Nat.eqb (length (d :: s) - length (rest y)) 0).
        -- destruct cur as [|e cur].
           ++ destruct (IH _ _ _ _ _ Hp Hc) as [[<-|[]]|H]; right; [now left|now right].
           ++ destruct Hp as [<-|Hp]; [left; now apply in_rev|].
              destruct (IH _ _ _ _ _ Hp Hc) as [[<-|[]]|H]; right; [now left|now right].
        -- destruct Hp as [<-|Hp]; [left; now apply in_rev|].
           destruct (IH _ _ _ _ _ Hp Hc) as [[]|H]. right. now right.
      * destruct (IH _ _ _ _ _ Hp Hc) as [[<-|H]|H]; [right; now left|now left|right; now right].
    + destruct (IH _ _ _ _ _ Hp Hc) as [[]|H]. right. now right.
Qed.

(** Every piece [split] returns is made of characters of the string. *)
Lemma split_chars (re : RegExp) (s piece : jsstring) (c : char) :
  In piece (split re s) -> In c piece -> In c s.
Proof.
  unfold split. destruct s as [|d s].
  - destruct (matchAt re None []); [contradiction|]. intros [<-|[]] [].
  - intros Hp Hc. destruct (@splitLoop_chars _ _ _ _ _ _ _ Hp Hc) as [[]|H]. exact H.
Qed.

(** * Protection types *)

Lemma decompose_codes (ms : jsstring) (l : list ProtectionType) (p : ProtectionType) :
  decompose ms = Ok l -> In p l ->
  p = describe (code p) /\ isValidCode (code p) = true /\
  forall c, In c (code p) -> upperChar c <> 73%N.
Proof.
  unfold decompose. destruct (exec re_prot ms) as [res|] eqn:E.
  - unfold capture. destruct (groups res 1) as [g|] eqn:Eg; [|discriminate]. cbn [bind].
    intros H Hin. inversion H; subst l. clear H. apply in_map_iff in Hin.
    destruct Hin as (cd & <- & Hcd). apply filter_In in Hcd. destruct Hcd as [Hcd Hv].
    cbn [code describe]. split; [reflexivity|]. split; [exact Hv|].
    intros c Hc. apply (@prot_capture_no_i ms res g E Eg). apply trim_In.
    eapply split_chars; eauto.
  - intros H. inversion H. contradiction.
Qed.

(** [replace(/[...]$/, '')] removes at most the last character. *)
Lemma replace_last (items : list citem) (s : jsstring) :
  replace (re [cls items; Eol]) [] s = s \/
  exists x, s = replace (re [cls items; Eol]) [] s ++ [x] /\ set_matches false items x = true.
Proof.
  destruct (exec (re [cls items; Eol]) s) as [res|] eqn:E.
  - right. destruct (@replace_match (re [cls items; Eol]) [] s res E)
      as (pre & p' & s' & y & Hs & Hy & Hr).
    cbn in Hy. inversion Hy; subst; clear Hy.
    unfold cls in *.
    match goal with H : Reach _ (Cls _ _) _ _ |- _ => inversion H; subst; clear H end.
    match goal with H : Reach _ (Seq _ _) _ _ |- _ => inversion H; subst; clear H end.
    match goal with H : Reach _ Eol _ _ |- _ => inversion H; subst; clear H end.
    match goal with H : Reach _ Eps _ _ |- _ => inversion H; subst; clear H end.
    cbn [initial rest advance] in *. subst. exists c. rewrite Hr. cbn [app].
    rewrite app_nil_r. split; [reflexivity|]. assumption.
  - left. unfold replace. now rewrite E.
Qed.

Lemma lookup_intrinsic (k v : jsstring) :
  lookup PROTECTION_TYPES k = Some v -> v = str "Intrinsic safety" -> k = str "i".
Proof.
  unfold PROTECTION_TYPES. cbn [lookup].
  repeat match goal with
         | |- context [jsstring_eqb ?a k] =>
             let E := fresh "E" in
             destruct (jsstring_eqb a k) eqn:E;
             [intros H Hv; inversion H; subst v;
              first [discriminate Hv | apply jsstring_eqb_eq in E; now subst k]|]
         end.
  discriminate.
Qed.

Lemma lower_i (c : char) : lowerChar c = 105%N -> upperChar c = 73%N.
Proof. unfold_chars. intros H. split_cmp. Qed.

Lemma describe_not_intrinsic (cd : jsstring) :
  (forall c, In c cd -> upperChar c <> 73%N) ->
  baseType (describe cd) <> str "i" /\ description (describe cd) <> str "Intrinsic safety".
Proof.
  intros Hno.
  assert (Hcl : ~ In 105%N (toLowerCase cd)).
  { unfold toLowerCase. intros H. apply in_map_iff in H. destruct H as (c & Hc & Hin).
    apply (Hno c Hin). now apply lower_i. }
  assert (Hbase : replace re_levelRS [] (toLowerCase cd) <> str "i").
  { intros E. apply Hcl.
    destruct (@replace_last [one "a"; one "b"; one "c"; one "r"; one "s"] (toLowerCase cd))
      as [H|(x & H & _)]; fold re_levelRS in H.
    - rewrite <- H, E. now left.
    - rewrite H, E. now left. }
  cbn [describe baseType description]. split; [exact Hbase|].
  unfold orElse.
  destruct (lookup PROTECTION_TYPES (replace re_levelRS [] (toLowerCase cd)))
    as [[|c1 v1]|] eqn:E1; cbn [truthy].
  - destruct (lookup PROTECTION_TYPES (toLowerCase cd)) as [[|c2 v2]|] eqn:E2; cbn [truthy orEmpty];
      try discriminate.
    intros Hv. apply (lookup_intrinsic _ E2) in Hv. apply Hcl. rewrite Hv. now left.
  - cbn [orEmpty]. intros Hv. apply (lookup_intrinsic _ E1) in Hv. contradiction.
  - destruct (lookup PROTECTION_TYPES (toLowerCase cd)) as [[|c2 v2]|] eqn:E2; cbn [truthy orEmpty];
      try discriminate.
    intros Hv. apply (lookup_intrinsic _ E2) in Hv. apply Hcl. rewrite Hv. now left.
Qed.

(** * Fields with finitely many values *)

Lemma exec_cap_among (l : list jsstring) (re : RegExp) (n : nat) (t : jsstring)
      (res : MatchResult) (g : jsstring) :
  capAll n (among l (ignoreCase re)) (pattern re) = true ->
  exec re t = Some res -> groups res n = Some g -> In g l.
Proof.
  intros Hc He Hg.
  apply (@exec_cap_consumes (fun s => In s l) (among l) re
           (fun a s Hs Ha => @consumes_among l (ignoreCase re) a s Hs Ha) n t res Hc He g Hg).
Qed.

(** The match that [a || b] selects. *)
Lemma firstOf_cases (re1 re2 : RegExp) (s1 s2 : jsstring) :
  firstOf (exec re1 s1) (exec re2 s2) = None \/
  exists res,
    firstOf (exec re1 s1) (exec re2 s2) = Some res /\
    (exec re1 s1 = Some res \/ exec re1 s1 = None /\ exec re2 s2 = Some res).
Proof.
  unfold firstOf. destruct (exec re1 s1) as [a|]; [right; eauto|].
  destruct (exec re2 s2) as [b|]; [right; eauto|now left].
Qed.

Lemma temperature_rows (ms t : jsstring) (c mx : option jsstring) :
  temperature ms t = Ok (c, mx) ->
  c = None /\ mx = None \/
  In (c, mx) (map (fun kv => (Some (fst kv), Some (snd kv))) TEMP_CLASS_INFO).
Proof.
  unfold temperature.
  destruct (firstOf_cases re_temp re_temp ms t) as [->|(res & -> & Hres)].
  - intros H. inversion H. now left.
  - unfold capture. destruct (groups res 1) as [g|] eqn:Eg; [|discriminate]. cbn [bind].
    intros H. right.
    assert (Hin : In g (map str ["1"; "2"; "3"; "4"; "5"; "6"]%string)).
    { destruct Hres as [E|[_ E]];
        exact (@exec_cap_among (map str ["1"; "2"; "3"; "4"; "5"; "6"]%string)
                               re_temp 1 _ res g eq_refl E Eg). }
    cbn [map In] in Hin.
    repeat (destruct Hin as [<-|Hin]; [inversion H; subst; cbn; tauto|]). contradiction.
Qed.

Lemma protectionLevel_values (ms t : jsstring) (e : option jsstring) :
  protectionLevel ms t = Ok e ->
  e = None \/
  exists a b, In a (str "GDM") /\ In b (str "abc") /\ e = Some [a; b].
Proof.
  unfold protectionLevel.
  destruct (firstOf_cases re_epl re_epl ms t) as [->|(res & -> & Hres)].
  - intros H. inversion H. now left.
  - unfold capture. destruct (groups res 1) as [g|] eqn:Eg; [|discriminate]. cbn [bind].
    intros H. inversion H; subst e. right.
    assert (Hin : In g (product (map str ["G"; "D"; "M"]%string)
                                (map str ["a"; "b"; "c"]%string))).
    { destruct Hres as [E|[_ E]];
        exact (@exec_cap_among (product (map str ["G"; "D"; "M"]%string)
                                        (map str ["a"; "b"; "c"]%string))
                               re_epl 1 _ res g eq_refl E Eg). }
    cbn in Hin.
    repeat (destruct Hin as [<-|Hin];
            [eexists; eexists; split; [|split; [|reflexivity]]; cbn; tauto|]).
    contradiction.
Qed.

(** [zone] stays absent exactly when the text names no zone and the
    protection level is absent or "Mc", the one level the table of
    zones leaves out. *)
Lemma zoneOf_absent (t : jsstring) (e z : option jsstring) :
  (e = None \/ exists a b, In a (str "GDM") /\ In b (str "abc") /\ e = Some [a; b]) ->
  zoneOf t e = Ok z ->
  (z = None <-> exec re_zone t = None /\ (e = None \/ e = Some (str "Mc"))).
Proof.
  intros He. unfold zoneOf. destruct (exec re_zone t) as [zm|] eqn:E.
  - unfold capture. destruct (groups zm 1) as [g|]; [|discriminate]. cbn [bind].
    intros H. inversion H. split; [discriminate|]. intros [Hn _]. discriminate.
  - destruct He as [->|(a & b & Ha & Hb & ->)].
    + cbn. intros H. inversion H. tauto.
    + cbn in Ha, Hb.
      destruct Ha as [<-|[<-|[<-|[]]]]; destruct Hb as [<-|[<-|[<-|[]]]];
        cbn; intros H; inversion H; (split; [discriminate|intros [_ [Hx|Hx]]; discriminate])
        || (split; [intros _|reflexivity]; split; [reflexivity|right; reflexivity]).
Qed.

Lemma categoryOf_values (t : jsstring) (v : option jsstring) :
  categoryOf t = Ok v ->
  v = None \/
  exists d, In d (str "123") /\
            (v = Some [d] \/ exists x, In x (str "GDMgdm") /\ v = Some [d; x]).
Proof.
  unfold categoryOf.
  destruct (firstOf_cases re_categoryMark re_categoryLabel t t) as [->|(res & -> & Hres)].
  - intros H. inversion H. now left.
  - unfold capture. destruct (groups res 1) as [g|] eqn:Eg; [|discriminate]. cbn [bind].
    intros H. inversion H; subst v. right.
    assert (Hin : In g (product (map str ["1"; "2"; "3"]%string)
                                ([] :: map str ["G"; "D"; "M"; "g"; "d"; "m"]%string))).
    { destruct Hres as [E|[_ E]].
      - exact (@exec_cap_among
                 (product (map str ["1"; "2"; "3"]%string)
                          ([] :: map str ["G"; "D"; "M"; "g"; "d"; "m"]%string))
                 re_categoryMark 1 _ res g eq_refl E Eg).
      - exact (@exec_cap_among
                 (product (map str ["1"; "2"; "3"]%string)
                          ([] :: map str ["G"; "D"; "M"; "g"; "d"; "m"]%string))
                 re_categoryLabel 1 _ res g eq_refl E Eg). }
    cbn in Hin.
    repeat (destruct Hin as [<-|Hin];
            [eexists; split; [|first [left; reflexivity
                                     |right; eexists; split; [|reflexivity]]]; cbn; tauto|]).
    contradiction.
Qed.

Lemma groupOf_values (t : jsstring) (v : option jsstring) :
  groupOf t = Ok v -> In v [None; Some (str "I"); Some (str "II"); Some (str "III")].
Proof.
  unfold groupOf. destruct (exec re_group t) as [res|] eqn:E1.
  - unfold capture. destruct (groups res 1) as [g|] eqn:Eg; [|discriminate]. cbn [bind].
    intros H. inversion H; subst v.
    pose proof (@exec_cap_among (map str ["I"; "II"; "III"]%string) re_group 1 _ res g
                                eq_refl E1 Eg) as Hin.
    cbn in Hin. cbn. intuition (subst; auto).
  - destruct (exec re_groupAlt t) as [res|] eqn:E2.
    + unfold capture. destruct (groups res 1) as [g|] eqn:Eg; [|discriminate]. cbn [bind].
      intros H. inversion H; subst v.
      pose proof (@exec_cap_among (map str ["II"; "III"]%string) re_groupAlt 1 _ res g
                                  eq_refl E2 Eg) as Hin.
      cbn in Hin. cbn. intuition (subst; auto).
    + intros H. inversion H. now left.
Qed.

(** * Gas group *)

Lemma forward_app (x : MatchState) (a b after : jsstring) :
  rest x = a ++ b ++ after -> forward x (a ++ b) = forward (forward x a) b.
Proof.
  revert x. induction a as [|c a IH]; intros x Hr; cbn [app forward]; [reflexivity|].
  apply IH. rewrite Hr. reflexivity.
Qed.

(** At the start of a string that begins with "Group" and white space
    the prefix pattern matches up to the end of the white space. *)
Lemma group_prefix_here (sp w : jsstring) :
  sp <> [] -> forallb isSpace sp = true ->
  stopsAt (fun c => xorb false (set_matches true [CSpace] c)) w ->
  matchAt re_groupPrefix None (str "Group" ++ sp ++ w)
  = Some (forward (forward (initial None (str "Group" ++ sp ++ w)) (str "Group")) sp).
Proof.
  intros Hne Hall Hstop. unfold matchAt, re_groupPrefix, rei, seq, lit.
  cbn [pattern ignoreCase fold_right]. cbn [m prev initial].
  rewrite (@m_lit true (str "Group") (initial None (str "Group" ++ sp ++ w)) _ (sp ++ w) eq_refl).
  unfold plus, ws, cls. cbn [m groups_of].
  refine (@greedy_run true false [CSpace] sp _ 1 None _ (fun y => Some y) w _ _ _ _ _ _ _).
  - now apply forward_rest with (tl := sp ++ w).
  - clear Hne Hstop. induction sp as [|c sp IH]; [reflexivity|]. cbn [forallb] in *.
    apply andb_true_iff in Hall. destruct Hall as [Hc Hall]. rewrite (IH Hall), andb_true_r.
    cbn. now rewrite Hc.
  - destruct sp; [congruence|simpl; lia].
  - right. split; [exact I|exact Hstop].
  - rewrite (@forward_rest (initial None (str "Group" ++ sp ++ w)) (str "Group") (sp ++ w)
                           eq_refl).
    rewrite length_app. lia.
  - reflexivity.
Qed.

Lemma strip_group (sp w : jsstring) :
  sp <> [] -> forallb isSpace sp = true ->
  stopsAt (fun c => xorb false (set_matches true [CSpace] c)) w ->
  stripGroupPrefix (str "Group" ++ sp ++ w) = w.
Proof.
  intros Hne Hall Hstop. unfold stripGroupPrefix, replace, exec.
  pose proof (@group_prefix_here sp w Hne Hall Hstop) as Hm.
  remember (forward (forward (initial None (str "Group" ++ sp ++ w)) (str "Group")) sp) as y eqn:Ey.
  assert (Hrest : rest y = w).
  { subst y. apply forward_rest with (tl := w).
    now apply forward_rest with (tl := sp ++ w). }
  change (str "Group" ++ sp ++ w)
    with (71%N :: (114%N :: 111%N :: 117%N :: 112%N :: sp ++ w)) in *.
  cbn [execFrom]. rewrite Hm. cbn [index matched firstn app Nat.add]. rewrite Hrest.
  change (71%N :: 114%N :: 111%N :: 117%N :: 112%N :: sp ++ w)
    with ((str "Group" ++ sp) ++ w).
  generalize (str "Group" ++ sp). intros a.
  replace (length (a ++ w) - length w) with (length a + 0) by (rewrite length_app; lia).
  rewrite firstn_app_2. cbn [firstn]. rewrite app_nil_r.
  rewrite skipn_app, skipn_all, Nat.sub_diag. reflexivity.
Qed.

Lemma forallb_ws_false (sp : jsstring) :
  forallb (fun c => xorb false (set_matches false [CSpace] c)) sp = true ->
  forallb isSpace sp = true.
Proof.
  induction sp as [|c sp IH]; cbn [forallb]; [reflexivity|]. intros H.
  apply andb_true_iff in H. destruct H as [Hc H]. rewrite (IH H), andb_true_r.
  cbn in Hc. now rewrite orb_false_r in Hc.
Qed.

(** The values [gasGroup] can take, each with its [gasGroupInfo]. *)
Lemma gas_rows (ms t : jsstring) (g info : option jsstring) :
  gas ms t = Ok (g, info) ->
  In (g, info)
     ((None, None) ::
      map (fun v => (Some v, orNull (lookup GAS_GROUP_INFO v)))
          (map str ["IIIA"; "IIIB"; "IIIC"; "IIA"; "IIB"; "IIC";
                    "IIA+H2"; "IIB+H2"; "IIC+H2"; "I"; "II"]%string)).
Proof.
  unfold gas.
  destruct (firstOf_cases re_gasMarking re_gasText ms t) as [->|(res & -> & Hres)].
  - intros H. inversion H. now left.
  - unfold capture. destruct (groups res 1) as [c|] eqn:Ec; [|discriminate]. cbn [bind].
    intros H. inversion H; subst g info. clear H. right.
    assert (Hv : In (stripGroupPrefix c)
                    (map str ["IIIA"; "IIIB"; "IIIC"; "IIA"; "IIB"; "IIC";
                              "IIA+H2"; "IIB+H2"; "IIC+H2"; "I"; "II"]%string));
      [|now apply (in_map (fun v => (Some v, orNull (lookup GAS_GROUP_INFO v))))].
    assert (Hmark : In c (map str ["IIIA"; "IIIB"; "IIIC"; "IIA"; "IIB"; "IIC";
                                   "IIA+H2"; "IIB+H2"; "IIC+H2"]%string) ->
                    In (stripGroupPrefix c)
                       (map str ["IIIA"; "IIIB"; "IIIC"; "IIA"; "IIB"; "IIC";
                                 "IIA+H2"; "IIB+H2"; "IIC+H2"; "I"; "II"]%string)).
    { intros Hin. cbn [map In] in Hin.
      repeat (destruct Hin as [<-|Hin]; [vm_compute; tauto|]). contradiction. }
    destruct Hres as [E|[_ E]].
    + apply Hmark.
      exact (@exec_cap_among
               (map str ["IIIA"; "IIIB"; "IIIC"; "IIA"; "IIB"; "IIC";
                         "IIA+H2"; "IIB+H2"; "IIC+H2"]%string)
               re_gasMarking 1 _ res c eq_refl E Ec).
    + pose proof (@exec_cap_exact
                    (alt (gasII_III ++
                          [seq [lit "Group"; plus ws; chr "I"; opt (seq [chr "I"; opt ABC])]]))
                    re_gasText 1 t res c eq_refl E Ec) as Hc.
      cbn [ignoreCase re_gasText re] in Hc. unfold gasII_III in Hc. cbn [app alt] in Hc.
      inversion Hc as [| | | | | a0 b0 s0 Ha | a0 b0 s0 Hb | | | | | | | |]; subst; clear Hc.
      * apply Hmark. apply (@consumes_among _ false _ c Ha). reflexivity.
      * inversion Hb as [| | | | | a0 b0 s0 Ha | a0 b0 s0 Hb' | | | | | | | |]; subst; clear Hb.
        -- apply Hmark. apply (@consumes_among _ false _ c Ha). reflexivity.
        -- unfold seq in Hb'. cbn [fold_right] in Hb'.
           inversion Hb' as [| | | | a0 b0 s1 s2 H1 H2 | | | | | | | | | |]; subst; clear Hb'.
           inversion H2 as [| | | | a0 b0 sp s3 H3 H4 | | | | | | | | | |]; subst; clear H2.
           assert (E1 : s1 = str "Group").
           { pose proof (@consumes_among [str "Group"] false _ s1 H1 eq_refl) as Hin.
             destruct Hin as [<-|[]]. reflexivity. }
           subst s1.
           pose proof (@consumes_run false _ sp H3 1 None true false [CSpace] eq_refl) as Hsp.
           pose proof (consumes_minWidth H3) as Hlen. cbn in Hlen.
           pose proof (@consumes_among (map str ["I"; "II"; "IIA"; "IIB"; "IIC"]%string)
                                       false _ s3 H4 eq_refl) as Hin.
           assert (Hne : sp <> []) by (destruct sp; [simpl in Hlen; lia|discriminate]).
           apply forallb_ws_false in Hsp.
           cbn [map In] in Hin.
           repeat (destruct Hin as [<-|Hin];
                   [match goal with
                    | |- context [str "Group" ++ sp ++ ?w] =>
                        rewrite (@strip_group sp w Hne Hsp eq_refl)
                    end; cbn; tauto|]).
           contradiction.
Qed.

(** * Fields with a fixed shape *)

Ltac inv_consumes H := inversion H; subst; clear H.

Ltac consumes_inv :=
  repeat match goal with
         | H : Consumes _ Eps _ |- _ => inv_consumes H
         | H : Consumes _ (Seq _ _) _ |- _ => inv_consumes H
         | H : Consumes _ (Alt _ _) _ |- _ => inv_consumes H
         | H : Consumes _ (Grp _ _) _ |- _ => inv_consumes H
         | H : Consumes _ (Chr _) _ |- _ => inv_consumes H
         | H : Consumes _ (Cls _ _) _ |- _ => inv_consumes H
         | H : Consumes _ (Rep _ (Some _) _ _) _ |- _ =>
             inv_consumes H; cbn [Nat.pred pred_max option_map max_is_zero] in *;
             try discriminate
         end.

Lemma digit_ic (ic : bool) (c : char) :
  xorb false (set_matches ic [CDigit] c) = true -> isDigit c = true.
Proof.
  unfold set_matches, set_has. cbn [existsb item_has xorb].
  destruct ic; unfold_chars; intros H; split_cmp.
Qed.

Lemma ip_char (c : char) :
  xorb false (set_matches true [rng "0" "9"; one "X"] c) = true ->
  isDigit c = true \/ upperChar c = codeUnit "X".
Proof.
  unfold set_matches, set_has, rng, one. cbn [existsb item_has xorb].
  unfold_chars. intros H. split_cmp.
Qed.

Lemma letter_ic (c : char) :
  xorb false (set_matches true [rng "A" "Z"] c) = true -> isUpper (upperChar c) = true.
Proof.
  unfold set_matches, set_has, rng. cbn [existsb item_has xorb].
  unfold_chars. intros H. split_cmp.
Qed.

(** [ipRating] is "IP", two characters out of the digits and X, and at
    most one letter. *)
Lemma ip_shape (t v : jsstring) :
  ip t = Ok (Some v) ->
  exists a b rest',
    v = str "IP" ++ a :: b :: rest' /\
    (isDigit a = true \/ upperChar a = codeUnit "X") /\
    (isDigit b = true \/ upperChar b = codeUnit "X") /\
    (rest' = [] \/ exists c, rest' = [c] /\ isUpper (upperChar c) = true).
Proof.
  unfold ip. destruct (exec re_ip t) as [res|] eqn:E; [|discriminate].
  unfold capture. destruct (groups res 1) as [g|] eqn:Eg; [|discriminate]. cbn [bind].
  intros H. inversion H; subst v. clear H.
  pose proof (@exec_cap_exact (seq [times 2 2 (cls [rng "0" "9"; one "X"]); opt upper])
                              re_ip 1 t res g eq_refl E Eg) as Hc.
  cbn [ignoreCase re_ip rei] in Hc.
  unfold seq, times, opt, upper, cls in Hc. cbn [fold_right] in Hc.
  consumes_inv; cbn [app];
    repeat match goal with
           | H : xorb false (set_matches true [rng "0" "9"; one "X"] _) = true |- _ =>
               apply ip_char in H
           | H : xorb false (set_matches true [rng "A" "Z"] _) = true |- _ =>
               apply letter_ic in H
           end;
    do 3 eexists; (split; [reflexivity|]); (split; [eassumption|]); (split; [eassumption|]);
    first [left; reflexivity | right; eexists; split; [reflexivity|eassumption]].
Qed.

Lemma forallb_digit_ic (ic : bool) (s : jsstring) :
  forallb (fun c => xorb false (set_matches ic [CDigit] c)) s = true ->
  forallb isDigit s = true.
Proof.
  induction s as [|c s IH]; cbn [forallb]; [reflexivity|]. intros H.
  apply andb_true_iff in H. destruct H as [Hc H].
  now rewrite (digit_ic ic c Hc), (IH H).
Qed.

Lemma minus_ic (c : char) : chr_matches true (codeUnit "-") c = true -> c = codeUnit "-".
Proof.
  intros H. apply chrChars_sound in H. vm_compute in H.
  change (codeUnit "-") with 45%N. intuition congruence.
Qed.

(** [ambientTemp] is a minus sign and digits, the degree sign and
    "C to +", digits, the degree sign and "C". *)
Lemma ambient_shape (t v : jsstring) :
  ambient t = Ok (Some v) ->
  exists lo hi,
    v = str "-" ++ lo ++ [176%N] ++ str "C to +" ++ hi ++ [176%N] ++ str "C" /\
    lo <> [] /\ hi <> [] /\ forallb isDigit lo = true /\ forallb isDigit hi = true.
Proof.
  unfold ambient. destruct (exec re_ambient t) as [res|] eqn:E; [|discriminate].
  unfold capture. destruct (groups res 1) as [g1|] eqn:E1; [|discriminate]. cbn [bind].
  destruct (groups res 3) as [g3|] eqn:E3; [|discriminate]. cbn [bind].
  intros H. inversion H; subst v. clear H.
  pose proof (@exec_cap_exact (seq [chr "-"; plus digit]) re_ambient 1 t res g1 eq_refl E E1)
    as H1.
  pose proof (@exec_cap_exact (plus digit) re_ambient 3 t res g3 eq_refl E E3) as H3.
  cbn [ignoreCase re_ambient rei] in H1, H3.
  unfold seq, chr in H1. cbn [fold_right] in H1. consumes_inv.
  match goal with H : chr_matches true _ _ = true |- _ => apply minus_ic in H; subst end.
  match goal with
  | Ha : Consumes true (plus digit) ?s1, Hb : Consumes true (plus digit) ?s2 |- _ =>
      pose proof (@consumes_run true _ s1 Ha 1 None true false [CDigit] eq_refl) as Hd1;
      pose proof (@consumes_run true _ s2 Hb 1 None true false [CDigit] eq_refl) as Hd2;
      pose proof (consumes_minWidth Ha) as Hl1; pose proof (consumes_minWidth Hb) as Hl2
  end.
  cbn in Hl1, Hl2. apply forallb_digit_ic in Hd1, Hd2.
  eexists; eexists. split.
  - cbn [app]. rewrite app_nil_r. reflexivity.
  - repeat split; try assumption.
    + intros ->. simpl in *. lia.
    + intros ->. simpl in *. lia.
Qed.

(** * [replace(/[,\s]+$/, '')] *)

Lemma forallb_same (f g : char -> bool) (l : jsstring) :
  (forall c, f c = g c) -> forallb f l = forallb g l.
Proof.
  intros H. induction l as [|c l IH]; cbn [forallb]; [reflexivity|]. now rewrite H, IH.
Qed.

Lemma tail_matchAt_some (p : option char) (s : jsstring) (y : MatchState) :
  matchAt re_tail p s = Some y ->
  s <> [] /\ rest y = [] /\
  forallb (fun c => xorb false (set_matches false [one ","; CSpace] c)) s = true.
Proof.
  unfold matchAt. intros H. apply m_sound in H. destruct H as (y' & Hy & E).
  inversion E; subst y'. clear E. cbn in Hy.
  repeat match goal with
         | H : Reach _ (Seq _ _) _ _ |- _ => inversion H; subst; clear H
         | H : Reach _ Eol _ _ |- _ => inversion H; subst; clear H
         | H : Reach _ Eps _ _ |- _ => inversion H; subst; clear H
         end.
  match goal with H : Reach _ (plus _) _ _ |- _ => rename H into H1 end.
  pose proof (reach_consumes H1) as Hc. pose proof (reach_consumed H1) as Hr.
  cbn [initial rest] in Hr.
  match goal with H : rest _ = [] |- _ => rewrite H, app_nil_r in Hr end.
  pose proof (consumes_minWidth Hc) as Hl. cbn [minWidth plus cls Nat.mul Nat.add] in Hl.
  pose proof (@consumes_run false _ _ Hc 1 None true false [one ","; CSpace] eq_refl) as Hall.
  rewrite <- Hr in Hall, Hl. split; [intros ->; simpl in Hl; lia|]. split; assumption.
Qed.

Lemma tail_matchAt_all (p : option char) (s : jsstring) :
  s <> [] ->
  forallb (fun c => xorb false (set_matches false [one ","; CSpace] c)) s = true ->
  exists y, matchAt re_tail p s = Some y.
Proof.
  intros Hne Hall. unfold matchAt, re_tail, re, seq, plus, cls.
  cbn [pattern ignoreCase fold_right m groups_of].
  eexists.
  refine (@greedy_run false false [one ","; CSpace] s _ 1 None (initial p s) _ [] _ _ _ _ _ _ _).
  - cbn [initial rest]. now rewrite app_nil_r.
  - exact Hall.
  - destruct s; [congruence|simpl; lia].
  - right. split; exact I.
  - cbn [initial rest]. lia.
  - rewrite (@forward_rest (initial p s) s [] (eq_sym (app_nil_r s))). reflexivity.
Qed.

(** What [replace(/[,\s]+$/, '')] removes is a run of commas and white
    space at the end, and what it leaves does not end in one. *)
Lemma stripTail_spec (s : jsstring) :
  (exists post,
      s = stripTail s ++ post /\
      forallb (fun c => char_eqb c (codeUnit ",") || isSpace c) post = true) /\
  (forall c, hd_error (rev (stripTail s)) = Some c ->
             c <> codeUnit "," /\ isSpace c = false).
Proof.
  assert (Hok : forall c, xorb false (set_matches false [one ","; CSpace] c)
                          = (char_eqb c (codeUnit ",") || isSpace c)).
  { intros c. unfold set_matches, set_has, one. cbn [existsb item_has xorb].
    rewrite orb_false_r. unfold char_eqb. now rewrite N.eqb_sym. }
  assert (Hlast : forall pre c,
             (forall pre1 d pre2, pre = pre1 ++ d :: pre2 ->
                 forall suf, forallb (fun c => xorb false (set_matches false [one ","; CSpace] c))
                                     suf = true ->
                 exists p', matchAt re_tail p' (d :: pre2 ++ suf) = None) ->
             hd_error (rev pre) = Some c -> c <> codeUnit "," /\ isSpace c = false).
  { intros pre c Hleft Hc.
    destruct (rev pre) as [|d r] eqn:Er; [discriminate|]. inversion Hc; subst d.
    apply (f_equal (@rev char)) in Er. rewrite rev_involutive in Er. cbn in Er.
    destruct (Hleft (rev r) c [] Er [] eq_refl) as (p' & Hn).
    destruct (char_eqb c (codeUnit ",") || isSpace c) eqn:Ec.
    - destruct (@tail_matchAt_all p' [c]) as (y & Hy); [discriminate| |cbn [app] in Hn; congruence].
      cbn [forallb]. now rewrite Hok, Ec.
    - apply orb_false_iff in Ec. destruct Ec as [E1 E2]. split; [|exact E2].
      intros ->. unfold char_eqb in E1. now rewrite N.eqb_refl in E1. }
  unfold stripTail, replace. destruct (exec re_tail s) as [res|] eqn:E.
  - unfold exec in E. apply execFrom_some in E.
    destruct E as (pre & suf & y & -> & Hm & Hi & Hmt & _ & Hleft).
    apply tail_matchAt_some in Hm. destruct Hm as (Hne & Hr & Hall).
    rewrite Hi, Hmt, Hr. cbn [Nat.add app length]. rewrite Nat.sub_0_r, firstn_all.
    rewrite firstn_app, Nat.sub_diag, firstn_all. cbn [firstn]. rewrite app_nil_r.
    rewrite skipn_all2 by (rewrite length_app; lia).
    rewrite app_nil_r. split.
    + exists suf. split; [reflexivity|].
      rewrite (@forallb_same (fun c => char_eqb c (codeUnit ",") || isSpace c)
                             (fun c => xorb false (set_matches false [one ","; CSpace] c)) suf);
        [exact Hall|intros c; now rewrite Hok].
    + intros c Hc. apply (Hlast pre c); [|exact Hc].
      intros pre1 d pre2 Hp suf' Hs'. exists (lastOr None pre1).
      destruct (matchAt re_tail (lastOr None pre1) (d :: pre2 ++ suf')) eqn:Em; [|reflexivity].
      exfalso. apply tail_matchAt_some in Em. destruct Em as (_ & _ & Hall').
      destruct (@tail_matchAt_all (lastOr None pre1) (d :: pre2 ++ suf)) as (y' & Hy').
      * discriminate.
      * cbn [forallb] in *. apply andb_true_iff in Hall'. destruct Hall' as [Hd Hall'].
        rewrite Hd. cbn [andb]. rewrite forallb_app in *.
        apply andb_true_iff in Hall'. destruct Hall' as [H2 _]. now rewrite H2, Hall.
      * rewrite (Hleft pre1 d pre2 Hp) in Hy'. discriminate.
  - split; [exists []; now rewrite app_nil_r|].
    intros c Hc. apply (Hlast s c); [|exact Hc].
    intros pre1 d pre2 Hp suf' Hs'. exists (lastOr None pre1).
    destruct (matchAt re_tail (lastOr None pre1) (d :: pre2 ++ suf')) eqn:Em; [|reflexivity].
    exfalso. apply tail_matchAt_some in Em. destruct Em as (_ & _ & Hall').
    destruct (@tail_matchAt_all (lastOr None pre1) (d :: pre2)) as (y' & Hy').
    + discriminate.
    + cbn [forallb] in *. apply andb_true_iff in Hall'. destruct Hall' as [Hd Hall'].
      rewrite Hd. cbn [andb]. rewrite forallb_app in Hall'.
      apply andb_true_iff in Hall'. now destruct Hall'.
    + unfold exec in E. rewrite (@execFrom_none re_tail s None 0 E pre1 (d :: pre2) Hp) in Hy'.
      discriminate.
Qed.

(** * Manufacturer and equipment *)

Lemma labelled_accepts (reject : RegExp) (pats : list RegExp) (t v : jsstring) :
  labelled reject pats t = Ok (Some v) ->
  exists pat res g,
    In pat pats /\ exec pat t = Some res /\ groups res 1 = Some g /\
    v = stripTail (trim g) /\ test reject v = false /\ 3 <= length v.
Proof.
  induction pats as [|pat more IH]; cbn [labelled]; [discriminate|].
  assert (Hmore : labelled reject more t = Ok (Some v) ->
                  exists pat0 res g,
                    In pat0 (pat :: more) /\ exec pat0 t = Some res /\ groups res 1 = Some g /\
                    v = stripTail (trim g) /\ test reject v = false /\ 3 <= length v).
  { intros H. destruct (IH H) as (p0 & res & g & Hin & Hrest). exists p0, res, g.
    split; [now right|exact Hrest]. }
  destruct (exec pat t) as [res|] eqn:E; [|exact Hmore].
  unfold capture. destruct (groups res 1) as [g|] eqn:Eg; [|discriminate]. cbn [bind].
  destruct (test reject (stripTail (trim g))) eqn:Et; [exact Hmore|].
  destruct (Nat.ltb (length (stripTail (trim g))) 3) eqn:El; [exact Hmore|].
  intros H. inversion H; subst v. exists pat, res, g. apply Nat.ltb_ge in El.
  repeat split; auto. now left.
Qed.

Lemma exec_cap_avoids (c : char) (re : RegExp) (n : nat) (t : jsstring)
      (res : MatchResult) (g : jsstring) :
  capAll n (avoids (ignoreCase re) c) (pattern re) = true ->
  exec re t = Some res -> groups res n = Some g -> ~ In c g.
Proof.
  intros Hc He Hg.
  apply (@exec_cap_consumes (fun s => ~ In c s) (fun ic a => avoids ic c a) re
           (fun a s Hs Ha => @consumes_avoids (ignoreCase re) c a s Hs Ha) n t res Hc He g Hg).
Qed.

(** What the label loops accept: between three characters and the
    width of the capture, no line feed, no white space in front, no
    comma or white space at the end, and not one of the rejected
    openings. *)
Lemma label_value_shape (w : nat) (reject : RegExp) (pats : list RegExp) (t v : jsstring) :
  forallb (fun pat => capWidth 1 w (pattern pat)
                      && capAll 1 (avoids (ignoreCase pat) 10%N) (pattern pat)) pats = true ->
  labelled reject pats t = Ok (Some v) ->
  3 <= length v <= w /\ ~ In 10%N v /\
  (forall c, hd_error v = Some c -> isSpace c = false) /\
  (forall c, hd_error (rev v) = Some c -> c <> codeUnit "," /\ isSpace c = false) /\
  test reject v = false.
Proof.
  intros Hall H. apply labelled_accepts in H.
  destruct H as (pat & res & g & Hin & He & Hg & Hv & Ht & Hl).
  rewrite forallb_forall in Hall. specialize (Hall pat Hin).
  apply andb_true_iff in Hall. destruct Hall as [Hw Ha].
  pose proof (@exec_cap_width pat 1 w t res Hw He g Hg) as Hlen.
  pose proof (@exec_cap_avoids 10%N pat 1 t res g Ha He Hg) as Hnl.
  destruct (stripTail_spec (trim g)) as ((post & Hs & _) & Hlast). rewrite <- Hv in Hs, Hlast.
  pose proof (trim_length g) as Htl.
  assert (Hvl : length v <= length (trim g)) by (rewrite Hs, length_app; lia).
  split; [lia|]. split; [|split; [|split; [exact Hlast|exact Ht]]].
  - intros Hi. apply Hnl. apply trim_In. rewrite Hs. apply in_or_app. now left.
  - intros c Hc. destruct v as [|d v']; [discriminate|]. inversion Hc; subst d.
    destruct (trim_spec g) as (_ & Hh & _). apply Hh. rewrite Hs. reflexivity.
Qed.

(** * White space in the certificate number and the markings *)

(** The match of a pattern that starts and ends with characters that
    are not white space does so too. *)
Lemma exec_edges (re : RegExp) (t : jsstring) (res : MatchResult) :
  solid (pattern re) = true -> solidEnd (pattern re) = true -> exec re t = Some res ->
  (forall c, hd_error (matched res) = Some c -> isSpace c = false) /\
  (forall c, hd_error (rev (matched res)) = Some c -> isSpace c = false).
Proof.
  intros Hs He H. apply execFrom_reach in H. destruct H as (p & s & y & Hy & Hm & _).
  change (matched res = consumed (initial p s) y) in Hm. rewrite Hm. split.
  - destruct (solid_consumed Hy Hs) as (c & tl' & -> & Hc). intros d Hd.
    inversion Hd; subst. exact Hc.
  - destruct (solidEnd_consumed Hy He) as (s' & c & -> & Hc). intros d Hd.
    rewrite rev_app_distr in Hd. inversion Hd; subst. exact Hc.
Qed.

Lemma matchAll_edges (re : RegExp) (t mt : jsstring) :
  solid (pattern re) = true -> solidEnd (pattern re) = true -> In mt (matchAll re t) ->
  (forall c, hd_error mt = Some c -> isSpace c = false) /\
  (forall c, hd_error (rev mt) = Some c -> isSpace c = false).
Proof.
  intros Hs He H. apply matchAllFrom_reach in H. destruct H as (p & s & y & Hy & Hm).
  change (mt = consumed (initial p s) y) in Hm. rewrite Hm. split.
  - destruct (solid_consumed Hy Hs) as (c & tl' & -> & Hc). intros d Hd.
    inversion Hd; subst. exact Hc.
  - destruct (solidEnd_consumed Hy He) as (s' & c & -> & Hc). intros d Hd.
    rewrite rev_app_distr in Hd. inversion Hd; subst. exact Hc.
Qed.

(** The four facts that say that a string is in normal form: plain
    spaces only, one at a time, none at the ends. *)
Lemma cleaned_shape (s : jsstring) :
  (forall c, hd_error s = Some c -> isSpace c = false) ->
  (forall c, hd_error (rev s) = Some c -> isSpace c = false) ->
  (forall c, In c (collapseSpaces s) -> isSpace c = true -> c = 32%N) /\
  (forall pre x y post,
      collapseSpaces s = pre ++ x :: y :: post -> isSpace x = true -> isSpace y = false) /\
  (forall c, hd_error (collapseSpaces s) = Some c -> isSpace c = false) /\
  (forall c, hd_error (rev (collapseSpaces s)) = Some c -> isSpace c = false).
Proof.
  intros Hh Hl. unfold collapseSpaces. rewrite replaceAll_spaces.
  exact (squeeze_shape s Hh Hl).
Qed.

Lemma cleaned_marking (mt : jsstring) :
  let mk := collapseSpaces (trim mt) in
  (forall c, In c mk -> isSpace c = true -> c = 32%N) /\
  (forall pre x y post, mk = pre ++ x :: y :: post -> isSpace x = true -> isSpace y = false) /\
  (forall c, hd_error mk = Some c -> isSpace c = false) /\
  (forall c, hd_error (rev mk) = Some c -> isSpace c = false).
Proof.
  destruct (trim_spec mt) as (_ & Hh & Hl). exact (cleaned_shape (trim mt) Hh Hl).
Qed.

Lemma iecex_number_shape (t : jsstring) (res : MatchResult) :
  exec re_iecex t = Some res ->
  let n := trim (collapseSpaces (matched res)) in
  (forall c, In c n -> isSpace c = true -> c = 32%N) /\
  (forall pre x y post, n = pre ++ x :: y :: post -> isSpace x = true -> isSpace y = false) /\
  (forall c, hd_error n = Some c -> isSpace c = false) /\
  (forall c, hd_error (rev n) = Some c -> isSpace c = false).
Proof.
  intros E n. destruct (@exec_edges re_iecex t res eq_refl eq_refl E) as [Hh Hl].
  destruct (cleaned_shape (matched res) Hh Hl) as (H1 & H2 & H3 & H4).
  subst n. rewrite (trim_id _ H3 H4). auto.
Qed.

Lemma atex_number_shape (t : jsstring) (res : MatchResult) (c : char) :
  In c (trim (removeSpaces (matched res))) -> isSpace c = false.
Proof.
  intros H. apply trim_In in H. rewrite removeSpaces_filter in H.
  apply filter_In in H. destruct H as [_ H]. now apply negb_true_iff.
Qed.

(** * Special conditions *)

Lemma special_shape (t v : jsstring) :
  special t = Ok (Some v) ->
  exists res g,
    exec re_special t = Some res /\ groups res 1 = Some g /\
    10 <= length g <= 500 /\ v = trim g /\ length v <= 500 /\
    (forall c, hd_error v = Some c -> isSpace c = false) /\
    (forall c, hd_error (rev v) = Some c -> isSpace c = false).
Proof.
  unfold special. destruct (exec re_special t) as [res|] eqn:E; [|discriminate].
  unfold capture. destruct (groups res 1) as [g|] eqn:Eg; [|discriminate]. cbn [bind].
  remember (firstn 500 (trim g)) as w eqn:Ew.
  intros H. inversion H; subst v. clear H. subst w.
  pose proof (@exec_cap_width re_special 1 500 t res eq_refl E g Eg) as Hw.
  pose proof (@exec_cap_exact (lazyTimes 10 500 (cls [CSpace; CNonSpace]))
                              re_special 1 t res g eq_refl E Eg) as Hc.
  apply consumes_minWidth in Hc. cbn in Hc.
  pose proof (trim_length g) as Hl.
  destruct (trim_spec g) as (_ & Hh & Ht).
  exists res, g. rewrite firstn_all2 by lia. repeat split; auto; lia.
Qed.

(** * What the fields of a parsed record can hold *)

(** X1.  [parse] never reports a protection type whose code holds the
    letter i: the pattern that isolates the codes in the marking ignores
    case and stops its lazy capture in front of the first i, so the
    intrinsic-safety codes i, ia, ib and ic are cut off.  No entry of
    [protectionTypes] has base type "i" or the description
    "Intrinsic safety". *)
Theorem protection_types_never_intrinsic (t : jsstring) :
  exists r,
    parse t = Ok r /\
    forall p, In p (protectionTypes r) ->
      (forall c, In c (code p) -> c <> codeUnit "i" /\ c <> codeUnit "I") /\
      baseType p <> str "i" /\
      description p <> str "Intrinsic safety".
Proof.
  destruct (parse_total t) as (r & Hr). exists r. split; [exact Hr|].
  apply parse_inv in Hr. destruct Hr as (_ & _ & _ & _ & Hp & _).
  intros p Hin. destruct (@decompose_codes _ _ p Hp Hin) as (Hd & _ & Hno).
  split.
  - intros c Hc. specialize (Hno c Hc). split; intros ->; apply Hno; reflexivity.
  - rewrite Hd. now apply describe_not_intrinsic.
Qed.

(** A marking of intrinsically safe equipment, for comparison: the
    older parser reports the code, this one reports none. *)
Lemma intrinsic_marking_example :
  option_map protectionTypes
             (match parse (str "Ex ia IIC T4 Ga") with Ok r => Some r | TypeError => None end)
  = Some [] /\
  option_map (fun r => map code (ExParserJs.protectionTypes r))
             (match ExParserJs.parse (str "Ex ia IIC T4 Ga") with
              | Ok r => Some r
              | TypeError => None
              end)
  = Some [str "ia"].
Proof. split; vm_compute; reflexivity. Qed.

(** X2.  [tempClass] and [tempClassMax] are absent together or are one
    row of the temperature table: a class T1 to T6 with its maximum
    surface temperature, which is never missing for a reported class. *)
Theorem temperature_class_table (t : jsstring) :
  exists r,
    parse t = Ok r /\
    (tempClass r = None /\ tempClassMax r = None \/
     In (tempClass r, tempClassMax r)
        [ (Some (str "T1"), Some (celsius "450")); (Some (str "T2"), Some (celsius "300"));
          (Some (str "T3"), Some (celsius "200")); (Some (str "T4"), Some (celsius "135"));
          (Some (str "T5"), Some (celsius "100")); (Some (str "T6"), Some (celsius "85")) ]).
Proof.
  destruct (parse_total t) as (r & Hr). exists r. split; [exact Hr|].
  apply parse_inv in Hr. destruct Hr as (_ & _ & _ & _ & _ & _ & Ht & _).
  exact (temperature_rows _ _ Ht).
Qed.

(** X3.  [epl] is absent or a letter G, D or M followed by a, b or c;
    [zone] is absent exactly when the text has no "Zone <n>" and [epl]
    is absent or is "Mc", the one level without an entry in the table
    of zones. *)
Theorem protection_level_and_zone (t : jsstring) :
  exists r,
    parse t = Ok r /\
    (epl r = None \/
     exists a b, In a (str "GDM") /\ In b (str "abc") /\ epl r = Some [a; b]) /\
    (zone r = None <->
     exec re_zone t = None /\ (epl r = None \/ epl r = Some (str "Mc"))).
Proof.
  destruct (parse_total t) as (r & Hr). exists r. split; [exact Hr|].
  apply parse_inv in Hr. destruct Hr as (_ & _ & _ & _ & _ & _ & _ & He & Hz & _).
  pose proof (protectionLevel_values _ _ He) as Hv. split; [exact Hv|].
  exact (zoneOf_absent t Hv Hz).
Qed.

(** X4.  [gasGroup] and [gasGroupInfo] are one of twelve pairs: both
    absent, or one of eleven group names with its entry in the gas
    table; the names with "+H2" and the bare "II" have no entry, so
    their [gasGroupInfo] is absent. *)
Theorem gas_group_table (t : jsstring) :
  exists r,
    parse t = Ok r /\
    In (gasGroup r, gasGroupInfo r)
       [ (None, None);
         (Some (str "IIIA"), Some (str "Combustible flyings"));
         (Some (str "IIIB"), Some (str "Non-conductive dust"));
         (Some (str "IIIC"), Some (str "Conductive dust (most stringent)"));
         (Some (str "IIA"), Some (str "Propane (least stringent)"));
         (Some (str "IIB"), Some (str "Ethylene"));
         (Some (str "IIC"), Some (str "Hydrogen, acetylene (most stringent)"));
         (Some (str "IIA+H2"), None); (Some (str "IIB+H2"), None);
         (Some (str "IIC+H2"), None);
         (Some (str "I"), Some (str "Mining (methane)"));
         (Some (str "II"), None) ].
Proof.
  destruct (parse_total t) as (r & Hr). exists r. split; [exact Hr|].
  apply parse_inv in Hr. destruct Hr as (_ & _ & _ & _ & _ & Hg & _).
  exact (gas_rows _ _ Hg).
Qed.

(** X5.  [category] is absent, a digit 1 to 3, or such a digit followed
    by one of the letters G, D, M in either case; [group] is absent or
    "I", "II" or "III". *)
Theorem category_and_group_values (t : jsstring) :
  exists r,
    parse t = Ok r /\
    (category r = None \/
     exists d, In d (str "123") /\
               (category r = Some [d] \/
                exists x, In x (str "GDMgdm") /\ category r = Some [d; x])) /\
    In (group r) [None; Some (str "I"); Some (str "II"); Some (str "III")].
Proof.
  destruct (parse_total t) as (r & Hr). exists r. split; [exact Hr|].
  apply parse_inv in Hr.
  destruct Hr as (_ & _ & _ & _ & _ & _ & _ & _ & _ & _ & _ & _ & _ & _ & _ & _ & _ & _
                  & Hc & Hg & _).
  split; [exact (categoryOf_values _ Hc)|exact (groupOf_values _ Hg)].
Qed.

(** X6.  [ipRating], when present, is "IP" followed by two characters
    that are digits or the letter X (in either case) and by at most one
    letter. *)
Theorem ip_rating_shape (t : jsstring) :
  exists r,
    parse t = Ok r /\
    forall v, ipRating r = Some v ->
      exists a b rest',
        v = str "IP" ++ a :: b :: rest' /\
        (isDigit a = true \/ upperChar a = codeUnit "X") /\
        (isDigit b = true \/ upperChar b = codeUnit "X") /\
        (rest' = [] \/ exists c, rest' = [c] /\ isUpper (upperChar c) = true).
Proof.
  destruct (parse_total t) as (r & Hr). exists r. split; [exact Hr|].
  apply parse_inv in Hr. destruct Hr as (_ & _ & _ & _ & _ & _ & _ & _ & _ & Hip & _).
  intros v Hv. rewrite Hv in Hip. exact (ip_shape _ Hip).
Qed.

(** X7.  [ambientTemp], when present, is rebuilt from the two numbers
    found: a minus sign and the digits of the lower bound, the degree
    sign, "C to +", the digits of the upper bound, the degree sign and
    "C"; the lower bound is always negative and the upper one always
    carries a plus sign. *)
Theorem ambient_temperature_shape (t : jsstring) :
  exists r,
    parse t = Ok r /\
    forall v, ambientTemp r = Some v ->
      exists lo hi,
        v = str "-" ++ lo ++ [176%N] ++ str "C to +" ++ hi ++ [176%N] ++ str "C" /\
        lo <> [] /\ hi <> [] /\ forallb isDigit lo = true /\ forallb isDigit hi = true.
Proof.
  destruct (parse_total t) as (r & Hr). exists r. split; [exact Hr|].
  apply parse_inv in Hr. destruct Hr as (_ & _ & _ & _ & _ & _ & _ & _ & _ & _ & Ha & _).
  intros v Hv. rewrite Hv in Ha. exact (ambient_shape _ Ha).
Qed.

(** X8.  [manufacturer], when present, has 3 to 80 characters
    ([equipment]: 3 to 120), holds no line feed, does not start with
    white space, does not end with a comma or white space, and does not
    start with one of the openings the loop rejects. *)
Theorem label_values_shape (t : jsstring) :
  exists r,
    parse t = Ok r /\
    (forall v, manufacturer r = Some v ->
       3 <= length v <= 80 /\ ~ In 10%N v /\
       (forall c, hd_error v = Some c -> isSpace c = false) /\
       (forall c, hd_error (rev v) = Some c -> c <> codeUnit "," /\ isSpace c = false) /\
       test re_mfrReject v = false) /\
    (forall v, equipment r = Some v ->
       3 <= length v <= 120 /\ ~ In 10%N v /\
       (forall c, hd_error v = Some c -> isSpace c = false) /\
       (forall c, hd_error (rev v) = Some c -> c <> codeUnit "," /\ isSpace c = false) /\
       test re_eqReject v = false).
Proof.
  destruct (parse_total t) as (r & Hr). exists r. split; [exact Hr|].
  apply parse_inv in Hr.
  destruct Hr as (_ & _ & _ & _ & _ & _ & _ & _ & _ & _ & _ & Hm & He & _).
  split; intros v Hv.
  - rewrite Hv in Hm. exact (@label_value_shape 80 re_mfrReject mfrPatterns t v eq_refl Hm).
  - rewrite Hv in He. exact (@label_value_shape 120 re_eqReject eqPatterns t v eq_refl He).
Qed.

(** X9.  White space in [certNumber]: a number of type "ATEX" holds no
    white space at all; a number of type "IECEx" or "IECEx + ATEX" holds
    single plain spaces only, and none at its ends. *)
Theorem certificate_number_white_space (t : jsstring) :
  exists r,
    parse t = Ok r /\
    forall n, certNumber r = Some n ->
      (certType r = Some (str "ATEX") -> forall c, In c n -> isSpace c = false) /\
      (certType r = Some (str "IECEx") \/ certType r = Some (str "IECEx + ATEX") ->
       (forall c, In c n -> isSpace c = true -> c = codeUnit " ") /\
       (forall pre x y post,
           n = pre ++ x :: y :: post -> isSpace x = true -> isSpace y = false) /\
       (forall c, hd_error n = Some c -> isSpace c = false) /\
       (forall c, hd_error (rev n) = Some c -> isSpace c = false)).
Proof.
  destruct (parse_total t) as (r & Hr). exists r. split; [exact Hr|].
  apply parse_inv in Hr. destruct Hr as (Hn & Ht & _).
  rewrite Hn, Ht, certificate_first_match. intros n.
  destruct (exec re_iecex t) as [m1|] eqn:E1.
  - cbn [fst snd]. intros H. inversion H; subst n. split.
    + destruct (exec re_atexAlso t); intros H'; inversion H'.
    + intros _. exact (iecex_number_shape t E1).
  - destruct (exec re_atex t) as [m2|] eqn:E2.
    + cbn [fst snd]. intros H. inversion H; subst n. split.
      * intros _ c. apply (atex_number_shape t m2).
      * intros [H'|H']; inversion H'.
    + destruct (exec re_ukca t) as [m3|] eqn:E3; cbn [fst snd]; [|discriminate].
      intros H. split; [intros H'; inversion H'|intros [H'|H']; inversion H'].
Qed.

(** X10.  Every entry of [markings] (and so [marking]) is in normal
    form: its only white space is single plain spaces, with none at
    either end, and cleaning it again leaves it unchanged. *)
Theorem markings_normalised (t : jsstring) :
  exists r,
    parse t = Ok r /\
    (forall mk, marking r = Some mk -> In mk (markings r)) /\
    forall mk, In mk (markings r) ->
      (forall c, In c mk -> isSpace c = true -> c = codeUnit " ") /\
      (forall pre x y post,
          mk = pre ++ x :: y :: post -> isSpace x = true -> isSpace y = false) /\
      (forall c, hd_error mk = Some c -> isSpace c = false) /\
      (forall c, hd_error (rev mk) = Some c -> isSpace c = false) /\
      collapseSpaces (trim mk) = mk.
Proof.
  destruct (parse_total t) as (r & Hr). exists r. split; [exact Hr|].
  apply parse_inv in Hr. destruct Hr as (_ & _ & Hms & Hm & _). split.
  - intros mk H. rewrite Hm in H. destruct (markings r); inversion H; subst. now left.
  - intros mk Hin. rewrite Hms in Hin. unfold sortedMarkings in Hin.
    apply (Permutation_in _ (Permutation_sym (sortBy_perm (candidates t)))) in Hin.
    apply candidates_In in Hin. destruct Hin as (pat & mt & _ & _ & ->).
    destruct (cleaned_marking mt) as (H1 & H2 & H3 & H4).
    split; [exact H1|]. split; [exact H2|]. split; [exact H3|]. split; [exact H4|].
    rewrite (trim_id _ H3 H4). unfold collapseSpaces at 1. rewrite replaceAll_spaces.
    apply squeeze_fixed; assumption.
Qed.

(** X11.  [specialConditions], when present, is the trimmed capture of
    the special-conditions pattern: the capture has 10 to 500
    characters, so the cut at 500 characters never removes anything, and
    the value has no white space at its ends. *)
Theorem special_conditions_never_cut (t : jsstring) :
  exists r,
    parse t = Ok r /\
    forall v, specialConditions r = Some v ->
      exists res g,
        exec re_special t = Some res /\ groups res 1 = Some g /\
        10 <= length g <= 500 /\ v = trim g /\ length v <= 500 /\
        (forall c, hd_error v = Some c -> isSpace c = false) /\
        (forall c, hd_error (rev v) = Some c -> isSpace c = false).
Proof.
  destruct (parse_total t) as (r & Hr). exists r. split; [exact Hr|].
  apply parse_inv in Hr.
  destruct Hr as (_ & _ & _ & _ & _ & _ & _ & _ & _ & _ & _ & _ & _ & _ & _ & _ & Hs & _).
  intros v Hv. rewrite Hv in Hs. exact (special_shape _ Hs).
Qed.

(** * The extremes of the confidence *)

Lemma addWeight_fold_full (l : list (bool * Z)) :
  Forall (fun e => (0 < snd e)%Z) l ->
  forall acc,
    fold_left addWeight l acc = (acc + fold_right Z.add 0 (map snd l))%Z <->
    Forall (fun e => fst e = true) l.
Proof.
  induction 1 as [|e l He Hl IH]; intros acc; simpl.
  - split; [constructor|lia].
  - assert (Hn : Forall (fun e => (0 <= snd e)%Z) l)
      by (eapply Forall_impl; [|exact Hl]; simpl; intros; lia).
    pose proof (addWeight_fold_upper Hn (addWeight acc e)) as Hu.
    specialize (IH (addWeight acc e)). unfold addWeight in *.
    destruct (fst e) eqn:E; split.
    + intros H. constructor; [exact E|]. apply IH. lia.
    + intros H. inversion H; subst. apply IH in H3. lia.
    + intros H. exfalso. lia.
    + intros H. inversion H; subst. congruence.
Qed.

Lemma addWeight_fold_none (l : list (bool * Z)) :
  Forall (fun e => (0 < snd e)%Z) l ->
  forall acc,
    fold_left addWeight l acc = acc <-> Forall (fun e => fst e = false) l.
Proof.
  induction 1 as [|e l He Hl IH]; intros acc; simpl.
  - split; [constructor|reflexivity].
  - assert (Hn : Forall (fun e => (0 <= snd e)%Z) l)
      by (eapply Forall_impl; [|exact Hl]; simpl; intros; lia).
    pose proof (addWeight_fold_lower Hn (addWeight acc e)) as Hu.
    specialize (IH (addWeight acc e)). unfold addWeight in *.
    destruct (fst e) eqn:E; split.
    + intros H. exfalso. lia.
    + intros H. inversion H; subst. congruence.
    + intros H. constructor; [exact E|]. now apply IH.
    + intros H. inversion H; subst. now apply IH.
Qed.

Lemma weights_positive (r : CertificateRecord) :
  Forall (fun e => (0 < snd e)%Z) (weighted r).
Proof. unfold weighted. repeat constructor; simpl; lia. Qed.

(** X12.  The confidence is 100 exactly when every one of the thirteen
    weighted fields is present, and 0 exactly when none is: each weight
    is positive and the weights add up to 100. *)
Theorem confidence_extremes (r : CertificateRecord) :
  (confidence r = 100%Z <-> Forall (fun e => fst e = true) (weighted r)) /\
  (confidence r = 0%Z <-> Forall (fun e => fst e = false) (weighted r)).
Proof.
  rewrite confidence_is_the_sum. split.
  - rewrite <- (addWeight_fold_full (weights_positive r) 0%Z). reflexivity.
  - rewrite <- (addWeight_fold_none (weights_positive r) 0%Z). reflexivity.
Qed.

(** X13.  Without a marking there are no protection types either, so
    the confidence of a parsed text without a marking is at most 70, and
    at most 50 when the certificate number is missing as well: such a
    result is never shown in the upper band of the confidence bar, which
    starts at 60. *)
Theorem confidence_without_marking (t : jsstring) :
  exists r,
    parse t = Ok r /\
    (marking r = None -> (confidence r <= 70)%Z) /\
    (marking r = None -> certNumber r = None ->
     (confidence r <= 50)%Z /\
     forall name now ocr,
       App.fillClass (App.renderResults (App.mkScan r name now (confidence r) ocr)
                                        (confidence r))
       <> str "confidence-fill").
Proof.
  destruct (parse_total t) as (r & Hr). exists r. split; [exact Hr|].
  assert (Hp : marking r = None -> protectionTypes r = []).
  { intros Hm. pose proof Hr as H. apply parse_inv in H.
    destruct H as (_ & _ & _ & _ & Hd & _). rewrite Hm in Hd.
    vm_compute in Hd. now inversion Hd. }
  assert (H70 : marking r = None -> (confidence r <= 70)%Z).
  { intros Hm. rewrite confidence_is_the_sum. unfold weighted.
    rewrite (Hp Hm), Hm. cbn [truthy length Nat.ltb Nat.leb fold_left]. unfold addWeight. cbn [fst snd].
    repeat match goal with |- context [truthy ?v] => destruct (truthy v) end; lia. }
  split; [exact H70|]. intros Hm Hn.
  assert (H50 : (confidence r <= 50)%Z).
  { rewrite confidence_is_the_sum. unfold weighted.
    rewrite (Hp Hm), Hm, Hn. cbn [truthy length Nat.ltb Nat.leb fold_left]. unfold addWeight. cbn [fst snd].
    repeat match goal with |- context [truthy ?v] => destruct (truthy v) end; lia. }
  split; [exact H50|]. intros name now ocr.
  unfold App.renderResults. cbn [App.fillClass].
  destruct (Z.leb_spec 60 (confidence r)); [lia|].
  destruct (Z.leb 30 (confidence r)); discriminate.
Qed.

(** * Empty strings *)

(** X14.  Every field of a parsed record other than
    [specialConditions] (and [raw], [markings], [protectionTypes]) is
    absent or a non-empty string. *)
Theorem fields_never_empty_string (t : jsstring) :
  exists r,
    parse t = Ok r /\
    Forall (fun field => field <> Some [])
           [ certNumber r; certType r; marking r; gasGroup r; gasGroupInfo r; tempClass r;
             tempClassMax r; epl r; zone r; ipRating r; ambientTemp r; manufacturer r;
             equipment r; notifiedBody r; issueDate r; expiryDate r; standard r;
             category r; group r ].
Proof.
  destruct (parse_total t) as (r & Hr). exists r. split; [exact Hr|].
  exact (other_fields_never_empty t Hr).
Qed.

(** * The table fields of the parser under src/js/parser.js *)

Lemma js_gas_eq (t : jsstring) : ExParserJs.gas t = gas [] t.
Proof.
  unfold ExParserJs.gas, gas.
  replace (exec re_gasMarking []) with (@None MatchResult) by (vm_compute; reflexivity).
  reflexivity.
Qed.

Lemma js_temperature_eq (t : jsstring) (c : option jsstring) :
  ExParserJs.single re_temp t (str "T") = Ok c ->
  temperature [] t
  = Ok (c, match c with Some v => orNull (lookup TEMP_CLASS_INFO v) | None => None end).
Proof.
  unfold ExParserJs.single, temperature.
  replace (exec re_temp []) with (@None MatchResult) by (vm_compute; reflexivity).
  cbn [firstOf]. destruct (exec re_temp t) as [res|]; [|intros H; inversion H; reflexivity].
  unfold capture. destruct (groups res 1) as [g|]; [|discriminate]. cbn [bind].
  intros H. inversion H. reflexivity.
Qed.

Lemma js_protectionLevel_eq (t : jsstring) :
  ExParserJs.single re_epl t [] = protectionLevel [] t.
Proof.
  unfold ExParserJs.single, protectionLevel.
  replace (exec re_epl []) with (@None MatchResult) by (vm_compute; reflexivity).
  reflexivity.
Qed.

Lemma js_parse_fields (t : jsstring) (r : ExParserJs.CertificateRecord) :
  ExParserJs.parse t = Ok r ->
  gas [] t = Ok (ExParserJs.gasGroup r, ExParserJs.gasGroupInfo r) /\
  temperature [] t = Ok (ExParserJs.tempClass r, ExParserJs.tempClassMax r) /\
  protectionLevel [] t = Ok (ExParserJs.epl r) /\
  zoneOf t (ExParserJs.epl r) = Ok (ExParserJs.zone r) /\
  ip t = Ok (ExParserJs.ipRating r) /\
  ambient t = Ok (ExParserJs.ambientTemp r).
Proof.
  unfold ExParserJs.parse. rewrite js_protectionLevel_eq, js_gas_eq.
  destruct (ExParserJs.decompose t) eqn:E1; [|discriminate].
  destruct (gas [] t) as [[]|] eqn:E2; [|discriminate].
  destruct (ExParserJs.single re_temp t (str "T")) eqn:E3; [|discriminate].
  destruct (protectionLevel [] t) eqn:E4; [|discriminate].
  cbn [bind].
  destruct (zoneOf t a1) eqn:E5; [|discriminate].
  destruct (ip t) eqn:E6; [|discriminate].
  destruct (ambient t) eqn:E7; [|discriminate].
  destruct (ExParserJs.labelled ExParserJs.mfrPatterns t) eqn:E8; [|discriminate].
  destruct (ExParserJs.labelled ExParserJs.eqPatterns t) eqn:E9; [|discriminate].
  destruct (firstCapture ExParserJs.issuePats t) eqn:E10; [|discriminate].
  destruct (firstCapture ExParserJs.expiryPats t) eqn:E11; [|discriminate].
  destruct (special t) eqn:E12; [|discriminate].
  destruct (ExParserJs.categoryOf t) eqn:E13; [|discriminate].
  destruct (ExParserJs.single re_group t []) eqn:E14; [|discriminate].
  cbn [bind]. intros H. inversion H; subst; clear H. cbn.
  apply js_temperature_eq in E3. repeat split; assumption.
Qed.

(** X15.  The parser under src/js/parser.js reads its table fields
    from the whole text, with the same outcome: [gasGroup] with
    [gasGroupInfo] is one of the twelve pairs of the gas table,
    [tempClass] with [tempClassMax] is absent or one row of the
    temperature table, [epl] is absent or a letter G, D or M followed
    by a, b or c, and [zone] is absent exactly when the text has no
    "Zone <n>" and [epl] is absent or "Mc". *)
Theorem js_table_fields (t : jsstring) :
  exists r,
    ExParserJs.parse t = Ok r /\
    In (ExParserJs.gasGroup r, ExParserJs.gasGroupInfo r)
       [ (None, None);
         (Some (str "IIIA"), Some (str "Combustible flyings"));
         (Some (str "IIIB"), Some (str "Non-conductive dust"));
         (Some (str "IIIC"), Some (str "Conductive dust (most stringent)"));
         (Some (str "IIA"), Some (str "Propane (least stringent)"));
         (Some (str "IIB"), Some (str "Ethylene"));
         (Some (str "IIC"), Some (str "Hydrogen, acetylene (most stringent)"));
         (Some (str "IIA+H2"), None); (Some (str "IIB+H2"), None);
         (Some (str "IIC+H2"), None);
         (Some (str "I"), Some (str "Mining (methane)"));
         (Some (str "II"), None) ] /\
    (ExParserJs.tempClass r = None /\ ExParserJs.tempClassMax r = None \/
     In (ExParserJs.tempClass r, ExParserJs.tempClassMax r)
        [ (Some (str "T1"), Some (celsius "450")); (Some (str "T2"), Some (celsius "300"));
          (Some (str "T3"), Some (celsius "200")); (Some (str "T4"), Some (celsius "135"));
          (Some (str "T5"), Some (celsius "100")); (Some (str "T6"), Some (celsius "85")) ]) /\
    (ExParserJs.epl r = None \/
     exists a b, In a (str "GDM") /\ In b (str "abc") /\ ExParserJs.epl r = Some [a; b]) /\
    (ExParserJs.zone r = None <->
     exec re_zone t = None /\ (ExParserJs.epl r = None \/ ExParserJs.epl r = Some (str "Mc"))).
Proof.
  destruct (js_parse_total t) as (r & Hr). exists r. split; [exact Hr|].
  apply js_parse_fields in Hr. destruct Hr as (Hg & Ht & He & Hz & _).
  pose proof (protectionLevel_values _ _ He) as Hv.
  split; [exact (gas_rows _ _ Hg)|]. split; [exact (temperature_rows _ _ Ht)|].
  split; [exact Hv|exact (zoneOf_absent t Hv Hz)].
Qed.

(** * A manufacturer line *)

Lemma chr_needed (ic : bool) (a c d : char) :
  forallb (char_eqb c) (chrChars ic a) = true -> chr_matches ic a d = true -> d = c.
Proof.
  destruct ic; unfold chrChars; cbn [forallb]; rewrite ?andb_true_iff.
  - intros (Ha & Hu & Hl & _) Hm. apply N.eqb_eq in Ha. subst a.
    apply N.eqb_eq in Hu, Hl. revert Hu Hl Hm. unfold_chars. intros Hu Hl Hm. split_cmp.
  - intros (Ha & _) Hm. apply N.eqb_eq in Ha. subst a. apply N.eqb_eq in Hm. now subst.
Qed.

Lemma consumes_needs (ic : bool) (c : char) (r : regex) (s : jsstring) :
  Consumes ic r s -> needs ic c r = true -> In c s.
Proof.
  induction 1; cbn [needs]; intros Hn; try discriminate.
  - left. exact (chr_needed ic a c c0 Hn H).
  - apply in_or_app. apply orb_true_iff in Hn. tauto.
  - apply andb_true_iff in Hn. tauto.
  - apply andb_true_iff in Hn. tauto.
  - rewrite andb_false_r in Hn. discriminate.
  - apply in_or_app. left. apply IHConsumes1.
    apply andb_true_iff in Hn. tauto.
  - tauto.
Qed.

(** A pattern that needs a character finds nothing in a text without it. *)
Lemma exec_needs (c : char) (re : RegExp) (t : jsstring) :
  needs (ignoreCase re) c (pattern re) = true -> ~ In c t -> exec re t = None.
Proof.
  intros Hn Hc. destruct (exec re t) as [res|] eqn:E; [|reflexivity]. exfalso. apply Hc.
  unfold exec in E. apply execFrom_some in E.
  destruct E as (pre & suf & y & -> & Hm & _).
  unfold matchAt in Hm. apply m_sound in Hm. destruct Hm as (y' & Hy & _).
  pose proof (reach_consumed Hy) as Hr. cbn [initial rest] in Hr.
  apply reach_consumes in Hy. apply (consumes_needs c Hy) in Hn.
  apply in_or_app. right. rewrite Hr. apply in_or_app. now left.
Qed.

Lemma upper_space (c : char) : isSpace (upperChar c) = true -> isSpace c = true.
Proof.
  unfold upperChar. destruct (isLower c) eqn:E; [|auto].
  revert E. unfold_chars. intros E H. split_cmp.
Qed.

Lemma lower_space (c : char) : isSpace (lowerChar c) = true -> isSpace c = true.
Proof.
  unfold lowerChar. destruct (isUpper c) eqn:E; [|auto].
  revert E. unfold_chars. intros E H. split_cmp.
Qed.

Lemma upper_colon (c : char) :
  char_eqb (codeUnit ":") (upperChar c) = true -> char_eqb c (codeUnit ":") = true.
Proof.
  unfold upperChar. destruct (isLower c) eqn:E.
  - revert E. unfold isLower, between, char_eqb, codeUnit. simpl N_of_ascii.
    intros E H. split_cmp.
  - unfold char_eqb. now rewrite N.eqb_sym.
Qed.

Lemma lower_colon (c : char) :
  char_eqb (codeUnit ":") (lowerChar c) = true -> char_eqb c (codeUnit ":") = true.
Proof.
  unfold lowerChar. destruct (isUpper c) eqn:E.
  - revert E. unfold isUpper, between, char_eqb, codeUnit. simpl N_of_ascii.
    intros E H. split_cmp.
  - unfold char_eqb. now rewrite N.eqb_sym.
Qed.

Lemma colonWs_stops (c : char) :
  isSpace c = false -> char_eqb c (codeUnit ":") = false ->
  xorb false (set_matches true [one ":"; CSpace] c) = false.
Proof.
  intros Hs Hc. unfold set_matches, set_has, one. cbn [existsb item_has xorb].
  rewrite !orb_false_r.
  assert (H1 : char_eqb (codeUnit ":") c = false)
    by (unfold char_eqb in *; now rewrite N.eqb_sym).
  assert (H2 : isSpace (upperChar c) = false).
  { destruct (isSpace (upperChar c)) eqn:E; [|reflexivity].
    apply upper_space in E. congruence. }
  assert (H3 : isSpace (lowerChar c) = false).
  { destruct (isSpace (lowerChar c)) eqn:E; [|reflexivity].
    apply lower_space in E. congruence. }
  assert (H4 : char_eqb (codeUnit ":") (upperChar c) = false).
  { destruct (char_eqb (codeUnit ":") (upperChar c)) eqn:E; [|reflexivity].
    apply upper_colon in E. congruence. }
  assert (H5 : char_eqb (codeUnit ":") (lowerChar c) = false).
  { destruct (char_eqb (codeUnit ":") (lowerChar c)) eqn:E; [|reflexivity].
    apply lower_colon in E. congruence. }
  now rewrite H1, H2, H3, H4, H5, Hs.
Qed.

Lemma notNl_run (v : jsstring) :
  existsb (char_eqb 10%N) v = false ->
  forallb (fun c => xorb true (set_matches true [CChar 10%N] c)) v = true.
Proof.
  induction v as [|c v IH]; cbn [existsb forallb]; [reflexivity|]. intros H.
  apply orb_false_iff in H. destruct H as [Hc H]. rewrite (IH H), andb_true_r.
  clear IH H. revert Hc. unfold set_matches, set_has. cbn [existsb item_has xorb].
  unfold_chars. intros Hc. split_cmp.
Qed.

Lemma existsb_In (c : char) (v : jsstring) : existsb (char_eqb c) v = false -> ~ In c v.
Proof.
  induction v as [|d v IH]; cbn [existsb In]; [tauto|]. intros H [E|Hin].
  - subst d. unfold char_eqb in H. now rewrite N.eqb_refl in H.
  - apply orb_false_iff in H. tauto.
Qed.

(** At the start of "Manufacturer: v" the same-line pattern reads the
    label, the colon and the space, and captures [v]. *)
Lemma sameLine_here (v : jsstring) :
  3 <= length v <= 80 ->
  existsb (char_eqb 10%N) v = false ->
  stopsAt (fun c => xorb false (set_matches true [one ":"; CSpace] c)) v ->
  exists res,
    exec (sameLine [lit "Manufacturer"] (times 3 80 notNl)) (str "Manufacturer: " ++ v)
    = Some res /\ groups res 1 = Some v.
Proof.
  intros Hlen Hnl Hstop.
  set (x0 := initial None (str "Manufacturer: " ++ v)).
  set (x1 := forward x0 (str "Manufacturer")).
  set (x2 := forward x1 (str ": ")).
  set (z := setcap 1 (Some v) (forward x2 v)).
  assert (H1 : rest x1 = str ": " ++ v)
    by (apply (@forward_rest x0 (str "Manufacturer") (str ": " ++ v)); reflexivity).
  assert (H2 : rest x2 = v ++ [])
    by (rewrite app_nil_r; apply (@forward_rest x1 (str ": ") v); exact H1).
  assert (Hm : matchAt (sameLine [lit "Manufacturer"] (times 3 80 notNl)) None
                       (str "Manufacturer: " ++ v) = Some z).
  { unfold matchAt, sameLine, rei, seq, lit. cbn [pattern ignoreCase fold_right app].
    cbn [m]. fold x0.
    rewrite (@m_lit true (str "Manufacturer") x0 _ (str ": " ++ v) eq_refl). fold x1.
    unfold plus, colonWs, cls. cbn [m groups_of].
    refine (@greedy_run true false [one ":"; CSpace] (str ": ") _ 1 None x1 _ v z H1
                        eq_refl _ _ _ _).
    - simpl. lia.
    - right. split; [exact I|exact Hstop].
    - rewrite H1. rewrite length_app. simpl. lia.
    - fold x2. unfold times, notNl, ncls. cbn [m groups_of].
      refine (@greedy_run true true [CChar 10%N] v _ 3 (Some 80) x2 _ [] z H2
                          (notNl_run v Hnl) _ _ _ _).
      + lia.
      + destruct (Nat.eq_dec (length v) 80) as [E|E]; [left; now rewrite E|right].
        split; [lia|exact I].
      + rewrite H2, app_nil_r. lia.
      + cbn [m]. rewrite (@forward_consumed x2 v [] H2). reflexivity. }
  exists (mkResult 0 (firstn (length (str "Manufacturer: " ++ v) - length (rest z))
                             (str "Manufacturer: " ++ v)) (caps z)).
  split.
  - unfold exec. change (str "Manufacturer: " ++ v) with (77%N :: (str "anufacturer: " ++ v)) in *.
    cbn [execFrom]. rewrite Hm. reflexivity.
  - cbn [groups]. unfold z. cbn [setcap caps Nat.eqb]. reflexivity.
Qed.

Lemma stripTail_id (v : jsstring) :
  (forall c, hd_error (rev v) = Some c -> c <> codeUnit "," /\ isSpace c = false) ->
  stripTail v = v.
Proof.
  intros Hl. destruct (stripTail_spec v) as ((post & Hv & Hall) & _).
  destruct (rev post) as [|d r] eqn:E.
  - apply (f_equal (@rev char)) in E. rewrite rev_involutive in E. subst post.
    rewrite app_nil_r in Hv. now symmetry.
  - exfalso. apply (f_equal (@rev char)) in E. rewrite rev_involutive in E. cbn in E.
    subst post. rewrite forallb_app in Hall. apply andb_true_iff in Hall.
    destruct Hall as [_ Hd]. cbn [forallb] in Hd. rewrite andb_true_r in Hd.
    destruct (Hl d) as [Hc Hs].
    + rewrite Hv, rev_app_distr, rev_app_distr. reflexivity.
    + apply orb_true_iff in Hd. destruct Hd as [Hd|Hd]; [|congruence].
      apply N.eqb_eq in Hd. contradiction.
Qed.

(** The value of a one-line text "Manufacturer: v". *)
Lemma manufacturer_line (a z : char) (mid : jsstring) :
  1 <= length mid <= 78 ->
  isSpace a = false -> char_eqb a (codeUnit ":") = false ->
  isSpace z = false -> char_eqb z (codeUnit ",") = false ->
  existsb (char_eqb 10%N) (a :: mid ++ [z]) = false ->
  test re_mfrReject (a :: mid ++ [z]) = false ->
  labelled re_mfrReject mfrPatterns (str "Manufacturer: " ++ a :: mid ++ [z])
  = Ok (Some (a :: mid ++ [z])).
Proof.
  intros Hlen Ha1 Ha2 Hz1 Hz2 Hnl Hrej.
  set (v := a :: mid ++ [z]) in *.
  assert (Hv : 3 <= length v <= 80)
    by (unfold v; cbn [length]; rewrite length_app; simpl; lia).
  assert (Hno : ~ In 10%N (str "Manufacturer: " ++ v)).
  { intros Hin. apply in_app_or in Hin. destruct Hin as [Hin|Hin].
    - cbn in Hin. repeat (destruct Hin as [Hin|Hin]; [discriminate Hin|]). exact Hin.
    - exact (@existsb_In _ _ Hnl Hin). }
  destruct (@sameLine_here v Hv Hnl (colonWs_stops a Ha1 Ha2)) as (res & Hres & Hg).
  unfold mfrPatterns. cbn [labelled].
  repeat match goal with
         | |- context [exec ?re (str "Manufacturer: " ++ v)] =>
             rewrite (@exec_needs 10%N re _ eq_refl Hno)
         end.
  rewrite Hres. unfold capture. rewrite Hg. cbn [bind].
  assert (Hhead : forall c, hd_error v = Some c -> isSpace c = false)
    by (intros c H; inversion H; subst; exact Ha1).
  assert (Hlast : forall c, hd_error (rev v) = Some c -> c <> codeUnit "," /\ isSpace c = false).
  { intros c H. unfold v in H. change (a :: mid ++ [z]) with ((a :: mid) ++ [z]) in H.
    rewrite rev_app_distr in H. inversion H; subst. split; [|exact Hz1].
    intros E. subst c. unfold char_eqb in Hz2. now rewrite N.eqb_refl in Hz2. }
  rewrite (@trim_id v Hhead (fun c H => proj2 (Hlast c H))).
  rewrite (stripTail_id v Hlast). rewrite Hrej.
  replace (Nat.ltb (length v) 3) with false by (symmetry; apply Nat.ltb_ge; lia).
  reflexivity.
Qed.

(** X16.  A text that consists of the line "Manufacturer: v" gives the
    manufacturer [v], whatever characters [v] holds, when [v] has 3 to
    80 characters, none of them a line feed, does not start with a
    colon or white space, does not end with a comma or white space and
    does not open with one of the rejected words. *)
Theorem manufacturer_line_recognised (a z : char) (mid : jsstring) :
  1 <= length mid <= 78 ->
  isSpace a = false -> char_eqb a (codeUnit ":") = false ->
  isSpace z = false -> char_eqb z (codeUnit ",") = false ->
  existsb (char_eqb 10%N) (a :: mid ++ [z]) = false ->
  test re_mfrReject (a :: mid ++ [z]) = false ->
  exists r,
    parse (str "Manufacturer: " ++ a :: mid ++ [z]) = Ok r /\
    manufacturer r = Some (a :: mid ++ [z]).
Proof.
  intros Hlen Ha1 Ha2 Hz1 Hz2 Hnl Hrej.
  destruct (parse_total (str "Manufacturer: " ++ a :: mid ++ [z])) as (r & Hr).
  exists r. split; [exact Hr|]. apply parse_inv in Hr.
  destruct Hr as (_ & _ & _ & _ & _ & _ & _ & _ & _ & _ & _ & Hm & _).
  rewrite (@manufacturer_line a z mid Hlen Ha1 Ha2 Hz1 Hz2 Hnl Hrej) in Hm.
  now inversion Hm.
Qed.

Lemma manufacturer_line_recognised_witness :
  exists r,
    parse (str "Manufacturer: " ++ codeUnit "A" :: str "cme Cor" ++ [codeUnit "p"]) = Ok r /\
    manufacturer r = Some (codeUnit "A" :: str "cme Cor" ++ [codeUnit "p"]).
Proof.
  apply (@manufacturer_line_recognised (codeUnit "A") (codeUnit "p") (str "cme Cor"));
    try reflexivity; simpl; lia.
Defined.

(** * The text of a document and the choice of OCR *)

Lemma fold_left_append (A : Type) (g : A -> jsstring) (l : list A) :
  forall acc, fold_left (fun text x => text ++ g x) l acc = acc ++ flat_map g l.
Proof.
  induction l as [|x l IH]; intros acc; cbn [fold_left flat_map].
  - now rewrite app_nil_r.
  - now rewrite IH, app_assoc.
Qed.

Lemma filter_flat_map (A : Type) (f : char -> bool) (g : A -> jsstring) (l : list A) :
  filter f (flat_map g l) = flat_map (fun x => filter f (g x)) l.
Proof.
  induction l as [|x l IH]; cbn [flat_map]; [reflexivity|]. now rewrite filter_app, IH.
Qed.

Lemma filter_join (f : char -> bool) (sep : jsstring) (l : list jsstring) :
  filter f sep = [] -> filter f (join sep l) = filter f (concat l).
Proof.
  intros Hsep. induction l as [|x l IH]; [reflexivity|].
  destruct l as [|y l].
  - cbn [join concat]. now rewrite app_nil_r.
  - change (join sep (x :: y :: l)) with (x ++ sep ++ join sep (y :: l)).
    change (concat (x :: y :: l)) with (x ++ concat (y :: l)).
    now rewrite !filter_app, Hsep, IH.
Qed.

Lemma extractText_visible (pdf : list App.Page) :
  filter (fun c => negb (isSpace c)) (App.extractText pdf)
  = filter (fun c => negb (isSpace c)) (concat (flat_map App.items pdf)).
Proof.
  unfold App.extractText.
  rewrite (fold_left_append
             (fun page => join (str " ") (App.items page) ++ App.pageBreak) pdf []).
  cbn [app]. induction pdf as [|pg pdf IH]; [reflexivity|].
  cbn [flat_map]. rewrite concat_app, !filter_app, IH.
  rewrite (@filter_join (fun c => negb (isSpace c)) (str " ") (App.items pg) eq_refl).
  change (filter (fun c => negb (isSpace c)) App.pageBreak) with (@nil char).
  now rewrite app_nil_r.
Qed.

Lemma trim_solid_string (s : jsstring) :
  (forall c, In c s -> isSpace c = false) -> trim s = s.
Proof.
  intros H. apply trim_id; intros c Hc; apply H.
  - destruct s; inversion Hc; subst. now left.
  - apply in_rev. destruct (rev s); inversion Hc; subst. now left.
Qed.

Lemma scannedText_visible (pdf : list App.Page) :
  App.scannedText pdf
  = if Nat.ltb (App.visible (concat (flat_map App.items pdf))) 50
    then (App.ocrPdf pdf, true)
    else (App.extractText pdf, false).
Proof.
  unfold App.scannedText, App.visible. cbv zeta.
  rewrite removeSpaces_filter, trim_solid_string.
  - now rewrite extractText_visible.
  - intros c Hc. apply filter_In in Hc. destruct Hc as [_ Hc].
    now apply negb_true_iff in Hc.
Qed.

(** X17.  Given the pages of a document, the steps of [processFile]
    from the extraction of the text to [currentResult] never fail, and
    OCR is used exactly when the text items of the document hold fewer
    than 50 characters that are not white space: the separators added
    between items and pages do not count, and the [trim] after the
    removal of the white space changes nothing.  The parsed text is the
    recognised text in that case and the extracted text otherwise, and
    the stored confidence is the confidence of the parsed fields. *)
Theorem ocr_decision (pdf : list App.Page) (name now : jsstring) :
  exists s,
    App.scan pdf name now = Ok s /\
    App.usedOcr s = Nat.ltb (App.visible (concat (flat_map App.items pdf))) 50 /\
    raw (App.fields s) = (if App.usedOcr s then App.ocrPdf pdf else App.extractText pdf) /\
    parse (raw (App.fields s)) = Ok (App.fields s) /\
    App.confidence s = confidence (App.fields s) /\
    App.fileName s = name /\ App.scannedAt s = now.
Proof.
  unfold App.scan. rewrite scannedText_visible.
  destruct (Nat.ltb (App.visible (concat (flat_map App.items pdf))) 50).
  - destruct (parse_total (App.ocrPdf pdf)) as (r & Hr). rewrite Hr. cbn [bind].
    eexists. split; [reflexivity|]. cbn [App.usedOcr App.fields App.confidence App.fileName
                                         App.scannedAt].
    pose proof Hr as Hi. apply parse_inv in Hi.
    destruct Hi as (_ & _ & _ & _ & _ & _ & _ & _ & _ & _ & _ & _ & _ & _ & _ & _ & _ & _
                    & _ & _ & Hraw).
    rewrite Hraw. repeat split; auto.
  - destruct (parse_total (App.extractText pdf)) as (r & Hr). rewrite Hr. cbn [bind].
    eexists. split; [reflexivity|]. cbn [App.usedOcr App.fields App.confidence App.fileName
                                         App.scannedAt].
    pose proof Hr as Hi. apply parse_inv in Hi.
    destruct Hi as (_ & _ & _ & _ & _ & _ & _ & _ & _ & _ & _ & _ & _ & _ & _ & _ & _ & _
                    & _ & _ & Hraw).
    rewrite Hraw. repeat split; auto.
Qed.

(** * The CSV export can be read back *)

Lemma quote_here (p : option char) (c : char) (tl : jsstring) :
  matchAt App.re_quote p (c :: tl)
  = if char_eqb c 34%N then Some (advance (initial p (c :: tl)) c tl) else None.
Proof.
  unfold matchAt, App.re_quote, re, seq. cbn [pattern ignoreCase fold_right m].
  unfold step. cbn [rest initial]. unfold chr_matches, char_eqb.
  rewrite (N.eqb_sym 34%N c). now destruct (N.eqb c 34%N).
Qed.

Lemma replaceAllFrom_quote (by_ : jsstring) (s : jsstring) :
  forall p,
    replaceAllFrom App.re_quote by_ p s 0
    = flat_map (fun c => if char_eqb c 34%N then by_ else [c]) s.
Proof.
  induction s as [|c tl IH]; intros p; [reflexivity|].
  cbn [replaceAllFrom flat_map]. rewrite quote_here.
  destruct (char_eqb c 34%N).
  - cbn [advance rest]. replace (length (c :: tl) - length tl) with 1 by (cbn [length]; lia).
    cbn [Nat.eqb Nat.pred app]. now rewrite IH.
  - cbn [app]. now rewrite IH.
Qed.

Lemma cell_doubled (val : option jsstring) :
  App.cell val = 34%N :: App.doubled (orEmpty val) ++ [34%N].
Proof.
  unfold App.cell, App.doubled, replaceAll. cbv zeta.
  now rewrite replaceAllFrom_quote.
Qed.

Lemma step_quote_start (cur : jsstring) (row : list jsstring) (done : list (list jsstring)) :
  App.readerStep (App.mkReader App.AtStart cur row done) 34%N
  = App.mkReader App.InQuoted cur row done.
Proof. reflexivity. Qed.

Lemma step_quote_in (cur : jsstring) (row : list jsstring) (done : list (list jsstring)) :
  App.readerStep (App.mkReader App.InQuoted cur row done) 34%N
  = App.mkReader App.AfterQuote cur row done.
Proof. reflexivity. Qed.

Lemma step_other_in (c : char) (cur : jsstring) (row : list jsstring)
      (done : list (list jsstring)) :
  char_eqb c 34%N = false ->
  App.readerStep (App.mkReader App.InQuoted cur row done) c
  = App.mkReader App.InQuoted (c :: cur) row done.
Proof. intros H. unfold App.readerStep. cbn [App.mode]. now rewrite H. Qed.

Lemma step_quote_after (cur : jsstring) (row : list jsstring) (done : list (list jsstring)) :
  App.readerStep (App.mkReader App.AfterQuote cur row done) 34%N
  = App.mkReader App.InQuoted (34%N :: cur) row done.
Proof. reflexivity. Qed.

Lemma step_comma_after (cur : jsstring) (row : list jsstring) (done : list (list jsstring)) :
  App.readerStep (App.mkReader App.AfterQuote cur row done) 44%N
  = App.mkReader App.AtStart [] (rev cur :: row) done.
Proof. reflexivity. Qed.

Lemma step_break_after (cur : jsstring) (row : list jsstring) (done : list (list jsstring)) :
  App.readerStep (App.mkReader App.AfterQuote cur row done) 10%N
  = App.mkReader App.AtStart [] [] (rev (rev cur :: row) :: done).
Proof. reflexivity. Qed.

(** Inside a quoted field the reader undoes the doubling and stops at
    the closing quote. *)
Lemma read_quoted (v : jsstring) :
  forall cur row done after,
    fold_left App.readerStep (App.doubled v ++ 34%N :: after)
              (App.mkReader App.InQuoted cur row done)
    = fold_left App.readerStep after (App.mkReader App.AfterQuote (rev v ++ cur) row done).
Proof.
  induction v as [|c v IH]; intros cur row done after.
  - cbn [App.doubled flat_map app fold_left rev]. now rewrite step_quote_in.
  - unfold App.doubled. cbn [flat_map]. fold (App.doubled v).
    destruct (char_eqb c 34%N) eqn:E.
    + cbn [app fold_left]. rewrite step_quote_in, step_quote_after, IH.
      apply N.eqb_eq in E. subst c. cbn [rev]. now rewrite <- app_assoc.
    + cbn [app fold_left]. rewrite (@step_other_in c cur row done E), IH.
      cbn [rev]. now rewrite <- app_assoc.
Qed.

Lemma read_cell (val : option jsstring) (row : list jsstring) (done : list (list jsstring))
      (after : jsstring) :
  fold_left App.readerStep (App.cell val ++ after) (App.mkReader App.AtStart [] row done)
  = fold_left App.readerStep after
              (App.mkReader App.AfterQuote (rev (orEmpty val)) row done).
Proof.
  rewrite cell_doubled. cbn [app fold_left]. rewrite step_quote_start.
  rewrite <- app_assoc. cbn [app]. rewrite read_quoted. now rewrite app_nil_r.
Qed.

Lemma last_cons (A : Type) (l : list A) :
  forall a d, last (a :: l) d = last l a.
Proof.
  induction l as [|b l IH]; intros a d; [reflexivity|].
  change (last (a :: b :: l) d) with (last (b :: l) d). now rewrite !IH.
Qed.

(** A row of cells leaves the reader behind the last cell, with the
    values of the others collected. *)
Lemma read_cells (vals : list (option jsstring)) :
  forall v row done after,
    fold_left App.readerStep (join (str ",") (map App.cell (v :: vals)) ++ after)
              (App.mkReader App.AtStart [] row done)
    = fold_left App.readerStep after
                (App.mkReader App.AfterQuote (rev (orEmpty (last vals v)))
                              (rev (map orEmpty (removelast (v :: vals))) ++ row) done).
Proof.
  induction vals as [|w vals IH]; intros v row done after.
  - cbn [map join last removelast rev app]. apply read_cell.
  - change (join (str ",") (map App.cell (v :: w :: vals)))
      with (App.cell v ++ str "," ++ join (str ",") (map App.cell (w :: vals))).
    rewrite <- !app_assoc. rewrite read_cell.
    change (str "," ++ join (str ",") (map App.cell (w :: vals)) ++ after)
      with (44%N :: (join (str ",") (map App.cell (w :: vals)) ++ after)).
    cbn [fold_left]. rewrite step_comma_after, rev_involutive.
    rewrite IH, (last_cons vals w v).
    change (removelast (v :: w :: vals)) with (v :: removelast (w :: vals)).
    cbn [map rev]. now rewrite <- app_assoc.
Qed.

Lemma record_closed (v : option jsstring) (vals : list (option jsstring)) :
  rev (rev (rev (orEmpty (last vals v)))
         :: rev (map orEmpty (removelast (v :: vals))) ++ [])
  = map orEmpty (v :: vals).
Proof.
  rewrite app_nil_r, rev_involutive. cbn [rev]. rewrite rev_involutive.
  rewrite <- (last_cons vals v None).
  transitivity (map orEmpty (removelast (v :: vals) ++ [last (v :: vals) None])).
  - now rewrite map_app.
  - f_equal. symmetry. apply app_removelast_last. discriminate.
Qed.

(** A record that is followed by a line feed, and the last record. *)
Lemma read_record (v : option jsstring) (vals : list (option jsstring))
      (done : list (list jsstring)) (after : jsstring) :
  fold_left App.readerStep (join (str ",") (map App.cell (v :: vals)) ++ 10%N :: after)
            (App.mkReader App.AtStart [] [] done)
  = fold_left App.readerStep after
              (App.mkReader App.AtStart [] [] (map orEmpty (v :: vals) :: done)).
Proof.
  rewrite read_cells. cbn [fold_left]. rewrite step_break_after.
  now rewrite record_closed.
Qed.

Lemma read_last_record (v : option jsstring) (vals : list (option jsstring))
      (done : list (list jsstring)) :
  App.endRecord (fold_left App.readerStep (join (str ",") (map App.cell (v :: vals)))
                           (App.mkReader App.AtStart [] [] done))
  = App.mkReader App.AtStart [] [] (map orEmpty (v :: vals) :: done).
Proof.
  rewrite <- (app_nil_r (join (str ",") (map App.cell (v :: vals)))).
  rewrite read_cells. cbn [fold_left]. unfold App.endRecord.
  cbn [App.cur App.row App.done]. now rewrite record_closed.
Qed.

Lemma csvRow_cells (item : App.Scan) :
  exists v vals,
    App.csvRow item = join (str ",") (map App.cell (v :: vals)) /\
    App.cellValues item = map orEmpty (v :: vals).
Proof.
  exists (snd (hd ([], fun _ => None) App.csvFields) item),
         (map (fun f => snd f item) (tl App.csvFields)).
  split; reflexivity.
Qed.

Lemma read_rows (items : list App.Scan) :
  forall item done,
    App.endRecord (fold_left App.readerStep (join [10%N] (map App.csvRow (item :: items)))
                             (App.mkReader App.AtStart [] [] done))
    = App.mkReader App.AtStart [] []
                   (rev (map App.cellValues (item :: items)) ++ done).
Proof.
  induction items as [|next items IH]; intros item done;
    destruct (csvRow_cells item) as (v & vals & Hrow & Hval).
  - cbn [map join rev app]. rewrite Hrow, Hval. apply read_last_record.
  - change (join [10%N] (map App.csvRow (item :: next :: items)))
      with (App.csvRow item ++ [10%N] ++ join [10%N] (map App.csvRow (next :: items))).
    rewrite Hrow. cbn [app]. rewrite read_record, IH, <- Hval.
    cbn [map rev]. now rewrite <- !app_assoc.
Qed.

Lemma read_header (after : jsstring) (start : App.Reader) :
  start = App.mkReader App.AtStart [] [] [] ->
  fold_left App.readerStep (join (str ",") (map fst App.csvFields) ++ [10%N] ++ after) start
  = fold_left App.readerStep after
              (App.mkReader App.AtStart [] [] [map fst App.csvFields]).
Proof.
  intros ->. rewrite app_assoc, fold_left_app. f_equal.
Qed.

(** Reading an export gives the header and the cell values of every
    item; an export of no items reads as one empty record. *)
Lemma readCsv_exportCsv (items : list App.Scan) :
  App.readCsv (App.exportCsv items)
  = map fst App.csvFields ::
    match items with
    | [] => [[[]]]
    | _ :: _ => map App.cellValues items
    end.
Proof.
  unfold App.readCsv, App.exportCsv. cbv zeta. rewrite (read_header _ eq_refl).
  destruct items as [|item items].
  - reflexivity.
  - rewrite read_rows. cbn [App.done]. rewrite rev_app_distr, rev_involutive. reflexivity.
Qed.

(** X18.  Two exports with the same text hold the same cell values,
    row by row: [exportCsv] loses nothing of the exported fields but
    the difference between an absent value and an empty one, whatever
    quotes, commas or line breaks the values hold. *)
Theorem export_csv_injective (a b : list App.Scan) :
  App.exportCsv a = App.exportCsv b -> map App.cellValues a = map App.cellValues b.
Proof.
  intros H. apply (f_equal App.readCsv) in H. rewrite !readCsv_exportCsv in H.
  inversion H as [H']. clear H.
  destruct a as [|x a], b as [|y b]; try reflexivity; try exact H'.
  - destruct b; [|discriminate]. cbn [map] in H'. inversion H'.
  - destruct a; [|discriminate]. cbn [map] in H'. inversion H'.
Qed.

Lemma export_csv_injective_witness :
  map App.cellValues
      [App.mkScan (App.onlyManufacturer None) (str "a.pdf") (str "2024-01-01") 0 false]
  = map App.cellValues
        [App.mkScan (App.onlyManufacturer (Some [])) (str "a.pdf") (str "2024-01-01") 0 false].
Proof. apply export_csv_injective. vm_compute. reflexivity. Defined.

(** * Values that reach the page unescaped *)

Lemma occursIn_here (p after : jsstring) : App.occursIn p (p ++ after).
Proof. exists [], after. reflexivity. Qed.

Lemma occursIn_right (p x s : jsstring) : App.occursIn p s -> App.occursIn p (x ++ s).
Proof. intros (b & a & ->). exists (x ++ b), a. now rewrite app_assoc. Qed.

Lemma occursIn_left (p s x : jsstring) : App.occursIn p s -> App.occursIn p (s ++ x).
Proof. intros (b & a & ->). exists b, (a ++ x). now rewrite <- !app_assoc. Qed.

(** [field] puts a present value between the tags as it is. *)
Lemma field_verbatim (label : jsstring) (c : char) (v : jsstring) :
  App.occursIn (App.html "<div class=`cert-field-value `>" ++ (c :: v) ++ App.html "</div>")
               (App.field label (Some (c :: v)) false).
Proof.
  unfold App.field. cbv zeta. cbn [truthy orElse App.interpolate].
  do 7 apply occursIn_right.
  exists [], (App.newline 12 ++ App.html "</div>" ++ App.newline 8).
  rewrite <- !app_assoc. reflexivity.
Qed.

Lemma card_manufacturer (d : CertificateRecord) (c : char) (v : jsstring) :
  manufacturer d = Some (c :: v) ->
  App.occursIn (App.html "<div class=`cert-field-value `>" ++ (c :: v) ++ App.html "</div>")
               (App.certCard d).
Proof.
  intros Hm. unfold App.certCard. cbv zeta. rewrite Hm.
  repeat match goal with
         | |- App.occursIn _ (App.field (str "Manufacturer") _ _ ++ _) =>
             apply occursIn_left; apply field_verbatim
         | |- App.occursIn _ (_ ++ _) => apply occursIn_right
         end.
Qed.

(** X19.  A manufacturer name read from the document reaches the
    certificate card as markup: [field] escapes the label and the
    placeholder but inserts a present value as it is.  For every text
    "Manufacturer: v" of the kind that the parser accepts, [v] stands
    unescaped between the tags of its field in [certCard.innerHTML],
    whatever characters it holds. *)
Theorem manufacturer_reaches_card_unescaped (a z : char) (mid : jsstring) :
  1 <= length mid <= 78 ->
  isSpace a = false -> char_eqb a (codeUnit ":") = false ->
  isSpace z = false -> char_eqb z (codeUnit ",") = false ->
  existsb (char_eqb 10%N) (a :: mid ++ [z]) = false ->
  test re_mfrReject (a :: mid ++ [z]) = false ->
  exists r,
    parse (str "Manufacturer: " ++ a :: mid ++ [z]) = Ok r /\
    forall name now conf ocr,
      App.occursIn
        (App.html "<div class=`cert-field-value `>" ++ (a :: mid ++ [z]) ++ App.html "</div>")
        (App.cardHtml (App.renderResults (App.mkScan r name now conf ocr) conf)).
Proof.
  intros Hlen Ha1 Ha2 Hz1 Hz2 Hnl Hrej.
  destruct (parse_total (str "Manufacturer: " ++ a :: mid ++ [z])) as (r & Hr).
  exists r. split; [exact Hr|]. apply parse_inv in Hr.
  destruct Hr as (_ & _ & _ & _ & _ & _ & _ & _ & _ & _ & _ & Hm & _).
  rewrite (@manufacturer_line a z mid Hlen Ha1 Ha2 Hz1 Hz2 Hnl Hrej) in Hm.
  inversion Hm as [Hv]. intros name now conf ocr.
  unfold App.renderResults. cbn [App.cardHtml App.fields].
  apply card_manufacturer. now symmetry.
Qed.

Lemma manufacturer_reaches_card_unescaped_witness :
  exists r,
    parse (str "Manufacturer: " ++ codeUnit "<" :: str "b>Acme</b" ++ [codeUnit ">"]) = Ok r /\
    forall name now conf ocr,
      App.occursIn
        (App.html "<div class=`cert-field-value `>" ++
         (codeUnit "<" :: str "b>Acme</b" ++ [codeUnit ">"]) ++ App.html "</div>")
        (App.cardHtml (App.renderResults (App.mkScan r name now conf ocr) conf)).
Proof.
  apply (@manufacturer_reaches_card_unescaped (codeUnit "<") (codeUnit ">") (str "b>Acme</b"));
    try reflexivity; simpl; lia.
Defined.

(** * Dates *)

(** A bounded repetition of a class consumes between [min] and [mx]
    members of the class. *)
Lemma consumes_class_run (ic : bool) (r : regex) (s : jsstring) :
  Consumes ic r s ->
  forall min mx g inv items,
    r = Rep min (Some mx) g (Cls inv items) -> min <= mx ->
    min <= length s <= mx /\
    forallb (fun c => xorb inv (set_matches ic items c)) s = true.
Proof.
  induction 1; intros mn mx g0 inv0 items0 E Hle; try discriminate.
  - inversion E; subst. simpl. split; [lia|reflexivity].
  - inversion E; subst. simpl. split; [lia|reflexivity].
  - inversion E; subst. inversion H0; subst.
    destruct mx as [|mx]; [discriminate|].
    destruct (IHConsumes2 (Nat.pred mn) mx g0 inv0 items0 eq_refl) as [Hlen Hall]; [lia|].
    cbn [app length forallb]. rewrite Hall, andb_true_r. split; [lia|assumption].
Qed.

Lemma word_of_upper (c : char) : isWordChar (upperChar c) = true -> isWordChar c = true.
Proof.
  unfold upperChar. destruct (isLower c) eqn:E; [|auto]. intros _.
  unfold isWordChar. rewrite E. now destruct (isUpper c).
Qed.

Lemma word_of_lower (c : char) : isWordChar (lowerChar c) = true -> isWordChar c = true.
Proof.
  unfold lowerChar. destruct (isUpper c) eqn:E; [|auto]. intros _.
  unfold isWordChar. now rewrite E.
Qed.

Lemma word_ic (c : char) :
  xorb false (set_matches true [CWord] c) = true -> isWordChar c = true.
Proof.
  unfold set_matches, set_has. cbn [existsb item_has xorb]. rewrite !orb_false_r.
  intros H. apply orb_true_iff in H. destruct H as [H|H]; [|now apply word_of_lower].
  apply orb_true_iff in H. destruct H as [H|H]; [exact H|now apply word_of_upper].
Qed.

Lemma forallb_word_ic (s : jsstring) :
  forallb (fun c => xorb false (set_matches true [CWord] c)) s = true ->
  forallb isWordChar s = true.
Proof.
  induction s as [|c s IH]; cbn [forallb]; [reflexivity|]. intros H.
  apply andb_true_iff in H. destruct H as [Hc H].
  now rewrite (word_ic c Hc), (IH H).
Qed.

Lemma set_has_upper (items : list citem) (c : char) :
  (forall d, isUpper d = true -> set_has items d = false) ->
  set_has items (upperChar c) = true -> set_has items c = true.
Proof.
  intros Hno. unfold upperChar. destruct (isLower c) eqn:E; [|auto].
  rewrite Hno; [discriminate|]. revert E. unfold_chars. intros E. split_cmp.
Qed.

Lemma set_has_lower (items : list citem) (c : char) :
  (forall d, isLower d = true -> set_has items d = false) ->
  set_has items (lowerChar c) = true -> set_has items c = true.
Proof.
  intros Hno. unfold lowerChar. destruct (isUpper c) eqn:E; [|auto].
  rewrite Hno; [discriminate|]. revert E. unfold_chars. intros E. split_cmp.
Qed.

(** A class without letters matches the same characters with and
    without the [i] flag. *)
Lemma caseless_class (items : list citem) (c : char) :
  (forall d, isUpper d = true -> set_has items d = false) ->
  (forall d, isLower d = true -> set_has items d = false) ->
  set_matches true items c = true -> set_has items c = true.
Proof.
  intros Hu Hl. unfold set_matches. intros H.
  apply orb_true_iff in H. destruct H as [H|H]; [|now apply set_has_lower].
  apply orb_true_iff in H. destruct H as [H|H]; [exact H|now apply set_has_upper].
Qed.

Lemma dateSep_ic (c : char) :
  xorb false (set_matches true [CSpace; one "."; one "/"; one "-"] c) = true ->
  isSpace c = true \/ In c (str "./-").
Proof.
  cbn [xorb]. intros H. apply caseless_class in H.
  - unfold set_has, one in H. cbn [existsb item_has] in H. rewrite orb_false_r in H.
    apply orb_true_iff in H. destruct H as [H|H]; [now left|right].
    apply orb_true_iff in H. destruct H as [H|H];
      [|apply orb_true_iff in H; destruct H as [H|H]];
      apply N.eqb_eq in H; subst c; cbn; auto.
  - intros d Hd. unfold set_has, one. cbn [existsb item_has]. revert Hd.
    unfold_chars. intros Hd. split_cmp.
  - intros d Hd. unfold set_has, one. cbn [existsb item_has]. revert Hd.
    unfold_chars. intros Hd. split_cmp.
Qed.

Lemma isoSep_ic (c : char) :
  xorb false (set_matches true [one "-"; one "/"] c) = true -> In c (str "-/").
Proof.
  cbn [xorb]. intros H. apply caseless_class in H.
  - unfold set_has, one in H. cbn [existsb item_has] in H. rewrite orb_false_r in H.
    apply orb_true_iff in H; destruct H as [H|H]; apply N.eqb_eq in H; subst c; cbn; auto.
  - intros d Hd. unfold set_has, one. cbn [existsb item_has]. revert Hd.
    unfold_chars. intros Hd. split_cmp.
  - intros d Hd. unfold set_has, one. cbn [existsb item_has]. revert Hd.
    unfold_chars. intros Hd. split_cmp.
Qed.

Lemma digit_not_space (c : char) : isDigit c = true -> isSpace c = false.
Proof. unfold_chars. intros H. split_cmp. Qed.

(** The two shapes of a date. *)
Lemma dateIso_shape (g : jsstring) :
  Consumes true dateIso g ->
  exists y s1 mo s2 d,
    g = y ++ s1 :: mo ++ s2 :: d /\
    length y = 4 /\ length mo = 2 /\ length d = 2 /\
    forallb isDigit y = true /\ forallb isDigit mo = true /\ forallb isDigit d = true /\
    In s1 (str "-/") /\ In s2 (str "-/").
Proof.
  unfold dateIso, seq, times, digit, cls. cbn [fold_right]. intros H.
  inversion H as [| | | | a1 b1 y r1 Hy H1 | | | | | | | | | |]; subst; clear H.
  inversion H1 as [| | | | a1 b1 p1 r2 Hs1 H2 | | | | | | | | | |]; subst; clear H1.
  inversion H2 as [| | | | a1 b1 mo r3 Hmo H3 | | | | | | | | | |]; subst; clear H2.
  inversion H3 as [| | | | a1 b1 p2 r4 Hs2 H4 | | | | | | | | | |]; subst; clear H3.
  inversion H4 as [| | | | a1 b1 d r5 Hd H5 | | | | | | | | | |]; subst; clear H4.
  inversion H5; subst; clear H5.
  inversion Hs1; subst; clear Hs1. inversion Hs2; subst; clear Hs2.
  destruct (consumes_class_run Hy eq_refl (le_n 4)) as [Ly Dy].
  destruct (consumes_class_run Hmo eq_refl (le_n 2)) as [Lmo Dmo].
  destruct (consumes_class_run Hd eq_refl (le_n 2)) as [Ld Dd].
  exists y, c, mo, c0, d. rewrite app_nil_r. cbn [app].
  repeat split; try lia; try (now apply (@forallb_digit_ic true)); now apply isoSep_ic.
Qed.

Lemma dateWords_shape (g : jsstring) :
  Consumes true dateWords g ->
  exists d s1 w s2 y,
    g = d ++ s1 :: w ++ s2 :: y /\
    1 <= length d <= 2 /\ 3 <= length w <= 9 /\ length y = 4 /\
    forallb isDigit d = true /\ forallb isWordChar w = true /\ forallb isDigit y = true /\
    (isSpace s1 = true \/ In s1 (str "./-")) /\ (isSpace s2 = true \/ In s2 (str "./-")).
Proof.
  unfold dateWords, dateSep, seq, times, digit, word, cls. cbn [fold_right]. intros H.
  inversion H as [| | | | a1 b1 d r1 Hd H1 | | | | | | | | | |]; subst; clear H.
  inversion H1 as [| | | | a1 b1 p1 r2 Hs1 H2 | | | | | | | | | |]; subst; clear H1.
  inversion H2 as [| | | | a1 b1 w r3 Hw H3 | | | | | | | | | |]; subst; clear H2.
  inversion H3 as [| | | | a1 b1 p2 r4 Hs2 H4 | | | | | | | | | |]; subst; clear H3.
  inversion H4 as [| | | | a1 b1 y r5 Hy H5 | | | | | | | | | |]; subst; clear H4.
  inversion H5; subst; clear H5.
  inversion Hs1; subst; clear Hs1. inversion Hs2; subst; clear Hs2.
  destruct (consumes_class_run Hd eq_refl (Nat.le_succ_diag_r 1)) as [Ld Dd].
  destruct (@consumes_class_run true _ w Hw 3 9 true false [CWord] eq_refl) as [Lw Dw];
    [lia|].
  destruct (consumes_class_run Hy eq_refl (le_n 4)) as [Ly Dy].
  exists d, c, w, c0, y. rewrite app_nil_r. cbn [app].
  repeat split; try lia; try (now apply (@forallb_digit_ic true));
    try (now apply forallb_word_ic); now apply dateSep_ic.
Qed.

Lemma firstCapture_accepts (pats : list RegExp) (t v : jsstring) :
  firstCapture pats t = Ok (Some v) ->
  exists pat res g,
    In pat pats /\ exec pat t = Some res /\ groups res 1 = Some g /\ v = trim g.
Proof.
  induction pats as [|pat more IH]; cbn [firstCapture]; [discriminate|].
  destruct (exec pat t) as [res|] eqn:E.
  - unfold capture. destruct (groups res 1) as [g|] eqn:Eg; [|discriminate]. cbn [bind].
    intros H. inversion H. exists pat, res, g. repeat split; auto. now left.
  - intros H. destruct (IH H) as (p0 & res & g & Hin & Hrest). exists p0, res, g.
    split; [now right|exact Hrest].
Qed.

Lemma date_capture (pats : list RegExp) (t v : jsstring) :
  forallb (fun pat =>
             ignoreCase pat &&
             capAll 1 (fun a => regex_eqb dateIso a || regex_eqb dateWords a) (pattern pat))
          pats = true ->
  firstCapture pats t = Ok (Some v) ->
  exists g, v = trim g /\ (Consumes true dateIso g \/ Consumes true dateWords g).
Proof.
  intros Hall H. apply firstCapture_accepts in H.
  destruct H as (pat & res & g & Hin & He & Hg & ->). exists g. split; [reflexivity|].
  rewrite forallb_forall in Hall. specialize (Hall pat Hin).
  apply andb_true_iff in Hall. destruct Hall as [Hic Hcap].
  apply (@exec_cap_inv (fun s => Consumes true dateIso s \/ Consumes true dateWords s)
                       (fun a => regex_eqb dateIso a || regex_eqb dateWords a) pat)
    with (n := 1) (t := t) (res := res); auto.
  intros a x y Hr Ha. rewrite Hic in Hr. apply reach_consumes in Hr.
  apply orb_true_iff in Ha. destruct Ha as [Ha|Ha]; apply regex_eqb_eq in Ha; subst a; auto.
Qed.


Lemma digits_trim (a mid b : jsstring) :
  a <> [] -> b <> [] -> forallb isDigit a = true -> forallb isDigit b = true ->
  trim (a ++ mid ++ b) = a ++ mid ++ b.
Proof.
  intros Ha Hb Da Db. apply trim_id; intros c Hc; apply digit_not_space.
  - destruct a as [|x a]; [congruence|]. inversion Hc; subst.
    cbn [forallb] in Da. now apply andb_true_iff in Da.
  - rewrite !rev_app_distr in Hc. rewrite forallb_forall in Db. apply Db.
    apply in_rev. destruct (rev b) as [|x rb] eqn:E.
    + apply (f_equal (@length char)) in E. rewrite length_rev in E.
      destruct b; [congruence|discriminate].
    + inversion Hc; subst. now left.
Qed.

Lemma date_shape (pats : list RegExp) (t v : jsstring) :
  forallb (fun pat =>
             ignoreCase pat &&
             capAll 1 (fun a => regex_eqb dateIso a || regex_eqb dateWords a) (pattern pat))
          pats = true ->
  firstCapture pats t = Ok (Some v) ->
  (exists y s1 mo s2 d,
      v = y ++ s1 :: mo ++ s2 :: d /\
      length y = 4 /\ length mo = 2 /\ length d = 2 /\
      forallb isDigit y = true /\ forallb isDigit mo = true /\ forallb isDigit d = true /\
      In s1 (str "-/") /\ In s2 (str "-/")) \/
  (exists d s1 w s2 y,
      v = d ++ s1 :: w ++ s2 :: y /\
      1 <= length d <= 2 /\ 3 <= length w <= 9 /\ length y = 4 /\
      forallb isDigit d = true /\ forallb isWordChar w = true /\ forallb isDigit y = true /\
      (isSpace s1 = true \/ In s1 (str "./-")) /\ (isSpace s2 = true \/ In s2 (str "./-"))).
Proof.
  intros Hall H. destruct (date_capture pats t Hall H) as (g & -> & [Hg|Hg]).
  - left. destruct (dateIso_shape Hg) as (y & s1 & mo & s2 & d & -> & Hy & Hmo & Hd & Dy
                                          & Dmo & Dd & H1 & H2).
    exists y, s1, mo, s2, d. split; [|repeat split; assumption].
    replace (y ++ s1 :: mo ++ s2 :: d) with (y ++ (s1 :: mo ++ [s2]) ++ d)
      by (cbn [app]; now rewrite <- app_assoc).
    apply digits_trim; auto.
    + destruct y; [discriminate|congruence].
    + destruct d; [discriminate|congruence].
  - right. destruct (dateWords_shape Hg) as (d & s1 & w & s2 & y & -> & Hd & Hw & Hy & Dd
                                             & Dw & Dy & H1 & H2).
    exists d, s1, w, s2, y. split; [|repeat split; try assumption; lia].
    replace (d ++ s1 :: w ++ s2 :: y) with (d ++ (s1 :: w ++ [s2]) ++ y)
      by (cbn [app]; now rewrite <- app_assoc).
    apply digits_trim; auto.
    + destruct d; [simpl in Hd; lia|congruence].
    + destruct y; [discriminate|congruence].
Qed.

(** X20.  [issueDate] and [expiryDate], when present, have one of two
    shapes: four digits, two digits and two digits separated by
    hyphens or slashes, or one or two digits, three to nine word
    characters and four digits separated by white space, a full stop,
    a slash or a hyphen.  Nothing else about the date is checked. *)
Theorem dates_shape (t : jsstring) :
  exists r,
    parse t = Ok r /\
    forall v, issueDate r = Some v \/ expiryDate r = Some v ->
      (exists y s1 mo s2 d,
          v = y ++ s1 :: mo ++ s2 :: d /\
          length y = 4 /\ length mo = 2 /\ length d = 2 /\
          forallb isDigit y = true /\ forallb isDigit mo = true /\
          forallb isDigit d = true /\
          In s1 (str "-/") /\ In s2 (str "-/")) \/
      (exists d s1 w s2 y,
          v = d ++ s1 :: w ++ s2 :: y /\
          1 <= length d <= 2 /\ 3 <= length w <= 9 /\ length y = 4 /\
          forallb isDigit d = true /\ forallb isWordChar w = true /\
          forallb isDigit y = true /\
          (isSpace s1 = true \/ In s1 (str "./-")) /\
          (isSpace s2 = true \/ In s2 (str "./-"))).
Proof.
  destruct (parse_total t) as (r & Hr). exists r. split; [exact Hr|].
  apply parse_inv in Hr.
  destruct Hr as (_ & _ & _ & _ & _ & _ & _ & _ & _ & _ & _ & _ & _ & _ & Hi & Hx & _).
  intros v [Hv|Hv].
  - rewrite Hv in Hi. exact (@date_shape issuePats t v eq_refl Hi).
  - rewrite Hv in Hx. exact (@date_shape expiryPats t v eq_refl Hx).
Qed.

(** * Standards *)

Lemma addNew_fold_In (l : list jsstring) :
  forall acc x, In x (fold_left addNew l acc) <-> In x acc \/ In x l.
Proof.
  induction l as [|y l IH]; intros acc x; cbn [fold_left In]; [tauto|].
  rewrite IH, addNew_In. split; intros H; repeat destruct H as [H|H]; auto.
Qed.

Lemma addNew_fold_NoDup (l : list jsstring) :
  forall acc, NoDup acc -> NoDup (fold_left addNew l acc).
Proof.
  induction l as [|y l IH]; intros acc H; cbn [fold_left]; [exact H|].
  apply IH. now apply addNew_NoDup.
Qed.

Lemma matchAll_consumes (re : RegExp) (t mt : jsstring) :
  In mt (matchAll re t) -> Consumes (ignoreCase re) (pattern re) mt.
Proof.
  intros H. apply matchAllFrom_reach in H. destruct H as (p & s & y & Hy & ->).
  apply reach_consumes in Hy. exact Hy.
Qed.

(** X21.  [standard] is absent exactly when the text has no match of
    the standards pattern; otherwise it is the matches joined by a comma
    and a space, each different match listed once.  No entry holds a
    comma, so the list can be read back from the string. *)
Theorem standards_list (t : jsstring) :
  exists r,
    parse t = Ok r /\
    (standard r = None <-> matchAll re_standard t = []) /\
    forall v, standard r = Some v ->
      exists l,
        v = join (str ", ") l /\ l <> [] /\ NoDup l /\
        (forall s, In s l <-> In s (matchAll re_standard t)) /\
        (forall s, In s l -> ~ In (codeUnit ",") s).
Proof.
  destruct (parse_total t) as (r & Hr). exists r. split; [exact Hr|].
  apply parse_inv in Hr.
  destruct Hr as (_ & _ & _ & _ & _ & _ & _ & _ & _ & _ & _ & _ & _ & _ & _ & _ & _ & Hs & _).
  rewrite Hs. unfold standards.
  assert (Htrim : forall mt, In mt (matchAll re_standard t) -> trim mt = mt).
  { intros mt Hin. destruct (@matchAll_edges re_standard t mt eq_refl eq_refl Hin) as [H1 H2].
    now apply trim_id. }
  assert (Hmap : map trim (matchAll re_standard t) = matchAll re_standard t).
  { revert Htrim. generalize (matchAll re_standard t). intros l H.
    induction l as [|x l IH]; [reflexivity|]. cbn [map]. rewrite H by now left.
    f_equal. apply IH. intros mt Hin. apply H. now right. }
  destruct (matchAll re_standard t) as [|mt more] eqn:E.
  - split; [tauto|discriminate].
  - split; [split; discriminate|]. intros v Hv. injection Hv as <-.
    change (trim mt :: map trim more) with (map trim (mt :: more)). rewrite Hmap. exists (distinct (mt :: more)). split; [reflexivity|].
    assert (Hin : forall s, In s (distinct (mt :: more)) <-> In s (mt :: more)).
    { intros s. unfold distinct. rewrite addNew_fold_In. cbn [In]. tauto. }
    split; [|split; [|split]].
    + destruct (distinct_head mt more) as (rest' & ->). discriminate.
    + unfold distinct. apply addNew_fold_NoDup. constructor.
    + exact Hin.
    + intros s Hs'. apply Hin in Hs'. rewrite <- E in Hs'.
      apply matchAll_consumes in Hs'.
      exact (@consumes_avoids true (codeUnit ",") _ s Hs' eq_refl).
Qed.
